(** * PolyCalc: recursive-descent front end, semantic gate, evaluator and
    static analyses of [parser.cc], as a shallow embedding.

    Layout: machine integers and the C library string conversions the code
    calls; tokens and the lexer interface; the expression and statement
    trees; evaluation and execution; the parser as a state-and-error monad
    over the [Parser] object and the globals; the semantic gate; the three
    analyses; [main].  The theorems follow the definitions. *)

From Stdlib Require Import ZArith Lia Ascii.
From stdpp Require Import base option list gmap strings sorting pretty.

#[local] Set Warnings "-clear-no-such-hyp".

(* ================================================================== *)
(** ** Machine integers *)

(** C++ [int] is a 32-bit two's complement integer, kept as a [Z] with the
    wrap-around written out. *)
Module Int.
Definition modulus : Z := 2 ^ 32.
Definition half_modulus : Z := 2 ^ 31.

Definition wrap (z : Z) : Z :=
  ((z + half_modulus) `mod` modulus - half_modulus)%Z.

Definition add (a b : Z) : Z := wrap (a + b).
Definition sub (a b : Z) : Z := wrap (a - b).
Definition mul (a b : Z) : Z := wrap (a * b).

Definition in_range (z : Z) : Prop :=
  (- half_modulus ≤ z < half_modulus)%Z.

#[global] Instance in_range_dec z : Decision (in_range z).
Proof. unfold in_range. apply _. Defined.
End Int.

(* ================================================================== *)
(** ** Library string conversions: [to_string], [atoi], [stoi] *)

(** [std::to_string(int)]: decimal digits, a leading minus sign for
    negative values. *)
Definition to_string (n : Z) : string := pretty n.

(** [isspace] in the C locale. *)
Definition is_space (c : ascii) : bool :=
  bool_decide (c ∈ [" "; "009"; "010"; "011"; "012"; "013"]%char).

Definition is_digit (c : ascii) : bool :=
  ((48 <=? nat_of_ascii c) && (nat_of_ascii c <=? 57))%nat.

Definition digit_value (c : ascii) : Z := (Z.of_nat (nat_of_ascii c) - 48)%Z.

Fixpoint skip_space (s : string) : string :=
  match s with
  | String c s' => if is_space c then skip_space s' else s
  | EmptyString => s
  end.

(** The value of the longest prefix of decimal digits, accumulated left to
    right. *)
Fixpoint digits_value (acc : Z) (s : string) : Z :=
  match s with
  | String c s' =>
      if is_digit c then digits_value (10 * acc + digit_value c) s' else acc
  | EmptyString => acc
  end.

Definition starts_with_digit (s : string) : bool :=
  match s with
  | String c _ => is_digit c
  | EmptyString => false
  end.

(** [long] has 64 bits: [LONG_MIN] and [LONG_MAX]. *)
Definition long_min : Z := - 2 ^ 63.
Definition long_max : Z := 2 ^ 63 - 1.

(** A value outside [long] becomes the nearest bound. *)
Definition saturate (v : Z) : Z := Z.max long_min (Z.min long_max v).

(** [strtol(s, _, 10)]: leading white space, an optional sign, then digits;
    [None] when no digit follows (no conversion is performed).  A value
    outside [long] is returned as [LONG_MAX] or [LONG_MIN]. *)
Definition strtol (s : string) : option Z :=
  let s := skip_space s in
  let '(neg, s) :=
    match s with
    | String "-" s' => (true, s')
    | String "+" s' => (false, s')
    | _ => (false, s)
    end in
  if starts_with_digit s
  then Some (saturate
               (if neg : bool then - digits_value 0 s else digits_value 0 s))%Z
  else None.

(** [atoi(s)] is [(int) strtol(s, NULL, 10)]: zero when nothing converts,
    the [long] truncated to [int] otherwise (so -1 for a numeral from 2^63
    on). *)
Definition atoi (s : string) : Z :=
  match strtol s with
  | Some v => Int.wrap v
  | None => 0%Z
  end.

(** [std::stoi(s)] throws [invalid_argument] when nothing converts and
    [out_of_range] when the value does not fit an [int] (a value outside
    [long] included: [strtol] then returns a bound of [long]); both are
    [None]. *)
Definition stoi (s : string) : option Z :=
  v ← strtol s;
  if decide (Int.in_range v) then Some v else None.

(** [s.substr(pos)]: the suffix of [s] from index [pos]. *)
Definition substr (s : string) (pos : nat) : string :=
  String.substring pos (String.length s - pos) s.

(* ================================================================== *)
(** ** Tokens and the lexer interface *)

(** Modelled from the spec: [lexer.h] is not part of the repository.  The
    token kinds are the tag set of the token stream contract: numeral,
    identifier, the six section keywords, the punctuation [( ) , = + - ^ ;]
    and end of input. *)
Inductive TokenType : Type :=
  | END_OF_FILE
  | TASKS | POLY | EXECUTE | INPUT | OUTPUT | INPUTS
  | EQUAL | SEMICOLON | LPAREN | RPAREN | COMMA
  | PLUS | MINUS | POWER
  | NUM | ID.

#[global] Instance TokenType_eq_dec : EqDecision TokenType.
Proof. solve_decision. Defined.

(** Modelled from the spec: a token is [{type, lexeme, line}]. *)
Record Token : Type := mkToken {
  token_type : TokenType;
  lexeme : string;
  line_no : Z;
}.

(** Modelled from the spec: what the lexer delivers once the input is used
    up, as often as it is asked. *)
Definition eof_token : Token := mkToken END_OF_FILE "" 0.

(* ================================================================== *)
(** ** Expression and statement trees *)

#[local] Unset Elimination Schemes.

(** [struct Expr] and its seven subclasses; [ExprType] is the constructor.
    A tree built by the parser has no null child: every parse function
    leaves through [syntax_error] before it would return one. *)
Inductive Expr : Type :=
  | ConstExpr (value : Z)
  | VarExpr (name : string) (line_no : Z)
  | AddExpr (l r : Expr)
  | SubExpr (l r : Expr)
  | MulExpr (l r : Expr)
  | PowExpr (base : Expr) (exponent : Z)
  | CallExpr (polyName : string) (args : list Expr).

#[local] Set Elimination Schemes.

(** [struct Statement] and its three subclasses. *)
Inductive Statement : Type :=
  | InputStmt (var : string)
  | OutputStmt (var : string)
  | AssignStmt (var : string) (line_no : Z) (rhs : Expr).

(** [Statement::var]. *)
Definition stmt_var (s : Statement) : string :=
  match s with
  | InputStmt v | OutputStmt v | AssignStmt v _ _ => v
  end.

(* ================================================================== *)
(** ** Evaluation *)

(** The loop of [PowExpr::evaluate]: [res] starts at 1 and is multiplied by
    [bval] once for every [i] with [0 <= i < exponent]. *)
Definition pow_loop (exponent bval : Z) : Z :=
  Nat.iter (Z.to_nat exponent) (λ res, Int.mul res bval) 1%Z.

(** The loop of [evaluatePolyCall] that fills the callee's environment:
    parameter [i] is bound to [args[i]], or to 0 past the end of [args]. *)
Fixpoint bind_params (i : nat) (params : list string) (args : list Z)
    (env : gmap string Z) : gmap string Z :=
  match params with
  | [] => env
  | p :: params' =>
      bind_params (S i) params' args (<[p := default 0%Z (args !! i)]> env)
  end.

Section Evaluate.
(** The global tables [poly_declarations] and [polyExprs]. *)
Variable poly_declarations : gmap string (list string).
Variable polyExprs : gmap string Expr.

(** [evaluatePolyCall], with the evaluation of the callee's body passed
    in: zero unless the name is in both tables. *)
Definition evaluatePolyCall_with
    (evaluate_body : Expr → gmap string Z → option Z)
    (polyName : string) (args : list Z) : option Z :=
  match poly_declarations !! polyName, polyExprs !! polyName with
  | Some params, Some body =>
      evaluate_body body (bind_params 0 params args ∅)
  | _, _ => Some 0%Z
  end.

(** [Expr::evaluate].  The recursion through the tree is structural; the
    jump from a call into the callee's stored body is not, and is counted
    by [depth]: [None] means the nesting of bodies exceeded it.
    A missing variable reads as 0. *)
Fixpoint evaluate (depth : nat) : Expr → gmap string Z → option Z :=
  fix eval (e : Expr) (env : gmap string Z) {struct e} : option Z :=
    match e with
    | ConstExpr value => Some value
    | VarExpr name _ => Some (default 0%Z (env !! name))
    | AddExpr l r => a ← eval l env; b ← eval r env; Some (Int.add a b)
    | SubExpr l r => a ← eval l env; b ← eval r env; Some (Int.sub a b)
    | MulExpr l r => a ← eval l env; b ← eval r env; Some (Int.mul a b)
    | PowExpr base exponent =>
        bval ← eval base env; Some (pow_loop exponent bval)
    | CallExpr polyName args =>
        argVals ← mapM (λ a, eval a env) args;
        match depth with
        | O => evaluatePolyCall_with (λ _ _, None) polyName argVals
        | S depth' =>
            evaluatePolyCall_with (evaluate depth') polyName argVals
        end
    end.

Definition evaluatePolyCall (depth : nat) : string → list Z → option Z :=
  match depth with
  | O => evaluatePolyCall_with (λ _ _, None)
  | S depth' => evaluatePolyCall_with (evaluate depth')
  end.
End Evaluate.


(* ================================================================== *)
(** ** Execution of statements *)

(** The globals [execSymbolTable], [mem] and [nextInputIndex], and the
    lines written to [cout] so far. *)
Record ExecState : Type := mkExec {
  execSymbolTable : gmap string nat;
  mem : list Z;
  nextInputIndex : nat;
  cout : list string;
}.

(** [mem] starts as 1000 zeroes, the table empty, the cursor at 0. *)
Definition initial_exec : ExecState := mkExec ∅ (replicate 1000 0%Z) 0 [].

(** The prologue shared by the three [execute] methods: a name that is not
    in the table yet gets the slot [execSymbolTable.size()]. *)
Definition allocate (var : string) (tbl : gmap string nat) : gmap string nat :=
  match tbl !! var with
  | Some _ => tbl
  | None => <[var := size tbl]> tbl
  end.

(** [mem[loc] = v]; an index past the end of the vector has no defined
    behaviour ([None]). *)
Definition mem_store (loc : nat) (v : Z) (m : list Z) : option (list Z) :=
  if decide (loc < length m) then Some (<[loc := v]> m) else None.

(** A [std::map] is walked in the order of its keys. *)
Definition entries_in_key_order (tbl : gmap string nat) : list (string * nat) :=
  merge_sort (λ p q, String.le p.1 q.1) (map_to_list tbl).

(** The nested loops of [AssignStmt::execute]: for every slot index below
    the table size, the first entry with that slot is copied into [env]
    together with the slot's content. *)
Definition snapshot_env (tbl : gmap string nat) (m : list Z)
    : option (gmap string Z) :=
  foldl (λ oenv i,
           env ← oenv;
           match List.find (λ p, bool_decide (p.2 = i))
                           (entries_in_key_order tbl) with
           | Some p => v ← m !! i; Some (<[p.1 := v]> env)
           | None => Some env
           end)
        (Some ∅) (seq 0 (size tbl)).

Section Execute.
Variable poly_declarations : gmap string (list string).
Variable polyExprs : gmap string Expr.
Variable execInputs : list Z.
(** Bound on the nesting of polynomial bodies during evaluation. *)
Variable depth : nat.

(** [Statement::execute] for the three statement kinds.  [None]: the C++
    program reads past [execInputs] or indexes [mem] out of bounds, or the
    evaluation of the right-hand side ran deeper than [depth]. *)
Definition execute (stmt : Statement) (st : ExecState) : option ExecState :=
  let tbl := allocate (stmt_var stmt) (execSymbolTable st) in
  loc ← tbl !! stmt_var stmt;
  match stmt with
  | InputStmt _ =>
      v ← execInputs !! nextInputIndex st;
      m ← mem_store loc v (mem st);
      Some (mkExec tbl m (S (nextInputIndex st)) (cout st))
  | OutputStmt _ =>
      v ← mem st !! loc;
      Some (mkExec tbl (mem st) (nextInputIndex st) (cout st ++ [to_string v]))
  | AssignStmt _ _ rhs =>
      env ← snapshot_env tbl (mem st);
      v ← evaluate poly_declarations polyExprs depth rhs env;
      m ← mem_store loc v (mem st);
      Some (mkExec tbl m (nextInputIndex st) (cout st))
  end.

(** [Parser::execute_program]: the statements in order. *)
Definition execute_program (stmts : list Statement) (st : ExecState)
    : option ExecState :=
  foldl (λ ost stmt, st ← ost; execute stmt st) (Some st) stmts.
End Execute.

(* ================================================================== *)
(** ** Static analyses *)

(** The text after a label: every number preceded by one blank. *)
Definition print_lines (label : string) (lines : list Z) : string :=
  foldl (λ acc ln, acc +:+ " " +:+ to_string ln) label lines.

(** [std::sort] on a [vector<int>]. *)
Definition sort_lines (lines : list Z) : list Z := merge_sort Z.le lines.

(** [check_expr_for_uninit]: [warnings] grows by the line of every variable
    node whose name is not in [initVars], in the order of the walk. *)
Fixpoint check_expr_for_uninit (expr : Expr) (initVars : gset string)
    (warnings : list Z) : list Z :=
  match expr with
  | ConstExpr _ => warnings
  | VarExpr name line_no =>
      if decide (name ∈ initVars) then warnings else warnings ++ [line_no]
  | AddExpr l r | SubExpr l r | MulExpr l r =>
      check_expr_for_uninit r initVars (check_expr_for_uninit l initVars warnings)
  | PowExpr base _ => check_expr_for_uninit base initVars warnings
  | CallExpr _ args =>
      foldl (λ w arg, check_expr_for_uninit arg initVars w) warnings args
  end.

(** The scan of [checkUninitializedWarnings]: the pair of [initializedVars]
    and [warningLines] after the statements. *)
Definition uninit_scan (stmts : list Statement) : gset string * list Z :=
  foldl (λ '(initializedVars, warningLines) stmt,
           match stmt with
           | InputStmt var => ({[var]} ∪ initializedVars, warningLines)
           | AssignStmt var _ rhs =>
               ({[var]} ∪ initializedVars,
                check_expr_for_uninit rhs initializedVars warningLines)
           | OutputStmt _ => (initializedVars, warningLines)
           end)
        (∅, []) stmts.

(** [checkUninitializedWarnings]: the lines it writes to [cout]. *)
Definition checkUninitializedWarnings (stmts : list Statement) : list string :=
  let warningLines := (uninit_scan stmts).2 in
  if decide (warningLines = []) then []
  else [print_lines "Warning Code 1:" (sort_lines warningLines)].

(** [exprUsesVar]. *)
Fixpoint exprUsesVar (expr : Expr) (var : string) : bool :=
  match expr with
  | ConstExpr _ => false
  | VarExpr name _ => bool_decide (name = var)
  | AddExpr l r | SubExpr l r | MulExpr l r =>
      exprUsesVar l var || exprUsesVar r var
  | PowExpr base _ => exprUsesVar base var
  | CallExpr _ args => existsb (λ arg, exprUsesVar arg var) args
  end.

(** The inner loop of [checkUselessAssignments] over the statements after
    position [i]: the value of [used] when the loop is left. *)
Fixpoint scan_used (var : string) (rest : list Statement) : bool :=
  match rest with
  | [] => false
  | s :: rest' =>
      match s with
      | AssignStmt v _ rhs =>
          if decide (v = var) then exprUsesVar rhs var
          else if exprUsesVar rhs var then true
          else scan_used var rest'
      | InputStmt v => if decide (v = var) then false else scan_used var rest'
      | OutputStmt v => if decide (v = var) then true else scan_used var rest'
      end
  end.

(** One round of the outer loop: what position [i] adds to [uselessLines]. *)
Definition useless_at (stmts : list Statement) (i : nat) : list Z :=
  match stmts !! i with
  | Some (AssignStmt var line_no _) =>
      if scan_used var (drop (S i) stmts) then [] else [line_no]
  | _ => []
  end.

Definition uselessLines (stmts : list Statement) : list Z :=
  flat_map (useless_at stmts) (seq 0 (length stmts)).

(** [checkUselessAssignments]: the lines it writes to [cout]. *)
Definition checkUselessAssignments (stmts : list Statement) : list string :=
  let lines := uselessLines stmts in
  if decide (lines = []) then []
  else [print_lines "Warning Code 2:" (sort_lines lines)].

(** [computeDegree], in [int] arithmetic. *)
Fixpoint computeDegree (expr : Expr) : Z :=
  match expr with
  | ConstExpr _ => 0
  | VarExpr _ _ => 1
  | AddExpr l r | SubExpr l r => Z.max (computeDegree l) (computeDegree r)
  | MulExpr l r => Int.add (computeDegree l) (computeDegree r)
  | PowExpr base exponent => Int.mul (computeDegree base) exponent
  | CallExpr _ _ => 0
  end%Z.

(** [computeDegree(polyExprs[polyName])]: a name without a body yields a
    null pointer, whose degree is 0. *)
Definition computeDegree_ptr (expr : option Expr) : Z :=
  match expr with
  | Some e => computeDegree e
  | None => 0%Z
  end.

(** [operator<] on [pair<int, string>]: by line, then by name. *)
Definition pair_le (p q : Z * string) : Prop :=
  (p.1 < q.1)%Z ∨ (p.1 = q.1 ∧ String.le p.2 q.2).

#[global] Instance pair_le_dec : RelDecision pair_le.
Proof. intros p q. unfold pair_le. apply _. Defined.

(** The sorted vector [polyOrder] of [outputPolynomialDegrees]. *)
Definition polyOrder (poly_decl_first_line : gmap string Z)
    : list (Z * string) :=
  merge_sort pair_le ((λ entry, (entry.2, entry.1)) <$> map_to_list poly_decl_first_line).

(** [outputPolynomialDegrees]: the lines it writes to [cout]. *)
Definition outputPolynomialDegrees (poly_decl_first_line : gmap string Z)
    (polyExprs : gmap string Expr) : list string :=
  (λ p : Z * string,
     p.2 +:+ ": " +:+ to_string (computeDegree_ptr (polyExprs !! p.2)))
    <$> polyOrder poly_decl_first_line.


(* ================================================================== *)
(** ** The parser's state *)

(** [PolyHeader]. *)
Module PolyHeader.
Record t : Type := mk {
  name : string;
  line : Z;
  params : list string;
}.
End PolyHeader.

(** Everything the parse functions read or write: the lexer's remaining
    input, the members of the [Parser] object, and the globals filled
    during parsing.  The members [current_poly_params] to
    [used_polynomials] are used by [parser.cc] but not declared in the
    [parser.h] at hand; their types are read off their uses
    ([vector<string>], [bool], [map<string,int>], [vector<int>] twice,
    [vector<string>], [set<string>]). *)
#[projections(primitive)]
Record State : Type := mkState {
  tokens : list Token;
  current_poly_params : list string;
  in_poly_decl : bool;
  poly_decl_first_line : gmap string Z;
  duplicate_decl_lines : list Z;
  invalid_monomial_lines : list Z;
  semantic_errors : list string;
  used_polynomials : gset string;
  runTask2 : bool;
  runTask3 : bool;
  runTask4 : bool;
  runTask5 : bool;
  poly_declarations : gmap string (list string);
  polyExprs : gmap string Expr;
  execStatements : list Statement;
  execInputs : list Z;
}.

Definition set_tokens (v : list Token) (s : State) : State :=
  {| tokens := v; current_poly_params := current_poly_params s;
     in_poly_decl := in_poly_decl s;
     poly_decl_first_line := poly_decl_first_line s;
     duplicate_decl_lines := duplicate_decl_lines s;
     invalid_monomial_lines := invalid_monomial_lines s;
     semantic_errors := semantic_errors s;
     used_polynomials := used_polynomials s; runTask2 := runTask2 s;
     runTask3 := runTask3 s; runTask4 := runTask4 s; runTask5 := runTask5 s;
     poly_declarations := poly_declarations s; polyExprs := polyExprs s;
     execStatements := execStatements s; execInputs := execInputs s |}.

Definition set_current_poly_params (v : list string) (s : State) : State :=
  {| tokens := tokens s; current_poly_params := v;
     in_poly_decl := in_poly_decl s;
     poly_decl_first_line := poly_decl_first_line s;
     duplicate_decl_lines := duplicate_decl_lines s;
     invalid_monomial_lines := invalid_monomial_lines s;
     semantic_errors := semantic_errors s;
     used_polynomials := used_polynomials s; runTask2 := runTask2 s;
     runTask3 := runTask3 s; runTask4 := runTask4 s; runTask5 := runTask5 s;
     poly_declarations := poly_declarations s; polyExprs := polyExprs s;
     execStatements := execStatements s; execInputs := execInputs s |}.

Definition set_in_poly_decl (v : bool) (s : State) : State :=
  {| tokens := tokens s; current_poly_params := current_poly_params s;
     in_poly_decl := v; poly_decl_first_line := poly_decl_first_line s;
     duplicate_decl_lines := duplicate_decl_lines s;
     invalid_monomial_lines := invalid_monomial_lines s;
     semantic_errors := semantic_errors s;
     used_polynomials := used_polynomials s; runTask2 := runTask2 s;
     runTask3 := runTask3 s; runTask4 := runTask4 s; runTask5 := runTask5 s;
     poly_declarations := poly_declarations s; polyExprs := polyExprs s;
     execStatements := execStatements s; execInputs := execInputs s |}.

Definition set_poly_decl_first_line (v : gmap string Z) (s : State) : State :=
  {| tokens := tokens s; current_poly_params := current_poly_params s;
     in_poly_decl := in_poly_decl s; poly_decl_first_line := v;
     duplicate_decl_lines := duplicate_decl_lines s;
     invalid_monomial_lines := invalid_monomial_lines s;
     semantic_errors := semantic_errors s;
     used_polynomials := used_polynomials s; runTask2 := runTask2 s;
     runTask3 := runTask3 s; runTask4 := runTask4 s; runTask5 := runTask5 s;
     poly_declarations := poly_declarations s; polyExprs := polyExprs s;
     execStatements := execStatements s; execInputs := execInputs s |}.

Definition set_duplicate_decl_lines (v : list Z) (s : State) : State :=
  {| tokens := tokens s; current_poly_params := current_poly_params s;
     in_poly_decl := in_poly_decl s;
     poly_decl_first_line := poly_decl_first_line s;
     duplicate_decl_lines := v;
     invalid_monomial_lines := invalid_monomial_lines s;
     semantic_errors := semantic_errors s;
     used_polynomials := used_polynomials s; runTask2 := runTask2 s;
     runTask3 := runTask3 s; runTask4 := runTask4 s; runTask5 := runTask5 s;
     poly_declarations := poly_declarations s; polyExprs := polyExprs s;
     execStatements := execStatements s; execInputs := execInputs s |}.

Definition set_invalid_monomial_lines (v : list Z) (s : State) : State :=
  {| tokens := tokens s; current_poly_params := current_poly_params s;
     in_poly_decl := in_poly_decl s;
     poly_decl_first_line := poly_decl_first_line s;
     duplicate_decl_lines := duplicate_decl_lines s;
     invalid_monomial_lines := v; semantic_errors := semantic_errors s;
     used_polynomials := used_polynomials s; runTask2 := runTask2 s;
     runTask3 := runTask3 s; runTask4 := runTask4 s; runTask5 := runTask5 s;
     poly_declarations := poly_declarations s; polyExprs := polyExprs s;
     execStatements := execStatements s; execInputs := execInputs s |}.

Definition set_semantic_errors (v : list string) (s : State) : State :=
  {| tokens := tokens s; current_poly_params := current_poly_params s;
     in_poly_decl := in_poly_decl s;
     poly_decl_first_line := poly_decl_first_line s;
     duplicate_decl_lines := duplicate_decl_lines s;
     invalid_monomial_lines := invalid_monomial_lines s;
     semantic_errors := v; used_polynomials := used_polynomials s;
     runTask2 := runTask2 s; runTask3 := runTask3 s; runTask4 := runTask4 s;
     runTask5 := runTask5 s; poly_declarations := poly_declarations s;
     polyExprs := polyExprs s; execStatements := execStatements s;
     execInputs := execInputs s |}.

Definition set_used_polynomials (v : gset string) (s : State) : State :=
  {| tokens := tokens s; current_poly_params := current_poly_params s;
     in_poly_decl := in_poly_decl s;
     poly_decl_first_line := poly_decl_first_line s;
     duplicate_decl_lines := duplicate_decl_lines s;
     invalid_monomial_lines := invalid_monomial_lines s;
     semantic_errors := semantic_errors s; used_polynomials := v;
     runTask2 := runTask2 s; runTask3 := runTask3 s; runTask4 := runTask4 s;
     runTask5 := runTask5 s; poly_declarations := poly_declarations s;
     polyExprs := polyExprs s; execStatements := execStatements s;
     execInputs := execInputs s |}.

Definition set_runTask2 (v : bool) (s : State) : State :=
  {| tokens := tokens s; current_poly_params := current_poly_params s;
     in_poly_decl := in_poly_decl s;
     poly_decl_first_line := poly_decl_first_line s;
     duplicate_decl_lines := duplicate_decl_lines s;
     invalid_monomial_lines := invalid_monomial_lines s;
     semantic_errors := semantic_errors s;
     used_polynomials := used_polynomials s; runTask2 := v;
     runTask3 := runTask3 s; runTask4 := runTask4 s; runTask5 := runTask5 s;
     poly_declarations := poly_declarations s; polyExprs := polyExprs s;
     execStatements := execStatements s; execInputs := execInputs s |}.

Definition set_runTask3 (v : bool) (s : State) : State :=
  {| tokens := tokens s; current_poly_params := current_poly_params s;
     in_poly_decl := in_poly_decl s;
     poly_decl_first_line := poly_decl_first_line s;
     duplicate_decl_lines := duplicate_decl_lines s;
     invalid_monomial_lines := invalid_monomial_lines s;
     semantic_errors := semantic_errors s;
     used_polynomials := used_polynomials s; runTask2 := runTask2 s;
     runTask3 := v; runTask4 := runTask4 s; runTask5 := runTask5 s;
     poly_declarations := poly_declarations s; polyExprs := polyExprs s;
     execStatements := execStatements s; execInputs := execInputs s |}.

Definition set_runTask4 (v : bool) (s : State) : State :=
  {| tokens := tokens s; current_poly_params := current_poly_params s;
     in_poly_decl := in_poly_decl s;
     poly_decl_first_line := poly_decl_first_line s;
     duplicate_decl_lines := duplicate_decl_lines s;
     invalid_monomial_lines := invalid_monomial_lines s;
     semantic_errors := semantic_errors s;
     used_polynomials := used_polynomials s; runTask2 := runTask2 s;
     runTask3 := runTask3 s; runTask4 := v; runTask5 := runTask5 s;
     poly_declarations := poly_declarations s; polyExprs := polyExprs s;
     execStatements := execStatements s; execInputs := execInputs s |}.

Definition set_runTask5 (v : bool) (s : State) : State :=
  {| tokens := tokens s; current_poly_params := current_poly_params s;
     in_poly_decl := in_poly_decl s;
     poly_decl_first_line := poly_decl_first_line s;
     duplicate_decl_lines := duplicate_decl_lines s;
     invalid_monomial_lines := invalid_monomial_lines s;
     semantic_errors := semantic_errors s;
     used_polynomials := used_polynomials s; runTask2 := runTask2 s;
     runTask3 := runTask3 s; runTask4 := runTask4 s; runTask5 := v;
     poly_declarations := poly_declarations s; polyExprs := polyExprs s;
     execStatements := execStatements s; execInputs := execInputs s |}.

Definition set_poly_declarations (v : gmap string (list string)) (s : State) : State :=
  {| tokens := tokens s; current_poly_params := current_poly_params s;
     in_poly_decl := in_poly_decl s;
     poly_decl_first_line := poly_decl_first_line s;
     duplicate_decl_lines := duplicate_decl_lines s;
     invalid_monomial_lines := invalid_monomial_lines s;
     semantic_errors := semantic_errors s;
     used_polynomials := used_polynomials s; runTask2 := runTask2 s;
     runTask3 := runTask3 s; runTask4 := runTask4 s; runTask5 := runTask5 s;
     poly_declarations := v; polyExprs := polyExprs s;
     execStatements := execStatements s; execInputs := execInputs s |}.

Definition set_polyExprs (v : gmap string Expr) (s : State) : State :=
  {| tokens := tokens s; current_poly_params := current_poly_params s;
     in_poly_decl := in_poly_decl s;
     poly_decl_first_line := poly_decl_first_line s;
     duplicate_decl_lines := duplicate_decl_lines s;
     invalid_monomial_lines := invalid_monomial_lines s;
     semantic_errors := semantic_errors s;
     used_polynomials := used_polynomials s; runTask2 := runTask2 s;
     runTask3 := runTask3 s; runTask4 := runTask4 s; runTask5 := runTask5 s;
     poly_declarations := poly_declarations s; polyExprs := v;
     execStatements := execStatements s; execInputs := execInputs s |}.

Definition set_execStatements (v : list Statement) (s : State) : State :=
  {| tokens := tokens s; current_poly_params := current_poly_params s;
     in_poly_decl := in_poly_decl s;
     poly_decl_first_line := poly_decl_first_line s;
     duplicate_decl_lines := duplicate_decl_lines s;
     invalid_monomial_lines := invalid_monomial_lines s;
     semantic_errors := semantic_errors s;
     used_polynomials := used_polynomials s; runTask2 := runTask2 s;
     runTask3 := runTask3 s; runTask4 := runTask4 s; runTask5 := runTask5 s;
     poly_declarations := poly_declarations s; polyExprs := polyExprs s;
     execStatements := v; execInputs := execInputs s |}.

Definition set_execInputs (v : list Z) (s : State) : State :=
  {| tokens := tokens s; current_poly_params := current_poly_params s;
     in_poly_decl := in_poly_decl s;
     poly_decl_first_line := poly_decl_first_line s;
     duplicate_decl_lines := duplicate_decl_lines s;
     invalid_monomial_lines := invalid_monomial_lines s;
     semantic_errors := semantic_errors s;
     used_polynomials := used_polynomials s; runTask2 := runTask2 s;
     runTask3 := runTask3 s; runTask4 := runTask4 s; runTask5 := runTask5 s;
     poly_declarations := poly_declarations s; polyExprs := polyExprs s;
     execStatements := execStatements s; execInputs := v |}.

(** The state before [main] runs: nothing declared, no flag set. *)
Definition initial_state (input : list Token) : State :=
  {| tokens := input; current_poly_params := []; in_poly_decl := false;
     poly_decl_first_line := ∅; duplicate_decl_lines := [];
     invalid_monomial_lines := []; semantic_errors := [];
     used_polynomials := ∅; runTask2 := false; runTask3 := false;
     runTask4 := false; runTask5 := false; poly_declarations := ∅;
     polyExprs := ∅; execStatements := []; execInputs := [] |}.

(* ================================================================== *)
(** ** The parsing monad *)

(** A parse function either returns with a new state, or leaves the process
    through [syntax_error] (which prints one line and calls [exit(1)]), or,
    in the embedding only, runs out of the recursion budget it was given. *)
Inductive Res (A : Type) : Type :=
  | Ok (a : A) (s : State)
  | SyntaxError
  | OutOfFuel.
Arguments Ok {A} a s.
Arguments SyntaxError {A}.
Arguments OutOfFuel {A}.

Definition M (A : Type) : Type := State → Res A.

#[global] Instance M_ret : MRet M := λ A a s, Ok a s.
#[global] Instance M_bind : MBind M := λ A B f m s,
  match m s with
  | Ok a s' => f a s'
  | SyntaxError => SyntaxError
  | OutOfFuel => OutOfFuel
  end.

Definition gets {A : Type} (f : State → A) : M A := λ s, Ok (f s) s.
Definition modify (f : State → State) : M unit := λ s, Ok () (f s).
Definition out_of_fuel {A : Type} : M A := λ _, OutOfFuel.

(** [Parser::syntax_error]. *)
Definition syntax_error {A : Type} : M A := λ _, SyntaxError.

(** Modelled from the spec: [lexer.peek(k)], the token [k] places ahead
    ([k] counts from 1) without consuming anything. *)
Definition peek (k : nat) : M Token :=
  gets (λ s, default eof_token (tokens s !! pred k)).

(** Modelled from the spec: [lexer.GetToken()], the next token, consumed. *)
Definition GetToken : M Token := λ s,
  match tokens s with
  | [] => Ok eof_token s
  | t :: ts => Ok t (set_tokens ts s)
  end.

(** [Parser::expect]. *)
Definition expect (expected_type : TokenType) : M Token :=
  t ← GetToken;
  if decide (token_type t = expected_type) then mret t else syntax_error.

(** The recursion budget handed to a family of mutually recursive parse
    functions on entry: every round of them consumes a token, and between
    two tokens at most three calls are nested. *)
Definition fuel_of (s : State) : nat := 3 * length (tokens s) + 3.

Definition with_fuel {A : Type} (f : nat → M A) : M A := λ s, f (fuel_of s) s.

(* ================================================================== *)
(** ** Program structure and polynomial declarations *)

(** [Parser::parse_num_list]. *)
Fixpoint parse_num_list (fuel : nat) : M unit :=
  match fuel with
  | O => out_of_fuel
  | S fuel =>
      t ← expect NUM;
      let task := atoi (lexeme t) in
      modify (λ s, if decide (task = 2%Z) then set_runTask2 true s else s);;
      modify (λ s, if decide (task = 3%Z) then set_runTask3 true s else s);;
      modify (λ s, if decide (task = 4%Z) then set_runTask4 true s else s);;
      modify (λ s, if decide (task = 5%Z) then set_runTask5 true s else s);;
      next ← peek 1;
      if decide (token_type next = NUM) then parse_num_list fuel else mret ()
  end.

(** [Parser::parse_tasks_section]. *)
Definition parse_tasks_section : M unit :=
  expect TASKS;; with_fuel parse_num_list.

(** The [while] loop of [Parser::parse_id_list]. *)
Fixpoint parse_id_list_loop (fuel : nat) (ids : list string) : M (list string) :=
  match fuel with
  | O => out_of_fuel
  | S fuel =>
      next ← peek 1;
      if decide (token_type next = COMMA) then
        expect COMMA;;
        t ← expect ID;
        parse_id_list_loop fuel (ids ++ [lexeme t])
      else mret ids
  end.

(** [Parser::parse_id_list]. *)
Definition parse_id_list : M (list string) :=
  t ← expect ID;
  with_fuel (λ fuel, parse_id_list_loop fuel [lexeme t]).

(** [Parser::parse_poly_header]. *)
Definition parse_poly_header : M PolyHeader.t :=
  t ← expect ID;
  next ← peek 1;
  params ← (if decide (token_type next = LPAREN) then
              expect LPAREN;;
              ids ← parse_id_list;
              expect RPAREN;;
              mret ids
            else mret ["x"]);
  let header := PolyHeader.mk (lexeme t) (line_no t) params in
  modify (λ s, set_poly_declarations
                 (<[PolyHeader.name header := PolyHeader.params header]>
                    (poly_declarations s)) s);;
  mret header.

(** The test [lexer.peek(1).token_type == ID || ... == LPAREN] of the
    implicit-multiplication loops. *)
Definition starts_factor (t : Token) : bool :=
  bool_decide (token_type t = ID) || bool_decide (token_type t = LPAREN).

(** [Parser::parse_poly_body_expr], [Parser::parse_poly_term] and
    [Parser::parse_poly_factor], with the [while] loops of the first two as
    functions of their own ([left] is the loop variable). *)
Fixpoint parse_poly_body_expr (fuel : nat) : M Expr :=
  match fuel with
  | O => out_of_fuel
  | S fuel =>
      left ← parse_poly_term fuel;
      left ← parse_poly_body_plus_loop fuel left;
      next ← peek 1;
      if decide (token_type next = MINUS) then
        expect MINUS;;
        right ← parse_poly_body_expr fuel;
        mret (SubExpr left right)
      else mret left
  end
with parse_poly_body_plus_loop (fuel : nat) (left : Expr) : M Expr :=
  match fuel with
  | O => out_of_fuel
  | S fuel =>
      next ← peek 1;
      if decide (token_type next = PLUS) then
        expect PLUS;;
        right ← parse_poly_term fuel;
        parse_poly_body_plus_loop fuel (AddExpr left right)
      else mret left
  end
with parse_poly_term (fuel : nat) : M Expr :=
  match fuel with
  | O => out_of_fuel
  | S fuel =>
      t ← peek 1;
      if decide (token_type t = NUM) then
        t ← expect NUM;
        parse_poly_term_loop fuel (ConstExpr (atoi (lexeme t)))
      else if starts_factor t then
        left ← parse_poly_factor fuel;
        parse_poly_term_loop fuel left
      else syntax_error
  end
with parse_poly_term_loop (fuel : nat) (left : Expr) : M Expr :=
  match fuel with
  | O => out_of_fuel
  | S fuel =>
      next ← peek 1;
      if starts_factor next then
        right ← parse_poly_factor fuel;
        parse_poly_term_loop fuel (MulExpr left right)
      else mret left
  end
with parse_poly_factor (fuel : nat) : M Expr :=
  match fuel with
  | O => out_of_fuel
  | S fuel =>
      t ← peek 1;
      '(expr, wasParen) ←
        (if decide (token_type t = NUM) then
           t ← expect NUM;
           mret (ConstExpr (atoi (lexeme t)), false)
         else if decide (token_type t = ID) then
           let idToken := t in
           expect ID;;
           current ← gets (λ s, current_poly_params s);
           (if decide (lexeme idToken ∈ current) then mret ()
            else modify (λ s, set_invalid_monomial_lines
                                (invalid_monomial_lines s ++ [line_no idToken]) s));;
           mret (VarExpr (lexeme idToken) (line_no idToken), false)
         else if decide (token_type t = LPAREN) then
           expect LPAREN;;
           expr ← parse_poly_body_expr fuel;
           expect RPAREN;;
           mret (expr, true)
         else syntax_error);
      t ← peek 1;
      if decide (token_type t = POWER) then
        expect POWER;;
        num ← expect NUM;
        mret (PowExpr expr (atoi (lexeme num)))
      else
        in_decl ← gets (λ s, in_poly_decl s);
        if in_decl && wasParen && bool_decide (token_type t = NUM)
        then syntax_error
        else mret expr
  end.

(** [Parser::parse_poly_decl]. *)
Definition parse_poly_decl : M unit :=
  header ← parse_poly_header;
  expect EQUAL;;
  modify (set_current_poly_params (PolyHeader.params header));;
  modify (set_in_poly_decl true);;
  body ← with_fuel parse_poly_body_expr;
  modify (set_in_poly_decl false);;
  expect SEMICOLON;;
  first_line ← gets (λ s, poly_decl_first_line s);
  match first_line !! PolyHeader.name header with
  | Some _ =>
      modify (λ s, set_duplicate_decl_lines
                     (duplicate_decl_lines s ++ [PolyHeader.line header]) s)
  | None =>
      modify (λ s, set_poly_decl_first_line
                     (<[PolyHeader.name header := PolyHeader.line header]>
                        (poly_decl_first_line s)) s);;
      modify (λ s, set_polyExprs
                     (<[PolyHeader.name header := body]> (polyExprs s)) s)
  end.

(** [Parser::parse_poly_decl_list]. *)
Fixpoint parse_poly_decl_list (fuel : nat) : M unit :=
  match fuel with
  | O => out_of_fuel
  | S fuel =>
      parse_poly_decl;;
      t ← peek 1;
      if decide (token_type t = ID) then parse_poly_decl_list fuel else mret ()
  end.

(** [Parser::parse_poly_section]. *)
Definition parse_poly_section : M unit :=
  expect POLY;; with_fuel parse_poly_decl_list.

(* ================================================================== *)
(** ** The execution script *)

(** [parser.cc] holds a second, general expression parser ([parse_expr],
    [parse_term_expr], [parse_factor]) and an older call parser
    ([parse_call_expr], [parse_poly_evaluation], [parse_argument_list],
    [parse_argument]).  Nothing reachable from [parse_program] calls
    them: a declaration's body goes through [parse_poly_body_expr], an
    assignment's right-hand side through [parse_poly_eval_expr].  They
    play no part in what follows here; they are embedded further down,
    after the notions used in the statements. *)

(** The check that closes [parse_call_expr_from_token] and
    [parse_poly_eval_expr]: a name that is not declared adds a code 3
    finding, a declared one called with another number of arguments than it
    has parameters adds a code 4 finding. *)
Definition check_call (polyName : string) (eval_line : Z) (nargs : nat) : M unit :=
  declarations ← gets (λ s, poly_declarations s);
  match declarations !! polyName with
  | Some params =>
      if decide (nargs = length params) then mret ()
      else modify (λ s, set_semantic_errors
             (semantic_errors s ++
                ["Semantic Error Code 4: " +:+ to_string eval_line]) s)
  | None =>
      modify (λ s, set_semantic_errors
        (semantic_errors s ++
           ["Semantic Error Code 3: " +:+ to_string eval_line]) s)
  end.

(** [Parser::parse_argument_expr] and [Parser::parse_call_expr_from_token],
    with the [while] loop that collects the arguments after the first
    (the same loop stands in [parse_poly_eval_expr]). *)
Fixpoint parse_argument_expr (fuel : nat) : M Expr :=
  match fuel with
  | O => out_of_fuel
  | S fuel =>
      t ← peek 1;
      if decide (token_type t = ID) then
        t2 ← peek 2;
        if decide (token_type t2 = LPAREN) then
          idToken ← expect ID;
          parse_call_expr_from_token fuel idToken
        else
          t ← expect ID;
          mret (VarExpr (lexeme t) (line_no t))
      else if decide (token_type t = NUM) then
        t ← expect NUM;
        mret (ConstExpr (atoi (lexeme t)))
      else syntax_error
  end
with parse_call_expr_from_token (fuel : nat) (idToken : Token) : M Expr :=
  match fuel with
  | O => out_of_fuel
  | S fuel =>
      let polyName := lexeme idToken in
      let eval_line := line_no idToken in
      expect LPAREN;;
      first ← parse_argument_expr fuel;
      args ← parse_arguments_loop fuel [first];
      expect RPAREN;;
      check_call polyName eval_line (length args);;
      mret (CallExpr polyName args)
  end
with parse_arguments_loop (fuel : nat) (args : list Expr) : M (list Expr) :=
  match fuel with
  | O => out_of_fuel
  | S fuel =>
      next ← peek 1;
      if decide (token_type next = COMMA) then
        expect COMMA;;
        arg ← parse_argument_expr fuel;
        parse_arguments_loop fuel (args ++ [arg])
      else mret args
  end.

(** [Parser::parse_poly_eval_expr]. *)
Definition parse_poly_eval_expr : M Expr :=
  t ← expect ID;
  let polyName := lexeme t in
  modify (λ s, set_used_polynomials ({[polyName]} ∪ used_polynomials s) s);;
  let eval_line := line_no t in
  expect LPAREN;;
  first ← with_fuel parse_argument_expr;
  args ← with_fuel (λ fuel, parse_arguments_loop fuel [first]);
  expect RPAREN;;
  check_call polyName eval_line (length args);;
  mret (CallExpr polyName args).

(** [Parser::parse_input_statement_exec]. *)
Definition parse_input_statement_exec : M Statement :=
  expect INPUT;;
  t ← expect ID;
  expect SEMICOLON;;
  mret (InputStmt (lexeme t)).

(** [Parser::parse_output_statement_exec]. *)
Definition parse_output_statement_exec : M Statement :=
  expect OUTPUT;;
  t ← expect ID;
  expect SEMICOLON;;
  mret (OutputStmt (lexeme t)).

(** [Parser::parse_assign_statement_exec]. *)
Definition parse_assign_statement_exec : M Statement :=
  t ← expect ID;
  let varName := lexeme t in
  let assignLine := line_no t in
  expect EQUAL;;
  callExpr ← parse_poly_eval_expr;
  expect SEMICOLON;;
  mret (AssignStmt varName assignLine callExpr).

(** [Parser::parse_statement_exec]. *)
Definition parse_statement_exec : M Statement :=
  t ← peek 1;
  if decide (token_type t = INPUT) then parse_input_statement_exec
  else if decide (token_type t = OUTPUT) then parse_output_statement_exec
  else if decide (token_type t = ID) then parse_assign_statement_exec
  else syntax_error.

(** [Parser::parse_statement_list_exec]. *)
Fixpoint parse_statement_list_exec (fuel : nat) : M unit :=
  match fuel with
  | O => out_of_fuel
  | S fuel =>
      stmt ← parse_statement_exec;
      modify (λ s, set_execStatements (execStatements s ++ [stmt]) s);;
      t ← peek 1;
      if bool_decide (token_type t = INPUT) || bool_decide (token_type t = OUTPUT)
         || bool_decide (token_type t = ID)
      then parse_statement_list_exec fuel
      else mret ()
  end.

(** [Parser::parse_execute_section]. *)
Definition parse_execute_section : M unit :=
  expect EXECUTE;; with_fuel parse_statement_list_exec.

(** The [while] loop of [Parser::parse_inputs_section]. *)
Fixpoint parse_inputs_loop (fuel : nat) : M unit :=
  match fuel with
  | O => out_of_fuel
  | S fuel =>
      next ← peek 1;
      if decide (token_type next = NUM) then
        t ← expect NUM;
        modify (λ s, set_execInputs (execInputs s ++ [atoi (lexeme t)]) s);;
        parse_inputs_loop fuel
      else mret ()
  end.

(** [Parser::parse_inputs_section]. *)
Definition parse_inputs_section : M unit :=
  expect INPUTS;;
  next ← peek 1;
  if decide (token_type next = NUM) then with_fuel parse_inputs_loop
  else syntax_error.

(** [Parser::parse_program]. *)
Definition parse_program : M unit :=
  parse_tasks_section;;
  parse_poly_section;;
  parse_execute_section;;
  parse_inputs_section.

(* ================================================================== *)
(** ** The semantic gate *)

(** What [check_semantic_errors] does with the process: it returns
    ([Clean]), or prints and calls [exit(0)] ([Report]), or an exception of
    [stoi] leaves it ([Throws]). *)
Inductive Gate : Type :=
  | Clean
  | Report (out : list string)
  | Throws.

(** The loop that fills [lines] from [semantic_errors]: the number behind
    the first colon of every entry. *)
Definition error_lines (errors : list string) : option (list Z) :=
  foldl (λ olines err,
           lines ← olines;
           match String.index 0 ":" err with
           | Some pos => n ← stoi (substr err (pos + 1)); Some (lines ++ [n])
           | None => Some lines
           end)
        (Some []) errors.

(** [Parser::check_semantic_errors]. *)
Definition check_semantic_errors (s : State) : Gate :=
  if decide (duplicate_decl_lines s ≠ []) then
    Report [print_lines "Semantic Error Code 1:"
              (sort_lines (duplicate_decl_lines s))]
  else if decide (invalid_monomial_lines s ≠ []) then
    Report [print_lines "Semantic Error Code 2:"
              (sort_lines (invalid_monomial_lines s))]
  else
    match semantic_errors s with
    | [] => Clean
    | first :: _ =>
        if String.prefix "Semantic Error Code 3:" first then
          match error_lines (semantic_errors s) with
          | Some lines =>
              Report [print_lines "Semantic Error Code 3:" (sort_lines lines)]
          | None => Throws
          end
        else if String.prefix "Semantic Error Code 4:" first then
          match error_lines (semantic_errors s) with
          | Some lines =>
              Report [print_lines "Semantic Error Code 4:" (sort_lines lines)]
          | None => Throws
          end
        else Report (semantic_errors s)
    end.

(** [Parser::ConsumeAllInput], returning what the gate decided. *)
Definition ConsumeAllInput : M Gate :=
  parse_program;;
  t ← peek 1;
  (if decide (token_type t = END_OF_FILE) then mret () else syntax_error);;
  expect END_OF_FILE;;
  gets check_semantic_errors.

(* ================================================================== *)
(** ** [main] *)

(** How a run of the process ends. *)
Inductive Outcome : Type :=
  | Exited (status : Z) (out : list string)
      (** the lines on [cout] and the exit status *)
  | Crashed
      (** an uncaught exception or an out-of-bounds access *)
  | OutOfBudget.
      (** the embedding's recursion budget was too small *)

(** A polynomial body is built by [parse_poly_body_expr], which builds no
    call node; evaluating a call therefore enters one body and no further. *)
Definition evaluation_depth : nat := 1.

(** The four tasks of [main], in its fixed order 2, 3, 4, 5. *)
Definition run_tasks (s : State) : option (list string) :=
  st ← (if runTask2 s
        then execute_program (poly_declarations s) (polyExprs s)
               (execInputs s) evaluation_depth (execStatements s) initial_exec
        else Some initial_exec);
  Some (cout st
        ++ (if runTask3 s then checkUninitializedWarnings (execStatements s) else [])
        ++ (if runTask4 s then checkUselessAssignments (execStatements s) else [])
        ++ (if runTask5 s
            then outputPolynomialDegrees (poly_decl_first_line s) (polyExprs s)
            else [])).

(** [main], as a function of the token stream the lexer produces. *)
Definition main (input : list Token) : Outcome :=
  match ConsumeAllInput (initial_state input) with
  | SyntaxError => Exited 1 ["SYNTAX ERROR !!!!!&%!!"]
  | OutOfFuel => OutOfBudget
  | Ok (Report out) _ => Exited 0 out
  | Ok Throws _ => Crashed
  | Ok Clean s =>
      match run_tasks s with
      | Some out => Exited 0 out
      | None => Crashed
      end
  end.

(* ================================================================== *)
(** ** Notions used in the statements *)

(** *** Shapes of trees *)

(** A tree without call nodes. *)
Fixpoint call_free (e : Expr) : bool :=
  match e with
  | ConstExpr _ | VarExpr _ _ => true
  | AddExpr l r | SubExpr l r | MulExpr l r => call_free l && call_free r
  | PowExpr base _ => call_free base
  | CallExpr _ _ => false
  end.

(** A tree made of variables, numerals and calls only, the arguments of
    every call being of that shape again. *)
Fixpoint is_argument (e : Expr) : bool :=
  match e with
  | ConstExpr _ | VarExpr _ _ => true
  | CallExpr _ args => forallb is_argument args
  | AddExpr _ _ | SubExpr _ _ | MulExpr _ _ | PowExpr _ _ => false
  end.

(** The kinds of the tokens that spell an argument: one identifier, one
    numeral, or a name, an opening parenthesis, the arguments separated by
    commas, a closing parenthesis. *)
Fixpoint argument_kinds (e : Expr) : list TokenType :=
  match e with
  | ConstExpr _ => [NUM]
  | VarExpr _ _ => [ID]
  | CallExpr _ [] => [ID; LPAREN; RPAREN]
  | CallExpr _ (first :: more) =>
      ID :: LPAREN :: argument_kinds first
        ++ flat_map (λ arg, COMMA :: argument_kinds arg) more ++ [RPAREN]
  | AddExpr _ _ | SubExpr _ _ | MulExpr _ _ | PowExpr _ _ => []
  end.

(** *** Degree, as the specification words it *)

(** The grammar of arguments: [spells tokens e] says that [tokens] are an
    argument written out and [e] is the tree it stands for.  An argument
    is an identifier, a numeral, or a call: an identifier, an opening
    parenthesis, one argument, any number of further arguments each behind
    a comma, and a closing parenthesis. *)
Inductive spells : list Token → Expr → Prop :=
  | spells_id (t : Token) :
      token_type t = ID → spells [t] (VarExpr (lexeme t) (line_no t))
  | spells_num (t : Token) :
      token_type t = NUM → spells [t] (ConstExpr (atoi (lexeme t)))
  | spells_call (id lp rp : Token) (first_tokens more_tokens : list Token)
      (first : Expr) (more : list Expr) :
      token_type id = ID → token_type lp = LPAREN → token_type rp = RPAREN →
      spells first_tokens first → spells_more more_tokens more →
      spells (id :: lp :: first_tokens ++ more_tokens ++ [rp])
             (CallExpr (lexeme id) (first :: more))
with spells_more : list Token → list Expr → Prop :=
  | spells_more_nil : spells_more [] []
  | spells_more_cons (comma : Token) (arg_tokens more_tokens : list Token)
      (arg : Expr) (more : list Expr) :
      token_type comma = COMMA →
      spells arg_tokens arg → spells_more more_tokens more →
      spells_more (comma :: arg_tokens ++ more_tokens) (arg :: more).

(** The degree over the unbounded integers: 0 for a constant, 1 for a
    variable, the maximum under sum and difference, the sum under product,
    the base's degree times the exponent under a power, 0 for a call. *)
Fixpoint degree (e : Expr) : Z :=
  match e with
  | ConstExpr _ => 0
  | VarExpr _ _ => 1
  | AddExpr l r | SubExpr l r => Z.max (degree l) (degree r)
  | MulExpr l r => degree l + degree r
  | PowExpr base exponent => degree base * exponent
  | CallExpr _ _ => 0
  end%Z.

(** No sum or product formed on the way to the degree leaves [int]. *)
Fixpoint degree_fits (e : Expr) : Prop :=
  match e with
  | ConstExpr _ | VarExpr _ _ | CallExpr _ _ => True
  | AddExpr l r | SubExpr l r => degree_fits l ∧ degree_fits r
  | MulExpr l r =>
      degree_fits l ∧ degree_fits r ∧ Int.in_range (degree l + degree r)
  | PowExpr base exponent =>
      degree_fits base ∧ Int.in_range (degree base * exponent)
  end.

(** *** Uninitialized use, as the specification words it *)

(** The variable nodes of a tree with their lines, in the order of the
    walk. *)
Fixpoint var_occurrences (e : Expr) : list (string * Z) :=
  match e with
  | ConstExpr _ => []
  | VarExpr name line_no => [(name, line_no)]
  | AddExpr l r | SubExpr l r | MulExpr l r =>
      var_occurrences l ++ var_occurrences r
  | PowExpr base _ => var_occurrences base
  | CallExpr _ args => flat_map var_occurrences args
  end.

(** The names a statement sequence initializes: the variables of its
    [Input] statements and the left sides of its [Assign] statements. *)
Definition initialized_by (stmts : list Statement) : gset string :=
  list_to_set
    (omap (λ s, match s with
                | InputStmt v | AssignStmt v _ _ => Some v
                | OutputStmt _ => None
                end) stmts).

(** The warnings statement [i] contributes: if it is an [Assign], the line
    of every variable of its right-hand side that no earlier statement
    initializes; nothing otherwise. *)
Definition uninit_at (stmts : list Statement) (i : nat) : list Z :=
  match stmts !! i with
  | Some (AssignStmt _ _ rhs) =>
      (filter (λ o : string * Z, o.1 ∉ initialized_by (take i stmts))
              (var_occurrences rhs)).*2
  | _ => []
  end.

Definition uninit_spec (stmts : list Statement) : list Z :=
  flat_map (uninit_at stmts) (seq 0 (length stmts)).

(** *** Useless assignment, as the specification words it *)

(** A right-hand side reads [var] when [var] is the name of one of its
    variable nodes, those inside the arguments of calls included. *)
Definition reads (rhs : Expr) (var : string) : Prop :=
  var ∈ (var_occurrences rhs).*1.

#[global] Instance reads_dec rhs var : Decision (reads rhs var).
Proof. unfold reads. apply _. Defined.

(** A statement that decides the fate of an earlier assignment to [var]:
    an assignment to [var], an [Input] or [Output] of [var], or an
    assignment to another variable whose right-hand side reads [var]. *)
Definition deciding (var : string) (s : Statement) : bool :=
  match s with
  | AssignStmt v _ rhs => bool_decide (v = var) || bool_decide (reads rhs var)
  | InputStmt v | OutputStmt v => bool_decide (v = var)
  end.

(** What a deciding statement decides: an [Output] proves the use, an
    [Input] overwrites without use, an assignment proves the use exactly
    when its right-hand side reads [var]. *)
Definition proves_use (var : string) (s : Statement) : bool :=
  match s with
  | OutputStmt _ => true
  | InputStmt _ => false
  | AssignStmt _ _ rhs => bool_decide (reads rhs var)
  end.

(** Whether the statements [rest] behind an assignment to [var] use the
    value assigned: the first deciding statement settles it, and without
    one the value is not used. *)
Definition used_later (var : string) (rest : list Statement) : bool :=
  match List.find (deciding var) rest with
  | Some s => proves_use var s
  | None => false
  end.

(** The line of the statement at position [i] if it is a useless
    assignment, and the lines of all of them, in the order of the script. *)
Definition useless_at_spec (stmts : list Statement) (i : nat) : list Z :=
  match stmts !! i with
  | Some (AssignStmt var line_no _) =>
      if used_later var (drop (S i) stmts) then [] else [line_no]
  | _ => []
  end.

Definition useless_spec (stmts : list Statement) : list Z :=
  flat_map (useless_at_spec stmts) (seq 0 (length stmts)).

(** *** Semantic findings *)

(** The two kinds of finding a call site can add to [semantic_errors]. *)
Inductive CallFinding : Type := Undeclared | ArityMismatch.

Definition finding_label (k : CallFinding) : string :=
  match k with
  | Undeclared => "Semantic Error Code 3:"
  | ArityMismatch => "Semantic Error Code 4:"
  end.

(** The text [check_call] stores for a finding at line [ln]. *)
Definition finding_text (f : CallFinding * Z) : string :=
  match f.1 with
  | Undeclared => "Semantic Error Code 3: " +:+ to_string f.2
  | ArityMismatch => "Semantic Error Code 4: " +:+ to_string f.2
  end.

(** The list of line numbers the gate prints, if it prints one. *)
Definition reported_lines (s : State) : option (list Z) :=
  if decide (duplicate_decl_lines s ≠ []) then
    Some (sort_lines (duplicate_decl_lines s))
  else if decide (invalid_monomial_lines s ≠ []) then
    Some (sort_lines (invalid_monomial_lines s))
  else if decide (semantic_errors s = []) then None
  else sort_lines <$> error_lines (semantic_errors s).

(** *** Reasoning about parse functions *)

(** [wp m Q s]: started in [s], [m] does not exhaust its budget, and if it
    returns, the result and the new state satisfy [Q]. *)
Definition wp {A : Type} (m : M A) (Q : A → State → Prop) (s : State) : Prop :=
  match m s with
  | Ok a s' => Q a s'
  | SyntaxError => True
  | OutOfFuel => False
  end.

(** The lines [parse_poly_factor] adds to [invalid_monomial_lines] for a
    run of tokens: those of the identifiers outside the parameter list. *)
Definition invalid_ids (params : list string) (used : list Token) : list Z :=
  line_no <$>
    filter (λ t, token_type t = ID ∧ lexeme t ∉ params) used.

(** The state after a piece of a polynomial body has been read: the input
    advanced to [rest], the invalid identifiers among [used] recorded. *)
Definition after_body (s : State) (used rest : list Token) : State :=
  set_invalid_monomial_lines
    (invalid_monomial_lines s ++ invalid_ids (current_poly_params s) used)
    (set_tokens rest s).

(** The state after a piece of a call has been read: the input advanced to
    [rest], the findings [errs] recorded. *)
Definition after_call (s : State) (errs : list string) (rest : list Token) : State :=
  set_semantic_errors (semantic_errors s ++ errs) (set_tokens rest s).

(** A statement that is not an [Output]. *)
Definition not_output (s : Statement) : bool :=
  match s with
  | OutputStmt _ => false
  | InputStmt _ | AssignStmt _ _ _ => true
  end.

(** [reads_body s used s']: from [s], the tokens [used] of a polynomial
    body were read, and [s'] is the state after that. *)
Definition reads_body (s : State) (used : list Token) (s' : State) : Prop :=
  ∃ rest, tokens s = used ++ rest ∧ s' = after_body s used rest.

(** [reads_call s used errs s']: from [s], the tokens [used] of a call were
    read and the findings [errs] made. *)
Definition reads_call (s : State) (used : list Token) (errs : list string)
    (s' : State) : Prop :=
  ∃ rest, tokens s = used ++ rest ∧ s' = after_call s errs rest.

(** What the parse functions of a polynomial body guarantee on return: at
    least one token was read, the identifiers outside the parameter list
    are recorded and nothing else changed, and the tree has no call. *)
Definition body_post (s : State) (e : Expr) (s' : State) : Prop :=
  ∃ used, used ≠ [] ∧ reads_body s used s' ∧ call_free e.

(** The same for the loops, which may read nothing. *)
Definition body_loop_post (s : State) (e : Expr) (s' : State) : Prop :=
  ∃ used, reads_body s used s' ∧ call_free e.

(** The state after one polynomial declaration: [name], declared on [line]
    with [params], its body read from [body_tokens] as [body], the input
    left at [rest].  The parameter list always enters [poly_declarations];
    line and body enter their tables only if the name is new, otherwise
    the line joins the duplicates. *)
Definition declared (s : State) (name : string) (line : Z)
    (params : list string) (body_tokens : list Token) (body : Expr)
    (rest : list Token) : State :=
  let s1 :=
    set_in_poly_decl false
      (set_invalid_monomial_lines
         (invalid_monomial_lines s ++ invalid_ids params body_tokens)
         (set_current_poly_params params
            (set_poly_declarations (<[name := params]> (poly_declarations s))
               (set_tokens rest s)))) in
  match poly_decl_first_line s !! name with
  | Some _ =>
      set_duplicate_decl_lines (duplicate_decl_lines s ++ [line]) s1
  | None =>
      set_polyExprs (<[name := body]> (polyExprs s))
        (set_poly_decl_first_line (<[name := line]> (poly_decl_first_line s)) s1)
  end.

(** What [parse_poly_header] guarantees on return. *)
Definition header_post (s : State) (h : PolyHeader.t) (s' : State) : Prop :=
  ∃ t header_rest rest,
    tokens s = t :: header_rest ++ rest ∧ token_type t = ID ∧
    PolyHeader.name h = lexeme t ∧ PolyHeader.line h = line_no t ∧
    PolyHeader.params h ≠ [] ∧
    (token_type (default eof_token ((header_rest ++ rest) !! 0)) ≠ LPAREN →
     header_rest = [] ∧ PolyHeader.params h = ["x"]) ∧
    s' = set_poly_declarations
           (<[lexeme t := PolyHeader.params h]> (poly_declarations s))
           (set_tokens rest s).

(** What [parse_poly_decl] guarantees on return: the declaration was read
    through its semicolon and the state is [declared]. *)
Definition decl_post (s : State) (_ : unit) (s' : State) : Prop :=
  ∃ t header_rest eq body_tokens semi rest params body,
    tokens s = t :: header_rest ++ eq :: body_tokens ++ semi :: rest ∧
    token_type t = ID ∧ token_type eq = EQUAL ∧ token_type semi = SEMICOLON ∧
    body_tokens ≠ [] ∧ call_free body ∧ params ≠ [] ∧
    (token_type (default eof_token ((header_rest ++ eq :: body_tokens) !! 0)) ≠ LPAREN →
     header_rest = [] ∧ params = ["x"]) ∧
    s' = declared s (lexeme t) (line_no t) params body_tokens body rest.

(** The state with one more finding. *)
Definition add_finding (f : CallFinding * Z) (s : State) : State :=
  set_semantic_errors (semantic_errors s ++ [finding_text f]) s.

(** [errs] are the texts of findings at lines among [lines]. *)
Definition findings_at (lines : list Z) (errs : list string) : Prop :=
  ∃ fs : list (CallFinding * Z),
    errs = finding_text <$> fs ∧ Forall (λ f, f.2 ∈ lines) fs.

(** What [parse_argument_expr] guarantees on return: at least one token
    was read, the only change besides is a run of findings at lines of the
    tokens read, the tree has the shape of an argument, and the tokens
    read are the ones that spell it. *)
Definition argument_post (s : State) (e : Expr) (s' : State) : Prop :=
  ∃ used errs,
    used ≠ [] ∧ reads_call s used errs s' ∧
    findings_at (line_no <$> used) errs ∧ is_argument e ∧
    token_type <$> used = argument_kinds e.

(** The same for the loop that collects the further arguments. *)
Definition arguments_post (args : list Expr) (s : State) (r : list Expr)
    (s' : State) : Prop :=
  ∃ used errs more,
    reads_call s used errs s' ∧ findings_at (line_no <$> used) errs ∧
    r = args ++ more ∧ Forall is_argument more ∧
    token_type <$> used = flat_map (λ arg, COMMA :: argument_kinds arg) more.

(** And for a call whose name [idToken] has been read before. *)
Definition call_post (idToken : Token) (s : State) (e : Expr) (s' : State) : Prop :=
  ∃ used errs args,
    used ≠ [] ∧ reads_call s used errs s' ∧
    findings_at (line_no idToken :: (line_no <$> used)) errs ∧
    e = CallExpr (lexeme idToken) args ∧ args ≠ [] ∧ Forall is_argument args ∧
    ID :: (token_type <$> used) = argument_kinds e.

(** What [parse_poly_eval_expr] guarantees on return: a call of the name
    read first, with at least one argument, every argument of the argument
    shape, spelled by the tokens read; the name joins [used_polynomials]. *)
Definition eval_post (s : State) (e : Expr) (s' : State) : Prop :=
  ∃ t used errs args rest,
    tokens s = t :: used ++ rest ∧ token_type t = ID ∧ used ≠ [] ∧
    e = CallExpr (lexeme t) args ∧ args ≠ [] ∧ Forall is_argument args ∧
    token_type <$> t :: used = argument_kinds e ∧
    findings_at (line_no <$> t :: used) errs ∧
    s' = set_used_polynomials ({[lexeme t]} ∪ used_polynomials s)
           (after_call s errs rest).

(** *** Task selection *)

(** The four [if]s of [parse_num_list] applied to one task number. *)
Definition select_task (task : Z) (s : State) : State :=
  let s := if decide (task = 2%Z) then set_runTask2 true s else s in
  let s := if decide (task = 3%Z) then set_runTask3 true s else s in
  let s := if decide (task = 4%Z) then set_runTask4 true s else s in
  if decide (task = 5%Z) then set_runTask5 true s else s.

(** The numbers a run of [NUM] tokens stands for. *)
Definition task_numbers (nums : list Token) : list Z :=
  (λ t, atoi (lexeme t)) <$> nums.

(** The state after the TASKS section: the flags of the listed tasks set,
    the input left at [rest]. *)
Definition tasks_selected (s : State) (nums rest : list Token) : State :=
  set_tokens rest (foldl (λ s task, select_task task s) s (task_numbers nums)).

(** *** Whole programs *)

(** The shape of a statement the parser builds: the right-hand side of an
    assignment is a call with at least one argument, and every argument
    has the shape of an argument. *)
Definition statement_shape (stmt : Statement) : Prop :=
  match stmt with
  | AssignStmt _ _ (CallExpr _ args) => args ≠ [] ∧ Forall is_argument args
  | AssignStmt _ _ _ => False
  | InputStmt _ | OutputStmt _ => True
  end.

(** [extends s s']: [s'] is reached from [s] by reading tokens; the
    findings added lie on lines of the tokens read; if the bodies stored
    in [s] hold no calls, neither do those stored in [s']; and if the
    statements collected in [s] have the shape above, so have those
    collected in [s']. *)
Definition extends (s s' : State) : Prop :=
  (∃ used errs,
     tokens s = used ++ tokens s' ∧
     semantic_errors s' = semantic_errors s ++ errs ∧
     findings_at (line_no <$> used) errs) ∧
  ((∀ n body, polyExprs s !! n = Some body → call_free body) →
   ∀ n body, polyExprs s' !! n = Some body → call_free body) ∧
  (Forall statement_shape (execStatements s) →
   Forall statement_shape (execStatements s')).

(** [progress s s']: [extends], and at least one token was read. *)
Definition progress (s s' : State) : Prop :=
  extends s s' ∧ length (tokens s') < length (tokens s).

(* ================================================================== *)
(** ** Sample programs, as the token streams the lexer delivers *)

Module Sample.

Definition tasks (ln : Z) : Token := mkToken TASKS "TASKS" ln.
Definition poly (ln : Z) : Token := mkToken POLY "POLY" ln.
Definition execute (ln : Z) : Token := mkToken EXECUTE "EXECUTE" ln.
Definition inputs (ln : Z) : Token := mkToken INPUTS "INPUTS" ln.
Definition input (ln : Z) : Token := mkToken INPUT "INPUT" ln.
Definition output (ln : Z) : Token := mkToken OUTPUT "OUTPUT" ln.
Definition num (lexeme : string) (ln : Z) : Token := mkToken NUM lexeme ln.
Definition id (lexeme : string) (ln : Z) : Token := mkToken ID lexeme ln.
Definition eq (ln : Z) : Token := mkToken EQUAL "=" ln.
Definition semi (ln : Z) : Token := mkToken SEMICOLON ";" ln.
Definition lp (ln : Z) : Token := mkToken LPAREN "(" ln.
Definition rp (ln : Z) : Token := mkToken RPAREN ")" ln.
Definition comma (ln : Z) : Token := mkToken COMMA "," ln.
Definition plus (ln : Z) : Token := mkToken PLUS "+" ln.
Definition minus (ln : Z) : Token := mkToken MINUS "-" ln.
Definition power (ln : Z) : Token := mkToken POWER "^" ln.

(** The round trip of the specification:
<<
TASKS 2
POLY
f(x) = x + 1;
EXECUTE
INPUT a;
b = f(a);
OUTPUT b;
INPUTS 5
>> *)
Definition round_trip : list Token :=
  [tasks 1; num "2" 1; poly 2;
   id "f" 3; lp 3; id "x" 3; rp 3; eq 3; id "x" 3; plus 3; num "1" 3; semi 3;
   execute 4; input 5; id "a" 5; semi 5;
   id "b" 6; eq 6; id "f" 6; lp 6; id "a" 6; rp 6; semi 6;
   output 7; id "b" 7; semi 7;
   inputs 8; num "5" 8]%Z.

(** A call with the wrong number of arguments, then a call of a name that
    is not declared:
<<
TASKS 1
POLY
F = x;
EXECUTE
a = F(1, 2);
b = G(1);
INPUTS 1
>> *)
Definition arity_then_undeclared : list Token :=
  [tasks 1; num "1" 1; poly 2;
   id "F" 3; eq 3; id "x" 3; semi 3;
   execute 4;
   id "a" 5; eq 5; id "F" 5; lp 5; num "1" 5; comma 5; num "2" 5; rp 5; semi 5;
   id "b" 6; eq 6; id "G" 6; lp 6; num "1" 6; rp 6; semi 6;
   inputs 7; num "1" 7]%Z.

(** The same two calls in the other order:
<<
TASKS 1
POLY
F = x;
EXECUTE
b = G(1);
a = F(1, 2);
INPUTS 1
>> *)
Definition undeclared_then_arity : list Token :=
  [tasks 1; num "1" 1; poly 2;
   id "F" 3; eq 3; id "x" 3; semi 3;
   execute 4;
   id "b" 5; eq 5; id "G" 5; lp 5; num "1" 5; rp 5; semi 5;
   id "a" 6; eq 6; id "F" 6; lp 6; num "1" 6; comma 6; num "2" 6; rp 6; semi 6;
   inputs 7; num "1" 7]%Z.

(** Two calls of undeclared names on one line:
<<
TASKS 1
POLY
F = x;
EXECUTE
a = G(H(1));
INPUTS 1
>> *)
Definition two_findings_one_line : list Token :=
  [tasks 1; num "1" 1; poly 2;
   id "F" 3; eq 3; id "x" 3; semi 3;
   execute 4;
   id "a" 5; eq 5; id "G" 5; lp 5; id "H" 5; lp 5; num "1" 5; rp 5; rp 5; semi 5;
   inputs 6; num "1" 6]%Z.

(** A name declared twice, the second time with two parameters:
<<
POLY
F = x;
F(a, b) = a;
>> *)
Definition declared_twice : list Token :=
  [id "F" 2; eq 2; id "x" 2; semi 2;
   id "F" 3; lp 3; id "a" 3; comma 3; id "b" 3; rp 3; eq 3; id "a" 3; semi 3]%Z.

(** The same declarations inside a whole program:
<<
TASKS 1
POLY
F = x;
F(a, b) = a;
EXECUTE
c = F(1);
INPUTS 1
>> *)
Definition declared_twice_program : list Token :=
  [tasks 1; num "1" 1; poly 1] ++ declared_twice ++
  [execute 4; id "c" 5; eq 5; id "F" 5; lp 5; num "1" 5; rp 5; semi 5;
   inputs 6; num "1" 6]%Z.

(** The argument list [( 1 + 2 )] of a call [F(1 + 2)], from its opening
    parenthesis on, and the bare expressions [1 + 2] and [( 1 )]. *)
Definition sum_expr : list Token := [num "1" 5; plus 5; num "2" 5]%Z.
Definition paren_expr : list Token := [lp 5; num "1" 5; rp 5]%Z.
Definition product_expr : list Token := [num "2" 5; id "a" 5]%Z.
Definition difference_expr : list Token := [id "a" 5; minus 5; num "1" 5]%Z.

(** The statement [a = F(<expr>);]. *)
Definition assign_call (expr : list Token) : list Token :=
  [id "a" 5; eq 5; id "F" 5; lp 5] ++ expr ++ [rp 5; semi 5]%Z.

(** A whole program whose only call has a sum as its argument:
<<
TASKS 1
POLY
F = x;
EXECUTE
a = F(1 + 2);
INPUTS 1
>> *)
Definition sum_argument_program : list Token :=
  [tasks 1; num "1" 1; poly 2; id "F" 3; eq 3; id "x" 3; semi 3;
   execute 4]%Z ++ assign_call sum_expr ++ [inputs 6; num "1" 6]%Z.

(** The nested call [F(G(1), b)]. *)
Definition nested_call : list Token :=
  [id "F" 5; lp 5; id "G" 5; lp 5; num "1" 5; rp 5; comma 5; id "b" 5; rp 5]%Z.

(** A declaration without parameter list whose body mentions [y]:
<<
G = x + 2 y x;
>> *)
Definition implicit_parameter : list Token :=
  [id "G" 3; eq 3; id "x" 3; plus 3; num "2" 3; id "y" 3; id "x" 3; semi 3]%Z.

(** A script with two [INPUT] statements and one input value:
<<
TASKS 2
POLY
f = x;
EXECUTE
INPUT a;
INPUT b;
OUTPUT a;
INPUTS 1
>> *)
Definition inputs_run_out : list Token :=
  [tasks 1; num "2" 1; poly 2; id "f" 3; eq 3; id "x" 3; semi 3;
   execute 4; input 5; id "a" 5; semi 5; input 6; id "b" 6; semi 6;
   output 7; id "a" 7; semi 7; inputs 8; num "1" 8]%Z.

End Sample.

(* ================================================================== *)
(** ** Notions used in the statements about execution *)

(** The values held for the names of a symbol table: for every name, the
    content of its slot. *)
Definition values_at (tbl : gmap string nat) (m : list Z) : gmap string Z :=
  omap (λ loc, m !! loc) tbl.

(** The values the script's variables hold. *)
Definition var_values (st : ExecState) : gmap string Z :=
  values_at (execSymbolTable st) (mem st).

(** What a variable reads as: the content of its slot, 0 for a name that
    has no slot yet. *)
Definition read_var (st : ExecState) (var : string) : Z :=
  default 0%Z (var_values st !! var).

(** The slots are handed out in order: [mem] keeps its 1000 cells, every
    slot in the table lies below the table's size, no two names share a
    slot, and the cells from the table's size on still hold the 0 they
    started with. *)
Definition slots_ok_at (tbl : gmap string nat) (m : list Z) : Prop :=
  length m = 1000 ∧
  size tbl ≤ 1000 ∧
  (∀ x i, tbl !! x = Some i → i < size tbl) ∧
  (∀ x y i, tbl !! x = Some i → tbl !! y = Some i → x = y) ∧
  (∀ i, size tbl ≤ i → i < 1000 → m !! i = Some 0%Z).

Definition slots_ok (st : ExecState) : Prop :=
  slots_ok_at (execSymbolTable st) (mem st).

Definition is_input (stmt : Statement) : bool :=
  match stmt with
  | InputStmt _ => true
  | OutputStmt _ | AssignStmt _ _ _ => false
  end.

Definition is_output (stmt : Statement) : bool :=
  match stmt with
  | OutputStmt _ => true
  | InputStmt _ | AssignStmt _ _ _ => false
  end.

(** The number of [Input] statements of a script. *)
Definition input_statements (stmts : list Statement) : nat :=
  length (filter (λ stmt, is_input stmt) stmts).

(** The number of [Output] statements of a script. *)
Definition output_statements (stmts : list Statement) : nat :=
  length (filter (λ stmt, is_output stmt) stmts).

(** The variable names a script mentions on the left of its statements. *)
Definition script_vars (stmts : list Statement) : gset string :=
  list_to_set (stmt_var <$> stmts).

(** Two execution states that went through the same inputs and printed the
    same lines, the second with no more names in its table than the first,
    and in which the names in [P] read the same. *)
Definition agree_on (P : string → Prop) (a b : ExecState) : Prop :=
  slots_ok a ∧ slots_ok b ∧
  dom (execSymbolTable b) ⊆ dom (execSymbolTable a) ∧
  nextInputIndex a = nextInputIndex b ∧ cout a = cout b ∧
  ∀ y, P y → read_var a y = read_var b y.

(* ================================================================== *)
(** ** Notions used in the statements about accepted programs *)

(** The lines of the variable occurrences whose names are not among
    [params]. *)
Definition free_lines (params : list string) (occs : list (string * Z)) : list Z :=
  (filter (λ o : string * Z, o.1 ∉ params) occs).*2.

(** A body all of whose variables are parameters. *)
Definition closed_body (params : list string) (body : Expr) : Prop :=
  ∀ o, o ∈ var_occurrences body → o.1 ∈ params.

(** What the parse functions of a polynomial body record: the lines of
    the variable nodes of the tree they return that are not parameters, in
    the order of the walk; the parameter list in force is left alone and at
    least one token is read. *)
Definition body_flagged (s : State) (e : Expr) (s' : State) : Prop :=
  invalid_monomial_lines s' =
    invalid_monomial_lines s
      ++ free_lines (current_poly_params s) (var_occurrences e) ∧
  current_poly_params s' = current_poly_params s ∧
  length (tokens s') < length (tokens s).

(** The same for the loops, which extend the tree [left] and may read
    nothing. *)
Definition body_loop_flagged (left : Expr) (s : State) (e : Expr) (s' : State)
    : Prop :=
  ∃ occs,
    var_occurrences e = var_occurrences left ++ occs ∧
    invalid_monomial_lines s' =
      invalid_monomial_lines s ++ free_lines (current_poly_params s) occs ∧
    current_poly_params s' = current_poly_params s ∧
    length (tokens s') ≤ length (tokens s).

(** Every call in the tree names a declared polynomial and has as many
    arguments as the declaration has parameters. *)
Fixpoint well_called (decls : gmap string (list string)) (e : Expr) : bool :=
  match e with
  | ConstExpr _ | VarExpr _ _ => true
  | AddExpr l r | SubExpr l r | MulExpr l r =>
      well_called decls l && well_called decls r
  | PowExpr base _ => well_called decls base
  | CallExpr name args =>
      match decls !! name with
      | Some params => bool_decide (length args = length params)
      | None => false
      end && forallb (well_called decls) args
  end.

Definition stmt_well_called (decls : gmap string (list string))
    (stmt : Statement) : bool :=
  match stmt with
  | AssignStmt _ _ rhs => well_called decls rhs
  | InputStmt _ | OutputStmt _ => true
  end.

(** [checked ok s s']: from [s] to [s'] the declarations stayed as they
    were and findings were added to [semantic_errors] exactly when [ok]
    is false. *)
Definition checked (ok : bool) (s s' : State) : Prop :=
  poly_declarations s' = poly_declarations s ∧
  ∃ errs, semantic_errors s' = semantic_errors s ++ errs ∧ (errs = [] ↔ ok).

(** The three tables of the POLY section hold the same names, and as long
    as no name was declared twice, the recorded invalid-monomial lines are
    the lines of the variables of the stored bodies that are not
    parameters of their polynomial. *)
Definition polys_ok (s : State) : Prop :=
  dom (poly_declarations s) = dom (polyExprs s) ∧
  dom (polyExprs s) = dom (poly_decl_first_line s) ∧
  (duplicate_decl_lines s = [] →
   ∀ ln, ln ∈ invalid_monomial_lines s ↔
         ∃ name body params o,
           polyExprs s !! name = Some body ∧
           poly_declarations s !! name = Some params ∧
           o ∈ var_occurrences body ∧ (o.1 ∉ params) ∧ o.2 = ln).

(** The tables of the POLY section are the same in both states. *)
Definition same_polys (s s' : State) : Prop :=
  poly_declarations s' = poly_declarations s ∧
  polyExprs s' = polyExprs s ∧
  poly_decl_first_line s' = poly_decl_first_line s ∧
  duplicate_decl_lines s' = duplicate_decl_lines s ∧
  invalid_monomial_lines s' = invalid_monomial_lines s.

(** The script, its findings and the inputs are the same in both states. *)
Definition same_script (s s' : State) : Prop :=
  execStatements s' = execStatements s ∧
  semantic_errors s' = semantic_errors s ∧
  execInputs s' = execInputs s.

(** What a run of declarations leaves behind. *)
Definition polys_step (s s' : State) : Prop :=
  (polys_ok s → polys_ok s') ∧
  dom (poly_decl_first_line s) ⊆ dom (poly_decl_first_line s') ∧
  same_script s s'.

(** What a run of statements leaves behind: the statements [new] joined
    the script, and findings were added exactly when one of them holds a
    call that does not fit the declarations. *)
Definition script_step (s s' : State) (new : list Statement) : Prop :=
  same_polys s s' ∧ execInputs s' = execInputs s ∧
  execStatements s' = execStatements s ++ new ∧
  ∃ errs, semantic_errors s' = semantic_errors s ++ errs ∧
          (errs = [] ↔ Forall (λ stmt, stmt_well_called (poly_declarations s) stmt) new).

(** What one statement leaves behind before it joins the script. *)
Definition statement_step (s : State) (stmt : Statement) (s' : State) : Prop :=
  same_polys s s' ∧ execInputs s' = execInputs s ∧
  execStatements s' = execStatements s ∧
  checked (stmt_well_called (poly_declarations s) stmt) s s'.

(** What a whole program leaves behind: the tables of the POLY section in
    order and not empty, at least one statement and one input, and
    findings exactly when a call does not fit the declarations. *)
Definition program_step (s s' : State) : Prop :=
  (polys_ok s → polys_ok s') ∧
  poly_decl_first_line s' ≠ ∅ ∧
  ∃ new vals errs,
    new ≠ [] ∧ vals ≠ [] ∧
    execStatements s' = execStatements s ++ new ∧
    execInputs s' = execInputs s ++ vals ∧
    semantic_errors s' = semantic_errors s ++ errs ∧
    (errs = [] ↔
     Forall (λ stmt, stmt_well_called (poly_declarations s') stmt) new).

(* ================================================================== *)
(** ** Notions used in the statements about the grammar *)

(** The tree of a single token, a numeral or an identifier. *)
Definition leaf (t : Token) : Expr :=
  if decide (token_type t = NUM) then ConstExpr (atoi (lexeme t))
  else VarExpr (lexeme t) (line_no t).

(** A factor as it is written in a monomial: an identifier, alone or with
    an exponent. *)
Inductive Factor : Type :=
  | Plain (id : Token)
  | Raised (id pow num : Token).

Definition factor_tokens (f : Factor) : list Token :=
  match f with
  | Plain id => [id]
  | Raised id pow num => [id; pow; num]
  end.

Definition factor_written (f : Factor) : Prop :=
  match f with
  | Plain id => token_type id = ID
  | Raised id pow num =>
      token_type id = ID ∧ token_type pow = POWER ∧ token_type num = NUM
  end.

Definition factor_tree (f : Factor) : Expr :=
  match f with
  | Plain id => VarExpr (lexeme id) (line_no id)
  | Raised id _ num =>
      PowExpr (VarExpr (lexeme id) (line_no id)) (atoi (lexeme num))
  end.

(** A monomial as it is written: a numeral followed by factors, or at
    least one factor. *)
Record Monomial : Type := mkMonomial {
  coefficient : option Token;
  factors : list Factor;
}.

Definition monomial_tokens (m : Monomial) : list Token :=
  match coefficient m with
  | Some c => [c]
  | None => []
  end ++ flat_map factor_tokens (factors m).

Definition monomial_written (m : Monomial) : Prop :=
  match coefficient m with
  | Some c => token_type c = NUM
  | None => factors m ≠ []
  end ∧ Forall factor_written (factors m).

(** The product of the coefficient and the factors, grouped from the
    left. *)
Definition monomial_tree (m : Monomial) : Expr :=
  match coefficient m, factors m with
  | Some c, fs => foldl MulExpr (ConstExpr (atoi (lexeme c))) (factor_tree <$> fs)
  | None, f :: fs => foldl MulExpr (factor_tree f) (factor_tree <$> fs)
  | None, [] => ConstExpr 0
  end.

(** A sum of monomials as it is written: a first monomial, and further
    ones each behind a plus sign. *)
Definition sum_tokens (first : Monomial) (more : list (Token * Monomial))
    : list Token :=
  monomial_tokens first ++ flat_map (λ pm, pm.1 :: monomial_tokens pm.2) more.

Definition sum_written (first : Monomial) (more : list (Token * Monomial)) : Prop :=
  monomial_written first ∧
  Forall (λ pm, token_type pm.1 = PLUS ∧ monomial_written pm.2) more.

(** The sum of the monomials, grouped from the left. *)
Definition sum_tree (first : Monomial) (more : list (Token * Monomial)) : Expr :=
  foldl (λ left pm, AddExpr left (monomial_tree pm.2)) (monomial_tree first) more.

(* ================================================================== *)
(** ** Notions used in the statements about evaluation *)

(** The value of a tree without calls in exact integer arithmetic: a
    variable without a value counts as 0, an exponent below 0 as the
    exponent 0. *)
Fixpoint exact_value (e : Expr) (env : gmap string Z) : Z :=
  match e with
  | ConstExpr value => value
  | VarExpr name _ => default 0 (env !! name)
  | AddExpr l r => exact_value l env + exact_value r env
  | SubExpr l r => exact_value l env - exact_value r env
  | MulExpr l r => exact_value l env * exact_value r env
  | PowExpr base exponent => exact_value base env ^ Z.max 0 exponent
  | CallExpr _ _ => 0
  end%Z.

(* ================================================================== *)
(** ** Parse functions that nothing calls *)

(** [Parser::parse_expr], [Parser::parse_term_expr] and
    [Parser::parse_factor], the general expression parser, with the
    [while] loops as functions of their own ([left] is the loop variable;
    [parse_term_expr] has one loop for each value of [in_poly_decl]). *)
Fixpoint parse_expr (fuel : nat) : M Expr :=
  match fuel with
  | O => out_of_fuel
  | S fuel =>
      left ← parse_term_expr fuel;
      left ← parse_expr_plus_loop fuel left;
      next ← peek 1;
      if decide (token_type next = MINUS) then
        expect MINUS;;
        right ← parse_expr fuel;
        mret (SubExpr left right)
      else mret left
  end
with parse_expr_plus_loop (fuel : nat) (left : Expr) : M Expr :=
  match fuel with
  | O => out_of_fuel
  | S fuel =>
      next ← peek 1;
      if decide (token_type next = PLUS) then
        expect PLUS;;
        right ← parse_term_expr fuel;
        parse_expr_plus_loop fuel (AddExpr left right)
      else mret left
  end
with parse_term_expr (fuel : nat) : M Expr :=
  match fuel with
  | O => out_of_fuel
  | S fuel =>
      left ← parse_factor fuel;
      in_decl ← gets (λ s, in_poly_decl s);
      if (in_decl : bool) then parse_term_expr_decl_loop fuel left
      else parse_term_expr_exec_loop fuel left
  end
with parse_term_expr_decl_loop (fuel : nat) (left : Expr) : M Expr :=
  match fuel with
  | O => out_of_fuel
  | S fuel =>
      next ← peek 1;
      if starts_factor next then
        right ← parse_factor fuel;
        parse_term_expr_decl_loop fuel (MulExpr left right)
      else mret left
  end
with parse_term_expr_exec_loop (fuel : nat) (left : Expr) : M Expr :=
  match fuel with
  | O => out_of_fuel
  | S fuel =>
      t ← peek 1;
      if starts_factor t then
        match left with
        | CallExpr _ _ => mret left
        | _ =>
            right ← parse_factor fuel;
            parse_term_expr_exec_loop fuel (MulExpr left right)
        end
      else mret left
  end
with parse_factor (fuel : nat) : M Expr :=
  match fuel with
  | O => out_of_fuel
  | S fuel =>
      t ← peek 1;
      '(expr, wasParen) ←
        (if decide (token_type t = NUM) then
           t ← expect NUM;
           mret (ConstExpr (atoi (lexeme t)), false)
         else if decide (token_type t = ID) then
           let idToken := t in
           expect ID;;
           in_decl ← gets (λ s, in_poly_decl s);
           if (in_decl : bool) then
             current ← gets (λ s, current_poly_params s);
             (if decide (lexeme idToken ∈ current) then mret ()
              else modify (λ s, set_invalid_monomial_lines
                                  (invalid_monomial_lines s ++ [line_no idToken]) s));;
             mret (VarExpr (lexeme idToken) (line_no idToken), false)
           else
             next ← peek 1;
             if decide (token_type next = LPAREN) then
               expr ← parse_call_expr_from_token fuel idToken;
               mret (expr, false)
             else mret (VarExpr (lexeme idToken) (line_no idToken), false)
         else if decide (token_type t = LPAREN) then
           expect LPAREN;;
           expr ← parse_expr fuel;
           expect RPAREN;;
           mret (expr, true)
         else syntax_error);
      t ← peek 1;
      if decide (token_type t = POWER) then
        expect POWER;;
        num ← expect NUM;
        mret (PowExpr expr (atoi (lexeme num)))
      else
        in_decl ← gets (λ s, in_poly_decl s);
        if in_decl && wasParen && bool_decide (token_type t = NUM)
        then syntax_error
        else mret expr
  end.

(** [Parser::parse_argument], [Parser::parse_poly_evaluation] and
    [Parser::parse_argument_list], the older recognizer of call arguments,
    which builds no tree; [actual_params] is the loop variable of the
    [while] loop of [parse_argument_list].  ([Parser::parse_call_expr],
    the fourth unused function, is declared to return a [Statement*] and
    returns a [CallExpr*]; it has no counterpart here.) *)
Fixpoint parse_argument (fuel : nat) : M unit :=
  match fuel with
  | O => out_of_fuel
  | S fuel =>
      t ← peek 1;
      if decide (token_type t = ID) then
        t2 ← peek 2;
        if decide (token_type t2 = LPAREN) then
          parse_poly_evaluation fuel;; mret ()
        else expect ID;; mret ()
      else if decide (token_type t = NUM) then
        expect NUM;; mret ()
      else syntax_error
  end
with parse_poly_evaluation (fuel : nat) : M string :=
  match fuel with
  | O => out_of_fuel
  | S fuel =>
      t ← expect ID;
      let poly_name := lexeme t in
      let eval_line := line_no t in
      modify (λ s, set_used_polynomials ({[poly_name]} ∪ used_polynomials s) s);;
      expect LPAREN;;
      parse_argument_list fuel poly_name eval_line;;
      expect RPAREN;;
      mret poly_name
  end
with parse_argument_list (fuel : nat) (poly_name : string) (eval_line : Z)
    : M unit :=
  match fuel with
  | O => out_of_fuel
  | S fuel =>
      declarations ← gets (λ s, poly_declarations s);
      let undeclared := bool_decide (declarations !! poly_name = None) in
      (if undeclared then
         modify (λ s, set_semantic_errors
           (semantic_errors s ++
              ["Semantic Error Code 3: " +:+ to_string eval_line]) s)
       else mret ());;
      let expected_params :=
        if undeclared then 0 else length (default [] (declarations !! poly_name)) in
      parse_argument fuel;;
      actual_params ← parse_argument_list_loop fuel 1;
      if negb undeclared && bool_decide (actual_params ≠ expected_params) then
        modify (λ s, set_semantic_errors
          (semantic_errors s ++
             ["Semantic Error Code 4: " +:+ to_string eval_line]) s)
      else mret ()
  end
with parse_argument_list_loop (fuel : nat) (actual_params : nat) : M nat :=
  match fuel with
  | O => out_of_fuel
  | S fuel =>
      t ← peek 1;
      if decide (token_type t = COMMA) then
        expect COMMA;;
        parse_argument fuel;;
        parse_argument_list_loop fuel (S actual_params)
      else mret actual_params
  end.

(* ================================================================== *)
(** ** Notions used in the statements about these functions *)

(** The second state is the first one but for two fields: its findings are
    the first state's and [pending], in some order, and it may hold more
    names in [used_polynomials]. *)
Definition same_reading (pending : list string) (s1 s2 : State) : Prop :=
  ∃ (findings : list string) (used : gset string),
    findings ≡ₚ pending ++ semantic_errors s1 ∧
    used_polynomials s1 ⊆ used ∧
    s2 = set_used_polynomials used (set_semantic_errors findings s1).

(** Two runs end alike: both in a syntax error, or both returning, with
    results and states related by [Q]. *)
Definition both {A B : Type} (Q : A → State → B → State → Prop)
    (r1 : Res A) (r2 : Res B) : Prop :=
  match r1, r2 with
  | Ok a s1, Ok b s2 => Q a s1 b s2
  | SyntaxError, SyntaxError => True
  | _, _ => False
  end.

(** What the check at the end of a call adds to [semantic_errors]. *)
Definition call_findings (declarations : gmap string (list string))
    (polyName : string) (eval_line : Z) (nargs : nat) : list string :=
  match declarations !! polyName with
  | Some params =>
      if decide (nargs = length params) then []
      else ["Semantic Error Code 4: " +:+ to_string eval_line]
  | None => ["Semantic Error Code 3: " +:+ to_string eval_line]
  end.

(** The next token of the input is a power sign. *)
Definition power_follows (s : State) : Prop :=
  ∃ t, head (tokens s) = Some t ∧ token_type t = POWER.

(* ================================================================== *)
(** * Theorems *)

(** ** Induction over expression trees *)

(** The induction principle that reaches the arguments of a call. *)
Lemma Expr_ind (P : Expr → Prop)
    (Hconst : ∀ value, P (ConstExpr value))
    (Hvar : ∀ name line_no, P (VarExpr name line_no))
    (Hadd : ∀ l r, P l → P r → P (AddExpr l r))
    (Hsub : ∀ l r, P l → P r → P (SubExpr l r))
    (Hmul : ∀ l r, P l → P r → P (MulExpr l r))
    (Hpow : ∀ base exponent, P base → P (PowExpr base exponent))
    (Hcall : ∀ polyName args, Forall P args → P (CallExpr polyName args)) :
  ∀ e, P e.
Proof.
  fix IH 1. intros [v|n ln|l r|l r|l r|b ex|p args].
  - apply Hconst.
  - apply Hvar.
  - apply Hadd; apply IH.
  - apply Hsub; apply IH.
  - apply Hmul; apply IH.
  - apply Hpow; apply IH.
  - apply Hcall. induction args as [|a args IHargs]; constructor.
    + apply IH.
    + apply IHargs.
Qed.

(** ** Machine integers *)

Lemma wrap_in_range z : Int.in_range z → Int.wrap z = z.
Proof.
  unfold Int.in_range, Int.wrap, Int.half_modulus, Int.modulus. intros Hz.
  rewrite Z.mod_small by lia. lia.
Qed.

Lemma wrap_congruent z : ∃ k : Z, Int.wrap z = (z + k * Int.modulus)%Z.
Proof.
  exists (- ((z + Int.half_modulus) `div` Int.modulus))%Z.
  unfold Int.wrap. rewrite Z.mod_eq by (unfold Int.modulus; lia). lia.
Qed.

Lemma wrap_mul_wrap_l a b : Int.wrap (Int.wrap a * b) = Int.wrap (a * b).
Proof.
  destruct (wrap_congruent a) as [k ->]. unfold Int.wrap.
  replace ((a + k * Int.modulus) * b + Int.half_modulus)%Z
    with (a * b + Int.half_modulus + (k * b) * Int.modulus)%Z by lia.
  rewrite Z.mod_add by (unfold Int.modulus; lia). done.
Qed.

(** The multiplication loop of a power computes the power, truncated to
    [int]; it does not run for an exponent below 1. *)
Lemma pow_loop_spec exponent bval :
  (0 ≤ exponent)%Z → pow_loop exponent bval = Int.wrap (bval ^ exponent).
Proof.
  intros Hexp. unfold pow_loop.
  rewrite <-(Z2Nat.id exponent) at 2 by done.
  induction (Z.to_nat exponent) as [|n IH]; [done|].
  rewrite Nat2Z.inj_succ, Z.pow_succ_r by lia. simpl. rewrite IH.
  unfold Int.mul. rewrite wrap_mul_wrap_l. f_equal. lia.
Qed.

Lemma pow_loop_nonpos exponent bval :
  (exponent ≤ 0)%Z → pow_loop exponent bval = 1%Z.
Proof.
  intros Hexp. unfold pow_loop. by replace (Z.to_nat exponent) with 0%nat by lia.
Qed.

(** ** Sorting *)

Lemma sort_lines_Sorted lines : Sorted Z.le (sort_lines lines).
Proof. apply (Sorted_merge_sort Z.le). Qed.

Lemma sort_lines_Permutation lines : sort_lines lines ≡ₚ lines.
Proof. apply (merge_sort_Permutation Z.le). Qed.

#[global] Instance pair_le_total : Total pair_le.
Proof.
  intros [l1 n1] [l2 n2]. unfold pair_le. simpl.
  destruct (Z.lt_trichotomy l1 l2) as [?|[->|?]]; [by left; left| |by right; left].
  destruct (total String.le n1 n2); [left|right]; by right.
Qed.

Lemma polyOrder_Sorted first_line : Sorted pair_le (polyOrder first_line).
Proof. apply (Sorted_merge_sort pair_le). Qed.

Lemma polyOrder_Permutation (first_line : gmap string Z) :
  polyOrder first_line ≡ₚ (λ entry, (entry.2, entry.1)) <$> map_to_list first_line.
Proof. apply (merge_sort_Permutation pair_le). Qed.

(** ** Degree *)

Lemma computeDegree_degree e : degree_fits e → computeDegree e = degree e.
Proof.
  induction e as [v|n ln|l r IHl IHr|l r IHl IHr|l r IHl IHr|b ex IHb|p args _]
    using Expr_ind; simpl; try done.
  - intros [??]. by rewrite IHl, IHr.
  - intros [??]. by rewrite IHl, IHr.
  - intros (?&?&?). rewrite IHl, IHr by done. by apply wrap_in_range.
  - intros [??]. rewrite IHb by done. by apply wrap_in_range.
Qed.

(** C5: the degree function follows the seven equations, the sum and the
    product being those of [int]; where nothing overflows it is the degree
    over the integers; and the report holds one line [name: degree] for
    every entry of the first-declaration table, in ascending order of the
    declaration line, the degree printed being the one [computeDegree]
    gives for the body stored under the name (0 for a name without a
    body), which is the degree over the integers when no stored body
    overflows. *)
Theorem degree_report_spec :
  (∀ value, computeDegree (ConstExpr value) = 0%Z) ∧
  (∀ name ln, computeDegree (VarExpr name ln) = 1%Z) ∧
  (∀ l r, computeDegree (AddExpr l r) = Z.max (computeDegree l) (computeDegree r)) ∧
  (∀ l r, computeDegree (SubExpr l r) = Z.max (computeDegree l) (computeDegree r)) ∧
  (∀ l r, computeDegree (MulExpr l r) = Int.add (computeDegree l) (computeDegree r)) ∧
  (∀ base e, computeDegree (PowExpr base e) = Int.mul (computeDegree base) e) ∧
  (∀ callee args, computeDegree (CallExpr callee args) = 0%Z) ∧
  (∀ e, degree_fits e → computeDegree e = degree e) ∧
  (∀ (first_line : gmap string Z) (bodies : gmap string Expr),
     ∃ order : list (Z * string),
       order.*2 ≡ₚ (map_to_list first_line).*1 ∧
       Forall (λ p, first_line !! p.2 = Some p.1) order ∧
       Sorted Z.le order.*1 ∧
       outputPolynomialDegrees first_line bodies =
         (λ p : Z * string,
            p.2 +:+ ": " +:+
            to_string (match bodies !! p.2 with
                       | Some body => computeDegree body
                       | None => 0%Z
                       end))
           <$> order ∧
       ((∀ name body, bodies !! name = Some body → degree_fits body) →
        outputPolynomialDegrees first_line bodies =
          (λ p : Z * string,
             p.2 +:+ ": " +:+
             to_string (match bodies !! p.2 with
                        | Some body => degree body
                        | None => 0%Z
                        end))
            <$> order)).
Proof.
  repeat split; try done.
  - apply computeDegree_degree.
  - intros first_line bodies. exists (polyOrder first_line).
    pose proof (polyOrder_Permutation first_line) as Hperm.
    split_and!.
    + rewrite Hperm, <-!list_fmap_compose. done.
    + rewrite Forall_forall. intros [ln n] Hin. simpl.
      rewrite Hperm in Hin. apply list_elem_of_fmap in Hin as ([n' ln'] & [= -> ->] & Hin).
      by apply elem_of_map_to_list in Hin.
    + apply (Sorted_fmap fst pair_le Z.le).
      * intros p q [?|[-> _]]; lia.
      * apply polyOrder_Sorted.
    + unfold outputPolynomialDegrees. apply list_fmap_ext. intros _ p _.
      by destruct (bodies !! p.2).
    + intros Hfits. unfold outputPolynomialDegrees. apply list_fmap_ext.
      intros _ p _. destruct (bodies !! p.2) as [body|] eqn:Hbody; simpl; [|done].
      by rewrite computeDegree_degree by by eapply Hfits.
Qed.

(** The examples of the specification, run through [computeDegree], and
    the report for [g = x^3;] declared on line 2 and [f = (x + 1)(x - 1);]
    declared on line 3. *)
Lemma degree_report_spec_witness :
  computeDegree (MulExpr (AddExpr (VarExpr "x" 1) (ConstExpr 1))
                         (SubExpr (VarExpr "x" 1) (ConstExpr 1))) = 2%Z ∧
  computeDegree (PowExpr (VarExpr "x" 1) 3) = 3%Z ∧
  computeDegree (ConstExpr 2) = 0%Z ∧
  let first_line : gmap string Z := {["f" := 3%Z; "g" := 2%Z]} in
  let bodies : gmap string Expr :=
    {["f" := MulExpr (AddExpr (VarExpr "x" 3) (ConstExpr 1))
                     (SubExpr (VarExpr "x" 3) (ConstExpr 1));
      "g" := PowExpr (VarExpr "x" 2) 3]} in
  outputPolynomialDegrees first_line bodies = ["g: 3"; "f: 2"] ∧
  ∃ order : list (Z * string),
    Sorted Z.le order.*1 ∧
    ["g: 3"; "f: 2"] =
      (λ p : Z * string,
         p.2 +:+ ": " +:+
         to_string (match bodies !! p.2 with
                    | Some body => degree body
                    | None => 0%Z
                    end))
        <$> order.
Proof.
  pose proof degree_report_spec as (_&_&_&_&_&_&_&Hfits&Hreport).
  split_and!.
  - rewrite Hfits; [reflexivity|]. simpl. unfold Int.in_range. simpl.
    repeat split; vm_compute; congruence.
  - rewrite Hfits; [reflexivity|]. simpl. unfold Int.in_range. simpl.
    repeat split; vm_compute; congruence.
  - rewrite Hfits; [reflexivity|]. done.
  - intros first_line bodies.
    assert (outputPolynomialDegrees first_line bodies = ["g: 3"; "f: 2"]) as Hout
      by (vm_compute; reflexivity).
    split; [exact Hout|].
    destruct (Hreport first_line bodies) as (order & _ & _ & Hsorted & _ & Hdegree).
    exists order. split; [exact Hsorted|]. rewrite <-Hout. apply Hdegree.
    intros name body Hbody.
    apply lookup_insert_Some in Hbody as [[_ <-]|[_ Hbody]].
    + simpl. unfold Int.in_range. repeat split; vm_compute; congruence.
    + apply lookup_singleton_Some in Hbody as [_ <-].
      simpl. unfold Int.in_range. repeat split; vm_compute; congruence.
Defined.

(** ** Evaluation *)

Section evaluate_facts.
Context (decls : gmap string (list string)) (bodies : gmap string Expr).

#[local] Abbreviation eval := (evaluate decls bodies).

Lemma evaluate_const depth value env : eval depth (ConstExpr value) env = Some value.
Proof. by destruct depth. Qed.

Lemma evaluate_var depth name ln env :
  eval depth (VarExpr name ln) env = Some (default 0%Z (env !! name)).
Proof. by destruct depth. Qed.

Lemma evaluate_add depth l r env :
  eval depth (AddExpr l r) env =
    a ← eval depth l env; b ← eval depth r env; Some (Int.add a b).
Proof. by destruct depth. Qed.

Lemma evaluate_sub depth l r env :
  eval depth (SubExpr l r) env =
    a ← eval depth l env; b ← eval depth r env; Some (Int.sub a b).
Proof. by destruct depth. Qed.

Lemma evaluate_mul depth l r env :
  eval depth (MulExpr l r) env =
    a ← eval depth l env; b ← eval depth r env; Some (Int.mul a b).
Proof. by destruct depth. Qed.

Lemma evaluate_pow depth base exponent env :
  eval depth (PowExpr base exponent) env =
    bval ← eval depth base env; Some (pow_loop exponent bval).
Proof. by destruct depth. Qed.

Lemma evaluate_call depth callee args env :
  eval depth (CallExpr callee args) env =
    argVals ← mapM (λ a, eval depth a env) args;
    evaluatePolyCall decls bodies depth callee argVals.
Proof. by destruct depth. Qed.

(** A tree without calls evaluates at any depth, in any environment. *)
Lemma evaluate_call_free depth e env :
  call_free e → is_Some (eval depth e env).
Proof.
  induction e as [v|n ln|l r IHl IHr|l r IHl IHr|l r IHl IHr|b ex IHb|p args _]
    using Expr_ind; simpl; intros Hfree.
  - by rewrite evaluate_const.
  - by rewrite evaluate_var.
  - apply andb_True in Hfree as [[a Ha]%IHl [b Hb]%IHr].
    rewrite evaluate_add, Ha, Hb. by eexists.
  - apply andb_True in Hfree as [[a Ha]%IHl [b Hb]%IHr].
    rewrite evaluate_sub, Ha, Hb. by eexists.
  - apply andb_True in Hfree as [[a Ha]%IHl [b Hb]%IHr].
    rewrite evaluate_mul, Ha, Hb. by eexists.
  - apply IHb in Hfree as [a Ha]. rewrite evaluate_pow, Ha. by eexists.
  - done.
Qed.

(** When the stored bodies hold no calls, one level of depth evaluates
    every tree. *)
Lemma evaluate_total depth e env :
  (∀ n body, bodies !! n = Some body → call_free body) →
  is_Some (eval (S depth) e env).
Proof.
  intros Hbodies. revert env.
  induction e as [v|n ln|l r IHl IHr|l r IHl IHr|l r IHl IHr|b ex IHb|p args IHargs]
    using Expr_ind; intros env.
  - by rewrite evaluate_const.
  - by rewrite evaluate_var.
  - destruct (IHl env) as [a Ha], (IHr env) as [b Hb].
    rewrite evaluate_add, Ha, Hb. by eexists.
  - destruct (IHl env) as [a Ha], (IHr env) as [b Hb].
    rewrite evaluate_sub, Ha, Hb. by eexists.
  - destruct (IHl env) as [a Ha], (IHr env) as [b Hb].
    rewrite evaluate_mul, Ha, Hb. by eexists.
  - destruct (IHb env) as [a Ha]. rewrite evaluate_pow, Ha. by eexists.
  - rewrite evaluate_call.
    assert (is_Some (mapM (λ a, eval (S depth) a env) args)) as [vs ->].
    { apply mapM_is_Some. eapply Forall_impl; [exact IHargs|]. intros a Ha. apply Ha. }
    simpl. unfold evaluatePolyCall_with.
    destruct (decls !! p) as [params|]; [|by eexists].
    destruct (bodies !! p) as [body|] eqn:Hbody; [|by eexists].
    apply evaluate_call_free. by eapply Hbodies.
Qed.
End evaluate_facts.

(** A name outside the parameter list keeps what the environment held. *)
Lemma bind_params_lookup_other i params args env y :
  y ∉ params → bind_params i params args env !! y = env !! y.
Proof.
  revert i env. induction params as [|p params IH]; intros i env Hy; [done|].
  apply not_elem_of_cons in Hy as [Hne Hy]. simpl.
  rewrite IH by done. by rewrite lookup_insert_ne.
Qed.

(** The parameter at position [j] is bound to argument [i + j], or to zero
    when there is no such argument, unless the name occurs again later in
    the list. *)
Lemma bind_params_lookup i params args env j p :
  params !! j = Some p → p ∉ drop (S j) params →
  bind_params i params args env !! p = Some (default 0%Z (args !! (i + j)%nat)).
Proof.
  revert i env j. induction params as [|q params IH]; intros i env j Hj Hlast; [done|].
  destruct j as [|j]; simpl in *.
  - injection Hj as ->. rewrite drop_0 in Hlast.
    rewrite bind_params_lookup_other by done.
    by rewrite lookup_insert_eq, Nat.add_0_r.
  - rewrite (IH (S i) _ j) by done. do 3 f_equal. lia.
Qed.

(** C6: a call evaluates its arguments in the caller's environment, binds
    the values by position to the callee's parameters with zero for the
    missing ones, and evaluates the callee's body in that binding alone; a
    power is the base's value multiplied [e] times into 1, which leaves 1
    for the exponent 0; a call of a name without declaration or body is
    zero. *)
Theorem call_evaluation_spec (decls : gmap string (list string))
    (bodies : gmap string Expr) :
  (∀ depth callee args env,
     evaluate decls bodies (S depth) (CallExpr callee args) env =
       argVals ← mapM (λ a, evaluate decls bodies (S depth) a env) args;
       match decls !! callee, bodies !! callee with
       | Some params, Some body =>
           evaluate decls bodies depth body (bind_params 0 params argVals ∅)
       | _, _ => Some 0%Z
       end) ∧
  (∀ params argVals j p,
     params !! j = Some p → p ∉ drop (S j) params →
     bind_params 0 params argVals ∅ !! p = Some (default 0%Z (argVals !! j))) ∧
  (∀ params argVals y depth ln,
     y ∉ params →
     bind_params 0 params argVals ∅ !! y = None ∧
     evaluate decls bodies depth (VarExpr y ln) (bind_params 0 params argVals ∅)
       = Some 0%Z) ∧
  (∀ depth callee args env1 env2,
     mapM (λ a, evaluate decls bodies depth a env1) args
       = mapM (λ a, evaluate decls bodies depth a env2) args →
     evaluate decls bodies depth (CallExpr callee args) env1
       = evaluate decls bodies depth (CallExpr callee args) env2) ∧
  (∀ depth callee args env argVals,
     decls !! callee = None ∨ bodies !! callee = None →
     mapM (λ a, evaluate decls bodies depth a env) args = Some argVals →
     evaluate decls bodies depth (CallExpr callee args) env = Some 0%Z) ∧
  (∀ depth base e env,
     evaluate decls bodies depth (PowExpr base e) env =
       bval ← evaluate decls bodies depth base env; Some (pow_loop e bval)) ∧
  (∀ e bval, (0 ≤ e)%Z → pow_loop e bval = Int.wrap (bval ^ e)) ∧
  (∀ e bval, (e ≤ 0)%Z → pow_loop e bval = 1%Z) ∧
  ((∀ n body, bodies !! n = Some body → call_free body) →
   ∀ depth e env, is_Some (evaluate decls bodies (S depth) e env)).
Proof.
  split_and!.
  - intros. by rewrite evaluate_call.
  - intros params argVals j p Hj Hlast.
    by rewrite (bind_params_lookup 0 params argVals ∅ j p).
  - intros params argVals y depth ln Hy.
    rewrite evaluate_var, bind_params_lookup_other by done. by rewrite lookup_empty.
  - intros depth callee args env1 env2 Hargs. by rewrite !evaluate_call, Hargs.
  - intros depth callee args env argVals Hmissing Hargs.
    rewrite evaluate_call, Hargs. simpl.
    destruct depth; simpl; unfold evaluatePolyCall_with;
      destruct Hmissing as [-> | ->]; try done; by destruct (decls !! callee).
  - intros. apply evaluate_pow.
  - apply pow_loop_spec.
  - apply pow_loop_nonpos.
  - intros Hbodies depth e env. by apply evaluate_total.
Qed.

(** [f(x, y) = x - y] called as [f(a, 7)] where [a] is 10 and the caller
    also holds a variable [y]: the result is 3, the caller's [y] plays no
    part; and [x ^ 3] at 2 is 8. *)
Lemma call_evaluation_spec_witness :
  let decls : gmap string (list string) := {["f" := ["x"; "y"]]} in
  let bodies : gmap string Expr :=
    {["f" := SubExpr (VarExpr "x" 1) (VarExpr "y" 1)]} in
  let env : gmap string Z := <["a" := 10%Z]> (<["y" := 100%Z]> ∅) in
  evaluate decls bodies 1 (CallExpr "f" [VarExpr "a" 2; ConstExpr 7]) env
    = Some 3%Z ∧
  bind_params 0 ["x"; "y"] [10%Z] ∅ !! "y" = Some 0%Z ∧
  evaluate decls bodies 1 (CallExpr "g" [VarExpr "a" 2]) env = Some 0%Z ∧
  pow_loop 3 2 = 8%Z ∧
  is_Some (evaluate decls bodies 1 (CallExpr "f" [CallExpr "f" [ConstExpr 1]]) env).
Proof.
  intros decls bodies env.
  destruct (call_evaluation_spec decls bodies)
    as (Hcall & Hbind & _ & _ & Hmissing & _ & Hpow & _ & Htotal).
  split_and!.
  - rewrite Hcall. reflexivity.
  - rewrite (Hbind ["x"; "y"] [10%Z] 1%nat "y"); [reflexivity|reflexivity|].
    simpl. apply not_elem_of_nil.
  - apply (Hmissing 1%nat "g" [VarExpr "a" 2] env [10%Z]); [by left|reflexivity].
  - rewrite Hpow by lia. reflexivity.
  - apply Htotal. intros n body Hn.
    destruct (decide (n = "f")) as [->|Hne].
    + unfold bodies in Hn. rewrite lookup_singleton_eq in Hn. by injection Hn as <-.
    + unfold bodies in Hn. by rewrite lookup_singleton_ne in Hn.
Defined.

(** The depth [main] evaluates with is enough once the bodies hold no
    calls. *)
Lemma evaluation_depth_suffices (decls : gmap string (list string))
    (bodies : gmap string Expr) e env :
  (∀ n body, bodies !! n = Some body → call_free body) →
  is_Some (evaluate decls bodies evaluation_depth e env).
Proof. intros Hbodies. by apply evaluate_total. Qed.

(** ** Uninitialized use *)

(** One walk adds the lines of the variables outside [initVars], in walk
    order, behind what [warnings] held. *)
Lemma check_expr_for_uninit_spec e initVars warnings :
  check_expr_for_uninit e initVars warnings =
    warnings ++ (filter (λ o : string * Z, o.1 ∉ initVars) (var_occurrences e)).*2.
Proof.
  revert warnings.
  induction e as [v|n ln|l r IHl IHr|l r IHl IHr|l r IHl IHr|b ex IHb|p args IHargs]
    using Expr_ind; intros w; simpl.
  - by rewrite app_nil_r.
  - rewrite filter_cons, filter_nil. simpl.
    destruct (decide (n ∈ initVars)), (decide (n ∉ initVars)); try done.
    by rewrite app_nil_r.
  - by rewrite IHl, IHr, filter_app, fmap_app, app_assoc.
  - by rewrite IHl, IHr, filter_app, fmap_app, app_assoc.
  - by rewrite IHl, IHr, filter_app, fmap_app, app_assoc.
  - apply IHb.
  - revert w. induction IHargs as [|a args Ha _ IH]; intros w; simpl.
    + by rewrite app_nil_r.
    + by rewrite IH, Ha, filter_app, fmap_app, app_assoc.
Qed.

Lemma initialized_by_snoc_input pre v :
  initialized_by (pre ++ [InputStmt v]) = {[v]} ∪ initialized_by pre.
Proof.
  unfold initialized_by. rewrite omap_app, list_to_set_app_L. simpl. set_solver.
Qed.

Lemma initialized_by_snoc_assign pre v ln rhs :
  initialized_by (pre ++ [AssignStmt v ln rhs]) = {[v]} ∪ initialized_by pre.
Proof.
  unfold initialized_by. rewrite omap_app, list_to_set_app_L. simpl. set_solver.
Qed.

Lemma initialized_by_snoc_output pre v :
  initialized_by (pre ++ [OutputStmt v]) = initialized_by pre.
Proof.
  unfold initialized_by. rewrite omap_app, list_to_set_app_L. simpl. set_solver.
Qed.

(** The scan, started behind a prefix [pre] that has been scanned. *)
Lemma uninit_scan_from pre stmts warnings :
  foldl (λ '(initializedVars, warningLines) stmt,
           match stmt with
           | InputStmt var => ({[var]} ∪ initializedVars, warningLines)
           | AssignStmt var _ rhs =>
               ({[var]} ∪ initializedVars,
                check_expr_for_uninit rhs initializedVars warningLines)
           | OutputStmt _ => (initializedVars, warningLines)
           end)
        (initialized_by pre, warnings) stmts
  = (initialized_by (pre ++ stmts),
     warnings ++ flat_map (uninit_at (pre ++ stmts))
                          (seq (length pre) (length stmts))).
Proof.
  revert pre warnings. induction stmts as [|s stmts IH]; intros pre w.
  { simpl. by rewrite !app_nil_r. }
  assert (uninit_at (pre ++ s :: stmts) (length pre) =
          match s with
          | AssignStmt _ _ rhs =>
              (filter (λ o : string * Z, o.1 ∉ initialized_by pre)
                      (var_occurrences rhs)).*2
          | _ => []
          end) as Hat.
  { unfold uninit_at. rewrite list_lookup_middle by done.
    by rewrite take_app_length. }
  cbn [foldl seq flat_map length]. rewrite Hat.
  replace (pre ++ s :: stmts) with ((pre ++ [s]) ++ stmts) by by rewrite <-app_assoc.
  replace (S (length pre)) with (length (pre ++ [s])) by (rewrite length_app; simpl; lia).
  destruct s as [v|v|v ln rhs].
  - rewrite <-initialized_by_snoc_input. by rewrite IH.
  - rewrite <-(initialized_by_snoc_output pre v) at 1. by rewrite IH.
  - rewrite <-(initialized_by_snoc_assign pre v ln rhs) at 1.
    rewrite check_expr_for_uninit_spec, IH. by rewrite app_assoc.
Qed.

Lemma uninit_scan_spec stmts :
  uninit_scan stmts = (initialized_by stmts, uninit_spec stmts).
Proof. apply (uninit_scan_from [] stmts []). Qed.

(** [Output] statements play no part in the scan. *)
Lemma uninit_scan_filter_output stmts :
  uninit_scan (filter not_output stmts) = uninit_scan stmts.
Proof.
  unfold uninit_scan. generalize (∅ : gset string, [] : list Z).
  induction stmts as [|s stmts IH]; intros acc; [done|].
  destruct s as [v|v|v ln rhs]; rewrite ?filter_cons_True, ?filter_cons_False by (simpl; tauto);
    simpl; rewrite IH; by destruct acc.
Qed.

(** C7: the scan keeps the set of the names initialized so far, adds a
    statement's name only after its right-hand side is checked, records
    the line of every variable of an assignment's right-hand side that is
    not initialized yet, skips [Output] statements, and prints the sorted
    lines behind one label when there are any. *)
Theorem uninitialized_warnings_spec (stmts : list Statement) :
  (uninit_scan stmts).1 = initialized_by stmts ∧
  (uninit_scan stmts).2 = uninit_spec stmts ∧
  (∀ i v ln rhs, stmts !! i = Some (AssignStmt v ln rhs) →
     uninit_at stmts i =
       (filter (λ o : string * Z, o.1 ∉ (uninit_scan (take i stmts)).1)
               (var_occurrences rhs)).*2) ∧
  (uninit_scan (filter not_output stmts)).2 = (uninit_scan stmts).2 ∧
  ∃ sorted : list Z,
    Sorted Z.le sorted ∧ sorted ≡ₚ uninit_spec stmts ∧
    checkUninitializedWarnings stmts =
      if decide (uninit_spec stmts = []) then []
      else [print_lines "Warning Code 1:" sorted].
Proof.
  split_and!.
  - by rewrite uninit_scan_spec.
  - by rewrite uninit_scan_spec.
  - intros i v ln rhs Hi. unfold uninit_at. by rewrite Hi, uninit_scan_spec.
  - by rewrite uninit_scan_filter_output.
  - exists (sort_lines (uninit_spec stmts)). split_and!.
    + apply sort_lines_Sorted.
    + apply sort_lines_Permutation.
    + unfold checkUninitializedWarnings. by rewrite uninit_scan_spec.
Qed.

(** [a = f(b); OUTPUT a;] with [b] never initialized: one warning, at the
    line of the [b] in the assignment. *)
Lemma uninitialized_warnings_spec_witness :
  let stmts := [AssignStmt "a" 1 (CallExpr "f" [VarExpr "b" 1]); OutputStmt "a"] in
  (uninit_scan stmts).2 = [1%Z] ∧
  uninit_at stmts 0 = [1%Z] ∧
  checkUninitializedWarnings stmts = ["Warning Code 1: 1"].
Proof.
  intros stmts.
  destruct (uninitialized_warnings_spec stmts)
    as (_ & Hscan & Hat & _ & sorted & _ & _ & Hout).
  split_and!.
  - rewrite Hscan. vm_compute. reflexivity.
  - rewrite (Hat 0%nat "a" 1%Z (CallExpr "f" [VarExpr "b" 1]) eq_refl).
    vm_compute. reflexivity.
  - vm_compute. reflexivity.
Defined.

(** ** Useless assignments *)

Lemma not_orb_True (a b : bool) : ¬ (a || b) → a = false ∧ b = false.
Proof. destruct a, b; simpl; intros H; try done; by destruct H. Qed.

(** [exprUsesVar] finds exactly the variables a tree reads. *)
Lemma exprUsesVar_reads e var : exprUsesVar e var = true ↔ reads e var.
Proof.
  unfold reads.
  induction e as [v|n ln|l r IHl IHr|l r IHl IHr|l r IHl IHr|b ex IHb|p args IH]
    using Expr_ind; simpl.
  - split; [done|]. intros Hin. by apply elem_of_nil in Hin.
  - rewrite bool_decide_eq_true. set_solver.
  - rewrite orb_true_iff, IHl, IHr, fmap_app. set_solver.
  - rewrite orb_true_iff, IHl, IHr, fmap_app. set_solver.
  - rewrite orb_true_iff, IHl, IHr, fmap_app. set_solver.
  - done.
  - rewrite existsb_exists. split.
    + intros (arg & Harg & Huses). rewrite Forall_forall in IH.
      apply (IH arg) in Huses; [|by apply list_elem_of_In].
      apply list_elem_of_fmap in Huses as (o & -> & Ho).
      apply list_elem_of_fmap. exists o. split; [done|].
      apply list_elem_of_In, in_flat_map. exists arg.
      split; [done|]. by apply list_elem_of_In.
    + intros (o & -> & Ho)%list_elem_of_fmap.
      apply list_elem_of_In, in_flat_map in Ho as (arg & Harg & Ho).
      exists arg. split; [done|]. rewrite Forall_forall in IH.
      apply (IH arg); [by apply list_elem_of_In|].
      apply list_elem_of_fmap. exists o. split; [done|]. by apply list_elem_of_In.
Qed.

Lemma exprUsesVar_bool e var : exprUsesVar e var = bool_decide (reads e var).
Proof.
  destruct (exprUsesVar e var) eqn:Huses; symmetry.
  - by apply bool_decide_eq_true, exprUsesVar_reads.
  - apply bool_decide_eq_false. rewrite <-exprUsesVar_reads. congruence.
Qed.

(** The scan is settled by the first deciding statement. *)
Lemma scan_used_spec var rest : scan_used var rest = used_later var rest.
Proof.
  unfold used_later. induction rest as [|s rest IH]; [done|]. simpl.
  destruct s as [v|v|v ln rhs]; simpl.
  - destruct (decide (v = var)) as [Hv|Hv].
    + by rewrite bool_decide_eq_true_2.
    + by rewrite bool_decide_eq_false_2.
  - destruct (decide (v = var)) as [Hv|Hv].
    + by rewrite bool_decide_eq_true_2.
    + by rewrite bool_decide_eq_false_2.
  - rewrite exprUsesVar_bool. destruct (decide (v = var)) as [Hv|Hv].
    + by rewrite (bool_decide_eq_true_2 (v = var)).
    + rewrite (bool_decide_eq_false_2 (v = var)) by done. simpl.
      destruct (bool_decide (reads rhs var)) eqn:Hr; simpl; [by rewrite Hr|done].
Qed.

Lemma used_later_none var rest :
  Forall (λ s, ¬ deciding var s) rest → used_later var rest = false.
Proof.
  unfold used_later. induction 1 as [|s rest Hs _ IH]; [done|]. simpl.
  by destruct (deciding var s).
Qed.

(** The first deciding statement settles the use. *)
Lemma used_later_first var pre s post :
  Forall (λ s, ¬ deciding var s) pre → deciding var s →
  used_later var (pre ++ s :: post) = proves_use var s.
Proof.
  unfold used_later. induction 1 as [|s' pre Hs' _ IH]; intros Hs; simpl.
  - by destruct (deciding var s).
  - destruct (deciding var s'); [by destruct Hs'|]. by apply IH.
Qed.

(** Either no statement decides, or there is a first one that does. *)
Lemma first_deciding var rest :
  Forall (λ s, ¬ deciding var s) rest ∨
  ∃ pre s post, rest = pre ++ s :: post ∧
    Forall (λ s, ¬ deciding var s) pre ∧ deciding var s.
Proof.
  induction rest as [|s rest [IH|(pre & s' & post & -> & Hpre & Hs')]].
  - by left.
  - destruct (deciding var s) eqn:Hs.
    + right. exists [], s, rest. rewrite Hs. by split_and!.
    + left. constructor; [|done]. rewrite Hs. by intros [].
  - right. destruct (deciding var s) eqn:Hs.
    + exists [], s, (pre ++ s' :: post). rewrite Hs. by split_and!.
    + exists (s :: pre), s', post. split_and!; [done| |done].
      constructor; [|done]. rewrite Hs. by intros [].
Qed.

Lemma used_later_false var rest :
  used_later var rest = false ↔
    Forall (λ s, ¬ deciding var s) rest ∨
    ∃ pre s post, rest = pre ++ s :: post ∧
      Forall (λ s, ¬ deciding var s) pre ∧
      (s = InputStmt var ∨
       ∃ ln rhs, s = AssignStmt var ln rhs ∧ ¬ reads rhs var).
Proof.
  split.
  - intros Hscan. destruct (first_deciding var rest)
      as [Hnone|(pre & s & post & -> & Hpre & Hs)]; [by left|right].
    rewrite used_later_first in Hscan by done.
    exists pre, s, post. split_and!; [done..|].
    destruct s as [v|v|v ln rhs]; simpl in *; [|done|].
    + apply bool_decide_spec in Hs as ->. by left.
    + right. rewrite Hscan, orb_false_r in Hs.
      apply bool_decide_spec in Hs as ->. exists ln, rhs.
      split; [done|]. by apply bool_decide_eq_false in Hscan.
  - intros [Hnone|(pre & s & post & -> & Hpre & Hs)]; [by apply used_later_none|].
    rewrite used_later_first; [|done|].
    + destruct Hs as [->|(ln & rhs & -> & Hr)]; simpl; [done|].
      by apply bool_decide_eq_false_2.
    + destruct Hs as [->|(ln & rhs & -> & ?)]; simpl;
        rewrite bool_decide_eq_true_2; done.
Qed.

Lemma used_later_true var rest :
  used_later var rest = true ↔
    ∃ pre s post, rest = pre ++ s :: post ∧
      Forall (λ s, ¬ deciding var s) pre ∧
      (s = OutputStmt var ∨
       ∃ v ln rhs, s = AssignStmt v ln rhs ∧ reads rhs var).
Proof.
  split.
  - intros Hscan. destruct (first_deciding var rest)
      as [Hnone|(pre & s & post & -> & Hpre & Hs)].
    { by rewrite used_later_none in Hscan. }
    rewrite used_later_first in Hscan by done.
    exists pre, s, post. split_and!; [done..|].
    destruct s as [v|v|v ln rhs]; simpl in *; [done| |].
    + apply bool_decide_spec in Hs as ->. by left.
    + right. exists v, ln, rhs. split; [done|]. by apply bool_decide_eq_true in Hscan.
  - intros (pre & s & post & -> & Hpre & Hs).
    rewrite used_later_first; [|done|].
    + destruct Hs as [->|(v & ln & rhs & -> & Hr)]; simpl; [done|].
      by apply bool_decide_eq_true_2.
    + destruct Hs as [->|(v & ln & rhs & -> & Hr)]; simpl.
      * by rewrite bool_decide_eq_true_2.
      * rewrite (bool_decide_eq_true_2 (reads rhs var)) by done.
        by rewrite orb_true_r.
Qed.

Lemma uselessLines_spec stmts : uselessLines stmts = useless_spec stmts.
Proof.
  unfold uselessLines, useless_spec. apply flat_map_ext. intros i.
  unfold useless_at, useless_at_spec.
  destruct (stmts !! i) as [[v|v|v ln rhs]|]; try done.
  by rewrite scan_used_spec.
Qed.

Lemma useless_spec_elem_of stmts ln :
  ln ∈ useless_spec stmts ↔
  ∃ i var rhs, stmts !! i = Some (AssignStmt var ln rhs) ∧
    used_later var (drop (S i) stmts) = false.
Proof.
  unfold useless_spec. rewrite list_elem_of_In, in_flat_map. split.
  - intros (i & _ & Hln%list_elem_of_In). unfold useless_at_spec in Hln.
    destruct (stmts !! i) as [[v|v|v ln' rhs]|] eqn:Hi; try by apply elem_of_nil in Hln.
    destruct (used_later v (drop (S i) stmts)) eqn:Hscan; [by apply elem_of_nil in Hln|].
    apply list_elem_of_singleton in Hln as ->. by exists i, v, rhs.
  - intros (i & var & rhs & Hi & Hscan). exists i. split.
    + apply in_seq. apply lookup_lt_Some in Hi. lia.
    + apply list_elem_of_In. unfold useless_at_spec. rewrite Hi, Hscan.
      by apply list_elem_of_singleton.
Qed.

(** C8: [exprUsesVar] tells whether a right-hand side reads a variable;
    the scan over the later statements is settled by the first deciding
    statement: the assignment is useless exactly when that statement is an
    assignment to the same variable that does not read it or an [Input] of
    it, or when there is no deciding statement at all; it is used when
    the first deciding statement is an [Output] of the variable or an
    assignment, to the same or another variable, that reads it; the list
    collected holds the line of every useless assignment once, in the
    order of the script, and is printed sorted behind a label of its own
    when it is not empty. *)
Theorem useless_assignment_spec :
  (∀ e var, exprUsesVar e var = true ↔ reads e var) ∧
  (∀ var rest, scan_used var rest = used_later var rest) ∧
  (∀ var rest,
     scan_used var rest = false ↔
       Forall (λ s, ¬ deciding var s) rest ∨
       ∃ pre s post, rest = pre ++ s :: post ∧
         Forall (λ s, ¬ deciding var s) pre ∧
         (s = InputStmt var ∨
          ∃ ln rhs, s = AssignStmt var ln rhs ∧ ¬ reads rhs var)) ∧
  (∀ var rest,
     scan_used var rest = true ↔
       ∃ pre s post, rest = pre ++ s :: post ∧
         Forall (λ s, ¬ deciding var s) pre ∧
         (s = OutputStmt var ∨
          ∃ v ln rhs, s = AssignStmt v ln rhs ∧ reads rhs var)) ∧
  (∀ stmts, uselessLines stmts = useless_spec stmts) ∧
  (∀ stmts ln,
     ln ∈ uselessLines stmts ↔
       ∃ i var rhs, stmts !! i = Some (AssignStmt var ln rhs) ∧
         used_later var (drop (S i) stmts) = false) ∧
  (∀ stmts, ∃ sorted : list Z,
     Sorted Z.le sorted ∧ sorted ≡ₚ useless_spec stmts ∧
     checkUselessAssignments stmts =
       if decide (useless_spec stmts = []) then []
       else [print_lines "Warning Code 2:" sorted]).
Proof.
  split_and!.
  - apply exprUsesVar_reads.
  - apply scan_used_spec.
  - intros var rest. rewrite scan_used_spec. apply used_later_false.
  - intros var rest. rewrite scan_used_spec. apply used_later_true.
  - apply uselessLines_spec.
  - intros stmts ln. rewrite uselessLines_spec. apply useless_spec_elem_of.
  - intros stmts. exists (sort_lines (useless_spec stmts)). split_and!.
    + apply sort_lines_Sorted.
    + apply sort_lines_Permutation.
    + unfold checkUselessAssignments. by rewrite uselessLines_spec.
Qed.

(** [a = f(1); a = f(2); b = f(a); b = f(3); OUTPUT b;]: the assignments on
    lines 1 and 3 are useless (overwritten before any use), the one on
    line 2 is used by the call argument [a] on line 3, the one on line 4 by
    the [OUTPUT]; the list collected is [1; 3]. *)
Lemma useless_assignment_spec_witness :
  let stmts := [AssignStmt "a" 1 (CallExpr "f" [ConstExpr 1]);
                AssignStmt "a" 2 (CallExpr "f" [ConstExpr 2]);
                AssignStmt "b" 3 (CallExpr "f" [VarExpr "a" 3]);
                AssignStmt "b" 4 (CallExpr "f" [ConstExpr 3]);
                OutputStmt "b"] in
  exprUsesVar (CallExpr "f" [VarExpr "a" 3]) "a" = true ∧
  scan_used "a" (drop 1 stmts) = false ∧
  scan_used "a" (drop 2 stmts) = true ∧
  uselessLines stmts = [1%Z; 3%Z] ∧
  checkUselessAssignments stmts = ["Warning Code 2: 1 3"].
Proof.
  intros stmts.
  destruct useless_assignment_spec
    as (Hreads & _ & Hfalse & Htrue & Hlines & _ & _).
  split_and!.
  - apply Hreads. unfold reads. simpl. set_solver.
  - apply Hfalse. right.
    exists [], (AssignStmt "a" 2 (CallExpr "f" [ConstExpr 2])),
      (drop 2 stmts).
    split_and!; [reflexivity|constructor|].
    right. exists 2%Z, (CallExpr "f" [ConstExpr 2]). split; [done|].
    unfold reads. simpl. set_solver.
  - apply Htrue.
    exists [], (AssignStmt "b" 3 (CallExpr "f" [VarExpr "a" 3])), (drop 3 stmts).
    split_and!; [reflexivity|constructor|].
    right. exists "b", 3%Z, (CallExpr "f" [VarExpr "a" 3]). split; [done|].
    unfold reads. simpl. set_solver.
  - rewrite Hlines. vm_compute. reflexivity.
  - vm_compute. reflexivity.
Defined.

(** ** Printing a number and reading it back *)

Lemma pretty_N_char_digit (d : N) :
  (d < 10)%N →
  is_digit (pretty_N_char d) = true ∧ digit_value (pretty_N_char d) = Z.of_N d.
Proof.
  intros Hd.
  assert (d = 0 ∨ d = 1 ∨ d = 2 ∨ d = 3 ∨ d = 4 ∨ d = 5 ∨ d = 6 ∨ d = 7
          ∨ d = 8 ∨ d = 9)%N as Hcases by lia.
  repeat destruct Hcases as [->|Hcases]; try subst d; by vm_compute.
Qed.

(** Reading the digits of [x] shifts the accumulator and adds [x]. *)
Lemma digits_value_pretty_N_go (x : N) (s : string) :
  ∃ k : Z, (0 ≤ k)%Z ∧ ∀ acc,
    digits_value acc (pretty_N_go x s) =
      digits_value (acc * 10 ^ k + Z.of_N x) s.
Proof.
  revert s. induction (N.lt_wf_0 x) as [x _ IH]; intros s.
  destruct (decide (x = 0%N)) as [->|Hx].
  { exists 0%Z. split; [done|]. intros acc. rewrite pretty_N_go_0. f_equal. lia. }
  rewrite pretty_N_go_step by lia.
  destruct (IH (x `div` 10)%N) with (s := String (pretty_N_char (x `mod` 10)) s)
    as (k & Hk & Hgo).
  { apply N.div_lt; lia. }
  exists (k + 1)%Z. split; [lia|]. intros acc. rewrite Hgo. simpl.
  destruct (pretty_N_char_digit (x `mod` 10)) as [-> ->].
  { apply N.mod_lt. lia. }
  f_equal. rewrite Z.pow_add_r by lia.
  pose proof (N.div_mod x 10) as Hdm.
  assert (Z.of_N x = 10 * Z.of_N (x `div` 10) + Z.of_N (x `mod` 10))%Z by lia.
  lia.
Qed.

(** The text of a positive number starts with a digit. *)
Lemma pretty_N_go_head (x : N) (s : string) :
  (0 < x)%N → ∃ c s', pretty_N_go x s = String c s' ∧ is_digit c = true.
Proof.
  revert s. induction (N.lt_wf_0 x) as [x _ IH]; intros s Hx.
  rewrite pretty_N_go_step by done.
  destruct (decide (x `div` 10 = 0)%N) as [->|Hdiv].
  - rewrite pretty_N_go_0. eexists _, _. split; [done|].
    apply pretty_N_char_digit, N.mod_lt. lia.
  - apply IH.
    + apply N.div_lt; lia.
    + by apply N.neq_0_lt_0.
Qed.

Lemma strtol_digit_head c s :
  is_digit c = true →
  strtol (String " " (String c s)) = Some (saturate (digits_value 0 (String c s))).
Proof.
  destruct c as [[] [] [] [] [] [] [] []]; intros Hc; try discriminate Hc;
    reflexivity.
Qed.

Lemma strtol_minus_digit_head c s :
  is_digit c = true →
  strtol (String " " (String "-" (String c s))) =
    Some (saturate (- digits_value 0 (String c s)))%Z.
Proof.
  destruct c as [[] [] [] [] [] [] [] []]; intros Hc; try discriminate Hc;
    reflexivity.
Qed.

Lemma digits_value_pretty_positive (p : positive) :
  ∃ c s, pretty (Z.pos p) = String c s ∧ is_digit c = true ∧
         digits_value 0 (String c s) = Z.pos p.
Proof.
  change (pretty (Z.pos p)) with (pretty_N_go (N.pos p) "").
  destruct (pretty_N_go_head (N.pos p) "") as (c & s & Heq & Hc); [lia|].
  exists c, s. split_and!; [done..|].
  destruct (digits_value_pretty_N_go (N.pos p) "") as (k & _ & Hgo).
  rewrite <-Heq, Hgo. simpl. lia.
Qed.

Lemma saturate_long (v : Z) : (long_min ≤ v ≤ long_max)%Z → saturate v = v.
Proof. unfold saturate. lia. Qed.

Lemma saturate_in_range (v : Z) : Int.in_range (saturate v) ↔ Int.in_range v.
Proof.
  unfold Int.in_range, Int.half_modulus, saturate, long_min, long_max. lia.
Qed.

Lemma in_range_long (v : Z) : Int.in_range v → (long_min ≤ v ≤ long_max)%Z.
Proof. unfold Int.in_range, Int.half_modulus, long_min, long_max. lia. Qed.

(** What [to_string] prints behind a blank, [strtol] reads back, within
    the bounds of [long]. *)
Lemma strtol_to_string (n : Z) : strtol (" " +:+ to_string n) = Some (saturate n).
Proof.
  unfold to_string. destruct n as [|p|p].
  - reflexivity.
  - destruct (digits_value_pretty_positive p) as (c & s & Heq & Hc & Hval).
    rewrite Heq. cbv [String.append].
    by rewrite strtol_digit_head, Hval.
  - change (pretty (Z.neg p)) with ("-" +:+ pretty (Z.pos p)).
    destruct (digits_value_pretty_positive p) as (c & s & Heq & Hc & Hval).
    rewrite Heq. cbv [String.append].
    rewrite strtol_minus_digit_head, Hval by done. done.
Qed.

Lemma stoi_to_string (n : Z) :
  Int.in_range n → stoi (" " +:+ to_string n) = Some n.
Proof.
  intros Hn. unfold stoi. rewrite strtol_to_string. simpl.
  rewrite saturate_long by by apply in_range_long.
  by rewrite decide_True.
Qed.

(** ** The text of a finding *)

Lemma substring_full s : String.substring 0 (String.length s) s = s.
Proof. induction s; simpl; by f_equal. Qed.

Lemma finding_text_colon f : String.index 0 ":" (finding_text f) = Some 21%nat.
Proof. destruct f as [[] ln]; cbv [finding_text fst snd String.append]; by simpl. Qed.

Lemma finding_text_number f :
  substr (finding_text f) (21 + 1) = " " +:+ to_string f.2.
Proof.
  destruct f as [[] ln]; unfold substr; cbv [finding_text fst snd String.append];
    simpl; by rewrite substring_full.
Qed.

Lemma finding_text_prefix3 f :
  String.prefix "Semantic Error Code 3:" (finding_text f)
    = match f.1 with Undeclared => true | ArityMismatch => false end.
Proof. destruct f as [[] ln]; cbv [finding_text fst snd String.append]; by simpl. Qed.

Lemma finding_text_prefix4 f :
  String.prefix "Semantic Error Code 4:" (finding_text f)
    = match f.1 with Undeclared => false | ArityMismatch => true end.
Proof. destruct f as [[] ln]; cbv [finding_text fst snd String.append]; by simpl. Qed.

(** The gate's loop recovers the line of every finding, in order. *)
Lemma error_lines_findings (fs : list (CallFinding * Z)) :
  Forall (λ f, Int.in_range f.2) fs →
  error_lines (finding_text <$> fs) = Some fs.*2.
Proof.
  intros Hfs. unfold error_lines.
  match goal with |- foldl ?F _ _ = _ => set (step := F) end.
  enough (∀ acc, foldl step (Some acc) (finding_text <$> fs) = Some (acc ++ fs.*2))
    as Hgen by apply (Hgen []).
  induction Hfs as [|f fs Hf _ IH]; intros acc; simpl.
  { by rewrite app_nil_r. }
  rewrite finding_text_colon. cbv beta iota.
  rewrite finding_text_number, stoi_to_string by done.
  etrans; [apply IH|]. by rewrite <-app_assoc.
Qed.

(** ** The semantic gate *)

(** Duplicate declarations are reported before anything else. *)
Lemma gate_duplicates (s : State) :
  duplicate_decl_lines s ≠ [] →
  check_semantic_errors s =
    Report [print_lines "Semantic Error Code 1:" (sort_lines (duplicate_decl_lines s))].
Proof. intros Hdup. unfold check_semantic_errors. by rewrite decide_True. Qed.

(** Invalid monomials are reported when there is no duplicate. *)
Lemma gate_invalid_monomials (s : State) :
  duplicate_decl_lines s = [] → invalid_monomial_lines s ≠ [] →
  check_semantic_errors s =
    Report [print_lines "Semantic Error Code 2:" (sort_lines (invalid_monomial_lines s))].
Proof.
  intros Hdup Hinv. unfold check_semantic_errors.
  rewrite decide_False by (by intros []). by rewrite decide_True.
Qed.

(** Without findings the gate lets the program pass. *)
Lemma gate_clean (s : State) :
  duplicate_decl_lines s = [] → invalid_monomial_lines s = [] →
  semantic_errors s = [] → check_semantic_errors s = Clean.
Proof.
  intros Hdup Hinv Herr. unfold check_semantic_errors.
  rewrite !decide_False by (by intros []). by rewrite Herr.
Qed.

(** The call findings are reported together: the label is the one of the
    finding made first, the lines are those of all findings. *)
Lemma gate_call_findings (s : State) f (fs : list (CallFinding * Z)) :
  duplicate_decl_lines s = [] → invalid_monomial_lines s = [] →
  semantic_errors s = finding_text <$> f :: fs →
  Forall (λ f, Int.in_range f.2) (f :: fs) →
  check_semantic_errors s =
    Report [print_lines (finding_label f.1) (sort_lines (f :: fs).*2)].
Proof.
  intros Hdup Hinv Herr Hrange. unfold check_semantic_errors.
  rewrite !decide_False by (by intros []). rewrite Herr.
  rewrite error_lines_findings by done.
  rewrite fmap_cons, finding_text_prefix3, finding_text_prefix4.
  by destruct f as [[] ln].
Qed.

(** C1: with an arity mismatch on line 5 and an undeclared call on line 6
    the gate prints both lines under the label of the mismatch; with the
    two calls swapped it prints both lines under the label of the
    undeclared call. *)
Theorem gate_mixes_call_findings :
  main Sample.arity_then_undeclared = Exited 0 ["Semantic Error Code 4: 5 6"] ∧
  main Sample.undeclared_then_arity = Exited 0 ["Semantic Error Code 3: 5 6"].
Proof. split; vm_compute; reflexivity. Qed.


(** ** Rules for reasoning about parse functions *)

Section wp_rules.
Context {A B : Type}.
Implicit Types (Q : A → State → Prop) (s : State).

Lemma wp_ret (a : A) Q s : Q a s → wp (mret a) Q s.
Proof. done. Qed.

Lemma wp_bind (m : M A) (f : A → M B) (R : B → State → Prop) s :
  wp m (λ a s', wp (f a) R s') s → wp (m ≫= f) R s.
Proof. unfold wp, mbind, M_bind. by destruct (m s). Qed.

Lemma wp_mono (m : M A) Q (Q' : A → State → Prop) s :
  wp m Q s → (∀ a s', Q a s' → Q' a s') → wp m Q' s.
Proof. unfold wp. destruct (m s); auto. Qed.

Lemma wp_gets (f : State → A) Q s : Q (f s) s → wp (gets f) Q s.
Proof. done. Qed.

Lemma wp_syntax_error Q s : wp syntax_error Q s.
Proof. done. Qed.

Lemma wp_with_fuel (f : nat → M A) Q s :
  wp (f (fuel_of s)) Q s → wp (with_fuel f) Q s.
Proof. done. Qed.

(** What [wp] says about a run that returns. *)
Lemma wp_Ok (m : M A) Q s a s' : wp m Q s → m s = Ok a s' → Q a s'.
Proof. unfold wp. intros H Heq. by rewrite Heq in H. Qed.

Lemma wp_not_OutOfFuel (m : M A) Q s : wp m Q s → m s ≠ OutOfFuel.
Proof. unfold wp. intros H Heq. by rewrite Heq in H. Qed.
End wp_rules.

Lemma wp_modify (f : State → State) (Q : unit → State → Prop) s :
  Q () (f s) → wp (modify f) Q s.
Proof. done. Qed.

Lemma wp_peek (k : nat) (Q : Token → State → Prop) s :
  Q (default eof_token (tokens s !! pred k)) s → wp (peek k) Q s.
Proof. done. Qed.

(** [expect] of a token kind other than the end of input: the stream is
    not empty, its head has the kind and is consumed. *)
Lemma wp_expect (ty : TokenType) (Q : Token → State → Prop) s :
  ty ≠ END_OF_FILE →
  (∀ t ts, tokens s = t :: ts → token_type t = ty → Q t (set_tokens ts s)) →
  wp (expect ty) Q s.
Proof.
  intros Hty HQ. unfold wp, expect, mbind, M_bind, GetToken.
  destruct (tokens s) as [|t ts] eqn:Htok; simpl.
  - by rewrite decide_False.
  - destruct (decide (token_type t = ty)); simpl; [|done]. by apply HQ.
Qed.

(** [expect END_OF_FILE] on the empty stream changes nothing. *)
Lemma wp_expect_eof (Q : Token → State → Prop) s :
  (tokens s = [] → Q eof_token s) →
  (∀ t ts, tokens s = t :: ts → token_type t = END_OF_FILE → Q t (set_tokens ts s)) →
  wp (expect END_OF_FILE) Q s.
Proof.
  intros Hnil Hcons. unfold wp, expect, mbind, M_bind, GetToken.
  destruct (tokens s) as [|t ts] eqn:Htok; simpl.
  - by apply Hnil.
  - destruct (decide (token_type t = END_OF_FILE)); simpl; [|done]. by apply Hcons.
Qed.

(** The parse functions are entered by their specifications, not by
    unfolding. *)
#[global] Arguments parse_tasks_section : simpl never.
#[global] Arguments parse_id_list : simpl never.
#[global] Arguments parse_poly_header : simpl never.
#[global] Arguments parse_poly_decl : simpl never.
#[global] Arguments parse_poly_section : simpl never.
#[global] Arguments check_call : simpl never.
#[global] Arguments parse_poly_eval_expr : simpl never.
#[global] Arguments parse_input_statement_exec : simpl never.
#[global] Arguments parse_output_statement_exec : simpl never.
#[global] Arguments parse_assign_statement_exec : simpl never.
#[global] Arguments parse_statement_exec : simpl never.
#[global] Arguments parse_execute_section : simpl never.
#[global] Arguments parse_inputs_section : simpl never.
#[global] Arguments parse_program : simpl never.
#[global] Arguments with_fuel : simpl never.
#[global] Arguments expect : simpl never.
#[global] Arguments GetToken : simpl never.

(** One step through a parse function. *)
Ltac wp_step :=
  lazymatch goal with
  | |- wp (mbind _ _) _ _ => apply wp_bind
  | |- wp (mret _) _ _ => apply wp_ret
  | |- wp (gets _) _ _ => apply wp_gets
  | |- wp (modify _) _ _ => apply wp_modify
  | |- wp (peek _) _ _ => apply wp_peek
  | |- wp syntax_error _ _ => exact I
  | |- wp (with_fuel _) _ _ => apply wp_with_fuel
  | |- wp (expect _) _ _ =>
      apply wp_expect; [discriminate|intros ? ? ? ?]
  | |- wp (if decide ?P then _ else _) _ _ => destruct (decide P)
  | |- wp (if ?b then _ else _) _ _ => destruct b eqn:?
  | |- wp (match ?x with (_, _) => _ end) _ _ => destruct x
  | |- wp (match ?x with Some _ => _ | None => _ end) _ _ => destruct x eqn:?
  end.

(** Two states with the same fields are the same state. *)
Lemma state_ext (s1 s2 : State) :
  tokens s1 = tokens s2 →
  current_poly_params s1 = current_poly_params s2 →
  in_poly_decl s1 = in_poly_decl s2 →
  poly_decl_first_line s1 = poly_decl_first_line s2 →
  duplicate_decl_lines s1 = duplicate_decl_lines s2 →
  invalid_monomial_lines s1 = invalid_monomial_lines s2 →
  semantic_errors s1 = semantic_errors s2 →
  used_polynomials s1 = used_polynomials s2 →
  runTask2 s1 = runTask2 s2 →
  runTask3 s1 = runTask3 s2 →
  runTask4 s1 = runTask4 s2 →
  runTask5 s1 = runTask5 s2 →
  poly_declarations s1 = poly_declarations s2 →
  polyExprs s1 = polyExprs s2 →
  execStatements s1 = execStatements s2 →
  execInputs s1 = execInputs s2 →
  s1 = s2.
Proof. destruct s1, s2. simpl. intros. by subst. Qed.

(** Equality of two states built from the same one by setters. *)
Ltac state_eq :=
  unfold after_call, after_body, add_finding;
  apply state_ext; simpl; rewrite <-?app_assoc; simpl; reflexivity.

(** ** Runs of the parse functions on given tokens *)

Lemma bind_Ok {A B : Type} (m : M A) (f : A → M B) s a s1 r :
  m s = Ok a s1 → f a s1 = r → (m ≫= f) s = r.
Proof. intros Hm Hf. unfold mbind, M_bind. by rewrite Hm. Qed.

Lemma expect_Ok ty s t ts :
  tokens s = t :: ts → token_type t = ty → expect ty s = Ok t (set_tokens ts s).
Proof.
  intros Htok Hty. unfold expect, mbind, M_bind, GetToken. rewrite Htok.
  by rewrite decide_True.
Qed.

Lemma peek_head s t ts :
  tokens s = t :: ts → peek 1 s = Ok t s.
Proof. intros Htok. unfold peek, gets. simpl. by rewrite Htok. Qed.

Lemma peek_nil s : tokens s = [] → peek 1 s = Ok eof_token s.
Proof. intros Htok. unfold peek, gets. simpl. by rewrite Htok. Qed.

Lemma peek_second s t ts :
  tokens s = t :: ts → peek 2 s = Ok (default eof_token (head ts)) s.
Proof. intros Htok. unfold peek, gets. simpl. rewrite Htok. by destruct ts. Qed.


(** ** Reading a polynomial body *)

Lemma invalid_ids_app params u1 u2 :
  invalid_ids params (u1 ++ u2) = invalid_ids params u1 ++ invalid_ids params u2.
Proof. unfold invalid_ids. by rewrite filter_app, fmap_app. Qed.

Lemma reads_body_nil s : reads_body s [] s.
Proof.
  exists (tokens s). split; [done|]. unfold after_body, invalid_ids.
  rewrite filter_nil. simpl. by rewrite app_nil_r.
Qed.

Lemma reads_body_trans s u1 s1 u2 s2 :
  reads_body s u1 s1 → reads_body s1 u2 s2 → reads_body s (u1 ++ u2) s2.
Proof.
  intros (r1 & Htok1 & ->) (r2 & Htok2 & ->). simpl in *. exists r2. split.
  - by rewrite Htok1, Htok2, app_assoc.
  - unfold after_body. simpl. by rewrite invalid_ids_app, app_assoc.
Qed.

(** A token that is not an identifier outside the parameter list. *)
Lemma reads_body_token s t ts :
  tokens s = t :: ts →
  token_type t ≠ ID ∨ lexeme t ∈ current_poly_params s →
  reads_body s [t] (set_tokens ts s).
Proof.
  intros Htok Hok. exists ts. split; [done|]. unfold after_body, invalid_ids. simpl.
  rewrite filter_cons_False, filter_nil by tauto. simpl. by rewrite app_nil_r.
Qed.

(** An identifier outside the parameter list. *)
Lemma reads_body_invalid s t ts :
  tokens s = t :: ts →
  token_type t = ID → lexeme t ∉ current_poly_params s →
  reads_body s [t]
    (set_invalid_monomial_lines (invalid_monomial_lines s ++ [line_no t])
       (set_tokens ts s)).
Proof.
  intros Htok Hid Hout. exists ts. split; [done|]. unfold after_body, invalid_ids. simpl.
  by rewrite filter_cons_True, filter_nil by tauto.
Qed.

Lemma reads_body_length s used s' :
  reads_body s used s' → length (tokens s) = length used + length (tokens s').
Proof. intros (rest & -> & ->). by rewrite length_app. Qed.

(** Chains the tokens read one after the other into one [reads_body]. *)
Ltac solve_reads_body :=
  simpl;
  lazymatch goal with
  | |- reads_body ?s _ ?s => apply reads_body_nil
  | H : reads_body ?s1 _ ?s' |- reads_body _ _ ?s' =>
      eapply reads_body_trans; [|exact H]; solve_reads_body
  | |- reads_body _ _ (set_invalid_monomial_lines _ (set_tokens _ ?s1)) =>
      eapply reads_body_trans;
        [|eapply reads_body_invalid; simpl;
            [first [reflexivity|eassumption]|congruence|eassumption]];
        solve_reads_body
  | |- reads_body _ _ (set_tokens _ ?s1) =>
      eapply reads_body_trans;
        [|eapply reads_body_token; simpl;
            [first [reflexivity|eassumption]
            |first [left; congruence|right; eassumption]]];
        solve_reads_body
  end.

(** Derives the lengths of the token streams in sight. *)
Ltac token_lengths :=
  repeat match goal with
  | H : reads_body _ _ _ |- _ =>
      lazymatch type of H with
      | reads_body ?a ?u ?b =>
          let Hl := fresh "Hlen" in
          pose proof (reads_body_length a u b H) as Hl;
          lazymatch goal with
          | Hne : u ≠ [] |- _ =>
              assert (0 < length u) by (destruct u; [done|simpl; lia]); clear Hne
          | _ => idtac
          end;
          revert H
      end
  | H : tokens _ = _ :: _ |- _ => apply (f_equal length) in H; simpl in H; revert H
  end;
  intros; simpl in *.

Ltac wp_expect_step :=
  lazymatch goal with |- wp (expect _) _ _ => idtac end;
  apply wp_expect; [discriminate|];
  let t := fresh "t" in let ts := fresh "ts" in
  let Htok := fresh "Htok" in let Hty := fresh "Hty" in
  intros t ts Htok Hty; simpl in Htok;
  lazymatch type of Htok with
  | ?x :: ?l = _ :: _ => injection Htok as <- <-
  | ?l = _ :: _ => first [is_var l; subst l | rewrite ?Htok in *]
  end; simpl.

Ltac wp_auto := repeat first [wp_expect_step | wp_step; simpl].

Ltac solve_nonempty :=
  token_lengths;
  let Heq := fresh in
  intros Heq; apply (f_equal length) in Heq; rewrite ?length_app in Heq;
  simpl in Heq; lia.

Ltac solve_call_free :=
  simpl; repeat (apply andb_True; split); first [assumption|done].

Ltac body_finish :=
  first
    [ eexists; split_and!; [|solve_reads_body|solve_call_free]; solve_nonempty
    | eexists; split_and!; [solve_reads_body|solve_call_free] ].

Ltac wp_apply lem :=
  lazymatch goal with
  | |- wp (mbind _ _) _ _ => apply wp_bind
  | _ => idtac
  end;
  eapply wp_mono; [apply lem|]; simpl.

Ltac wp_use IH :=
  lazymatch goal with
  | |- wp (mbind _ _) _ _ => apply wp_bind
  | _ => idtac
  end;
  eapply wp_mono;
    [apply IH; first [solve_call_free | token_lengths; lia]|];
  simpl.

Lemma poly_body_knot n :
  (∀ s, 3 * length (tokens s) + 3 ≤ n →
        wp (parse_poly_body_expr n) (body_post s) s) ∧
  (∀ s left, 3 * length (tokens s) + 1 ≤ n → call_free left →
        wp (parse_poly_body_plus_loop n left) (body_loop_post s) s) ∧
  (∀ s, 3 * length (tokens s) + 2 ≤ n →
        wp (parse_poly_term n) (body_post s) s) ∧
  (∀ s left, 3 * length (tokens s) + 2 ≤ n → call_free left →
        wp (parse_poly_term_loop n left) (body_loop_post s) s) ∧
  (∀ s, 3 * length (tokens s) + 1 ≤ n →
        wp (parse_poly_factor n) (body_post s) s).
Proof.
  induction n as [|n (IHbody & IHplus & IHterm & IHtloop & IHfactor)].
  { split_and!; intros; lia. }
  split_and!.
  - intros s Hn. simpl.
    wp_use IHterm. intros left s1 (u1 & Hne1 & Hr1 & Hf1).
    wp_use IHplus. intros left2 s2 (u2 & Hr2 & Hf2).
    wp_auto.
    + wp_use IHbody. intros right s3 (u3 & Hne3 & Hr3 & Hf3). wp_auto. body_finish.
    + body_finish.
  - intros s left Hn Hleft. simpl. wp_auto.
    + wp_use IHterm. intros right s1 (u1 & Hne1 & Hr1 & Hf1).
      wp_use IHplus. intros e' s2 (u2 & Hr2 & Hf2). body_finish.
    + body_finish.
  - intros s Hn. simpl. wp_auto.
    + wp_use IHtloop. intros e' s1 (u1 & Hr1 & Hf1). body_finish.
    + wp_use IHfactor. intros left s1 (u1 & Hne1 & Hr1 & Hf1).
      wp_use IHtloop. intros e' s2 (u2 & Hr2 & Hf2). body_finish.
  - intros s left Hn Hleft. simpl. wp_auto.
    + wp_use IHfactor. intros right s1 (u1 & Hne1 & Hr1 & Hf1).
      wp_use IHtloop. intros e' s2 (u2 & Hr2 & Hf2). body_finish.
    + body_finish.
  - intros s Hn. simpl. wp_auto; try body_finish.
    wp_use IHbody. intros e' s1 (u1 & Hne1 & Hr1 & Hf1).
    wp_auto; body_finish.
Qed.

(** The body parser, entered with the budget of its state, does not run
    out of it. *)
Lemma parse_poly_body_expr_spec s :
  wp (with_fuel parse_poly_body_expr) (body_post s) s.
Proof. apply wp_with_fuel, poly_body_knot. unfold fuel_of. lia. Qed.

(** ** Reading a declaration *)

Lemma parse_id_list_loop_spec n s ids :
  length (tokens s) < n →
  wp (parse_id_list_loop n ids)
     (λ r s', ∃ used rest more,
        tokens s = used ++ rest ∧ s' = set_tokens rest s ∧ r = ids ++ more) s.
Proof.
  revert s ids. induction n as [|n IH]; intros s ids Hn; [lia|].
  simpl. wp_auto.
  - eapply wp_mono; [apply IH; simpl in *; lia|].
    intros r s' (used & rest & more & Htok' & -> & ->). simpl in Htok'.
    exists (t :: t0 :: used), rest, ([lexeme t0] ++ more).
    split_and!; [by rewrite Htok'|done|by rewrite app_assoc].
  - exists [], (tokens s), []. by rewrite app_nil_r.
Qed.

Lemma parse_id_list_spec s :
  wp parse_id_list
     (λ r s', ∃ used rest,
        used ≠ [] ∧ tokens s = used ++ rest ∧ s' = set_tokens rest s ∧ r ≠ []) s.
Proof.
  unfold parse_id_list. wp_auto.
  eapply wp_mono; [apply parse_id_list_loop_spec; unfold fuel_of; simpl; lia|].
  intros r s' (used & rest & more & Htok' & -> & ->). simpl in Htok'.
  exists (t :: used), rest. by rewrite Htok'.
Qed.

Lemma parse_poly_header_spec s : wp parse_poly_header (header_post s) s.
Proof.
  unfold parse_poly_header. wp_auto.
  - wp_apply parse_id_list_spec.
    intros ids s' (used & rest & Hne & Htok' & -> & Hids). simpl in Htok'.
    wp_auto. simpl in *. subst.
    exists t, (t0 :: used ++ [t1]), ts.
    split_and!; try done.
    rewrite Htok. simpl. by rewrite <-app_assoc.
  - exists t, [], ts. by split_and!.
Qed.

(** Without a parameter list after the name the header is [x]. *)
Lemma parse_poly_header_implicit s t ts :
  tokens s = t :: ts → token_type t = ID →
  token_type (default eof_token (ts !! 0)) ≠ LPAREN →
  parse_poly_header s =
    Ok (PolyHeader.mk (lexeme t) (line_no t) ["x"])
       (set_poly_declarations (<[lexeme t := ["x"]]> (poly_declarations s))
          (set_tokens ts s)).
Proof.
  intros Htok Hty Hnext.
  unfold parse_poly_header, expect, GetToken, peek, gets, modify.
  unfold mbind, M_bind, mret, M_ret. rewrite Htok. simpl.
  rewrite decide_True by done. simpl. by rewrite decide_False.
Qed.

Lemma parse_poly_decl_spec s : wp parse_poly_decl (decl_post s) s.
Proof.
  unfold parse_poly_decl.
  wp_apply parse_poly_header_spec.
  intros h s1 (t & hrest & rest & Htok & Hty & Hname & Hline & Hparams & Himplicit & ->).
  simpl. wp_auto.
  wp_apply parse_poly_body_expr_spec.
  intros body s2 (used & Hne & (rest2 & Htok2 & ->) & Hfree). simpl in *.
  wp_auto.
  all: simpl in *; subst.
  all: exists t, hrest, t0, used, t1, ts0, (PolyHeader.params h), body.
  all: rewrite Hname, Hline in *.
  all: split_and!; try done.
  all: try (intros Hnext; apply Himplicit; revert Hnext; by destruct hrest).
  all: unfold declared; simpl.
  all: match goal with H : _ !! _ = _ |- _ => by rewrite H end.
Qed.

(** ** Declarations: first occurrence, duplicates, the implicit parameter *)

(** A declaration of a name that is already in the first-line table leaves
    that table and the bodies alone and records its line as a duplicate;
    its parameter list replaces the stored one. *)
Lemma parse_poly_decl_duplicate s t ts line0 s' :
  tokens s = t :: ts →
  poly_decl_first_line s !! lexeme t = Some line0 →
  parse_poly_decl s = Ok () s' →
  poly_decl_first_line s' = poly_decl_first_line s ∧
  polyExprs s' = polyExprs s ∧
  duplicate_decl_lines s' = duplicate_decl_lines s ++ [line_no t] ∧
  (∃ params, poly_declarations s' = <[lexeme t := params]> (poly_declarations s)) ∧
  (∃ used semi, ts = used ++ semi :: tokens s' ∧ token_type semi = SEMICOLON).
Proof.
  intros Htok Hfirst Hrun.
  pose proof (wp_Ok _ _ _ _ _ (parse_poly_decl_spec s) Hrun)
    as (t' & hrest & eq & body_tokens & semi & rest & params & body
        & Htok' & _ & _ & Hsemi & _ & _ & _ & _ & ->).
  rewrite Htok in Htok'. injection Htok' as <- ->.
  unfold declared. rewrite Hfirst. simpl. split_and!; try done.
  - by exists params.
  - exists (hrest ++ eq :: body_tokens), semi. by rewrite <-app_assoc.
Qed.

(** A declaration of a new name enters line, parameters and body. *)
Lemma parse_poly_decl_first s t ts s' :
  tokens s = t :: ts →
  poly_decl_first_line s !! lexeme t = None →
  parse_poly_decl s = Ok () s' →
  poly_decl_first_line s' = <[lexeme t := line_no t]> (poly_decl_first_line s) ∧
  duplicate_decl_lines s' = duplicate_decl_lines s ∧
  ∃ params body,
    poly_declarations s' = <[lexeme t := params]> (poly_declarations s) ∧
    polyExprs s' = <[lexeme t := body]> (polyExprs s) ∧ call_free body.
Proof.
  intros Htok Hfirst Hrun.
  pose proof (wp_Ok _ _ _ _ _ (parse_poly_decl_spec s) Hrun)
    as (t' & hrest & eq & body_tokens & semi & rest & params & body
        & Htok' & _ & _ & Hsemi & _ & Hfree & _ & _ & ->).
  rewrite Htok in Htok'. injection Htok' as <- ->.
  unfold declared. rewrite Hfirst. simpl. split_and!; try done.
  by exists params, body.
Qed.

(** C2: after [F = x; F(a, b) = a;] the table of parameter lists holds
    [a, b] for [F], the list of the second declaration, while body and
    first line are those of the first and line 3 is recorded as a
    duplicate; the gate then reports the duplicate. *)
Theorem duplicate_declaration_overwrites_parameters :
  (∃ s', with_fuel parse_poly_decl_list (initial_state Sample.declared_twice)
           = Ok () s' ∧
         tokens s' = [] ∧
         poly_declarations s' !! "F" = Some ["a"; "b"] ∧
         polyExprs s' !! "F" = Some (VarExpr "x" 2) ∧
         poly_decl_first_line s' !! "F" = Some 2%Z ∧
         duplicate_decl_lines s' = [3%Z]) ∧
  main Sample.declared_twice_program = Exited 0 ["Semantic Error Code 1: 3"].
Proof.
  split.
  - eexists. split; [vm_compute; reflexivity|]. split_and!; vm_compute; reflexivity.
  - vm_compute. reflexivity.
Qed.

Lemma invalid_ids_x used :
  invalid_ids ["x"] used =
    line_no <$> filter (λ t, token_type t = ID ∧ lexeme t ≠ "x") used.
Proof.
  unfold invalid_ids. f_equal. apply list_filter_iff. intros t.
  by rewrite list_elem_of_singleton.
Qed.

Lemma check_call_arity_one s name ln nargs :
  poly_declarations s !! name = Some ["x"] →
  check_call name ln nargs s =
    Ok () (if decide (nargs = 1) then s
           else set_semantic_errors
                  (semantic_errors s ++ [finding_text (ArityMismatch, ln)]) s).
Proof.
  intros Hdecl. unfold check_call, gets, modify, mbind, M_bind. simpl.
  rewrite Hdecl. simpl. by destruct (decide (nargs = 1)).
Qed.

(** C10: a declaration whose name is not followed by a parenthesis stores
    the parameter list [x]; a call of the name is checked against arity 1;
    and the identifiers of the body other than [x] are the ones whose lines
    join the invalid monomials. *)
Theorem implicit_parameter_spec (s : State) (t : Token) (ts : list Token) :
  tokens s = t :: ts → token_type t = ID →
  token_type (default eof_token (ts !! 0)) ≠ LPAREN →
  parse_poly_header s =
    Ok (PolyHeader.mk (lexeme t) (line_no t) ["x"])
       (set_poly_declarations (<[lexeme t := ["x"]]> (poly_declarations s))
          (set_tokens ts s)) ∧
  parse_poly_decl s ≠ OutOfFuel ∧
  ∀ s', parse_poly_decl s = Ok () s' →
    poly_declarations s' !! lexeme t = Some ["x"] ∧
    (∃ eq body_tokens semi,
       ts = eq :: body_tokens ++ semi :: tokens s' ∧
       token_type eq = EQUAL ∧ token_type semi = SEMICOLON ∧
       invalid_monomial_lines s' =
         invalid_monomial_lines s ++
           (line_no <$> filter (λ t, token_type t = ID ∧ lexeme t ≠ "x")
                               body_tokens)) ∧
    ∀ ln nargs,
      check_call (lexeme t) ln nargs s' =
        Ok () (if decide (nargs = 1) then s'
               else set_semantic_errors
                      (semantic_errors s' ++ [finding_text (ArityMismatch, ln)]) s').
Proof.
  intros Htok Hty Hnext. split_and!.
  - by apply parse_poly_header_implicit.
  - apply (wp_not_OutOfFuel _ _ _ (parse_poly_decl_spec s)).
  - intros s' Hrun.
    pose proof (wp_Ok _ _ _ _ _ (parse_poly_decl_spec s) Hrun)
      as (t' & hrest & eq & body_tokens & semi & rest & params & body
          & Htok' & _ & Heq & Hsemi & _ & _ & _ & Himplicit & ->).
    rewrite Htok in Htok'. injection Htok' as <- ->.
    destruct Himplicit as [-> ->].
    { destruct hrest; simpl in *; done. }
    assert (poly_declarations
              (declared s (lexeme t) (line_no t) ["x"] body_tokens body rest)
              !! lexeme t = Some ["x"]) as Hdecl.
    { unfold declared. destruct (poly_decl_first_line s !! lexeme t);
        simpl; by rewrite lookup_insert_eq. }
    split_and!.
    + done.
    + exists eq, body_tokens, semi. split_and!; try done.
      * unfold declared. by destruct (poly_decl_first_line s !! lexeme t).
      * rewrite <-invalid_ids_x. unfold declared.
        by destruct (poly_decl_first_line s !! lexeme t).
    + intros ln nargs. by apply check_call_arity_one.
Qed.

(** [G = x + 2 y x;]: the parameter list is [x], the [y] on line 3 is an
    invalid monomial, and a call with two arguments is an arity mismatch. *)
Lemma implicit_parameter_spec_witness :
  let s := initial_state Sample.implicit_parameter in
  parse_poly_header s =
    Ok (PolyHeader.mk "G" 3 ["x"])
       (set_poly_declarations (<["G" := ["x"]]> (poly_declarations s))
          (set_tokens (tail Sample.implicit_parameter) s)) ∧
  ∃ s', parse_poly_decl s = Ok () s' ∧
        poly_declarations s' !! "G" = Some ["x"] ∧
        invalid_monomial_lines s' = [3%Z] ∧
        check_call "G" 7 2 s' =
          Ok () (set_semantic_errors ["Semantic Error Code 4: 7"] s').
Proof.
  intros s.
  destruct (implicit_parameter_spec s (Sample.id "G" 3)
              (tail Sample.implicit_parameter))
    as (Hheader & _ & Hdecl); [reflexivity|reflexivity|by vm_compute|].
  split; [exact Hheader|].
  destruct (parse_poly_decl s) as [[] s'| |] eqn:Hrun; try by vm_compute in Hrun.
  exists s'. destruct (Hdecl s' eq_refl)
    as (Hparams & (eq & body_tokens & semi & Htoks & _ & _ & Hinv) & Hcall).
  split_and!; [done|done| |].
  - vm_compute in Hrun. injection Hrun as <-. reflexivity.
  - pose proof (Hcall 7%Z 2%nat) as Hc. simpl in Hc. rewrite Hc. f_equal.
    vm_compute in Hrun. injection Hrun as <-. reflexivity.
Defined.

(** ** Reading a call *)

#[global] Arguments add_finding : simpl never.

Lemma wp_check_call name ln n (Q : unit → State → Prop) s :
  match poly_declarations s !! name with
  | Some params =>
      if decide (n = length params) then Q () s
      else Q () (add_finding (ArityMismatch, ln) s)
  | None => Q () (add_finding (Undeclared, ln) s)
  end →
  wp (check_call name ln n) Q s.
Proof.
  unfold wp, check_call, gets, modify, mbind, M_bind. simpl.
  destruct (poly_declarations s !! name) as [params|]; [|done].
  by destruct (decide (n = length params)).
Qed.

Lemma reads_call_nil s : reads_call s [] [] s.
Proof.
  exists (tokens s). split; [done|]. unfold after_call. simpl. by rewrite app_nil_r.
Qed.

Lemma reads_call_trans s u1 e1 s1 u2 e2 s2 :
  reads_call s u1 e1 s1 → reads_call s1 u2 e2 s2 →
  reads_call s (u1 ++ u2) (e1 ++ e2) s2.
Proof.
  intros (r1 & Htok1 & ->) (r2 & Htok2 & ->). simpl in *. exists r2. split.
  - by rewrite Htok1, Htok2, app_assoc.
  - unfold after_call. simpl. by rewrite app_assoc.
Qed.

Lemma reads_call_token s t ts :
  tokens s = t :: ts → reads_call s [t] [] (set_tokens ts s).
Proof.
  intros Htok. exists ts. split; [done|]. unfold after_call. simpl.
  by rewrite app_nil_r.
Qed.

Lemma reads_call_finding s f : reads_call s [] [finding_text f] (add_finding f s).
Proof. exists (tokens s). by split. Qed.

Lemma reads_call_length s used errs s' :
  reads_call s used errs s' →
  length (tokens s) = length used + length (tokens s').
Proof. intros (rest & -> & ->). by rewrite length_app. Qed.

Lemma findings_at_nil lines : findings_at lines [].
Proof. by exists []. Qed.

Lemma findings_at_app lines e1 e2 :
  findings_at lines e1 → findings_at lines e2 → findings_at lines (e1 ++ e2).
Proof.
  intros (fs1 & -> & H1) (fs2 & -> & H2). exists (fs1 ++ fs2).
  split; [by rewrite fmap_app|by apply Forall_app].
Qed.

Lemma findings_at_single lines f :
  f.2 ∈ lines → findings_at lines [finding_text f].
Proof. intros Hf. exists [f]. split; [done|by constructor]. Qed.

Lemma findings_at_mono lines lines' errs :
  lines ⊆ lines' → findings_at lines errs → findings_at lines' errs.
Proof.
  intros Hsub (fs & -> & Hfs). exists fs. split; [done|].
  eapply Forall_impl; [exact Hfs|]. intros f Hf. by apply Hsub.
Qed.

(** Chains the tokens read and the findings made into one [reads_call]. *)
Ltac solve_reads_call :=
  simpl;
  lazymatch goal with
  | |- reads_call ?s _ _ ?s => apply reads_call_nil
  | H : reads_call ?s1 _ _ ?s' |- reads_call _ _ _ ?s' =>
      eapply reads_call_trans; [|exact H]; solve_reads_call
  | |- reads_call _ _ _ (add_finding _ ?s1) =>
      eapply reads_call_trans; [|apply reads_call_finding]; solve_reads_call
  | |- reads_call _ _ _ (set_tokens _ ?s1) =>
      eapply reads_call_trans;
        [|eapply reads_call_token; simpl; first [reflexivity|eassumption]];
        solve_reads_call
  end.

Ltac solve_findings :=
  simpl;
  repeat (apply findings_at_app);
  first
    [ apply findings_at_nil
    | apply findings_at_single; simpl; rewrite ?fmap_app; simpl; set_solver
    | eapply findings_at_mono; [|eassumption];
      simpl; rewrite ?fmap_app; simpl; set_solver ].

(** Lengths of the token streams in sight, also through [reads_call]. *)
Ltac call_lengths :=
  repeat match goal with
  | H : reads_call _ _ _ _ |- _ =>
      lazymatch type of H with
      | reads_call ?a ?u ?e ?b =>
          let Hl := fresh "Hlen" in
          pose proof (reads_call_length a u e b H) as Hl;
          lazymatch goal with
          | Hne : u ≠ [] |- _ =>
              assert (0 < length u) by (destruct u; [done|simpl; lia]); clear Hne
          | _ => idtac
          end;
          revert H
      end
  | H : tokens _ = _ :: _ |- _ => apply (f_equal length) in H; simpl in H; revert H
  end;
  intros; simpl in *.

Ltac solve_call_nonempty :=
  call_lengths;
  let Heq := fresh in
  intros Heq; apply (f_equal length) in Heq; rewrite ?length_app in Heq;
  simpl in Heq; lia.

Ltac wp_call IH :=
  lazymatch goal with
  | |- wp (mbind _ _) _ _ => apply wp_bind
  | _ => idtac
  end;
  eapply wp_mono; [apply IH; call_lengths; lia|];
  simpl.

Ltac wp_check :=
  lazymatch goal with
  | |- wp (mbind _ _) _ _ => apply wp_bind
  | _ => idtac
  end;
  apply wp_check_call; simpl;
  lazymatch goal with
  | |- match ?x with _ => _ end => destruct x; [case_decide|]
  end; simpl.

(** The kinds of the tokens read, from the kinds of the single tokens and
    of the pieces read by calls. *)
Ltac solve_kinds :=
  simpl; rewrite ?fmap_app; simpl;
  repeat match goal with
         | H : token_type _ = _ |- _ => rewrite H; clear H
         end;
  repeat match goal with
         | H : token_type <$> _ = _ |- _ => rewrite H; clear H
         | H : _ :: (token_type <$> _) = _ |- _ => rewrite <-H; clear H
         end;
  simpl; rewrite ?flat_map_app; simpl; rewrite <-?app_assoc; simpl;
  rewrite ?app_nil_r; reflexivity.

Lemma is_argument_call name args :
  Forall is_argument args → is_argument (CallExpr name args).
Proof. intros Hargs. simpl. by apply forallb_True. Qed.

Lemma argument_knot n :
  (∀ s, length (tokens s) < n →
        wp (parse_argument_expr n) (argument_post s) s) ∧
  (∀ s idToken, length (tokens s) < n →
        wp (parse_call_expr_from_token n idToken) (call_post idToken s) s) ∧
  (∀ s args, length (tokens s) < n →
        wp (parse_arguments_loop n args) (arguments_post args s) s).
Proof.
  induction n as [|n (IHarg & IHcall & IHloop)].
  { split_and!; intros; lia. }
  split_and!.
  - intros s Hn. simpl. wp_auto.
    + wp_call IHcall.
      intros e' s1 (u1 & e1 & args & Hne1 & Hr1 & Hf1 & -> & Hargs & Hall & Hkinds).
      exists (t :: u1), e1.
      split_and!; [done| |done|by apply is_argument_call|].
      * change (t :: u1) with ([t] ++ u1). change e1 with ([] ++ e1).
        eapply reads_call_trans; [|exact Hr1]. by apply reads_call_token.
      * rewrite <-Hkinds. simpl. by rewrite Hty.
    + exists [t], []. split_and!; [done|by apply reads_call_token|
        apply findings_at_nil|done|simpl; by rewrite Hty].
    + exists [t], []. split_and!; [done|by apply reads_call_token|
        apply findings_at_nil|done|simpl; by rewrite Hty].
  - intros s idToken Hn. simpl. wp_auto.
    wp_call IHarg. intros first s1 (u1 & e1 & Hne1 & Hr1 & Hf1 & Hfirst & Hk1).
    wp_call IHloop. intros args s2 (u2 & e2 & more & Hr2 & Hf2 & -> & Hmore & Hk2).
    wp_auto. wp_check; wp_auto.
    all: eexists _, _, _; split_and!;
      [|solve_reads_call|solve_findings|reflexivity|done|by constructor
       |solve_kinds];
      solve_call_nonempty.
  - intros s args Hn. simpl. wp_auto.
    + wp_call IHarg. intros arg s1 (u1 & e1 & Hne1 & Hr1 & Hf1 & Harg & Hk1).
      wp_call IHloop. intros r s2 (u2 & e2 & more & Hr2 & Hf2 & -> & Hmore & Hk2).
      eexists _, _, (arg :: more). split_and!;
        [solve_reads_call|solve_findings|by rewrite <-app_assoc|by constructor
        |solve_kinds].
    + exists [], [], []. split_and!;
        [apply reads_call_nil|apply findings_at_nil|by rewrite app_nil_r|done|done].
Qed.

Lemma parse_argument_expr_spec s :
  wp (with_fuel parse_argument_expr) (argument_post s) s.
Proof. apply wp_with_fuel, argument_knot. unfold fuel_of. lia. Qed.

Lemma parse_arguments_loop_spec s args :
  wp (with_fuel (λ fuel, parse_arguments_loop fuel args)) (arguments_post args s) s.
Proof. apply wp_with_fuel, argument_knot. unfold fuel_of. lia. Qed.

Lemma parse_poly_eval_expr_spec s : wp parse_poly_eval_expr (eval_post s) s.
Proof.
  unfold parse_poly_eval_expr. wp_auto.
  wp_apply parse_argument_expr_spec.
  intros first s1 (u1 & e1 & Hne1 & (r1 & Htok1 & ->) & Hf1 & Hfirst & Hk1).
  wp_apply parse_arguments_loop_spec.
  intros args s2 (u2 & e2 & more & (r2 & Htok2 & ->) & Hf2 & -> & Hmore & Hk2).
  simpl in *. subst. wp_auto. wp_check; wp_auto.
  - exists t, (t0 :: u1 ++ u2 ++ [t1]), (e1 ++ e2), ([first] ++ more), ts.
    split_and!; try done.
    + rewrite Htok. simpl. rewrite <-?app_assoc. simpl. by rewrite <-?app_assoc.
    + by constructor.
    + solve_kinds.
    + solve_findings.
    + state_eq.
  - exists t, (t0 :: u1 ++ u2 ++ [t1]),
      (e1 ++ e2 ++ [finding_text (ArityMismatch, line_no t)]),
      ([first] ++ more), ts.
    split_and!; try done.
    + rewrite Htok. simpl. rewrite <-?app_assoc. simpl. by rewrite <-?app_assoc.
    + by constructor.
    + solve_kinds.
    + solve_findings.
    + state_eq.
  - exists t, (t0 :: u1 ++ u2 ++ [t1]),
      (e1 ++ e2 ++ [finding_text (Undeclared, line_no t)]),
      ([first] ++ more), ts.
    split_and!; try done.
    + rewrite Htok. simpl. rewrite <-?app_assoc. simpl. by rewrite <-?app_assoc.
    + by constructor.
    + solve_kinds.
    + solve_findings.
    + state_eq.
Qed.

(** ** The grammar of arguments *)

(** Anything but an identifier or a numeral at the head of an argument is
    a syntax error. *)
Lemma parse_argument_expr_rejects s :
  token_type (default eof_token (tokens s !! 0)) ≠ ID →
  token_type (default eof_token (tokens s !! 0)) ≠ NUM →
  with_fuel parse_argument_expr s = SyntaxError.
Proof.
  intros Hid Hnum. unfold with_fuel, fuel_of.
  replace (3 * length (tokens s) + 3) with (S (3 * length (tokens s) + 2)) by lia.
  simpl. unfold mbind, M_bind, peek, gets. simpl.
  by rewrite !decide_False.
Qed.


(** The tokens that spell an argument are identifiers, numerals, the
    parentheses of calls and commas: no operator is among them. *)
Lemma argument_kinds_no_operator e :
  Forall (λ kind, kind ∈ [ID; NUM; LPAREN; COMMA; RPAREN]) (argument_kinds e).
Proof.
  induction e as [v|n ln|l r IHl IHr|l r IHl IHr|l r IHl IHr|b ex IHb|p args IH]
    using Expr_ind; simpl; [repeat constructor; set_solver..|].
  destruct IH as [|first more Hfirst Hmore].
  { repeat constructor; set_solver. }
  constructor; [set_solver|]. constructor; [set_solver|].
  apply Forall_app. split; [done|].
  apply Forall_app. split; [|repeat constructor; set_solver].
  induction Hmore as [|arg more Harg _ IHmore]; simpl; [done|].
  constructor; [set_solver|]. apply Forall_app. by split.
Qed.

(** What [used] spells, token by token. *)
Lemma spelled_without_operator (used : list Token) e :
  token_type <$> used = argument_kinds e →
  Forall (λ t, token_type t ∈ [ID; NUM; LPAREN; COMMA; RPAREN]) used.
Proof.
  intros Hkinds. pose proof (argument_kinds_no_operator e) as Hall.
  rewrite <-Hkinds in Hall. by apply Forall_fmap in Hall.
Qed.

(** ** Arguments that are accepted *)

(** The equations of the parse functions of arguments. *)
Lemma parse_argument_expr_eq fuel :
  parse_argument_expr (S fuel) =
    (t ← peek 1;
     if decide (token_type t = ID) then
       t2 ← peek 2;
       if decide (token_type t2 = LPAREN) then
         idToken ← expect ID;
         parse_call_expr_from_token fuel idToken
       else
         t ← expect ID;
         mret (VarExpr (lexeme t) (line_no t))
     else if decide (token_type t = NUM) then
       t ← expect NUM;
       mret (ConstExpr (atoi (lexeme t)))
     else syntax_error).
Proof. reflexivity. Qed.

Lemma parse_call_expr_from_token_eq fuel idToken :
  parse_call_expr_from_token (S fuel) idToken =
    (expect LPAREN;;
     first ← parse_argument_expr fuel;
     args ← parse_arguments_loop fuel [first];
     expect RPAREN;;
     check_call (lexeme idToken) (line_no idToken) (length args);;
     mret (CallExpr (lexeme idToken) args)).
Proof. reflexivity. Qed.

Lemma parse_arguments_loop_eq fuel args :
  parse_arguments_loop (S fuel) args =
    (next ← peek 1;
     if decide (token_type next = COMMA) then
       expect COMMA;;
       arg ← parse_argument_expr fuel;
       parse_arguments_loop fuel (args ++ [arg])
     else mret args).
Proof. reflexivity. Qed.

Lemma check_call_run name ln n s :
  check_call name ln n s =
    Ok () (set_semantic_errors
             (semantic_errors s ++ call_findings (poly_declarations s) name ln n) s).
Proof.
  unfold check_call, call_findings, mbind, M_bind, gets, modify, mret, M_ret.
  destruct (poly_declarations s !! name) as [params|]; [|done].
  case_decide; [|done]. f_equal. apply state_ext; try done. simpl.
  by rewrite app_nil_r.
Qed.


(** Behind the further arguments of a call stands a comma or the token
    that follows them. *)
Lemma spells_more_head more_tokens more t rest :
  spells_more more_tokens more →
  token_type t ≠ LPAREN →
  token_type (default eof_token (head (more_tokens ++ t :: rest))) ≠ LPAREN.
Proof.
  intros Hmore Ht. destruct Hmore as [|comma ? ? ? ? Hcomma _ _]; simpl; [done|].
  by rewrite Hcomma.
Qed.

Lemma spells_length toks e : spells toks e → 0 < length toks.
Proof. destruct 1; simpl; lia. Qed.

(** An argument written out is read as the tree it stands for, up to the
    token behind it. *)
Lemma argument_accepts n :
  (∀ toks e s rest,
     spells toks e → tokens s = toks ++ rest →
     token_type (default eof_token (head rest)) ≠ LPAREN →
     length toks < n →
     ∃ s', parse_argument_expr n s = Ok e s' ∧ tokens s' = rest) ∧
  (∀ more_tokens more s t rest args,
     spells_more more_tokens more → tokens s = more_tokens ++ t :: rest →
     token_type t ≠ COMMA → token_type t ≠ LPAREN →
     length more_tokens < n →
     ∃ s', parse_arguments_loop n args s = Ok (args ++ more) s' ∧
           tokens s' = t :: rest).
Proof.
  induction n as [n IH] using lt_wf_ind. split.
  - intros toks e s rest Hspells Htok Hnext Hn.
    destruct n as [|n]; [lia|]. rewrite parse_argument_expr_eq.
    destruct Hspells as [t Ht|t Ht|id lp rp ft mt first more Hid Hlp Hrp Hfirst Hmore].
    + simpl in Htok. exists (set_tokens rest s). split; [|done].
      eapply bind_Ok; [by eapply peek_head|]. simpl.
      rewrite decide_True by done.
      eapply bind_Ok; [by eapply peek_second|]. simpl.
      rewrite decide_False by done.
      eapply bind_Ok; [by eapply expect_Ok|]. done.
    + simpl in Htok. exists (set_tokens rest s). split; [|done].
      eapply bind_Ok; [by eapply peek_head|]. simpl.
      rewrite decide_False by congruence. rewrite decide_True by done.
      eapply bind_Ok; [by eapply expect_Ok|]. done.
    + simpl in Htok, Hn. rewrite !length_app in Hn. simpl in Hn.
      rewrite <-!app_assoc in Htok. simpl in Htok.
      destruct n as [|n]; [lia|].
      destruct (proj1 (IH n ltac:(lia)) ft first
                  (set_tokens (ft ++ mt ++ rp :: rest)
                     (set_tokens (lp :: ft ++ mt ++ rp :: rest) s))
                  (mt ++ rp :: rest) Hfirst eq_refl)
        as (s1 & Hrun1 & Htok1); [|lia|].
      { apply (spells_more_head mt more rp rest Hmore). by rewrite Hrp. }
      destruct (proj2 (IH n ltac:(lia)) mt more s1 rp rest [first] Hmore Htok1)
        as (s2 & Hrun2 & Htok2); [by rewrite Hrp..|lia|].
      eexists. split.
      * eapply bind_Ok; [by eapply peek_head|]. cbv beta.
        rewrite decide_True by done.
        eapply bind_Ok; [by eapply peek_second|]. cbv beta.
        rewrite decide_True by done.
        eapply bind_Ok; [by eapply expect_Ok|]. cbv beta.
        rewrite parse_call_expr_from_token_eq.
        eapply bind_Ok; [eapply expect_Ok; [reflexivity|done]|]. simpl.
        eapply bind_Ok; [exact Hrun1|]. simpl.
        eapply bind_Ok; [exact Hrun2|]. simpl.
        eapply bind_Ok; [eapply expect_Ok; [exact Htok2|done]|]. simpl.
        eapply bind_Ok; [apply check_call_run|]. simpl. reflexivity.
      * reflexivity.
  - intros mt more s t rest args Hmore Htok Hcomma Hlp Hn.
    destruct n as [|n]; [lia|]. rewrite parse_arguments_loop_eq.
    destruct Hmore as [|comma at' mt' arg more' Hc Harg Hmore'].
    + simpl in Htok. exists s. split; [|done]. rewrite app_nil_r.
      eapply bind_Ok; [by eapply peek_head|]. simpl.
      by rewrite decide_False.
    + simpl in Htok, Hn. rewrite length_app in Hn.
      rewrite <-app_assoc in Htok.
      destruct (proj1 (IH n ltac:(lia)) at' arg
                  (set_tokens (at' ++ mt' ++ t :: rest) s)
                  (mt' ++ t :: rest) Harg eq_refl)
        as (s1 & Hrun1 & Htok1); [|lia|].
      { by apply (spells_more_head mt' more' t rest Hmore'). }
      destruct (proj2 (IH n ltac:(lia)) mt' more' s1 t rest (args ++ [arg])
                  Hmore' Htok1 Hcomma Hlp)
        as (s2 & Hrun2 & Htok2); [lia|].
      exists s2. split; [|done].
      eapply bind_Ok; [by eapply peek_head|]. simpl.
      rewrite decide_True by done.
      eapply bind_Ok; [by eapply expect_Ok|]. simpl.
      eapply bind_Ok; [exact Hrun1|]. simpl.
      rewrite Hrun2. by rewrite <-app_assoc.
Qed.

Lemma parse_argument_expr_accepts s toks e rest :
  spells toks e → tokens s = toks ++ rest →
  token_type (default eof_token (head rest)) ≠ LPAREN →
  ∃ s', with_fuel parse_argument_expr s = Ok e s' ∧ tokens s' = rest.
Proof.
  intros Hspells Htok Hnext. unfold with_fuel, fuel_of.
  apply (proj1 (argument_accepts _) toks e s rest Hspells Htok Hnext).
  rewrite Htok, length_app. lia.
Qed.

Lemma parse_poly_eval_expr_accepts s toks name args rest :
  spells toks (CallExpr name args) → tokens s = toks ++ rest →
  ∃ s', parse_poly_eval_expr s = Ok (CallExpr name args) s' ∧ tokens s' = rest.
Proof.
  intros Hspells Htok.
  inversion Hspells as [| |id lp rp ft mt first more Hid Hlp Hrp Hfirst Hmore];
    subst.
  simpl in Htok. rewrite <-!app_assoc in Htok. simpl in Htok.
  set (s0 := set_used_polynomials ({[lexeme id]} ∪ used_polynomials (set_tokens (lp :: ft ++ mt ++ rp :: rest) s))
               (set_tokens (lp :: ft ++ mt ++ rp :: rest) s)).
  destruct (parse_argument_expr_accepts
              (set_tokens (ft ++ mt ++ rp :: rest) s0) ft first
              (mt ++ rp :: rest) Hfirst eq_refl)
    as (s1 & Hrun1 & Htok1).
  { apply (spells_more_head mt more rp rest Hmore). by rewrite Hrp. }
  destruct (proj2 (argument_accepts (fuel_of s1)) mt more s1 rp rest [first]
              Hmore Htok1) as (s2 & Hrun2 & Htok2); [by rewrite Hrp..| |].
  { unfold fuel_of. rewrite Htok1, length_app. lia. }
  eexists. split.
  - unfold parse_poly_eval_expr.
    eapply bind_Ok; [by eapply expect_Ok|]. simpl.
    eapply bind_Ok; [reflexivity|]. simpl.
    eapply bind_Ok; [eapply expect_Ok; [reflexivity|done]|]. simpl.
    eapply bind_Ok; [exact Hrun1|]. simpl.
    eapply bind_Ok; [exact Hrun2|]. simpl.
    eapply bind_Ok; [eapply expect_Ok; [exact Htok2|done]|]. simpl.
    eapply bind_Ok; [apply check_call_run|]. simpl. reflexivity.
  - reflexivity.
Qed.

(** ** Task selection *)

#[global] Arguments select_task : simpl never.

(** Selecting tasks touches the four flags only, and a flag ends up set
    exactly if it was set before or its number is listed. *)
Lemma select_tasks_fields (tasks : list Z) (s : State) :
  let s' := foldl (λ s task, select_task task s) s tasks in
  tokens s' = tokens s ∧
  current_poly_params s' = current_poly_params s ∧
  in_poly_decl s' = in_poly_decl s ∧
  poly_decl_first_line s' = poly_decl_first_line s ∧
  duplicate_decl_lines s' = duplicate_decl_lines s ∧
  invalid_monomial_lines s' = invalid_monomial_lines s ∧
  semantic_errors s' = semantic_errors s ∧
  used_polynomials s' = used_polynomials s ∧
  poly_declarations s' = poly_declarations s ∧
  polyExprs s' = polyExprs s ∧
  execStatements s' = execStatements s ∧
  execInputs s' = execInputs s ∧
  runTask2 s' = runTask2 s || bool_decide (2%Z ∈ tasks) ∧
  runTask3 s' = runTask3 s || bool_decide (3%Z ∈ tasks) ∧
  runTask4 s' = runTask4 s || bool_decide (4%Z ∈ tasks) ∧
  runTask5 s' = runTask5 s || bool_decide (5%Z ∈ tasks).
Proof.
  revert s. induction tasks as [|task tasks IH]; intros s; simpl.
  { rewrite !orb_false_r. by split_and!. }
  destruct (IH (select_task task s))
    as (-> & -> & -> & -> & -> & -> & -> & -> & -> & -> & -> & -> & -> & -> & -> & ->).
  assert (∀ k : Z, bool_decide (k ∈ task :: tasks)
                   = bool_decide (task = k) || bool_decide (k ∈ tasks)) as Hmem.
  { intros k. rewrite <-bool_decide_or. apply bool_decide_ext.
    rewrite elem_of_cons. naive_solver. }
  rewrite !Hmem, !(bool_decide_decide (task = _)). unfold select_task.
  destruct (decide (task = 2%Z)) as [?|?], (decide (task = 3%Z)) as [?|?],
           (decide (task = 4%Z)) as [?|?], (decide (task = 5%Z)) as [?|?];
    try lia; simpl; rewrite ?orb_true_r; by split_and!.
Qed.

(** Two lists that hold the same of the numbers 2 to 5 select the same
    tasks. *)
Lemma select_tasks_same_set (tasks1 tasks2 : list Z) (s : State) :
  (∀ k : Z, k ∈ [2; 3; 4; 5]%Z → k ∈ tasks1 ↔ k ∈ tasks2) →
  foldl (λ s task, select_task task s) s tasks1
    = foldl (λ s task, select_task task s) s tasks2.
Proof.
  intros Hsame.
  pose proof (select_tasks_fields tasks1 s) as H1.
  pose proof (select_tasks_fields tasks2 s) as H2. simpl in H1, H2.
  destruct H1 as (?&?&?&?&?&?&?&?&?&?&?&?&Ha2&Ha3&Ha4&Ha5).
  destruct H2 as (?&?&?&?&?&?&?&?&?&?&?&?&Hb2&Hb3&Hb4&Hb5).
  apply state_ext; try congruence.
  - rewrite Ha2, Hb2. f_equal. apply bool_decide_ext, Hsame. set_solver.
  - rewrite Ha3, Hb3. f_equal. apply bool_decide_ext, Hsame. set_solver.
  - rewrite Ha4, Hb4. f_equal. apply bool_decide_ext, Hsame. set_solver.
  - rewrite Ha5, Hb5. f_equal. apply bool_decide_ext, Hsame. set_solver.
Qed.

Lemma select_task_set_tokens task ts s :
  select_task task (set_tokens ts s) = set_tokens ts (select_task task s).
Proof. unfold select_task. by repeat case_decide. Qed.

Lemma select_tasks_set_tokens tasks ts s :
  foldl (λ s task, select_task task s) (set_tokens ts s) tasks
    = set_tokens ts (foldl (λ s task, select_task task s) s tasks).
Proof.
  revert s. induction tasks as [|task tasks IH]; intros s; simpl; [done|].
  by rewrite select_task_set_tokens, IH.
Qed.

(** What [parse_num_list] does on a run of [NUM] tokens that is followed
    by another kind of token: it reads the run and selects its tasks. *)
Lemma parse_num_list_run nums fuel s rest :
  tokens s = nums ++ rest → nums ≠ [] →
  Forall (λ t, token_type t = NUM) nums →
  token_type (default eof_token (rest !! 0)) ≠ NUM →
  length nums ≤ fuel →
  parse_num_list fuel s = Ok () (tasks_selected s nums rest).
Proof.
  revert fuel s. induction nums as [|t nums IH]; intros fuel s Htok Hne Hnum Hrest Hfuel;
    [done|].
  destruct fuel as [|fuel]; [simpl in Hfuel; lia|].
  apply Forall_cons in Hnum as [Ht Hnum]. simpl.
  unfold mbind, M_bind, expect, GetToken, modify, peek, gets. simpl.
  unfold mbind, M_bind. rewrite Htok. simpl. rewrite decide_True by done. simpl.
  change (if decide (atoi (lexeme t) = 5%Z) then _ else _)
    with (select_task (atoi (lexeme t)) (set_tokens (nums ++ rest) s)).
  rewrite select_task_set_tokens. simpl.
  destruct nums as [|t' nums].
  - simpl. by rewrite decide_False.
  - apply Forall_cons in Hnum as [Ht' Hnum']. simpl.
    rewrite decide_True by done.
    rewrite (IH fuel _); simpl; try done; [|by constructor|simpl in Hfuel; lia].
    unfold tasks_selected. simpl. f_equal.
    rewrite !select_task_set_tokens, !select_tasks_set_tokens.
    by apply state_ext.
Qed.

Lemma parse_tasks_section_run s t nums rest :
  tokens s = t :: nums ++ rest → token_type t = TASKS → nums ≠ [] →
  Forall (λ t, token_type t = NUM) nums →
  token_type (default eof_token (rest !! 0)) ≠ NUM →
  parse_tasks_section s = Ok () (tasks_selected s nums rest).
Proof.
  intros Htok Ht Hne Hnum Hrest.
  unfold parse_tasks_section, mbind, M_bind, expect, GetToken.
  unfold mbind, M_bind. rewrite Htok. simpl. rewrite decide_True by done. simpl.
  unfold with_fuel. rewrite (parse_num_list_run nums _ _ rest); simpl; try done.
  - unfold tasks_selected. f_equal. rewrite select_tasks_set_tokens. by apply state_ext.
  - unfold fuel_of. simpl. rewrite length_app. lia.
Qed.

(** After the TASKS section only the state matters. *)
Lemma ConsumeAllInput_after_tasks s1 s2 :
  parse_tasks_section s1 = parse_tasks_section s2 →
  ConsumeAllInput s1 = ConsumeAllInput s2.
Proof.
  intros Heq. unfold ConsumeAllInput, parse_program, mbind, M_bind.
  by rewrite Heq.
Qed.

Lemma parse_tasks_section_not_tasks s t ts :
  tokens s = t :: ts → token_type t ≠ TASKS → parse_tasks_section s = SyntaxError.
Proof.
  intros Htok Ht. unfold parse_tasks_section, mbind, M_bind, expect, GetToken.
  unfold mbind, M_bind. rewrite Htok. simpl. by rewrite decide_False.
Qed.

(** The general form of C9: two TASKS lists that hold the same of the
    numbers 2 to 5 give the same run. *)
Lemma main_same_task_set (t : Token) (nums1 nums2 rest : list Token) :
  nums1 ≠ [] → nums2 ≠ [] →
  Forall (λ t, token_type t = NUM) nums1 →
  Forall (λ t, token_type t = NUM) nums2 →
  token_type (default eof_token (rest !! 0)) ≠ NUM →
  (∀ k : Z, k ∈ [2; 3; 4; 5]%Z →
     k ∈ task_numbers nums1 ↔ k ∈ task_numbers nums2) →
  main (t :: nums1 ++ rest) = main (t :: nums2 ++ rest).
Proof.
  intros Hne1 Hne2 Hnum1 Hnum2 Hrest Hsame. unfold main.
  rewrite (ConsumeAllInput_after_tasks (initial_state (t :: nums1 ++ rest))
             (initial_state (t :: nums2 ++ rest))); [done|].
  destruct (decide (token_type t = TASKS)) as [Ht|Ht].
  - rewrite (parse_tasks_section_run _ t nums1 rest) by done.
    rewrite (parse_tasks_section_run _ t nums2 rest) by done.
    f_equal. unfold tasks_selected.
    rewrite (select_tasks_same_set _ _ _ Hsame).
    pose proof (select_tasks_fields (task_numbers nums2)
                  (initial_state (t :: nums1 ++ rest))) as H1.
    pose proof (select_tasks_fields (task_numbers nums2)
                  (initial_state (t :: nums2 ++ rest))) as H2.
    simpl in H1, H2.
    destruct H1 as (?&?&?&?&?&?&?&?&?&?&?&?&?&?&?&?).
    destruct H2 as (?&?&?&?&?&?&?&?&?&?&?&?&?&?&?&?).
    apply state_ext; simpl; congruence.
  - by rewrite !(parse_tasks_section_not_tasks _ t _) by done.
Qed.

(** C9: task selection is idempotent, a task number listed a second time
    changes nothing, and independent of the order of the numbers. *)
Theorem task_selection_idempotent_order_independent :
  (∀ (t n n' : Token) (l1 l2 l3 rest : list Token),
     Forall (λ t, token_type t = NUM) (l1 ++ n :: l2 ++ n' :: l3) →
     atoi (lexeme n') = atoi (lexeme n) →
     token_type (default eof_token (rest !! 0)) ≠ NUM →
     main (t :: (l1 ++ n :: l2 ++ n' :: l3) ++ rest)
       = main (t :: (l1 ++ n :: l2 ++ l3) ++ rest)) ∧
  (∀ (t : Token) (nums1 nums2 rest : list Token),
     nums1 ≡ₚ nums2 →
     Forall (λ t, token_type t = NUM) nums1 →
     token_type (default eof_token (rest !! 0)) ≠ NUM →
     main (t :: nums1 ++ rest) = main (t :: nums2 ++ rest)).
Proof.
  split.
  - intros t n n' l1 l2 l3 rest Hnum Heq Hrest.
    apply main_same_task_set; try done.
    + by destruct l1.
    + by destruct l1.
    + rewrite !Forall_app, !Forall_cons, !Forall_app, !Forall_cons in Hnum.
      rewrite !Forall_app, !Forall_cons, !Forall_app. tauto.
    + intros k _. unfold task_numbers.
      rewrite !fmap_app, !fmap_cons, !fmap_app, !fmap_cons.
      rewrite !elem_of_app, !elem_of_cons, !elem_of_app, !elem_of_cons.
      rewrite Heq. tauto.
  - intros t nums1 nums2 rest Hperm Hnum Hrest.
    destruct nums1 as [|n1 nums1].
    { by apply Permutation_nil_l in Hperm as <-. }
    apply main_same_task_set; try done.
    + intros ->. by apply Permutation_nil_r in Hperm.
    + by rewrite <-Hperm.
    + intros k _. unfold task_numbers. by rewrite Hperm.
Qed.

(** [TASKS 2 5 2] and [TASKS 5 2] before the round-trip program give the
    same run as [TASKS 2 5]. *)
Lemma task_selection_idempotent_order_independent_witness :
  let n2 := Sample.num "2" 1 in
  let n5 := Sample.num "5" 1 in
  let rest := drop 2 Sample.round_trip in
  main (Sample.tasks 1 :: [n2; n5; n2] ++ rest)
    = main (Sample.tasks 1 :: [n2; n5] ++ rest) ∧
  main (Sample.tasks 1 :: [n2; n5] ++ rest)
    = main (Sample.tasks 1 :: [n5; n2] ++ rest) ∧
  main (Sample.tasks 1 :: [n2; n5] ++ rest) = Exited 0 ["6"; "f: 1"].
Proof.
  intros n2 n5 rest.
  destruct task_selection_idempotent_order_independent as [Hidem Horder].
  split_and!.
  - apply (Hidem (Sample.tasks 1) n2 n2 [] [n5] [] rest).
    + repeat constructor.
    + reflexivity.
    + vm_compute. discriminate.
  - apply (Horder (Sample.tasks 1) [n2; n5] [n5; n2] rest).
    + apply perm_swap.
    + repeat constructor.
    + vm_compute. discriminate.
  - vm_compute. reflexivity.
Defined.

(** ** Whole programs: the parser returns, and what it leaves behind *)

Lemma extends_refl s : extends s s.
Proof.
  split; [|done]. exists [], []. split_and!; [done|by rewrite app_nil_r|].
  apply findings_at_nil.
Qed.

Lemma extends_trans s1 s2 s3 : extends s1 s2 → extends s2 s3 → extends s1 s3.
Proof.
  intros ((u1 & e1 & Htok1 & Herr1 & Hf1) & Hfree1 & Hshape1)
         ((u2 & e2 & Htok2 & Herr2 & Hf2) & Hfree2 & Hshape2).
  split; [|split; [by intros H; apply Hfree2, Hfree1
                  |by intros H; apply Hshape2, Hshape1]].
  exists (u1 ++ u2), (e1 ++ e2). split_and!.
  - by rewrite Htok1, Htok2, app_assoc.
  - by rewrite Herr2, Herr1, app_assoc.
  - apply findings_at_app; (eapply findings_at_mono; [|eassumption]);
      rewrite fmap_app; set_solver.
Qed.

Lemma extends_length s s' : extends s s' → length (tokens s') ≤ length (tokens s).
Proof. intros [(u & e & -> & _) _]. rewrite length_app. lia. Qed.

(** A state that differs from [s] only in fields [extends] does not look
    at extends [s]. *)
Lemma extends_same s s' :
  tokens s' = tokens s → semantic_errors s' = semantic_errors s →
  polyExprs s' = polyExprs s → execStatements s' = execStatements s →
  extends s s'.
Proof.
  intros Htok Herr Hbodies Hstmts. split_and!.
  - exists [], []. split_and!; [by rewrite Htok|by rewrite Herr, app_nil_r|].
    apply findings_at_nil.
  - by rewrite Hbodies.
  - by rewrite Hstmts.
Qed.

(** One more statement of the right shape. *)
Lemma extends_statement s stmt :
  statement_shape stmt →
  extends s (set_execStatements (execStatements s ++ [stmt]) s).
Proof.
  intros Hstmt. split_and!.
  - exists [], []. split_and!; [done|by rewrite app_nil_r|apply findings_at_nil].
  - done.
  - intros Hall. simpl. apply Forall_app. split; [done|by constructor].
Qed.

Lemma extends_token s t ts : tokens s = t :: ts → extends s (set_tokens ts s).
Proof.
  intros Htok. split; [|done]. exists [t], []. split_and!; [done| |].
  - simpl. by rewrite app_nil_r.
  - apply findings_at_nil.
Qed.

Lemma decl_post_progress s u s' : decl_post s u s' → progress s s'.
Proof.
  intros (t & hrest & eq & body_tokens & semi & rest & params & body
          & Htok & _ & _ & _ & _ & Hfree & _ & _ & ->).
  assert (tokens (declared s (lexeme t) (line_no t) params body_tokens body rest)
          = rest) as Hrest.
  { unfold declared. by destruct (poly_decl_first_line s !! lexeme t). }
  split; [split_and!|].
  - exists (t :: hrest ++ eq :: body_tokens ++ [semi]), []. split_and!.
    + rewrite Hrest, Htok. simpl. rewrite <-!app_assoc. simpl.
      by rewrite <-!app_assoc.
    + unfold declared. destruct (poly_decl_first_line s !! lexeme t);
        simpl; by rewrite app_nil_r.
    + apply findings_at_nil.
  - intros Hbodies n b. unfold declared.
    destruct (poly_decl_first_line s !! lexeme t); simpl; [apply Hbodies|].
    destruct (decide (lexeme t = n)) as [->|Hne].
    + rewrite lookup_insert_eq. by intros [= <-].
    + rewrite lookup_insert_ne by done. apply Hbodies.
  - unfold declared. by destruct (poly_decl_first_line s !! lexeme t).
  - rewrite Hrest, Htok. simpl. rewrite !length_app. simpl.
    rewrite !length_app. simpl. lia.
Qed.

Lemma eval_post_progress s e s' : eval_post s e s' → progress s s'.
Proof.
  intros (t & used & errs & args & rest
          & Htok & _ & Hne & _ & _ & _ & _ & Hf & ->).
  split; [split_and!|].
  - exists (t :: used), errs. by split_and!.
  - done.
  - done.
  - simpl. rewrite Htok. simpl. rewrite length_app. lia.
Qed.

(** Chains what was read into one [extends]. *)
Ltac solve_extends :=
  simpl;
  lazymatch goal with
  | |- extends ?s ?s => apply extends_refl
  | H : progress ?s1 ?s' |- extends _ ?s' =>
      eapply extends_trans; [|exact (proj1 H)]; solve_extends
  | H : extends ?s1 ?s' |- extends _ ?s' =>
      eapply extends_trans; [|exact H]; solve_extends
  | |- extends _ (set_execStatements (_ ++ [_]) ?s1) =>
      eapply extends_trans;
        [|apply extends_statement; first [assumption|done]];
        solve_extends
  | |- extends _ (set_tokens _ ?s1) =>
      eapply extends_trans;
        [|eapply extends_token; simpl; first [reflexivity|eassumption]];
        solve_extends
  | |- extends _ (?f ?v ?s1) =>
      eapply extends_trans; [|apply (extends_same s1 (f v s1)); reflexivity];
        solve_extends
  end.

Ltac program_lengths :=
  repeat match goal with
  | H : progress ?a ?b |- _ =>
      let Hl := fresh "Hlen" in destruct H as [_ Hl]
  | H : extends ?a ?b |- _ =>
      apply extends_length in H
  | H : tokens _ = _ :: _ |- _ => apply (f_equal length) in H; simpl in H; revert H
  end;
  intros; simpl in *.

Ltac solve_progress :=
  split; [solve_extends|program_lengths; lia].

Ltac wp_rec IH :=
  lazymatch goal with
  | |- wp (mbind _ _) _ _ => apply wp_bind
  | _ => idtac
  end;
  eapply wp_mono; [apply IH; program_lengths; lia|];
  simpl.

Lemma parse_num_list_spec n s :
  length (tokens s) < n → wp (parse_num_list n) (λ _ s', progress s s') s.
Proof.
  revert s. induction n as [|n IH]; intros s Hn; [lia|].
  simpl. wp_auto.
  all: repeat case_decide.
  all: try (wp_rec IH; intros [] s1 Hs1).
  all: solve_progress.
Qed.

Lemma parse_tasks_section_spec s :
  wp parse_tasks_section (λ _ s', progress s s') s.
Proof.
  unfold parse_tasks_section. wp_auto.
  eapply wp_mono; [apply parse_num_list_spec; unfold fuel_of; simpl; lia|].
  intros [] s1 Hs1. simpl. solve_progress.
Qed.

Lemma parse_poly_decl_list_spec n s :
  length (tokens s) < n → wp (parse_poly_decl_list n) (λ _ s', progress s s') s.
Proof.
  revert s. induction n as [|n IH]; intros s Hn; [lia|].
  simpl. wp_apply parse_poly_decl_spec. intros [] s1 Hs1%decl_post_progress.
  wp_auto.
  - wp_rec IH. intros [] s2 Hs2. solve_progress.
  - solve_progress.
Qed.

Lemma parse_poly_section_spec s :
  wp parse_poly_section (λ _ s', progress s s') s.
Proof.
  unfold parse_poly_section. wp_auto.
  eapply wp_mono; [apply parse_poly_decl_list_spec; unfold fuel_of; simpl; lia|].
  intros [] s1 Hs1. simpl. solve_progress.
Qed.

Lemma parse_statement_exec_spec s :
  wp parse_statement_exec
     (λ stmt s', progress s s' ∧ statement_shape stmt) s.
Proof.
  unfold parse_statement_exec. wp_auto.
  - unfold parse_input_statement_exec. wp_auto. split; [solve_progress|done].
  - unfold parse_output_statement_exec. wp_auto. split; [solve_progress|done].
  - unfold parse_assign_statement_exec. wp_auto.
    wp_apply parse_poly_eval_expr_spec. intros rhs s1 Hpost.
    pose proof (eval_post_progress _ _ _ Hpost) as Hs1.
    destruct Hpost as (t' & used & errs & args & rest
                       & _ & _ & _ & -> & Hargs & Hall & _).
    wp_auto. split; [solve_progress|done].
Qed.

Lemma parse_statement_list_exec_spec n s :
  length (tokens s) < n →
  wp (parse_statement_list_exec n) (λ _ s', progress s s') s.
Proof.
  revert s. induction n as [|n IH]; intros s Hn; [lia|].
  simpl. wp_apply parse_statement_exec_spec. intros stmt s1 [Hs1 Hstmt].
  wp_auto.
  - wp_rec IH. intros [] s2 Hs2. solve_progress.
  - solve_progress.
Qed.

Lemma parse_execute_section_spec s :
  wp parse_execute_section (λ _ s', progress s s') s.
Proof.
  unfold parse_execute_section. wp_auto.
  eapply wp_mono;
    [apply parse_statement_list_exec_spec; unfold fuel_of; simpl; lia|].
  intros [] s1 Hs1. simpl. solve_progress.
Qed.

Lemma parse_inputs_loop_spec n s :
  length (tokens s) < n → wp (parse_inputs_loop n) (λ _ s', extends s s') s.
Proof.
  revert s. induction n as [|n IH]; intros s Hn; [lia|].
  simpl. wp_auto.
  - wp_rec IH. intros [] s1 Hs1. solve_extends.
  - solve_extends.
Qed.

Lemma parse_inputs_section_spec s :
  wp parse_inputs_section (λ _ s', progress s s') s.
Proof.
  unfold parse_inputs_section. wp_auto.
  eapply wp_mono; [apply parse_inputs_loop_spec; unfold fuel_of; simpl; lia|].
  intros [] s1 Hs1. simpl. solve_progress.
Qed.

Lemma parse_program_spec s : wp parse_program (λ _ s', progress s s') s.
Proof.
  unfold parse_program.
  wp_apply parse_tasks_section_spec. intros [] s1 Hs1.
  wp_apply parse_poly_section_spec. intros [] s2 Hs2.
  wp_apply parse_execute_section_spec. intros [] s3 Hs3.
  eapply wp_mono; [apply parse_inputs_section_spec|].
  intros [] s4 Hs4. simpl. solve_progress.
Qed.

Lemma ConsumeAllInput_spec s :
  wp ConsumeAllInput
     (λ gate s', extends s s' ∧ gate = check_semantic_errors s') s.
Proof.
  unfold ConsumeAllInput.
  wp_apply parse_program_spec. intros [] s1 Hs1.
  wp_auto. apply wp_expect_eof.
  - intros Hnil. wp_auto. split; [solve_extends|done].
  - intros t ts Htok Ht. wp_auto. split; [solve_extends|done].
Qed.

(** With findings of the form the parser produces, [stoi] has nothing to
    throw at: the gate reports or lets pass. *)
Lemma gate_does_not_throw (s : State) (fs : list (CallFinding * Z)) :
  semantic_errors s = finding_text <$> fs →
  Forall (λ f, Int.in_range f.2) fs →
  check_semantic_errors s ≠ Throws.
Proof.
  intros Herr Hrange.
  destruct (decide (duplicate_decl_lines s ≠ [])) as [Hdup|Hdup%dec_stable].
  { by rewrite gate_duplicates. }
  destruct (decide (invalid_monomial_lines s ≠ [])) as [Hinv|Hinv%dec_stable].
  { by rewrite gate_invalid_monomials. }
  destruct fs as [|f fs].
  - by rewrite gate_clean.
  - by rewrite (gate_call_findings s f fs).
Qed.

(** Every token stream makes the parser return within its budget; what it
    leaves behind are findings at lines of the input, bodies without
    calls and statements of the shape the grammar gives them, so that the
    gate does not throw when the line numbers are [int]s. *)
Theorem main_returns (input : list Token) :
  main input ≠ OutOfBudget ∧
  ConsumeAllInput (initial_state input) ≠ OutOfFuel ∧
  ∀ gate s, ConsumeAllInput (initial_state input) = Ok gate s →
    gate = check_semantic_errors s ∧
    (∀ n body, polyExprs s !! n = Some body → call_free body) ∧
    Forall statement_shape (execStatements s) ∧
    ∃ fs, semantic_errors s = finding_text <$> fs ∧
          Forall (λ f, f.2 ∈ line_no <$> input) fs ∧
          (Forall (λ t, Int.in_range (line_no t)) input →
           Forall (λ f, Int.in_range f.2) fs ∧ gate ≠ Throws).
Proof.
  pose proof (ConsumeAllInput_spec (initial_state input)) as Hspec.
  split_and!.
  - unfold main.
    destruct (ConsumeAllInput (initial_state input)) as [gate s| |] eqn:Hrun.
    + destruct gate; [by destruct (run_tasks s)|done|done].
    + done.
    + by apply (wp_not_OutOfFuel _ _ _ Hspec) in Hrun.
  - by apply (wp_not_OutOfFuel _ _ _ Hspec).
  - intros gate s Hrun.
    destruct (wp_Ok _ _ _ _ _ Hspec Hrun)
      as [((used & errs & Htok & Herr & fs & -> & Hfs) & Hbodies & Hshape) ->].
    simpl in Htok, Herr. split_and!; [done| | |].
    + apply Hbodies. intros n body. simpl. by rewrite lookup_empty.
    + by apply Hshape.
    + exists fs.
      assert (Forall (λ t, Int.in_range (line_no t)) input →
              Forall (λ f : CallFinding * Z, Int.in_range f.2) fs) as Hrange.
      { intros Hinput. eapply Forall_impl; [exact Hfs|]. intros f Hf. simpl in Hf.
        apply list_elem_of_fmap in Hf as (t & -> & Ht).
        rewrite Forall_forall in Hinput. apply Hinput.
        rewrite Htok. set_solver. }
      split_and!; [done| |].
      * eapply Forall_impl; [exact Hfs|]. intros f Hf. simpl in Hf.
        rewrite Htok, fmap_app. set_solver.
      * intros Hinput. split; [by apply Hrange|].
        apply (gate_does_not_throw s fs Herr). by apply Hrange.
Qed.

(** ** Arguments and findings in whole programs *)

(** C3, as the code has it: an argument is an identifier, a numeral, or a
    call whose arguments are arguments again, so calls nest to any depth:
    every argument written out by this grammar is accepted and read as the
    tree it stands for, and so is every call as the right-hand side of an
    assignment; the tokens read for an argument are the ones that spell
    it, identifiers, numerals, the parentheses of calls and commas, so no
    operator belongs to an argument; the right-hand side of an assignment
    is such a call with at least one argument; a token other than an
    identifier or a numeral where an argument starts is a syntax error;
    and in every program the parser accepts, every assignment of the
    execution script has a right-hand side of that shape. *)
Theorem argument_grammar_spec (s : State) (input : list Token) :
  with_fuel parse_argument_expr s ≠ OutOfFuel ∧
  (∀ e s', with_fuel parse_argument_expr s = Ok e s' →
     is_argument e ∧
     ∃ used, tokens s = used ++ tokens s' ∧
             token_type <$> used = argument_kinds e ∧
             Forall (λ t, token_type t ∈ [ID; NUM; LPAREN; COMMA; RPAREN]) used) ∧
  (token_type (default eof_token (tokens s !! 0)) ≠ ID →
   token_type (default eof_token (tokens s !! 0)) ≠ NUM →
   with_fuel parse_argument_expr s = SyntaxError) ∧
  parse_poly_eval_expr s ≠ OutOfFuel ∧
  (∀ e s', parse_poly_eval_expr s = Ok e s' →
     ∃ t used args,
       tokens s = t :: used ++ tokens s' ∧
       e = CallExpr (lexeme t) args ∧ args ≠ [] ∧ Forall is_argument args ∧
       token_type <$> t :: used = argument_kinds e ∧
       Forall (λ t, token_type t ∈ [ID; NUM; LPAREN; COMMA; RPAREN]) (t :: used)) ∧
  ConsumeAllInput (initial_state input) ≠ OutOfFuel ∧
  (∀ gate s', ConsumeAllInput (initial_state input) = Ok gate s' →
     Forall statement_shape (execStatements s')) ∧
  (∀ toks e rest,
     spells toks e → tokens s = toks ++ rest →
     token_type (default eof_token (head rest)) ≠ LPAREN →
     ∃ s', with_fuel parse_argument_expr s = Ok e s' ∧ tokens s' = rest) ∧
  (∀ toks name args rest,
     spells toks (CallExpr name args) → tokens s = toks ++ rest →
     ∃ s', parse_poly_eval_expr s = Ok (CallExpr name args) s' ∧
           tokens s' = rest).
Proof.
  split_and!.
  - apply (wp_not_OutOfFuel _ _ _ (parse_argument_expr_spec s)).
  - intros e s' Hrun.
    destruct (wp_Ok _ _ _ _ _ (parse_argument_expr_spec s) Hrun)
      as (used & errs & _ & (rest & Htok & ->) & _ & Harg & Hkinds).
    split; [done|]. exists used. split_and!; [done|done|].
    by eapply spelled_without_operator.
  - apply parse_argument_expr_rejects.
  - apply (wp_not_OutOfFuel _ _ _ (parse_poly_eval_expr_spec s)).
  - intros e s' Hrun.
    destruct (wp_Ok _ _ _ _ _ (parse_poly_eval_expr_spec s) Hrun)
      as (t & used & errs & args & rest
          & Htok & _ & _ & He & Hne & Hargs & Hkinds & _ & ->).
    exists t, used, args. split_and!; [done|done|done|done|done|].
    by eapply spelled_without_operator.
  - apply main_returns.
  - intros gate s' Hrun.
    by destruct (proj2 (proj2 (main_returns input)) gate s' Hrun) as (_ & _ & Hshape & _).
  - intros toks e rest. apply parse_argument_expr_accepts.
  - intros toks name args rest. apply parse_poly_eval_expr_accepts.
Qed.

(** The nested call [F(G(1), b)] is written by the grammar, and therefore
    accepted as an argument and as a right-hand side; it is read to its
    end from the tokens that spell it; an opening parenthesis is not the
    start of an argument; and the one assignment of the round-trip program
    has a call with the argument [a] as its right-hand side. *)
Lemma argument_grammar_spec_witness :
  spells Sample.nested_call
    (CallExpr "F" [CallExpr "G" [ConstExpr 1]; VarExpr "b" 5]) ∧
  (∃ s', with_fuel parse_argument_expr (initial_state Sample.nested_call)
           = Ok (CallExpr "F" [CallExpr "G" [ConstExpr 1]; VarExpr "b" 5]) s' ∧
         tokens s' = []) ∧
  (∃ s', parse_poly_eval_expr (initial_state Sample.nested_call)
           = Ok (CallExpr "F" [CallExpr "G" [ConstExpr 1]; VarExpr "b" 5]) s' ∧
         tokens s' = []) ∧
  (is_argument (CallExpr "F" [CallExpr "G" [ConstExpr 1]; VarExpr "b" 5]) ∧
   ∃ used, Sample.nested_call = used ++ [] ∧
     token_type <$> used
       = argument_kinds (CallExpr "F" [CallExpr "G" [ConstExpr 1]; VarExpr "b" 5]) ∧
     Forall (λ t, token_type t ∈ [ID; NUM; LPAREN; COMMA; RPAREN]) used) ∧
  with_fuel parse_argument_expr (initial_state Sample.paren_expr) = SyntaxError ∧
  (∃ t used args,
     Sample.nested_call = t :: used ++ [] ∧
     CallExpr "F" [CallExpr "G" [ConstExpr 1]; VarExpr "b" 5]
       = CallExpr (lexeme t) args ∧
     args ≠ [] ∧ Forall is_argument args ∧
     token_type <$> t :: used
       = argument_kinds (CallExpr "F" [CallExpr "G" [ConstExpr 1]; VarExpr "b" 5]) ∧
     Forall (λ t, token_type t ∈ [ID; NUM; LPAREN; COMMA; RPAREN]) (t :: used)) ∧
  Forall statement_shape
    [InputStmt "a"; AssignStmt "b" 6 (CallExpr "f" [VarExpr "a" 6]);
     OutputStmt "b"].
Proof.
  destruct (argument_grammar_spec (initial_state Sample.nested_call)
              Sample.round_trip)
    as (_ & Hshape & _ & _ & Hcall & _ & Hprogram & Haccepts & Hrhs).
  destruct (argument_grammar_spec (initial_state Sample.paren_expr) [])
    as (_ & _ & Hreject & _).
  assert (spells Sample.nested_call
            (CallExpr "F" [CallExpr "G" [ConstExpr 1]; VarExpr "b" 5])) as Hspells.
  { apply (spells_call (Sample.id "F" 5) (Sample.lp 5) (Sample.rp 5)
             [Sample.id "G" 5; Sample.lp 5; Sample.num "1" 5; Sample.rp 5]
             [Sample.comma 5; Sample.id "b" 5]
             (CallExpr "G" [ConstExpr 1]) [VarExpr "b" 5]);
      [reflexivity..| |].
    - apply (spells_call (Sample.id "G" 5) (Sample.lp 5) (Sample.rp 5)
               [Sample.num "1" 5] [] (ConstExpr 1) []); [reflexivity..| |].
      + by apply (spells_num (Sample.num "1" 5)).
      + apply spells_more_nil.
    - apply (spells_more_cons (Sample.comma 5) [Sample.id "b" 5] []
               (VarExpr "b" 5) []); [reflexivity| |].
      + by apply (spells_id (Sample.id "b" 5)).
      + apply spells_more_nil. }
  destruct (Haccepts Sample.nested_call _ [] Hspells) as (s1 & Hrun1 & Hrest1);
    [by rewrite app_nil_r|simpl; discriminate|].
  destruct (Hrhs Sample.nested_call _ _ [] Hspells) as (s2 & Hrun2 & Hrest2);
    [by rewrite app_nil_r|].
  split; [exact Hspells|].
  split; [by exists s1|].
  split; [by exists s2|].
  split; [|split; [|split]].
  - destruct (Hshape _ s1 Hrun1) as [Harg (used & Hused & Hkinds & Hall)].
    rewrite Hrest1 in Hused. split; [exact Harg|].
    exists used. split_and!; [exact Hused|exact Hkinds|exact Hall].
  - apply Hreject; vm_compute; discriminate.
  - destruct (Hcall _ s2 Hrun2)
      as (t & used & args & Hused & He & Hne & Hargs & Hkinds & Hall).
    rewrite Hrest2 in Hused. exists t, used, args.
    split_and!; [exact Hused|exact He|exact Hne|exact Hargs|exact Hkinds|exact Hall].
  - assert (∃ s', ConsumeAllInput (initial_state Sample.round_trip) = Ok Clean s' ∧
                  execStatements s' =
                    [InputStmt "a"; AssignStmt "b" 6 (CallExpr "f" [VarExpr "a" 6]);
                     OutputStmt "b"]) as (s' & Hrun & <-).
    { eexists. split; vm_compute; reflexivity. }
    by apply (Hprogram Clean s').
Defined.

(** C3, as the claim has it, fails: [1 + 2], [( 1 )], [2 a] and [a - 1]
    are expressions of the body grammar, read to their end by the body
    parser, but as the argument of [a = F(...);] each is a syntax error. *)
Lemma argument_expression_counterexample :
  (∀ expr, expr ∈ [Sample.sum_expr; Sample.paren_expr; Sample.product_expr;
                   Sample.difference_expr] →
     (∃ e s', with_fuel parse_poly_body_expr (initial_state expr) = Ok e s' ∧
              tokens s' = []) ∧
     parse_assign_statement_exec (initial_state (Sample.assign_call expr))
       = SyntaxError) ∧
  main Sample.sum_argument_program = Exited 1 ["SYNTAX ERROR !!!!!&%!!"].
Proof.
  split.
  - intros expr Hexpr. repeat (apply elem_of_cons in Hexpr as [->|Hexpr]).
    5: by apply elem_of_nil in Hexpr.
    all: split; [eexists _, _; split; vm_compute; reflexivity
                |vm_compute; reflexivity].
  - vm_compute. reflexivity.
Qed.

(** C4, as the code has it: in every program the parser accepts, the gate
    reports the first class that has findings, and of that class it prints
    the collected lines in ascending order and leaves none out, so a line
    with several findings of the class is printed once for each of them;
    with nothing collected it lets the program pass.  For the two classes
    of call findings this is stated of programs whose call findings all
    have the same code. *)
Theorem gate_prints_sorted_findings (input : list Token) (gate : Gate) (s : State) :
  Forall (λ t, Int.in_range (line_no t)) input →
  ConsumeAllInput (initial_state input) = Ok gate s →
  ∃ fs : list (CallFinding * Z),
    semantic_errors s = finding_text <$> fs ∧
    (∀ label collected,
       (duplicate_decl_lines s ≠ [] ∧
        label = "Semantic Error Code 1:" ∧ collected = duplicate_decl_lines s) ∨
       (duplicate_decl_lines s = [] ∧ invalid_monomial_lines s ≠ [] ∧
        label = "Semantic Error Code 2:" ∧ collected = invalid_monomial_lines s) ∨
       (duplicate_decl_lines s = [] ∧ invalid_monomial_lines s = [] ∧ fs ≠ [] ∧
        ∃ kind, Forall (λ f, f.1 = kind) fs ∧
                label = finding_label kind ∧ collected = fs.*2) →
       ∃ printed,
         gate = Report [print_lines label printed] ∧
         main input = Exited 0 [print_lines label printed] ∧
         reported_lines s = Some printed ∧
         Sorted Z.le printed ∧ printed ≡ₚ collected) ∧
    (duplicate_decl_lines s = [] → invalid_monomial_lines s = [] → fs = [] →
     gate = Clean).
Proof.
  intros Hinput Hrun.
  destruct (proj2 (proj2 (main_returns input)) gate s Hrun)
    as (-> & _ & _ & fs & Herr & _ & Hrange).
  destruct (Hrange Hinput) as [Hfs _].
  exists fs. split; [done|]. split.
  - intros label collected Hclass.
    assert (∀ printed, check_semantic_errors s = Report [print_lines label printed] →
              main input = Exited 0 [print_lines label printed]) as Hmain.
    { intros printed Hgate. unfold main. by rewrite Hrun, Hgate. }
    destruct Hclass as [(Hdup & -> & ->)|[(Hdup & Hinv & -> & ->)|
      (Hdup & Hinv & Hne & kind & Hkind & -> & ->)]].
    + exists (sort_lines (duplicate_decl_lines s)).
      pose proof (gate_duplicates s Hdup) as Hgate.
      split_and!; [done|by apply Hmain| |apply sort_lines_Sorted
                  |apply sort_lines_Permutation].
      unfold reported_lines. by rewrite decide_True.
    + exists (sort_lines (invalid_monomial_lines s)).
      pose proof (gate_invalid_monomials s Hdup Hinv) as Hgate.
      split_and!; [done|by apply Hmain| |apply sort_lines_Sorted
                  |apply sort_lines_Permutation].
      unfold reported_lines. rewrite decide_False by (by intros []).
      by rewrite decide_True.
    + destruct fs as [|f fs]; [done|].
      exists (sort_lines (f :: fs).*2).
      pose proof (gate_call_findings s f fs Hdup Hinv Herr Hfs) as Hgate.
      apply Forall_cons in Hkind as [<- _].
      split_and!; [done|by apply Hmain| |apply sort_lines_Sorted
                  |apply sort_lines_Permutation].
      unfold reported_lines. rewrite !decide_False by (by intros []).
      rewrite Herr, decide_False by done. by rewrite error_lines_findings.
  - intros Hdup Hinv ->. by apply gate_clean.
Qed.

(** [a = G(H(1));] with [G] and [H] undeclared: the parser returns with
    two findings of code 3, and the gate prints their lines sorted, none
    left out. *)
Lemma gate_prints_sorted_findings_witness :
  ∃ gate s,
    ConsumeAllInput (initial_state Sample.two_findings_one_line) = Ok gate s ∧
    semantic_errors s = ["Semantic Error Code 3: 5"; "Semantic Error Code 3: 5"] ∧
    gate = Report ["Semantic Error Code 3: 5 5"] ∧
    ∃ fs : list (CallFinding * Z),
      semantic_errors s = finding_text <$> fs ∧
      (∀ label collected,
         (duplicate_decl_lines s ≠ [] ∧
          label = "Semantic Error Code 1:" ∧ collected = duplicate_decl_lines s) ∨
         (duplicate_decl_lines s = [] ∧ invalid_monomial_lines s ≠ [] ∧
          label = "Semantic Error Code 2:" ∧ collected = invalid_monomial_lines s) ∨
         (duplicate_decl_lines s = [] ∧ invalid_monomial_lines s = [] ∧ fs ≠ [] ∧
          ∃ kind, Forall (λ f, f.1 = kind) fs ∧
                  label = finding_label kind ∧ collected = fs.*2) →
         ∃ printed,
           gate = Report [print_lines label printed] ∧
           main Sample.two_findings_one_line = Exited 0 [print_lines label printed] ∧
           reported_lines s = Some printed ∧
           Sorted Z.le printed ∧ printed ≡ₚ collected) ∧
      (duplicate_decl_lines s = [] → invalid_monomial_lines s = [] → fs = [] →
       gate = Clean).
Proof.
  eexists _, _. split; [vm_compute; reflexivity|]. split; [reflexivity|].
  split; [reflexivity|].
  apply gate_prints_sorted_findings.
  - repeat constructor; vm_compute; congruence.
  - vm_compute. reflexivity.
Defined.

(** C4, as the claim has it, fails: line 5 of [a = G(H(1));] carries two
    findings and is printed twice. *)
Lemma gate_repeats_line_counterexample :
  ∃ s, ConsumeAllInput (initial_state Sample.two_findings_one_line)
         = Ok (Report ["Semantic Error Code 3: 5 5"]) s ∧
       reported_lines s = Some [5%Z; 5%Z] ∧
       ¬ NoDup [5%Z; 5%Z] ∧
       main Sample.two_findings_one_line
         = Exited 0 ["Semantic Error Code 3: 5 5"].
Proof.
  eexists. split_and!.
  - vm_compute. reflexivity.
  - vm_compute. reflexivity.
  - intros Hnodup. apply NoDup_cons in Hnodup as [Hnotin _].
    apply Hnotin. by left.
  - vm_compute. reflexivity.
Qed.

(** ** Evaluation reads the environment through the tree's variables *)

Lemma mapM_ext_Forall {A B} (f g : A → option B) (l : list A) :
  Forall (λ a, f a = g a) l → mapM f l = mapM g l.
Proof.
  induction 1 as [|a l Ha _ IH]; [done|].
  simpl. by rewrite Ha, IH.
Qed.

Lemma evaluate_agree decls bodies depth e env1 env2 :
  (∀ x, x ∈ (var_occurrences e).*1 →
        default 0%Z (env1 !! x) = default 0%Z (env2 !! x)) →
  evaluate decls bodies depth e env1 = evaluate decls bodies depth e env2.
Proof.
  induction e as [v|n ln|l r IHl IHr|l r IHl IHr|l r IHl IHr|b ex IHb|p args IH]
    using Expr_ind; simpl; intros Hagree.
  - by rewrite !evaluate_const.
  - rewrite !evaluate_var. f_equal. apply Hagree. set_solver.
  - rewrite !evaluate_add, IHl, IHr; [done|intros x Hx; apply Hagree..];
      rewrite fmap_app; set_solver.
  - rewrite !evaluate_sub, IHl, IHr; [done|intros x Hx; apply Hagree..];
      rewrite fmap_app; set_solver.
  - rewrite !evaluate_mul, IHl, IHr; [done|intros x Hx; apply Hagree..];
      rewrite fmap_app; set_solver.
  - rewrite !evaluate_pow, IHb; done.
  - rewrite !evaluate_call.
    rewrite (mapM_ext_Forall (λ a, evaluate decls bodies depth a env1)
               (λ a, evaluate decls bodies depth a env2)); [done|].
    rewrite Forall_forall in IH. apply Forall_forall. intros a Ha.
    apply IH; [done|]. intros x Hx. apply Hagree.
    apply list_elem_of_fmap in Hx as (o & -> & Ho).
    apply list_elem_of_fmap. exists o. split; [done|].
    apply list_elem_of_In, in_flat_map. exists a.
    split; by apply list_elem_of_In.
Qed.

(** ** Execution: slots and values *)

Lemma entries_elem_of (tbl : gmap string nat) (p : string * nat) :
  p ∈ entries_in_key_order tbl ↔ tbl !! p.1 = Some p.2.
Proof.
  unfold entries_in_key_order. rewrite merge_sort_Permutation.
  destruct p as [x i]. apply elem_of_map_to_list.
Qed.

Lemma find_slot_Some (tbl : gmap string nat) i p :
  List.find (λ p : string * nat, bool_decide (p.2 = i))
            (entries_in_key_order tbl) = Some p →
  tbl !! p.1 = Some i.
Proof.
  intros [Hin Hp]%find_some. apply bool_decide_eq_true in Hp as <-.
  by apply entries_elem_of, list_elem_of_In.
Qed.

Lemma find_slot_None (tbl : gmap string nat) i x :
  List.find (λ p : string * nat, bool_decide (p.2 = i))
            (entries_in_key_order tbl) = None →
  tbl !! x ≠ Some i.
Proof.
  intros Hnone Hx. pose proof (find_none _ _ Hnone (x, i)) as Hfalse.
  simpl in Hfalse. rewrite bool_decide_eq_false in Hfalse. apply Hfalse; [|done].
  by apply list_elem_of_In, entries_elem_of.
Qed.

(** The loop over the slot indices, from any environment. *)
Lemma snapshot_fold (tbl : gmap string nat) (m : list Z) (l : list nat)
    (env : gmap string Z) :
  (∀ x y i, tbl !! x = Some i → tbl !! y = Some i → x = y) →
  Forall (λ i, i < length m) l →
  ∃ env',
    foldl (λ oenv i,
             env ← oenv;
             match List.find (λ p : string * nat, bool_decide (p.2 = i))
                             (entries_in_key_order tbl) with
             | Some p => v ← m !! i; Some (<[p.1 := v]> env)
             | None => Some env
             end)
          (Some env) l = Some env' ∧
    ∀ x, env' !! x =
         match tbl !! x with
         | Some i => if decide (i ∈ l) then m !! i else env !! x
         | None => env !! x
         end.
Proof.
  intros Hinj Hl. revert env.
  induction Hl as [|a l Ha _ IH]; intros env.
  { exists env. split; [done|]. intros x. destruct (tbl !! x); [|done].
    by rewrite decide_False by apply not_elem_of_nil. }
  simpl.
  destruct (lookup_lt_is_Some_2 m a Ha) as [v Hv].
  destruct (List.find _ (entries_in_key_order tbl)) as [p|] eqn:Hfind.
  - apply find_slot_Some in Hfind. rewrite Hv. simpl.
    destruct (IH (<[p.1 := v]> env)) as (env' & -> & Henv').
    exists env'. split; [done|]. intros x. rewrite Henv'.
    destruct (tbl !! x) as [i|] eqn:Hx.
    + destruct (decide (i ∈ l)) as [Hi|Hi].
      { by rewrite decide_True by set_solver. }
      destruct (decide (i = a)) as [->|Hne].
      * rewrite decide_True by set_solver.
        rewrite (Hinj _ _ _ Hx Hfind), Hv. apply lookup_insert_eq.
      * rewrite decide_False by set_solver.
        rewrite lookup_insert_ne; [done|]. intros Heq. congruence.
    + rewrite lookup_insert_ne; [done|]. intros Heq. congruence.
  - destruct (IH env) as (env' & -> & Henv').
    exists env'. split; [done|]. intros x. rewrite Henv'.
    destruct (tbl !! x) as [i|] eqn:Hx; [|done].
    destruct (decide (i ∈ l)) as [Hi|Hi].
    { by rewrite decide_True by set_solver. }
    rewrite decide_False; [done|]. intros [->|?]%elem_of_cons; [|done].
    by eapply find_slot_None.
Qed.

(** The environment [AssignStmt::execute] builds holds every name of the
    table with the content of its slot. *)
Lemma snapshot_env_values (tbl : gmap string nat) (m : list Z) :
  (∀ x i, tbl !! x = Some i → i < size tbl) →
  (∀ x y i, tbl !! x = Some i → tbl !! y = Some i → x = y) →
  size tbl ≤ length m →
  snapshot_env tbl m = Some (values_at tbl m).
Proof.
  intros Hbound Hinj Hsize. unfold snapshot_env.
  destruct (snapshot_fold tbl m (seq 0 (size tbl)) ∅ Hinj) as (env' & -> & Henv').
  { apply Forall_forall. intros i Hi%elem_of_seq. lia. }
  f_equal. apply map_eq. intros x. unfold values_at.
  rewrite Henv', lookup_omap, lookup_empty.
  destruct (tbl !! x) as [i|] eqn:Hx; [|done]. simpl.
  rewrite decide_True; [done|]. apply elem_of_seq. apply Hbound in Hx. lia.
Qed.

Lemma slots_ok_initial : slots_ok initial_exec.
Proof.
  unfold slots_ok, slots_ok_at, initial_exec.
  change (mem (mkExec ∅ (replicate 1000 0%Z) 0 [])) with (replicate 1000 0%Z).
  change (execSymbolTable (mkExec ∅ (replicate 1000 0%Z) 0 []))
    with (∅ : gmap string nat).
  split_and!.
  - apply length_replicate.
  - rewrite map_size_empty. lia.
  - intros x i. by rewrite lookup_empty.
  - intros x y i. by rewrite lookup_empty.
  - intros i _ Hi. by apply lookup_replicate_2.
Qed.

(** What [allocate] does to a table that is in order. *)
Lemma allocate_slot (tbl : gmap string nat) (m : list Z) x :
  slots_ok_at tbl m →
  ∃ loc,
    allocate x tbl !! x = Some loc ∧
    (loc < 1000 →
     slots_ok_at (allocate x tbl) m ∧
     values_at (allocate x tbl) m !! x = Some (default 0%Z (values_at tbl m !! x)) ∧
     (∀ y, y ≠ x → values_at (allocate x tbl) m !! y = values_at tbl m !! y)) ∧
    (loc < 1000 ↔ size ({[x]} ∪ dom tbl) ≤ 1000) ∧
    dom (allocate x tbl) = {[x]} ∪ dom tbl.
Proof.
  intros (Hlen & Hsize & Hbound & Hinj & Hzero). unfold allocate.
  destruct (tbl !! x) as [loc|] eqn:Hx.
  - exists loc. pose proof (Hbound _ _ Hx) as Hloc.
    assert ({[x]} ∪ dom tbl = dom tbl) as Hdom.
    { apply elem_of_dom_2 in Hx. set_solver. }
    split_and!; [done| | |by rewrite Hdom].
    + intros _. split_and!; [done| |done].
      unfold values_at. rewrite lookup_omap, Hx. simpl.
      destruct (lookup_lt_is_Some_2 m loc) as [v ->]; [lia|done].
    + rewrite Hdom, size_dom. lia.
  - exists (size tbl).
    assert (size ({[x]} ∪ dom tbl) = S (size tbl)) as Hgrow.
    { rewrite size_union, size_singleton, size_dom; [done|].
      apply not_elem_of_dom in Hx. set_solver. }
    split_and!; [by rewrite lookup_insert_eq| | |by rewrite dom_insert_L].
    + intros Hloc. split_and!.
      * split_and!; [done| | | |].
        -- rewrite map_size_insert_None by done. lia.
        -- intros y i. rewrite map_size_insert_None by done.
           destruct (decide (y = x)) as [->|Hne].
           ++ rewrite lookup_insert_eq. intros [= <-]. lia.
           ++ rewrite lookup_insert_ne by done. intros Hy%Hbound. lia.
        -- intros y z i.
           destruct (decide (y = x)) as [->|Hy], (decide (z = x)) as [->|Hz];
             rewrite ?lookup_insert_eq, ?lookup_insert_ne by done; try done.
           ++ intros [= <-] Hz'%Hbound. lia.
           ++ intros Hy'%Hbound [= <-]. lia.
           ++ apply Hinj.
        -- intros i. rewrite map_size_insert_None by done. intros Hi Hi'.
           apply Hzero; lia.
      * unfold values_at. rewrite !lookup_omap, lookup_insert_eq, Hx. simpl.
        by apply Hzero.
      * intros y Hy. unfold values_at.
        by rewrite !lookup_omap, lookup_insert_ne.
    + rewrite Hgrow. lia.
Qed.

(** What a store into the slot of [x] does. *)
Lemma mem_store_slot (tbl : gmap string nat) (m : list Z) x loc v :
  slots_ok_at tbl m → tbl !! x = Some loc →
  ∃ m', mem_store loc v m = Some m' ∧
        slots_ok_at tbl m' ∧
        values_at tbl m' = <[x := v]> (values_at tbl m).
Proof.
  intros (Hlen & Hsize & Hbound & Hinj & Hzero) Hx.
  pose proof (Hbound _ _ Hx) as Hloc.
  unfold mem_store. rewrite decide_True by lia. eexists. split; [done|]. split.
  - split_and!; [by rewrite length_insert|done..|].
    intros i Hi Hi'. rewrite list_lookup_insert_ne by lia. by apply Hzero.
  - apply map_eq. intros y. unfold values_at.
    destruct (decide (y = x)) as [->|Hne].
    + rewrite lookup_insert_eq, lookup_omap, Hx. simpl.
      apply list_lookup_insert_eq. lia.
    + rewrite lookup_insert_ne, !lookup_omap by done.
      destruct (tbl !! y) as [j|] eqn:Hy; [|done]. simpl.
      apply list_lookup_insert_ne. intros <-. apply Hne. by eapply Hinj.
Qed.

Lemma mem_store_Some_lt loc v (m m' : list Z) :
  mem_store loc v m = Some m' → loc < length m.
Proof. unfold mem_store. by case_decide. Qed.

(** The values read by default agree before and after [allocate]. *)
Lemma allocate_reads (tbl : gmap string nat) (m : list Z) x :
  values_at (allocate x tbl) m !! x = Some (default 0%Z (values_at tbl m !! x)) →
  (∀ y, y ≠ x → values_at (allocate x tbl) m !! y = values_at tbl m !! y) →
  ∀ y, default 0%Z (values_at (allocate x tbl) m !! y)
       = default 0%Z (values_at tbl m !! y).
Proof.
  intros Hx Hother y. destruct (decide (y = x)) as [->|Hne].
  - by rewrite Hx.
  - by rewrite Hother.
Qed.

Lemma insert_allocated (tbl : gmap string nat) (m : list Z) x v :
  values_at (allocate x tbl) m !! x = Some (default 0%Z (values_at tbl m !! x)) →
  (∀ y, y ≠ x → values_at (allocate x tbl) m !! y = values_at tbl m !! y) →
  <[x := v]> (values_at (allocate x tbl) m) = <[x := v]> (values_at tbl m).
Proof.
  intros Hx Hother. apply map_eq. intros y. destruct (decide (y = x)) as [->|Hne].
  - by rewrite !lookup_insert_eq.
  - rewrite !lookup_insert_ne by done. by apply Hother.
Qed.

(** What one statement does, in terms of the values of the variables. *)
Lemma execute_step decls bodies inputs depth stmt st st' :
  slots_ok st →
  execute decls bodies inputs depth stmt st = Some st' →
  slots_ok st' ∧
  dom (execSymbolTable st') = {[stmt_var stmt]} ∪ dom (execSymbolTable st) ∧
  match stmt with
  | InputStmt x =>
      ∃ v, inputs !! nextInputIndex st = Some v ∧
           var_values st' = <[x := v]> (var_values st) ∧
           nextInputIndex st' = S (nextInputIndex st) ∧ cout st' = cout st
  | OutputStmt x =>
      (∀ y, read_var st' y = read_var st y) ∧
      nextInputIndex st' = nextInputIndex st ∧
      cout st' = cout st ++ [to_string (read_var st x)]
  | AssignStmt x _ rhs =>
      ∃ v, evaluate decls bodies depth rhs (var_values st) = Some v ∧
           var_values st' = <[x := v]> (var_values st) ∧
           nextInputIndex st' = nextInputIndex st ∧ cout st' = cout st
  end.
Proof.
  intros Hok Hrun. unfold execute in Hrun.
  destruct (allocate_slot _ _ (stmt_var stmt) Hok) as (loc & Hloc & Hfits & _ & Hdom).
  pose proof Hok as (Hlen & _). rewrite Hloc in Hrun. simpl in Hrun.
  destruct stmt as [x|x|x ln rhs]; simpl in *.
  - destruct (inputs !! nextInputIndex st) as [v|] eqn:Hv; [|done]. simpl in Hrun.
    destruct (mem_store loc v (mem st)) as [m'|] eqn:Hstore; [|done].
    injection Hrun as <-. apply mem_store_Some_lt in Hstore as Hlt.
    destruct Hfits as (Hok' & Hx & Hother); [lia|].
    destruct (mem_store_slot _ _ x loc v Hok' Hloc) as (m'' & Hstore' & Hok'' & Hvalues).
    rewrite Hstore in Hstore'. injection Hstore' as <-.
    split_and!; [done|done|]. exists v. split_and!; [done| |done|done].
    unfold var_values. simpl. rewrite Hvalues. by apply insert_allocated.
  - destruct (mem st !! loc) as [v|] eqn:Hv; [|done]. injection Hrun as <-.
    apply lookup_lt_Some in Hv as Hlt.
    destruct Hfits as (Hok' & Hx & Hother); [lia|].
    split_and!; [done|done| |done|].
    + intros y. unfold read_var, var_values. simpl. by apply allocate_reads.
    + simpl. do 3 f_equal. unfold read_var, var_values.
      assert (values_at (allocate x (execSymbolTable st)) (mem st) !! x = Some v) as Hx'.
      { unfold values_at. by rewrite lookup_omap, Hloc. }
      rewrite Hx in Hx'. by injection Hx'.
  - destruct (snapshot_env _ (mem st)) as [env|] eqn:Henv; [|done]. simpl in Hrun.
    destruct (evaluate decls bodies depth rhs env) as [v|] eqn:Hv; [|done].
    simpl in Hrun.
    destruct (mem_store loc v (mem st)) as [m'|] eqn:Hstore; [|done].
    injection Hrun as <-. apply mem_store_Some_lt in Hstore as Hlt.
    destruct Hfits as (Hok' & Hx & Hother); [lia|].
    destruct (mem_store_slot _ _ x loc v Hok' Hloc) as (m'' & Hstore' & Hok'' & Hvalues).
    rewrite Hstore in Hstore'. injection Hstore' as <-.
    rewrite snapshot_env_values in Henv; [|apply Hok'..|destruct Hok'; lia].
    injection Henv as <-.
    split_and!; [done|done|]. exists v. split_and!; [|  |done|done].
    + rewrite <-Hv. apply evaluate_agree. intros y _. symmetry.
      by apply allocate_reads.
    + unfold var_values. simpl. rewrite Hvalues. by apply insert_allocated.
Qed.

(** When a statement goes through. *)
Lemma execute_is_Some decls bodies inputs depth stmt st :
  (∀ n body, bodies !! n = Some body → call_free body) →
  slots_ok st →
  is_Some (execute decls bodies inputs (S depth) stmt st) ↔
  size ({[stmt_var stmt]} ∪ dom (execSymbolTable st)) ≤ 1000 ∧
  (is_input stmt → nextInputIndex st < length inputs).
Proof.
  intros Hbodies Hok. unfold execute. remember (S depth) as d eqn:Hd.
  destruct (allocate_slot _ _ (stmt_var stmt) Hok) as (loc & Hloc & Hfits & Hiff & _).
  pose proof Hok as (Hlen & _). rewrite Hloc. simpl. rewrite <-Hiff.
  destruct stmt as [x|x|x ln rhs]; simpl in *.
  - split.
    + intros [st' Hrun].
      destruct (inputs !! nextInputIndex st) as [v|] eqn:Hv; [|done]. simpl in Hrun.
      destruct (mem_store loc v (mem st)) as [m'|] eqn:Hstore; [|done].
      apply mem_store_Some_lt in Hstore. apply lookup_lt_Some in Hv.
      split; [lia|done].
    + intros [Hlt Hin].
      destruct (lookup_lt_is_Some_2 inputs (nextInputIndex st)) as [v ->]; [by apply Hin|].
      simpl. unfold mem_store. rewrite decide_True by lia. by eexists.
  - split.
    + intros [st' Hrun].
      destruct (mem st !! loc) as [v|] eqn:Hv; [|done].
      apply lookup_lt_Some in Hv. split; [lia|done].
    + intros [Hlt _].
      destruct (lookup_lt_is_Some_2 (mem st) loc) as [v ->]; [lia|]. by eexists.
  - split.
    + intros [st' Hrun].
      destruct (snapshot_env _ (mem st)) as [env|]; [|done]. simpl in Hrun.
      destruct (evaluate decls bodies d rhs env) as [v|]; [|done].
      simpl in Hrun.
      destruct (mem_store loc v (mem st)) as [m'|] eqn:Hstore; [|done].
      apply mem_store_Some_lt in Hstore. split; [lia|done].
    + intros [Hlt _]. destruct Hfits as (Hok' & _); [done|].
      rewrite snapshot_env_values; [|apply Hok'..|destruct Hok'; lia]. simpl.
      subst d.
      destruct (evaluate_total decls bodies depth rhs
                  (values_at (allocate x (execSymbolTable st)) (mem st)) Hbodies)
        as [v ->].
      simpl. unfold mem_store. rewrite decide_True by lia. by eexists.
Qed.

Lemma execute_program_cons decls bodies inputs depth stmt stmts st :
  execute_program decls bodies inputs depth (stmt :: stmts) st =
    execute decls bodies inputs depth stmt st
      ≫= execute_program decls bodies inputs depth stmts.
Proof.
  unfold execute_program. simpl.
  destruct (execute decls bodies inputs depth stmt st) as [st'|]; [done|].
  simpl. by induction stmts.
Qed.

Lemma input_statements_cons stmt stmts :
  input_statements (stmt :: stmts) =
    (if is_input stmt then 1 else 0) + input_statements stmts.
Proof.
  unfold input_statements. destruct (is_input stmt) eqn:Hin.
  - rewrite filter_cons_True; [done|]. by apply Is_true_true_2.
  - rewrite filter_cons_False; [done|]. by apply Is_true_false_2.
Qed.

Lemma output_statements_cons stmt stmts :
  output_statements (stmt :: stmts) =
    (if is_output stmt then 1 else 0) + output_statements stmts.
Proof.
  unfold output_statements. destruct (is_output stmt) eqn:Hout.
  - rewrite filter_cons_True; [done|]. by apply Is_true_true_2.
  - rewrite filter_cons_False; [done|]. by apply Is_true_false_2.
Qed.

(** What a run of the script that goes through leaves behind. *)
Lemma execute_program_run decls bodies inputs depth stmts st st' :
  slots_ok st →
  execute_program decls bodies inputs depth stmts st = Some st' →
  slots_ok st' ∧
  dom (execSymbolTable st') = script_vars stmts ∪ dom (execSymbolTable st) ∧
  nextInputIndex st' = nextInputIndex st + input_statements stmts ∧
  length (cout st') = length (cout st) + output_statements stmts.
Proof.
  revert st. induction stmts as [|stmt stmts IH]; intros st Hok Hrun.
  { injection Hrun as <-. unfold script_vars, input_statements, output_statements.
    simpl. split_and!; [done|set_solver|lia|lia]. }
  rewrite execute_program_cons in Hrun.
  destruct (execute decls bodies inputs depth stmt st) as [st1|] eqn:Hstep; [|done].
  simpl in Hrun.
  destruct (execute_step _ _ _ _ _ _ _ Hok Hstep) as (Hok1 & Hdom1 & Hstmt).
  destruct (IH st1 Hok1 Hrun) as (Hok' & Hdom' & Hidx' & Hout').
  rewrite input_statements_cons, output_statements_cons.
  split_and!; [done| | |].
  - rewrite Hdom', Hdom1. unfold script_vars. simpl. set_solver.
  - rewrite Hidx'. destruct stmt; simpl in *.
    + destruct Hstmt as (v & _ & _ & -> & _). lia.
    + destruct Hstmt as (_ & -> & _). lia.
    + destruct Hstmt as (v & _ & _ & -> & _). lia.
  - rewrite Hout'. destruct stmt; simpl in *.
    + destruct Hstmt as (v & _ & _ & _ & ->). lia.
    + destruct Hstmt as (_ & _ & ->). rewrite length_app. simpl. lia.
    + destruct Hstmt as (v & _ & _ & _ & ->). lia.
Qed.

(** When a run of the script goes through. *)
Lemma execute_program_is_Some decls bodies inputs depth stmts st :
  (∀ n body, bodies !! n = Some body → call_free body) →
  slots_ok st → nextInputIndex st ≤ length inputs →
  is_Some (execute_program decls bodies inputs (S depth) stmts st) ↔
  nextInputIndex st + input_statements stmts ≤ length inputs ∧
  size (script_vars stmts ∪ dom (execSymbolTable st)) ≤ 1000.
Proof.
  intros Hbodies. revert st.
  induction stmts as [|stmt stmts IH]; intros st Hok Hidx.
  { unfold script_vars, input_statements. simpl. split; [|by eexists].
    intros _. destruct Hok as (_ & Hsize & _).
    rewrite union_empty_l_L, size_dom. lia. }
  rewrite execute_program_cons, input_statements_cons.
  pose proof (execute_is_Some decls bodies inputs depth stmt st Hbodies Hok) as Hstep.
  assert (script_vars (stmt :: stmts) ∪ dom (execSymbolTable st)
          = script_vars stmts ∪ ({[stmt_var stmt]} ∪ dom (execSymbolTable st)))
    as Hvars.
  { unfold script_vars. simpl. set_solver. }
  rewrite Hvars.
  destruct (execute decls bodies inputs (S depth) stmt st) as [st1|] eqn:Hrun; simpl.
  - destruct (execute_step _ _ _ _ _ _ _ Hok Hrun) as (Hok1 & Hdom1 & Hstmt).
    assert (nextInputIndex st1 =
            nextInputIndex st + (if is_input stmt then 1 else 0)) as Hidx1.
    { destruct stmt; simpl in *.
      - destruct Hstmt as (v & _ & _ & -> & _). lia.
      - destruct Hstmt as (_ & -> & _). lia.
      - destruct Hstmt as (v & _ & _ & -> & _). lia. }
    destruct Hstep as [[_ Hin] _]; [by eexists|].
    rewrite IH; [|done|].
    + rewrite Hdom1, Hidx1. split; intros [? ?]; split; (done || lia).
    + rewrite Hidx1. destruct (is_input stmt); [|lia].
      specialize (Hin I). lia.
  - split; [by intros [? ?]|]. intros [Hin Hsize].
    destruct Hstep as [_ Hstep]. destruct Hstep as [? ?]; [|done].
    split.
    + etrans; [|exact Hsize]. apply subseteq_size. set_solver.
    + intros Hinput. destruct (is_input stmt); [lia|done].
Qed.

(** The input cursor never passes the end of the inputs. *)
Lemma execute_program_cursor decls bodies inputs depth stmts st st' :
  slots_ok st → nextInputIndex st ≤ length inputs →
  execute_program decls bodies inputs depth stmts st = Some st' →
  nextInputIndex st' ≤ length inputs.
Proof.
  revert st. induction stmts as [|stmt stmts IH]; intros st Hok Hidx Hrun.
  { by injection Hrun as <-. }
  rewrite execute_program_cons in Hrun.
  destruct (execute decls bodies inputs depth stmt st) as [st1|] eqn:Hstep; [|done].
  simpl in Hrun.
  destruct (execute_step _ _ _ _ _ _ _ Hok Hstep) as (Hok1 & _ & Hstmt).
  apply (IH st1); [done| |done].
  destruct stmt; simpl in *.
  - destruct Hstmt as (v & Hv%lookup_lt_Some & _ & -> & _). lia.
  - destruct Hstmt as (_ & -> & _). lia.
  - destruct Hstmt as (v & _ & _ & -> & _). lia.
Qed.

(** The script of a program goes through exactly when inputs and slots
    suffice. *)
Lemma script_runs decls bodies inputs stmts :
  (∀ n body, bodies !! n = Some body → call_free body) →
  is_Some (execute_program decls bodies inputs evaluation_depth stmts initial_exec) ↔
  input_statements stmts ≤ length inputs ∧ size (script_vars stmts) ≤ 1000.
Proof.
  intros Hbodies. unfold evaluation_depth.
  rewrite (execute_program_is_Some decls bodies inputs 0 stmts initial_exec
             Hbodies slots_ok_initial); [|simpl; lia].
  unfold initial_exec. simpl. rewrite dom_empty_L, union_empty_r_L. done.
Qed.

(** ** Execution: two runs side by side *)

(** A statement goes through when its slot fits, its input is there and
    its right-hand side has a value. *)
Lemma execute_goes decls bodies inputs depth stmt st :
  slots_ok st →
  size ({[stmt_var stmt]} ∪ dom (execSymbolTable st)) ≤ 1000 →
  match stmt with
  | InputStmt _ => is_Some (inputs !! nextInputIndex st)
  | OutputStmt _ => True
  | AssignStmt _ _ rhs =>
      is_Some (evaluate decls bodies depth rhs (var_values st))
  end →
  is_Some (execute decls bodies inputs depth stmt st).
Proof.
  intros Hok Hsize Hstmt. unfold execute.
  destruct (allocate_slot _ _ (stmt_var stmt) Hok) as (loc & Hloc & Hfits & Hiff & _).
  pose proof Hok as (Hlen & _). rewrite Hloc. simpl.
  apply Hiff in Hsize. destruct (Hfits Hsize) as (Hok' & Hx & Hother).
  destruct stmt as [x|x|x ln rhs]; simpl in *.
  - destruct Hstmt as [v ->]. simpl. unfold mem_store.
    rewrite decide_True by lia. by eexists.
  - destruct (lookup_lt_is_Some_2 (mem st) loc) as [v ->]; [lia|]. by eexists.
  - rewrite snapshot_env_values; [|apply Hok'..|destruct Hok'; lia]. simpl.
    destruct Hstmt as [v Hv].
    rewrite (evaluate_agree _ _ _ _ _ (var_values st)), Hv.
    + simpl. unfold mem_store. rewrite decide_True by lia. by eexists.
    + intros y _. by apply allocate_reads.
Qed.

Lemma read_var_insert st st' x v y :
  var_values st' = <[x := v]> (var_values st) →
  read_var st' y = if decide (y = x) then v else read_var st y.
Proof.
  intros Hvalues. unfold read_var. rewrite Hvalues.
  destruct (decide (y = x)) as [->|Hne].
  - by rewrite lookup_insert_eq.
  - by rewrite lookup_insert_ne.
Qed.

Lemma agree_on_weaken (P Q : string → Prop) a b :
  (∀ y, Q y → P y) → agree_on P a b → agree_on Q a b.
Proof.
  intros HQ (? & ? & ? & ? & ? & Hread). split_and!; try done.
  intros y Hy. by apply Hread, HQ.
Qed.

(** One statement in two states that agree on what it reads. *)
Lemma execute_agree decls bodies inputs depth (P : string → Prop) stmt a b a' :
  agree_on P a b →
  match stmt with
  | InputStmt _ => True
  | OutputStmt x => P x
  | AssignStmt _ _ rhs => ∀ y, y ∈ (var_occurrences rhs).*1 → P y
  end →
  execute decls bodies inputs depth stmt a = Some a' →
  ∃ b', execute decls bodies inputs depth stmt b = Some b' ∧
        agree_on (λ y, P y ∨ (is_output stmt = false ∧ y = stmt_var stmt)) a' b'.
Proof.
  intros (Hoka & Hokb & Hdom & Hidx & Hcout & Hread) Hneeds Hrun.
  destruct (execute_step _ _ _ _ _ _ _ Hoka Hrun) as (Hoka' & Hdoma' & Ha').
  assert (size ({[stmt_var stmt]} ∪ dom (execSymbolTable b)) ≤ 1000) as Hsize.
  { destruct Hoka' as (_ & Hsize & _). rewrite <-size_dom, Hdoma' in Hsize.
    etrans; [|exact Hsize]. apply subseteq_size. set_solver. }
  assert (∀ rhs, (∀ y, y ∈ (var_occurrences rhs).*1 → P y) →
            evaluate decls bodies depth rhs (var_values b)
            = evaluate decls bodies depth rhs (var_values a)) as Heval.
  { intros rhs Hrhs. apply evaluate_agree. intros y Hy. symmetry.
    by apply Hread, Hrhs. }
  destruct (execute_goes decls bodies inputs depth stmt b Hokb Hsize) as [b' Hrunb].
  { destruct stmt as [x|x|x ln rhs]; simpl in *.
    - destruct Ha' as (v & Hv & _). rewrite <-Hidx. by eexists.
    - done.
    - destruct Ha' as (v & Hv & _). rewrite Heval by done. by eexists. }
  exists b'. split; [done|].
  destruct (execute_step _ _ _ _ _ _ _ Hokb Hrunb) as (Hokb' & Hdomb' & Hb').
  split_and!; [done|done|rewrite Hdoma', Hdomb'; set_solver|..].
  all: destruct stmt as [x|x|x ln rhs]; simpl in *.
  - destruct Ha' as (v & _ & _ & -> & _), Hb' as (w & _ & _ & -> & _). by rewrite Hidx.
  - destruct Ha' as (_ & -> & _), Hb' as (_ & -> & _). done.
  - destruct Ha' as (v & _ & _ & -> & _), Hb' as (w & _ & _ & -> & _). done.
  - destruct Ha' as (v & _ & _ & _ & ->), Hb' as (w & _ & _ & _ & ->). done.
  - destruct Ha' as (_ & _ & ->), Hb' as (_ & _ & ->).
    by rewrite Hcout, (Hread x).
  - destruct Ha' as (v & _ & _ & _ & ->), Hb' as (w & _ & _ & _ & ->). done.
  - destruct Ha' as (v & Hv & Hva & _), Hb' as (w & Hw & Hvb & _).
    rewrite <-Hidx, Hv in Hw. injection Hw as <-.
    intros y Hy. rewrite (read_var_insert _ _ _ _ _ Hva), (read_var_insert _ _ _ _ _ Hvb).
    case_decide; [done|]. apply Hread. by destruct Hy as [?|[_ ?]].
  - destruct Ha' as (Hra & _), Hb' as (Hrb & _).
    intros y [Hy|[? _]]; [|done]. rewrite Hra, Hrb. by apply Hread.
  - destruct Ha' as (v & Hv & Hva & _), Hb' as (w & Hw & Hvb & _).
    rewrite Heval, Hv in Hw by done. injection Hw as <-.
    intros y Hy. rewrite (read_var_insert _ _ _ _ _ Hva), (read_var_insert _ _ _ _ _ Hvb).
    case_decide; [done|]. apply Hread. by destruct Hy as [?|[_ ?]].
Qed.

(** Two states that agree on every name go through a script alike. *)
Lemma execute_program_agree decls bodies inputs depth stmts a b a' :
  agree_on (λ _, True) a b →
  execute_program decls bodies inputs depth stmts a = Some a' →
  ∃ b', execute_program decls bodies inputs depth stmts b = Some b' ∧
        agree_on (λ _, True) a' b'.
Proof.
  revert a b. induction stmts as [|stmt stmts IH]; intros a b Hagree Hrun.
  { injection Hrun as <-. by exists b. }
  rewrite execute_program_cons in *.
  destruct (execute decls bodies inputs depth stmt a) as [a1|] eqn:Hstep; [|done].
  simpl in Hrun.
  destruct (execute_agree decls bodies inputs depth _ stmt a b a1 Hagree)
    as (b1 & -> & Hagree1); [by destruct stmt|done|].
  simpl. eapply IH; [|done]. eapply agree_on_weaken; [|exact Hagree1]. by left.
Qed.

Lemma exprUsesVar_false e x :
  exprUsesVar e x = false → x ∉ (var_occurrences e).*1.
Proof.
  induction e as [v|n ln|l r IHl IHr|l r IHl IHr|l r IHl IHr|b ex IHb|p args IH]
    using Expr_ind; simpl; intros Huses.
  - apply not_elem_of_nil.
  - apply bool_decide_eq_false in Huses. set_solver.
  - apply orb_false_iff in Huses as [? ?]. rewrite fmap_app. set_solver.
  - apply orb_false_iff in Huses as [? ?]. rewrite fmap_app. set_solver.
  - apply orb_false_iff in Huses as [? ?]. rewrite fmap_app. set_solver.
  - by apply IHb.
  - intros Hx. apply list_elem_of_fmap in Hx as (o & -> & Ho).
    apply list_elem_of_In, in_flat_map in Ho as (arg & Harg & Ho).
    rewrite Forall_forall in IH.
    apply (IH arg); [by apply list_elem_of_In| |].
    + destruct (exprUsesVar arg o.1) eqn:Harg'; [|done].
      assert (existsb (λ arg, exprUsesVar arg o.1) args = true) as Hex.
      { apply existsb_exists. by exists arg. }
      congruence.
    + apply list_elem_of_fmap. exists o. split; [done|]. by apply list_elem_of_In.
Qed.

(** After an assignment to [x] whose value no later statement reads: the
    run without the assignment prints the same. *)
Lemma execute_program_unused decls bodies inputs depth x stmts a b a' :
  scan_used x stmts = false →
  agree_on (λ y, y ≠ x) a b →
  execute_program decls bodies inputs depth stmts a = Some a' →
  ∃ b', execute_program decls bodies inputs depth stmts b = Some b' ∧
        cout b' = cout a'.
Proof.
  revert a b. induction stmts as [|stmt stmts IH]; intros a b Hscan Hagree Hrun.
  { injection Hrun as <-. exists b. split; [done|]. by destruct Hagree as (_&_&_&_&->&_). }
  rewrite execute_program_cons in *.
  destruct (execute decls bodies inputs depth stmt a) as [a1|] eqn:Hstep; [|done].
  simpl in Hrun.
  assert (match stmt with
          | InputStmt _ => True
          | OutputStmt v => v ≠ x
          | AssignStmt _ _ rhs => ∀ y, y ∈ (var_occurrences rhs).*1 → y ≠ x
          end) as Hneeds.
  { destruct stmt as [v|v|v ln rhs]; simpl in *; [done|by case_decide|].
    intros y Hy ->. revert Hy. apply exprUsesVar_false.
    case_decide; [done|]. by destruct (exprUsesVar rhs x). }
  destruct (execute_agree decls bodies inputs depth _ stmt a b a1 Hagree Hneeds Hstep)
    as (b1 & -> & Hagree1).
  simpl.
  destruct (decide (is_output stmt = false ∧ stmt_var stmt = x)) as [[Hout <-]|Hother].
  - destruct (execute_program_agree decls bodies inputs depth stmts a1 b1 a')
      as (b' & -> & Hagree'); [|done|].
    + eapply agree_on_weaken; [|exact Hagree1]. simpl. intros y _.
      destruct (decide (y = stmt_var stmt)); [by right|by left].
    + exists b'. split; [done|]. by destruct Hagree' as (_&_&_&_&->&_).
  - eapply IH; [|eapply agree_on_weaken; [|exact Hagree1]; simpl; by left|done].
    destruct stmt as [v|v|v ln rhs]; simpl in *.
    + case_decide; [|done]. destruct Hother. by split.
    + by case_decide.
    + case_decide; [destruct Hother; by split|]. by destruct (exprUsesVar rhs x).
Qed.

Lemma execute_program_app decls bodies inputs depth pre post st :
  execute_program decls bodies inputs depth (pre ++ post) st =
    execute_program decls bodies inputs depth pre st
      ≫= execute_program decls bodies inputs depth post.
Proof.
  revert st. induction pre as [|stmt pre IH]; intros st; [done|].
  rewrite <-app_comm_cons, !execute_program_cons.
  destruct (execute decls bodies inputs depth stmt st) as [st1|]; [|done].
  simpl. apply IH.
Qed.

(** The run of a script without the assignment at position [i], when the
    scan for a use of its value comes back empty. *)
Lemma execute_program_delete_unused decls bodies inputs depth stmts i x ln rhs st0 st :
  slots_ok st0 →
  stmts !! i = Some (AssignStmt x ln rhs) →
  scan_used x (drop (S i) stmts) = false →
  execute_program decls bodies inputs depth stmts st0 = Some st →
  ∃ st', execute_program decls bodies inputs depth (delete i stmts) st0 = Some st' ∧
         cout st' = cout st.
Proof.
  intros Hok0 Hi Hscan Hrun.
  rewrite <-(take_drop_middle stmts i _ Hi) in Hrun.
  rewrite delete_take_drop.
  rewrite execute_program_app in *.
  destruct (execute_program decls bodies inputs depth (take i stmts) st0)
    as [st1|] eqn:Hpre; [|done].
  simpl in *. rewrite execute_program_cons in Hrun.
  destruct (execute decls bodies inputs depth (AssignStmt x ln rhs) st1)
    as [st2|] eqn:Hassign; [|done].
  simpl in Hrun.
  destruct (execute_program_run _ _ _ _ _ _ _ Hok0 Hpre) as (Hok1 & _).
  destruct (execute_step _ _ _ _ _ _ _ Hok1 Hassign)
    as (Hok2 & Hdom2 & v & _ & Hvalues & Hidx & Hcout).
  eapply execute_program_unused; [exact Hscan| |exact Hrun].
  split_and!; [done|done|rewrite Hdom2; set_solver|done|done|].
  intros y Hy. rewrite (read_var_insert _ _ _ _ _ Hvalues). by case_decide.
Qed.

(** ** Evaluation and execution: what the script computes *)

(** X1: the value of a tree depends on the environment only through the
    variables that occur in it, each read as 0 where the environment has no
    entry: two environments that agree on them give the same result,
    whatever else they hold. *)
Theorem evaluation_reads_only_its_variables
    (decls : gmap string (list string)) (bodies : gmap string Expr)
    (depth : nat) (e : Expr) (env1 env2 : gmap string Z) :
  (∀ x, x ∈ (var_occurrences e).*1 →
        default 0%Z (env1 !! x) = default 0%Z (env2 !! x)) →
  evaluate decls bodies depth e env1 = evaluate decls bodies depth e env2.
Proof. apply evaluate_agree. Qed.

(** [f(a) + c] with [f(x) = x * x]: [a] is 3 in both environments, [c] is
    missing in one and 0 in the other, [b] differs; the value is 9. *)
Lemma evaluation_reads_only_its_variables_witness :
  let decls : gmap string (list string) := {["f" := ["x"]]} in
  let bodies : gmap string Expr :=
    {["f" := MulExpr (VarExpr "x" 1) (VarExpr "x" 1)]} in
  let e := AddExpr (CallExpr "f" [VarExpr "a" 2]) (VarExpr "c" 2) in
  let env1 : gmap string Z := <["a" := 3%Z]> (<["b" := 1%Z]> ∅) in
  let env2 : gmap string Z := <["a" := 3%Z]> (<["b" := 2%Z]> (<["c" := 0%Z]> ∅)) in
  evaluate decls bodies 1 e env1 = evaluate decls bodies 1 e env2 ∧
  evaluate decls bodies 1 e env1 = Some 9%Z.
Proof.
  intros decls bodies e env1 env2. split; [|reflexivity].
  apply evaluation_reads_only_its_variables.
  intros x Hx. simpl in Hx.
  apply elem_of_cons in Hx as [->|Hx]; [reflexivity|].
  apply elem_of_cons in Hx as [->|Hx]; [reflexivity|].
  by apply elem_of_nil in Hx.
Defined.

(** X2: when the slots are in order, the nested loops of
    [AssignStmt::execute] build the environment that holds every name of
    the symbol table with the content of its slot: no name is left out and
    none gets another name's value. *)
Theorem assignment_environment_holds_every_variable (st : ExecState) :
  slots_ok st →
  snapshot_env (execSymbolTable st) (mem st) = Some (var_values st) ∧
  ∀ x loc, execSymbolTable st !! x = Some loc →
           var_values st !! x = mem st !! loc ∧ is_Some (mem st !! loc).
Proof.
  intros Hok. pose proof Hok as (Hlen & Hsize & Hbound & Hinj & _). split.
  - apply snapshot_env_values; [done|done|lia].
  - intros x loc Hx. unfold var_values, values_at. rewrite lookup_omap, Hx.
    split; [done|]. apply lookup_lt_is_Some_2. apply Hbound in Hx. lia.
Qed.

(** After [INPUT a; INPUT b;] with the inputs 5 and 7 the environment of
    an assignment is [a = 5, b = 7]. *)
Lemma assignment_environment_holds_every_variable_witness :
  ∃ st,
    execute_program ∅ ∅ [5; 7]%Z 1 [InputStmt "a"; InputStmt "b"] initial_exec
      = Some st ∧
    snapshot_env (execSymbolTable st) (mem st)
      = Some (<["a" := 5%Z]> (<["b" := 7%Z]> ∅)).
Proof.
  destruct (execute_program ∅ ∅ [5; 7]%Z 1 [InputStmt "a"; InputStmt "b"]
              initial_exec) as [st|] eqn:Hrun; [|by vm_compute in Hrun].
  exists st. split; [done|].
  destruct (execute_program_run _ _ _ _ _ _ _ slots_ok_initial Hrun) as (Hok & _).
  destruct (assignment_environment_holds_every_variable st Hok) as [-> _].
  vm_compute in Hrun. injection Hrun as <-. vm_compute. reflexivity.
Defined.

(** X3: what one statement does, told by the values of the variables
    instead of slots.  [INPUT x] gives [x] the next input and moves the
    input cursor, [x = rhs] gives [x] the value of [rhs] in the values held
    before, and both leave every other variable as it was; [OUTPUT x]
    prints what [x] reads as (0 if nothing was stored) and changes no
    value.  The slots stay in order. *)
Theorem statement_acts_on_variables
    (decls : gmap string (list string)) (bodies : gmap string Expr)
    (inputs : list Z) (depth : nat) (stmt : Statement) (st st' : ExecState) :
  slots_ok st →
  execute decls bodies inputs depth stmt st = Some st' →
  slots_ok st' ∧
  match stmt with
  | InputStmt x =>
      ∃ v, inputs !! nextInputIndex st = Some v ∧
           read_var st' x = v ∧ (∀ y, y ≠ x → read_var st' y = read_var st y) ∧
           nextInputIndex st' = S (nextInputIndex st) ∧ cout st' = cout st
  | OutputStmt x =>
      (∀ y, read_var st' y = read_var st y) ∧
      nextInputIndex st' = nextInputIndex st ∧
      cout st' = cout st ++ [to_string (read_var st x)]
  | AssignStmt x _ rhs =>
      ∃ v, evaluate decls bodies depth rhs (var_values st) = Some v ∧
           read_var st' x = v ∧ (∀ y, y ≠ x → read_var st' y = read_var st y) ∧
           nextInputIndex st' = nextInputIndex st ∧ cout st' = cout st
  end.
Proof.
  intros Hok Hrun.
  destruct (execute_step _ _ _ _ _ _ _ Hok Hrun) as (Hok' & _ & Hstmt).
  split; [done|]. destruct stmt as [x|x|x ln rhs].
  - destruct Hstmt as (v & Hv & Hvalues & Hidx & Hcout). exists v.
    split_and!; [done| | |done|done].
    + rewrite (read_var_insert _ _ _ _ _ Hvalues). by rewrite decide_True.
    + intros y Hy. rewrite (read_var_insert _ _ _ _ _ Hvalues).
      by rewrite decide_False.
  - done.
  - destruct Hstmt as (v & Hv & Hvalues & Hidx & Hcout). exists v.
    split_and!; [done| | |done|done].
    + rewrite (read_var_insert _ _ _ _ _ Hvalues). by rewrite decide_True.
    + intros y Hy. rewrite (read_var_insert _ _ _ _ _ Hvalues).
      by rewrite decide_False.
Qed.

(** [OUTPUT a] as the first statement prints 0. *)
Lemma statement_acts_on_variables_witness :
  ∃ st',
    execute ∅ ∅ [] 1 (OutputStmt "a") initial_exec = Some st' ∧
    cout st' = ["0"] ∧ slots_ok st'.
Proof.
  destruct (execute ∅ ∅ [] 1 (OutputStmt "a") initial_exec) as [st'|] eqn:Hrun;
    [|by vm_compute in Hrun].
  exists st'.
  destruct (statement_acts_on_variables ∅ ∅ [] 1 (OutputStmt "a") initial_exec st'
              slots_ok_initial Hrun) as (Hok & _ & _ & ->).
  split_and!; [done|reflexivity|done].
Defined.

(** X4: a run of the script that goes through leaves the slots in order;
    the names in the symbol table are those on the left of the script's
    statements, the input cursor stands at the number of [INPUT]
    statements, and one line was printed for every [OUTPUT] statement. *)
Theorem script_run_keeps_slots_in_order
    (decls : gmap string (list string)) (bodies : gmap string Expr)
    (inputs : list Z) (depth : nat) (stmts : list Statement) (st : ExecState) :
  execute_program decls bodies inputs depth stmts initial_exec = Some st →
  slots_ok st ∧
  dom (execSymbolTable st) = script_vars stmts ∧
  size (script_vars stmts) ≤ 1000 ∧
  nextInputIndex st = input_statements stmts ∧
  input_statements stmts ≤ length inputs ∧
  length (cout st) = output_statements stmts.
Proof.
  intros Hrun.
  destruct (execute_program_run _ _ _ _ _ _ _ slots_ok_initial Hrun)
    as (Hok & Hdom & Hidx & Hout).
  assert (dom (execSymbolTable st) = script_vars stmts) as Hdom'.
  { rewrite Hdom. unfold initial_exec. simpl. rewrite dom_empty_L. set_solver. }
  simpl in Hidx, Hout.
  split_and!; [done|done| |done| |done].
  - rewrite <-Hdom', size_dom. apply Hok.
  - rewrite <-Hidx.
    apply (execute_program_cursor decls bodies inputs depth stmts initial_exec st);
      [apply slots_ok_initial|simpl; lia|done].
Qed.

(** [INPUT a; OUTPUT a; OUTPUT b;] with the input 5 goes through: two
    names, one input read, two lines printed. *)
Lemma script_run_keeps_slots_in_order_witness :
  let stmts := [InputStmt "a"; OutputStmt "a"; OutputStmt "b"] in
  ∃ st,
    execute_program ∅ ∅ [5%Z] 1 stmts initial_exec = Some st ∧
    dom (execSymbolTable st) = {["a"; "b"]} ∧
    nextInputIndex st = 1 ∧ length (cout st) = 2 ∧ cout st = ["5"; "0"].
Proof.
  intros stmts.
  destruct (execute_program ∅ ∅ [5%Z] 1 stmts initial_exec) as [st|] eqn:Hrun;
    [|by vm_compute in Hrun].
  exists st.
  destruct (script_run_keeps_slots_in_order ∅ ∅ [5%Z] 1 stmts st Hrun)
    as (_ & Hdom & _ & Hidx & _ & Hout).
  split_and!; [done| | | |].
  - rewrite Hdom. unfold script_vars, stmts. simpl. set_solver.
  - rewrite Hidx. reflexivity.
  - rewrite Hout. reflexivity.
  - vm_compute in Hrun. by injection Hrun as <-.
Defined.

(** X5: with bodies that hold no calls (as the parser stores them), a
    script goes through exactly when it has no more [INPUT] statements than
    there are inputs and mentions no more than 1000 names: otherwise a
    statement reads past [execInputs] or indexes [mem] out of bounds. *)
Theorem script_runs_iff_inputs_and_slots_suffice
    (decls : gmap string (list string)) (bodies : gmap string Expr)
    (inputs : list Z) (depth : nat) (stmts : list Statement) :
  (∀ n body, bodies !! n = Some body → call_free body) →
  is_Some (execute_program decls bodies inputs (S depth) stmts initial_exec) ↔
  input_statements stmts ≤ length inputs ∧ size (script_vars stmts) ≤ 1000.
Proof.
  intros Hbodies.
  rewrite (execute_program_is_Some decls bodies inputs depth stmts initial_exec
             Hbodies slots_ok_initial); [|simpl; lia].
  unfold initial_exec. simpl. rewrite dom_empty_L, union_empty_r_L. done.
Qed.

(** [INPUT a; INPUT b;] goes through with two inputs and does not with
    one. *)
Lemma script_runs_iff_inputs_and_slots_suffice_witness :
  let stmts := [InputStmt "a"; InputStmt "b"] in
  is_Some (execute_program ∅ ∅ [5; 7]%Z 1 stmts initial_exec) ∧
  execute_program ∅ ∅ [5%Z] 1 stmts initial_exec = None.
Proof.
  intros stmts.
  assert (∀ n body, (∅ : gmap string Expr) !! n = Some body → call_free body)
    as Hbodies.
  { intros n body Hn. by rewrite lookup_empty in Hn. }
  assert (size (script_vars stmts) = 2) as Hsize by (vm_compute; reflexivity).
  split.
  - apply (script_runs_iff_inputs_and_slots_suffice ∅ ∅ [5; 7]%Z 0 stmts Hbodies).
    rewrite Hsize. split; [vm_compute; lia|lia].
  - destruct (execute_program ∅ ∅ [5%Z] 1 stmts initial_exec) as [st|] eqn:Hrun;
      [|done].
    assert (is_Some (execute_program ∅ ∅ [5%Z] 1 stmts initial_exec)) as Hsome.
    { rewrite Hrun. by eexists. }
    apply (script_runs_iff_inputs_and_slots_suffice ∅ ∅ [5%Z] 0 stmts Hbodies)
      in Hsome as [Hin _].
    vm_compute in Hin. lia.
Defined.

(** X6: an assignment that the useless-assignment scan reports can be
    taken out of the script without changing what a run prints: if the
    script goes through, so does the script without that statement, and
    the two runs print the same lines. *)
Theorem useless_assignment_is_removable
    (decls : gmap string (list string)) (bodies : gmap string Expr)
    (inputs : list Z) (depth : nat) (stmts : list Statement) (i : nat)
    (st : ExecState) :
  useless_at stmts i ≠ [] →
  execute_program decls bodies inputs depth stmts initial_exec = Some st →
  ∃ st',
    execute_program decls bodies inputs depth (delete i stmts) initial_exec
      = Some st' ∧
    cout st' = cout st.
Proof.
  intros Huseless Hrun. unfold useless_at in Huseless.
  destruct (stmts !! i) as [[x|x|x ln rhs]|] eqn:Hi; try done.
  destruct (scan_used x (drop (S i) stmts)) eqn:Hscan; [done|].
  by eapply execute_program_delete_unused; [apply slots_ok_initial|..].
Qed.

(** In [INPUT a; b = f(a); b = f(1); OUTPUT b;] with [f(x) = x + 1] the
    first assignment to [b] is useless; with or without it the run prints
    2. *)
Lemma useless_assignment_is_removable_witness :
  let decls : gmap string (list string) := {["f" := ["x"]]} in
  let bodies : gmap string Expr :=
    {["f" := AddExpr (VarExpr "x" 1) (ConstExpr 1)]} in
  let stmts :=
    [InputStmt "a"; AssignStmt "b" 3 (CallExpr "f" [VarExpr "a" 3]);
     AssignStmt "b" 4 (CallExpr "f" [ConstExpr 1]); OutputStmt "b"] in
  useless_at stmts 1 = [3%Z] ∧
  ∃ st',
    execute_program decls bodies [5%Z] 1 (delete 1 stmts) initial_exec = Some st' ∧
    cout st' = ["2"].
Proof.
  intros decls bodies stmts. split; [reflexivity|].
  destruct (execute_program decls bodies [5%Z] 1 stmts initial_exec)
    as [st|] eqn:Hrun; [|by vm_compute in Hrun].
  destruct (useless_assignment_is_removable decls bodies [5%Z] 1 stmts 1 st)
    as (st' & Hrun' & Hcout); [by vm_compute|done|].
  exists st'. split; [done|]. rewrite Hcout.
  vm_compute in Hrun. by injection Hrun as <-.
Defined.

(** ** What the body parser records *)

Lemma wp_and {A : Type} (m : M A) (Q1 Q2 : A → State → Prop) s :
  wp m Q1 s → wp m Q2 s → wp m (λ a s', Q1 a s' ∧ Q2 a s') s.
Proof. unfold wp. by destruct (m s). Qed.

(** Enters a parse function by two of its specifications at once. *)
Ltac wp_both lem1 lem2 :=
  lazymatch goal with
  | |- wp (mbind _ _) _ _ => apply wp_bind
  | _ => idtac
  end;
  lazymatch goal with
  | |- wp _ _ ?s =>
      eapply wp_mono; [apply (wp_and _ _ _ s (lem1 s) (lem2 s))|]
  end;
  simpl.

Lemma free_lines_app params o1 o2 :
  free_lines params (o1 ++ o2) = free_lines params o1 ++ free_lines params o2.
Proof. unfold free_lines. by rewrite filter_app, fmap_app. Qed.

Lemma free_lines_nil params : free_lines params [] = [].
Proof. done. Qed.

Lemma free_lines_in params name ln :
  name ∈ params → free_lines params [(name, ln)] = [].
Proof. intros Hin. unfold free_lines. by rewrite filter_cons_False by (simpl; tauto). Qed.

Lemma free_lines_out params name ln :
  name ∉ params → free_lines params [(name, ln)] = [ln].
Proof. intros Hout. unfold free_lines. by rewrite filter_cons_True. Qed.

(** Lengths of the token streams in sight. *)
Ltac len_solve :=
  repeat match goal with
  | H : tokens _ = _ :: _ |- _ => apply (f_equal length) in H; simpl in H
  end;
  simpl in *; lia.

Ltac wp_ih IH :=
  lazymatch goal with
  | |- wp (mbind _ _) _ _ => apply wp_bind
  | _ => idtac
  end;
  eapply wp_mono; [apply IH; len_solve|];
  simpl.

(** Rewrites with what is known about the lists of the states in sight. *)
Ltac flag_rewrite :=
  simpl in *;
  repeat match goal with
  | H : invalid_monomial_lines _ = _ |- _ => rewrite H; clear H
  | H : current_poly_params _ = _ |- _ => rewrite H; clear H
  | H : var_occurrences _ = _ |- _ => rewrite H; clear H
  end.

Ltac flag_finish :=
  unfold body_flagged, body_loop_flagged;
  split_and!;
  first
    [ flag_rewrite;
      rewrite ?free_lines_app, ?free_lines_nil, ?app_nil_r, <-?app_assoc;
      reflexivity
    | len_solve ].

Lemma poly_body_flags n :
  (∀ s, 3 * length (tokens s) + 3 ≤ n →
        wp (parse_poly_body_expr n) (body_flagged s) s) ∧
  (∀ s left, 3 * length (tokens s) + 1 ≤ n →
        wp (parse_poly_body_plus_loop n left) (body_loop_flagged left s) s) ∧
  (∀ s, 3 * length (tokens s) + 2 ≤ n →
        wp (parse_poly_term n) (body_flagged s) s) ∧
  (∀ s left, 3 * length (tokens s) + 2 ≤ n →
        wp (parse_poly_term_loop n left) (body_loop_flagged left s) s) ∧
  (∀ s, 3 * length (tokens s) + 1 ≤ n →
        wp (parse_poly_factor n) (body_flagged s) s).
Proof.
  induction n as [|n (IHbody & IHplus & IHterm & IHtloop & IHfactor)].
  { split_and!; intros; lia. }
  split_and!.
  - intros s Hn. simpl.
    wp_ih IHterm. intros left s1 (Hi1 & Hp1 & Hl1).
    wp_ih IHplus. intros left2 s2 (o2 & Ho2 & Hi2 & Hp2 & Hl2).
    wp_auto.
    + wp_ih IHbody. intros right s3 (Hi3 & Hp3 & Hl3). wp_auto. flag_finish.
    + flag_finish.
  - intros s left Hn. simpl. wp_auto.
    + wp_ih IHterm. intros right s1 (Hi1 & Hp1 & Hl1).
      wp_ih IHplus. intros e' s2 (o2 & Ho2 & Hi2 & Hp2 & Hl2).
      exists (var_occurrences right ++ o2). flag_finish.
    + exists []. flag_finish.
  - intros s Hn. simpl. wp_auto.
    + wp_ih IHtloop. intros e' s1 (o1 & Ho1 & Hi1 & Hp1 & Hl1). flag_finish.
    + wp_ih IHfactor. intros left s1 (Hi1 & Hp1 & Hl1).
      wp_ih IHtloop. intros e' s2 (o2 & Ho2 & Hi2 & Hp2 & Hl2). flag_finish.
  - intros s left Hn. simpl. wp_auto.
    + wp_ih IHfactor. intros right s1 (Hi1 & Hp1 & Hl1).
      wp_ih IHtloop. intros e' s2 (o2 & Ho2 & Hi2 & Hp2 & Hl2).
      exists (var_occurrences right ++ o2). flag_finish.
    + exists []. flag_finish.
  - intros s Hn. simpl. wp_auto.
    all: try (wp_ih IHbody; intros e' s1 (Hi1 & Hp1 & Hl1); wp_auto).
    all: try flag_finish.
    all: try (unfold body_flagged; simpl; rewrite free_lines_in by done; flag_finish).
    all: try (unfold body_flagged; simpl; rewrite free_lines_out by done; flag_finish).
Qed.

Lemma parse_poly_body_expr_flags s :
  wp (with_fuel parse_poly_body_expr) (body_flagged s) s.
Proof. apply wp_with_fuel, poly_body_flags. unfold fuel_of. lia. Qed.

(** ** What the declarations leave in the tables *)

(** A declaration, with the lines it records told by the tree of its
    body. *)
Lemma parse_poly_decl_flags s :
  wp parse_poly_decl
     (λ _ s', ∃ name line params body_tokens body rest,
        invalid_ids params body_tokens = free_lines params (var_occurrences body) ∧
        s' = declared s name line params body_tokens body rest) s.
Proof.
  unfold parse_poly_decl.
  wp_apply parse_poly_header_spec.
  intros h s1 (t & hrest & rest & Htok & Hty & Hname & Hline & Hparams & Himplicit & ->).
  simpl. wp_auto.
  wp_both parse_poly_body_expr_spec parse_poly_body_expr_flags.
  intros body s2 [(used & Hne & (rest2 & Htok2 & ->) & Hfree) (Hi & _ & _)].
  simpl in *. apply app_inv_head in Hi.
  wp_auto.
  all: simpl in *; subst.
  all: exists (lexeme t), (line_no t), (PolyHeader.params h), used, body, ts0.
  all: rewrite Hname, Hline in *.
  all: split; [done|].
  all: unfold declared; simpl.
  all: match goal with H : _ !! _ = _ |- _ => by rewrite H end.
Qed.

Lemma elem_of_free_lines params occs ln :
  ln ∈ free_lines params occs ↔ ∃ o, o ∈ occs ∧ (o.1 ∉ params) ∧ o.2 = ln.
Proof.
  unfold free_lines. rewrite list_elem_of_fmap. split.
  - intros (o & -> & [Hout Ho]%list_elem_of_filter). by exists o.
  - intros (o & Ho & Hout & <-). exists o. split; [done|].
    by apply list_elem_of_filter.
Qed.

Lemma declared_same_script s name line params body_tokens body rest :
  same_script s (declared s name line params body_tokens body rest).
Proof. unfold declared. by destruct (poly_decl_first_line s !! name). Qed.

Lemma declared_first_line s name line params body_tokens body rest :
  dom (poly_decl_first_line s)
    ⊆ dom (poly_decl_first_line (declared s name line params body_tokens body rest)) ∧
  name ∈ dom (poly_decl_first_line (declared s name line params body_tokens body rest)).
Proof.
  unfold declared. destruct (poly_decl_first_line s !! name) eqn:Hname; simpl.
  - split; [done|]. by apply elem_of_dom_2 in Hname.
  - rewrite dom_insert_L. set_solver.
Qed.

Lemma declared_in_poly_decl s name line params body_tokens body rest :
  in_poly_decl (declared s name line params body_tokens body rest) = false.
Proof. unfold declared. by destruct (poly_decl_first_line s !! name). Qed.

Lemma declared_polys_ok s name line params body_tokens body rest :
  invalid_ids params body_tokens = free_lines params (var_occurrences body) →
  polys_ok s → polys_ok (declared s name line params body_tokens body rest).
Proof.
  intros Hflags (Hdecls & Hbodies & Hlines). unfold declared, polys_ok.
  destruct (poly_decl_first_line s !! name) as [line0|] eqn:Hname; simpl.
  - split_and!.
    + rewrite dom_insert_L, Hdecls. apply elem_of_dom_2 in Hname.
      rewrite <-Hbodies in Hname. set_solver.
    + done.
    + intros Hdup. by destruct (duplicate_decl_lines s).
  - apply not_elem_of_dom in Hname as Hfresh.
    assert (polyExprs s !! name = None) as Hbody.
    { apply not_elem_of_dom. by rewrite Hbodies. }
    split_and!.
    + by rewrite !dom_insert_L, Hdecls.
    + by rewrite !dom_insert_L, Hbodies.
    + intros Hdup ln. rewrite elem_of_app, (Hlines Hdup), Hflags, elem_of_free_lines.
      split.
      * intros [(n & b & p & o & Hn & Hp & Ho)|(o & Ho)].
        -- exists n, b, p, o. assert (n ≠ name) by congruence.
           by rewrite !lookup_insert_ne.
        -- exists name, body, params, o. by rewrite !lookup_insert_eq.
      * intros (n & b & p & o & Hn & Hp & Ho). simpl in Hn, Hp.
        destruct (decide (n = name)) as [->|Hne].
        -- rewrite lookup_insert_eq in Hn. rewrite lookup_insert_eq in Hp.
           injection Hn as <-.
           injection Hp as <-. right. by exists o.
        -- rewrite lookup_insert_ne in Hn by done.
           rewrite lookup_insert_ne in Hp by done. left. by exists n, b, p, o.
Qed.

Lemma polys_step_refl s : polys_step s s.
Proof. by split_and!. Qed.

Lemma polys_step_trans s1 s2 s3 :
  polys_step s1 s2 → polys_step s2 s3 → polys_step s1 s3.
Proof.
  intros (Hok1 & Hdom1 & Hs1 & He1 & Hi1) (Hok2 & Hdom2 & Hs2 & He2 & Hi2).
  unfold polys_step, same_script.
  split_and!; [by intros H; apply Hok2, Hok1|set_solver|congruence..].
Qed.

(** A state that differs only in the input position. *)
Lemma polys_step_token s ts : polys_step s (set_tokens ts s).
Proof. by split_and!. Qed.

Lemma parse_poly_decl_list_polys n s :
  length (tokens s) < n →
  wp (parse_poly_decl_list n)
     (λ _ s', polys_step s s' ∧ poly_decl_first_line s' ≠ ∅ ∧
              in_poly_decl s' = false ∧ progress s s') s.
Proof.
  revert s. induction n as [|n IH]; intros s Hn; [lia|].
  simpl.
  wp_both parse_poly_decl_spec parse_poly_decl_flags.
  intros [] s1 [Hs1%decl_post_progress
                (name & line & params & body_tokens & body & rest & Hflags & ->)].
  set (s1 := declared s name line params body_tokens body rest) in *.
  assert (polys_step s s1) as Hstep.
  { split_and!; [by apply declared_polys_ok|apply declared_first_line
                |apply declared_same_script]. }
  wp_auto.
  - wp_rec IH. intros [] s2 (Hstep2 & Hsome & Hdecl & Hs2).
    split_and!; [by eapply polys_step_trans|done|done|solve_progress].
  - split_and!; [done| |apply declared_in_poly_decl|solve_progress].
    intros Hempty. pose proof (proj2 (declared_first_line s name line params
                                        body_tokens body rest)) as Hin.
    fold s1 in Hin. rewrite Hempty in Hin. set_solver.
Qed.

Lemma parse_poly_section_polys s :
  wp parse_poly_section
     (λ _ s', polys_step s s' ∧ poly_decl_first_line s' ≠ ∅ ∧
              in_poly_decl s' = false) s.
Proof.
  unfold parse_poly_section. wp_auto.
  eapply wp_mono; [apply parse_poly_decl_list_polys; unfold fuel_of; simpl; lia|].
  intros [] s1 (Hstep & Hsome & Hdecl & _). simpl. split_and!; [|done|done].
  eapply polys_step_trans; [|exact Hstep]. apply polys_step_token.
Qed.

(** ** What the calls leave among the findings *)

Lemma checked_token ts s : checked true s (set_tokens ts s).
Proof. split; [done|]. exists []. simpl. by rewrite app_nil_r. Qed.

Lemma checked_iff (b b' : bool) s s' : (b ↔ b') → checked b s s' → checked b' s s'.
Proof.
  intros Hb (Hd & errs & Herr & Hiff). split; [done|]. exists errs.
  split; [done|]. by rewrite Hiff.
Qed.

(** The check at the end of a call, after its arguments have been read. *)
Lemma checked_call (s s1 s2 : State) name ln (first : Expr) (more : list Expr)
    (Q : unit → State → Prop) ts :
  checked (well_called (poly_declarations s) first) s s1 →
  checked (forallb (well_called (poly_declarations s)) more) s1 s2 →
  (∀ s', checked (well_called (poly_declarations s)
                    (CallExpr name ([first] ++ more))) s s' →
         tokens s' = ts → Q () s') →
  wp (check_call name ln (length ([first] ++ more))) Q (set_tokens ts s2).
Proof.
  intros (Hd1 & e1 & He1 & Hiff1) (Hd2 & e2 & He2 & Hiff2) HQ.
  apply wp_check_call. simpl. rewrite Hd2, Hd1.
  assert (∀ tail (ok : bool),
            (tail = [] ↔ ok) →
            (e1 ++ e2 ++ tail = [] ↔
             ok && (well_called (poly_declarations s) first
                    && forallb (well_called (poly_declarations s)) more)))
    as Hiff.
  { intros tail ok Htail. rewrite !app_nil, Hiff1, Hiff2, Htail, !andb_True. tauto. }
  destruct (poly_declarations s !! name) as [params|] eqn:Hname; [case_decide|].
  - apply HQ; [|done]. split; [simpl; congruence|]. exists (e1 ++ e2 ++ []).
    split; [simpl; by rewrite He2, He1, app_nil_r, app_assoc|].
    simpl. rewrite Hname. apply Hiff. by rewrite bool_decide_true.
  - apply HQ; [|done]. split; [simpl; congruence|].
    exists (e1 ++ e2 ++ [finding_text (ArityMismatch, ln)]).
    split; [simpl; by rewrite He2, He1, <-!app_assoc|].
    simpl. rewrite Hname. apply Hiff. by rewrite bool_decide_false.
  - apply HQ; [|done]. split; [simpl; congruence|].
    exists (e1 ++ e2 ++ [finding_text (Undeclared, ln)]).
    split; [simpl; by rewrite He2, He1, <-!app_assoc|].
    simpl. rewrite Hname. by apply Hiff.
Qed.

Lemma argument_checks n :
  (∀ s, length (tokens s) < n →
        wp (parse_argument_expr n)
           (λ e s', checked (well_called (poly_declarations s) e) s s' ∧
                    length (tokens s') < length (tokens s)) s) ∧
  (∀ s idToken, length (tokens s) < n →
        wp (parse_call_expr_from_token n idToken)
           (λ e s', checked (well_called (poly_declarations s) e) s s' ∧
                    length (tokens s') < length (tokens s)) s) ∧
  (∀ s args, length (tokens s) < n →
        wp (parse_arguments_loop n args)
           (λ r s', ∃ more,
              r = args ++ more ∧
              checked (forallb (well_called (poly_declarations s)) more) s s' ∧
              length (tokens s') ≤ length (tokens s)) s).
Proof.
  induction n as [|n (IHarg & IHcall & IHloop)].
  { split_and!; intros; lia. }
  split_and!.
  - intros s Hn. simpl. wp_auto.
    + wp_ih IHcall. intros e' s1 [Hc1 Hl1]. split; [exact Hc1|len_solve].
    + split; [apply checked_token|len_solve].
    + split; [apply checked_token|len_solve].
  - intros s idToken Hn. simpl. wp_auto.
    wp_ih IHarg. intros first s1 [Hc1 Hl1].
    wp_ih IHloop. intros args s2 (more & -> & Hc2 & Hl2).
    wp_auto. apply wp_bind.
    apply (checked_call s s1 s2 _ _ first more); [exact Hc1| |].
    { destruct Hc1 as [Hd1 _]. simpl in Hd1. by rewrite Hd1 in Hc2. }
    intros s' Hs' Htok'. wp_auto. split; [done|]. rewrite Htok'. len_solve.
  - intros s args Hn. simpl. wp_auto.
    + wp_ih IHarg. intros arg s1 [Hc1 Hl1].
      wp_ih IHloop. intros r s2 (more & -> & Hc2 & Hl2).
      exists (arg :: more). split_and!; [by rewrite <-app_assoc| |len_solve].
      destruct Hc1 as (Hd1 & e1 & He1 & Hiff1). simpl in *.
      rewrite Hd1 in Hc2. destruct Hc2 as (Hd2 & e2 & He2 & Hiff2).
      split; [congruence|]. exists (e1 ++ e2).
      split; [by rewrite He2, He1, app_assoc|].
      rewrite app_nil, Hiff1, Hiff2, andb_True. done.
    + exists []. split_and!; [by rewrite app_nil_r| |done].
      split; [done|]. exists []. by rewrite app_nil_r.
Qed.

Lemma parse_argument_expr_checks s :
  wp (with_fuel parse_argument_expr)
     (λ e s', checked (well_called (poly_declarations s) e) s s') s.
Proof.
  eapply wp_mono; [apply wp_with_fuel, argument_checks; unfold fuel_of; lia|].
  by intros e s' [? _].
Qed.

Lemma parse_arguments_loop_checks s args :
  wp (with_fuel (λ fuel, parse_arguments_loop fuel args))
     (λ r s', ∃ more,
        r = args ++ more ∧
        checked (forallb (well_called (poly_declarations s)) more) s s') s.
Proof.
  eapply wp_mono; [apply wp_with_fuel, argument_checks; unfold fuel_of; lia|].
  intros r s' (more & ? & ? & _). by exists more.
Qed.

Lemma parse_poly_eval_expr_checks s :
  wp parse_poly_eval_expr
     (λ e s', checked (well_called (poly_declarations s) e) s s') s.
Proof.
  unfold parse_poly_eval_expr. wp_auto.
  wp_apply parse_argument_expr_checks. intros first s1 Hc1.
  wp_apply parse_arguments_loop_checks. intros args s2 (more & -> & Hc2).
  wp_auto. apply wp_bind.
  apply (checked_call s s1 s2 _ _ first more).
  - exact Hc1.
  - destruct Hc1 as [Hd1 _]. simpl in Hd1. by rewrite Hd1 in Hc2.
  - intros s' Hs' _. by wp_auto.
Qed.

(** ** What an accepted program leaves behind *)

Lemma parse_statement_exec_checks s :
  wp parse_statement_exec (λ stmt s', statement_step s stmt s') s.
Proof.
  unfold parse_statement_exec. wp_auto.
  - unfold parse_input_statement_exec. wp_auto.
    split_and!; try done. split; [done|]. exists []. simpl. by rewrite app_nil_r.
  - unfold parse_output_statement_exec. wp_auto.
    split_and!; try done. split; [done|]. exists []. simpl. by rewrite app_nil_r.
  - unfold parse_assign_statement_exec. wp_auto.
    wp_both parse_poly_eval_expr_spec parse_poly_eval_expr_checks.
    intros rhs s1 [(t' & used & errs & args & rest & _ & _ & _ & _ & _ & _ & _ & _ & ->) Hc].
    wp_auto. split_and!; try done.
Qed.

Lemma script_step_single s stmt s1 :
  statement_step s stmt s1 →
  script_step s (set_execStatements (execStatements s1 ++ [stmt]) s1) [stmt].
Proof.
  intros (Hpolys & Hin & Hstmts & Hd & errs & Herr & Hiff).
  split_and!; [done|done|simpl; by rewrite Hstmts|].
  exists errs. split; [done|]. rewrite Hiff. split.
  - intros Hok. by constructor.
  - by intros [Hok _]%Forall_cons.
Qed.

Lemma script_step_trans s1 s2 s3 new1 new2 :
  script_step s1 s2 new1 → script_step s2 s3 new2 →
  script_step s1 s3 (new1 ++ new2).
Proof.
  intros ((Hd1 & Hb1 & Hf1 & Hdup1 & Hinv1) & Hin1 & Hst1 & e1 & He1 & Hiff1)
         ((Hd2 & Hb2 & Hf2 & Hdup2 & Hinv2) & Hin2 & Hst2 & e2 & He2 & Hiff2).
  split_and!.
  - unfold same_polys. split_and!; congruence.
  - congruence.
  - by rewrite Hst2, Hst1, app_assoc.
  - exists (e1 ++ e2). split; [by rewrite He2, He1, app_assoc|].
    rewrite app_nil, Forall_app, Hiff1, Hiff2, Hd1. done.
Qed.

Lemma script_step_token s ts s' new :
  script_step (set_tokens ts s) s' new → script_step s s' new.
Proof. done. Qed.

Lemma parse_statement_list_exec_checks n s :
  length (tokens s) < n →
  wp (parse_statement_list_exec n)
     (λ _ s', (∃ new, new ≠ [] ∧ script_step s s' new) ∧ progress s s') s.
Proof.
  revert s. induction n as [|n IH]; intros s Hn; [lia|].
  simpl. wp_both parse_statement_exec_spec parse_statement_exec_checks.
  intros stmt s1 [[Hs1 Hshape] Hstep%script_step_single].
  wp_auto.
  - wp_rec IH. intros [] s2 [(new & Hne & Hstep2) Hs2]. split; [|solve_progress].
    exists ([stmt] ++ new). split; [done|]. by eapply script_step_trans.
  - split; [|solve_progress]. by exists [stmt].
Qed.

Lemma parse_execute_section_checks s :
  wp parse_execute_section (λ _ s', ∃ new, new ≠ [] ∧ script_step s s' new) s.
Proof.
  unfold parse_execute_section. wp_auto.
  eapply wp_mono;
    [apply parse_statement_list_exec_checks; unfold fuel_of; simpl; lia|].
  by intros [] s1 [Hstep _].
Qed.

Lemma parse_inputs_loop_fields n s :
  length (tokens s) < n →
  wp (parse_inputs_loop n)
     (λ _ s', same_polys s s' ∧ execStatements s' = execStatements s ∧
              semantic_errors s' = semantic_errors s ∧
              ∃ vals, execInputs s' = execInputs s ++ vals ∧
                      (token_type (default eof_token (tokens s !! 0)) = NUM →
                       vals ≠ [])) s.
Proof.
  revert s. induction n as [|n IH]; intros s Hn; [lia|].
  simpl. wp_auto.
  - wp_ih IH. intros [] s1 (Hpolys & Hstmts & Herr & vals & Hvals & _).
    split_and!; [done..|]. exists (atoi (lexeme t) :: vals).
    split; [|done]. rewrite Hvals. simpl. by rewrite <-app_assoc.
  - split_and!; [done..|]. exists []. by rewrite app_nil_r.
Qed.

Lemma parse_inputs_section_fields s :
  wp parse_inputs_section
     (λ _ s', same_polys s s' ∧ execStatements s' = execStatements s ∧
              semantic_errors s' = semantic_errors s ∧
              ∃ vals, vals ≠ [] ∧ execInputs s' = execInputs s ++ vals) s.
Proof.
  unfold parse_inputs_section. wp_auto.
  eapply wp_mono; [apply parse_inputs_loop_fields; unfold fuel_of; simpl; lia|].
  intros [] s1 (Hpolys & Hstmts & Herr & vals & Hvals & Hne). simpl in *.
  split_and!; [done..|]. exists vals. split; [by apply Hne|done].
Qed.

Lemma parse_num_list_fields n s :
  length (tokens s) < n →
  wp (parse_num_list n)
     (λ _ s', same_polys s s' ∧ same_script s s') s.
Proof.
  revert s. induction n as [|n IH]; intros s Hn; [lia|].
  simpl. wp_auto.
  all: repeat case_decide.
  all: try (wp_ih IH; intros [] s1 [Hpolys Hscript]).
  all: done.
Qed.

Lemma parse_tasks_section_fields s :
  wp parse_tasks_section (λ _ s', same_polys s s' ∧ same_script s s') s.
Proof.
  unfold parse_tasks_section. wp_auto.
  eapply wp_mono; [apply parse_num_list_fields; unfold fuel_of; simpl; lia|].
  by intros [] s1 [? ?].
Qed.

Lemma polys_ok_same s s' : same_polys s s' → polys_ok s → polys_ok s'.
Proof.
  intros (Hd & Hb & Hf & Hdup & Hinv). unfold polys_ok.
  by rewrite Hd, Hb, Hf, Hdup, Hinv.
Qed.

Lemma parse_program_step s : wp parse_program (λ _ s', program_step s s') s.
Proof.
  unfold parse_program.
  wp_apply parse_tasks_section_fields. intros [] s1 [Hp1 (Hst1 & He1 & Hi1)].
  wp_apply parse_poly_section_polys.
  intros [] s2 ((Hok2 & _ & Hst2 & He2 & Hi2) & Hsome2 & _).
  wp_apply parse_execute_section_checks.
  intros [] s3 (new & Hne & Hp3 & Hi3 & Hst3 & errs & He3 & Hiff3).
  eapply wp_mono; [apply parse_inputs_section_fields|].
  intros [] s4 (Hp4 & Hst4 & He4 & vals & Hvals & Hi4). simpl.
  pose proof Hp3 as (Hd3 & _ & Hf3 & _). pose proof Hp4 as (Hd4 & _ & Hf4 & _).
  split_and!.
  - intros Hok. eapply polys_ok_same; [exact Hp4|].
    eapply polys_ok_same; [exact Hp3|]. apply Hok2.
    by eapply polys_ok_same.
  - by rewrite Hf4, Hf3.
  - exists new, vals, errs. split_and!; [done|done|congruence|congruence|congruence|].
    by rewrite Hd4, Hd3.
Qed.

Lemma ConsumeAllInput_step s :
  wp ConsumeAllInput (λ _ s', program_step s s') s.
Proof.
  unfold ConsumeAllInput.
  wp_apply parse_program_step. intros [] s1 Hs1.
  wp_auto. apply wp_expect_eof.
  - intros Hnil. by wp_auto.
  - intros t ts Htok Ht. by wp_auto.
Qed.

Lemma polys_ok_initial input : polys_ok (initial_state input).
Proof.
  unfold polys_ok. simpl. rewrite !dom_empty_L. split_and!; [done..|].
  intros _ ln. split; [by intros ?%elem_of_nil|].
  intros (name & body & params & o & Hbody & _). by rewrite lookup_empty in Hbody.
Qed.

(** What the parser leaves behind when it accepts a program. *)
Lemma accepted_program input gate s :
  ConsumeAllInput (initial_state input) = Ok gate s →
  polys_ok s ∧ poly_decl_first_line s ≠ ∅ ∧
  execStatements s ≠ [] ∧ execInputs s ≠ [] ∧
  (semantic_errors s = [] ↔
   Forall (λ stmt, stmt_well_called (poly_declarations s) stmt) (execStatements s)).
Proof.
  intros Hrun.
  destruct (wp_Ok _ _ _ _ _ (ConsumeAllInput_step (initial_state input)) Hrun)
    as (Hok & Hsome & new & vals & errs & Hnew & Hvals & Hst & Hin & Herr & Hiff).
  simpl in *. split_and!; [by apply Hok, polys_ok_initial|done|..].
  - by rewrite Hst.
  - by rewrite Hin.
  - by rewrite Herr, Hst.
Qed.

(** The list of invalid-monomial lines is empty exactly when the bodies
    mention their own parameters only. *)
Lemma invalid_monomials_closed (s : State) :
  (∀ ln, ln ∈ invalid_monomial_lines s ↔
         ∃ name body params o,
           polyExprs s !! name = Some body ∧
           poly_declarations s !! name = Some params ∧
           o ∈ var_occurrences body ∧ (o.1 ∉ params) ∧ o.2 = ln) →
  (invalid_monomial_lines s = [] ↔
   ∀ name body params,
     polyExprs s !! name = Some body → poly_declarations s !! name = Some params →
     closed_body params body).
Proof.
  intros Hlines. split.
  - intros Hnone name body params Hbody Hparams o Ho.
    destruct (decide (o.1 ∈ params)) as [|Hout]; [done|].
    assert (o.2 ∈ invalid_monomial_lines s) as Hin.
    { apply Hlines. by exists name, body, params, o. }
    rewrite Hnone in Hin. by apply elem_of_nil in Hin.
  - intros Hclosed. destruct (invalid_monomial_lines s) as [|ln lines] eqn:Hinv; [done|].
    assert (ln ∈ ln :: lines) as Hin by set_solver.
    apply Hlines in Hin as (name & body & params & o & Hbody & Hparams & Ho & Hout & _).
    destruct Hout. by eapply Hclosed.
Qed.

(** ** Accepted programs *)

(** X7: the body parser returns on every input, builds no call node, and
    changes the parser's state in two places only: the input advances by
    at least one token, and [invalid_monomial_lines] grows by the line of
    every variable node of the tree returned whose name is not in
    [current_poly_params], in the order of the tree from left to right. *)
Theorem body_parser_records_free_variables (s : State) :
  with_fuel parse_poly_body_expr s ≠ OutOfFuel ∧
  ∀ e s', with_fuel parse_poly_body_expr s = Ok e s' →
    call_free e ∧
    ∃ used rest,
      used ≠ [] ∧ tokens s = used ++ rest ∧
      s' = set_invalid_monomial_lines
             (invalid_monomial_lines s
                ++ free_lines (current_poly_params s) (var_occurrences e))
             (set_tokens rest s).
Proof.
  split; [apply (wp_not_OutOfFuel _ _ _ (parse_poly_body_expr_spec s))|].
  intros e s' Hrun.
  destruct (wp_Ok _ _ _ _ _ (parse_poly_body_expr_spec s) Hrun)
    as (used & Hne & (rest & Htok & Hs') & Hfree).
  destruct (wp_Ok _ _ _ _ _ (parse_poly_body_expr_flags s) Hrun) as (Hi & _ & _).
  split; [done|]. exists used, rest. split_and!; [done|done|].
  rewrite <-Hi. subst s'. unfold after_body. by apply state_ext.
Qed.

(** The body [x + 2 y x] of [G = x + 2 y x;] read with the parameter list
    [x]: the tree has the variable nodes [x], [y], [x], and the line of
    [y] is recorded. *)
Lemma body_parser_records_free_variables_witness :
  let s := set_current_poly_params ["x"]
             (initial_state (drop 2 Sample.implicit_parameter)) in
  ∃ e s',
    with_fuel parse_poly_body_expr s = Ok e s' ∧
    var_occurrences e = [("x", 3%Z); ("y", 3%Z); ("x", 3%Z)] ∧
    invalid_monomial_lines s' = [3%Z] ∧ call_free e.
Proof.
  intros s.
  destruct (with_fuel parse_poly_body_expr s) as [e s'| |] eqn:Hrun;
    [|by vm_compute in Hrun..].
  exists e, s'.
  destruct (body_parser_records_free_variables s) as [_ Hspec].
  destruct (Hspec e s' Hrun) as (Hfree & used & rest & _ & _ & ->).
  vm_compute in Hrun. injection Hrun as <- _.
  split_and!; [done|reflexivity|reflexivity|done].
Defined.

(** X8: when the parser accepts a program, the three tables filled by the
    POLY section hold the same names, there is at least one declaration,
    one statement and one input value, and every stored body is free of
    calls. *)
Theorem accepted_program_tables (input : list Token) (gate : Gate) (s : State) :
  ConsumeAllInput (initial_state input) = Ok gate s →
  dom (poly_declarations s) = dom (polyExprs s) ∧
  dom (polyExprs s) = dom (poly_decl_first_line s) ∧
  polyExprs s ≠ ∅ ∧
  (∀ name body, polyExprs s !! name = Some body → call_free body) ∧
  execStatements s ≠ [] ∧ execInputs s ≠ [].
Proof.
  intros Hrun.
  destruct (accepted_program input gate s Hrun)
    as ((Hdecls & Hbodies & _) & Hsome & Hstmts & Hinputs & _).
  destruct (proj2 (proj2 (main_returns input)) gate s Hrun) as (_ & Hfree & _).
  split_and!; try done.
  intros Hempty. apply Hsome. apply dom_empty_inv_L.
  by rewrite <-Hbodies, Hempty, dom_empty_L.
Qed.

(** The round-trip program leaves the one name [f] in all three tables. *)
Lemma accepted_program_tables_witness :
  ∃ s,
    ConsumeAllInput (initial_state Sample.round_trip) = Ok Clean s ∧
    dom (poly_declarations s) = {["f"]} ∧
    dom (polyExprs s) = {["f"]} ∧
    dom (poly_decl_first_line s) = {["f"]}.
Proof.
  assert (∃ s, ConsumeAllInput (initial_state Sample.round_trip) = Ok Clean s ∧
               dom (poly_decl_first_line s) = {["f"]}) as (s & Hrun & Hdom).
  { eexists. split; vm_compute; reflexivity. }
  exists s.
  destruct (accepted_program_tables Sample.round_trip Clean s Hrun)
    as (Hdecls & Hbodies & _).
  split_and!; [done|by rewrite Hdecls, Hbodies|by rewrite Hbodies|done].
Defined.

(** X9: in an accepted program without duplicate declarations, a line is
    in [invalid_monomial_lines] exactly when a stored body has, on that
    line, a variable that is not among the parameters stored for its
    polynomial; so the list is empty exactly when every body mentions its
    own parameters only. *)
Theorem invalid_monomials_are_the_free_variables
    (input : list Token) (gate : Gate) (s : State) :
  ConsumeAllInput (initial_state input) = Ok gate s →
  duplicate_decl_lines s = [] →
  (∀ ln, ln ∈ invalid_monomial_lines s ↔
         ∃ name body params o,
           polyExprs s !! name = Some body ∧
           poly_declarations s !! name = Some params ∧
           o ∈ var_occurrences body ∧ (o.1 ∉ params) ∧ o.2 = ln) ∧
  (invalid_monomial_lines s = [] ↔
   ∀ name body params,
     polyExprs s !! name = Some body → poly_declarations s !! name = Some params →
     closed_body params body).
Proof.
  intros Hrun Hdup.
  destruct (accepted_program input gate s Hrun) as ((_ & _ & Hlines) & _).
  specialize (Hlines Hdup). split; [done|].
  by apply invalid_monomials_closed.
Qed.

(** In [TASKS 1 POLY G = x + 2 y x; EXECUTE a = G(1); INPUTS 1] the one
    recorded line is the line of [y]. *)
Lemma invalid_monomials_are_the_free_variables_witness :
  let input :=
    [Sample.tasks 1; Sample.num "1" 1; Sample.poly 2] ++ Sample.implicit_parameter
    ++ [Sample.execute 4; Sample.id "a" 5; Sample.eq 5; Sample.id "G" 5;
        Sample.lp 5; Sample.num "1" 5; Sample.rp 5; Sample.semi 5;
        Sample.inputs 6; Sample.num "1" 6]%Z in
  ∃ gate s,
    ConsumeAllInput (initial_state input) = Ok gate s ∧
    invalid_monomial_lines s = [3%Z] ∧
    ∃ name body params o,
      polyExprs s !! name = Some body ∧
      poly_declarations s !! name = Some params ∧
      o ∈ var_occurrences body ∧ (o.1 ∉ params) ∧ o.2 = 3%Z.
Proof.
  intros input.
  assert (∃ gate s, ConsumeAllInput (initial_state input) = Ok gate s ∧
                    duplicate_decl_lines s = [] ∧
                    invalid_monomial_lines s = [3%Z]) as (gate & s & Hrun & Hdup & Hinv).
  { eexists _, _. split_and!; vm_compute; reflexivity. }
  exists gate, s. split_and!; [done|done|].
  destruct (invalid_monomials_are_the_free_variables input gate s Hrun Hdup)
    as [Hlines _].
  apply Hlines. rewrite Hinv. set_solver.
Defined.

(** X10: in an accepted program, [semantic_errors] is empty exactly when
    every call of the script, nested ones included, names a declared
    polynomial and passes as many arguments as the declaration has
    parameters. *)
Theorem findings_are_the_bad_calls (input : list Token) (gate : Gate) (s : State) :
  ConsumeAllInput (initial_state input) = Ok gate s →
  (semantic_errors s = [] ↔
   Forall (λ stmt, stmt_well_called (poly_declarations s) stmt) (execStatements s)).
Proof. intros Hrun. by destruct (accepted_program input gate s Hrun) as (_&_&_&_&?). Qed.

(** The round-trip program has no finding, and its call [f(a)] fits the
    declaration of [f]; the program with [G(H(1))] has findings. *)
Lemma findings_are_the_bad_calls_witness :
  (∃ s,
     ConsumeAllInput (initial_state Sample.round_trip) = Ok Clean s ∧
     Forall (λ stmt, stmt_well_called (poly_declarations s) stmt) (execStatements s)) ∧
  (∃ gate s,
     ConsumeAllInput (initial_state Sample.two_findings_one_line) = Ok gate s ∧
     ¬ Forall (λ stmt, stmt_well_called (poly_declarations s) stmt) (execStatements s)).
Proof.
  split.
  - assert (∃ s, ConsumeAllInput (initial_state Sample.round_trip) = Ok Clean s ∧
                 semantic_errors s = []) as (s & Hrun & Herr).
    { eexists. split; vm_compute; reflexivity. }
    exists s. split; [done|].
    by apply (findings_are_the_bad_calls Sample.round_trip Clean s Hrun).
  - assert (∃ gate s,
              ConsumeAllInput (initial_state Sample.two_findings_one_line) = Ok gate s ∧
              semantic_errors s ≠ []) as (gate & s & Hrun & Herr).
    { eexists _, _. split; vm_compute; [reflexivity|discriminate]. }
    exists gate, s. split; [done|]. intros Hall. apply Herr.
    by apply (findings_are_the_bad_calls Sample.two_findings_one_line gate s Hrun).
Defined.

(** ** The gate and the run of an accepted program *)

Lemma gate_clean_iff (s : State) :
  check_semantic_errors s = Clean ↔
  duplicate_decl_lines s = [] ∧ invalid_monomial_lines s = [] ∧
  semantic_errors s = [].
Proof.
  split; [|by intros (? & ? & ?); apply gate_clean].
  unfold check_semantic_errors.
  destruct (decide (duplicate_decl_lines s ≠ [])) as [?|Hdup%dec_stable]; [done|].
  destruct (decide (invalid_monomial_lines s ≠ [])) as [?|Hinv%dec_stable]; [done|].
  destruct (semantic_errors s) as [|first errs]; [done|].
  destruct (String.prefix _ first); [by destruct (error_lines _)|].
  destruct (String.prefix _ first); [by destruct (error_lines _)|done].
Qed.

Lemma ConsumeAllInput_gate s gate s' :
  ConsumeAllInput s = Ok gate s' → gate = check_semantic_errors s'.
Proof.
  intros Hrun. by destruct (wp_Ok _ _ _ _ _ (ConsumeAllInput_spec s) Hrun).
Qed.

(** X11: the gate lets an accepted program pass exactly when no name was
    declared twice, every stored body mentions the parameters of its
    polynomial only, and every call of the script names a declared
    polynomial with the right number of arguments.  In a program that
    passes, every declared name has a body without calls and without
    variables other than its parameters. *)
Theorem gate_passes_exactly_well_formed_programs
    (input : list Token) (gate : Gate) (s : State) :
  ConsumeAllInput (initial_state input) = Ok gate s →
  (gate = Clean ↔
   duplicate_decl_lines s = [] ∧
   (∀ name body params,
      polyExprs s !! name = Some body → poly_declarations s !! name = Some params →
      closed_body params body) ∧
   Forall (λ stmt, stmt_well_called (poly_declarations s) stmt) (execStatements s)) ∧
  (gate = Clean →
   ∀ name params, poly_declarations s !! name = Some params →
     ∃ body, polyExprs s !! name = Some body ∧
             closed_body params body ∧ call_free body).
Proof.
  intros Hrun. rewrite (ConsumeAllInput_gate _ _ _ Hrun), gate_clean_iff.
  destruct (accepted_program input gate s Hrun) as ((Hdecls & _ & Hlines) & _ & _ & _ & Hcalls).
  destruct (proj2 (proj2 (main_returns input)) gate s Hrun) as (_ & Hfree & _).
  assert (duplicate_decl_lines s = [] →
          (invalid_monomial_lines s = [] ↔
           ∀ name body params,
             polyExprs s !! name = Some body →
             poly_declarations s !! name = Some params →
             closed_body params body)) as Hclosed.
  { intros Hdup. by apply invalid_monomials_closed, Hlines. }
  split.
  - split.
    + intros (Hdup & Hinv & Herr). split_and!; [done|by apply Hclosed|by apply Hcalls].
    + intros (Hdup & Hbodies & Hstmts). split_and!; [done|by apply Hclosed|by apply Hcalls].
  - intros (Hdup & Hinv & _) name params Hname.
    assert (is_Some (polyExprs s !! name)) as [body Hbody].
    { apply elem_of_dom. rewrite <-Hdecls. by apply elem_of_dom_2 in Hname. }
    exists body. split_and!; [done| |by eapply Hfree].
    by eapply (proj1 (Hclosed Hdup) Hinv).
Qed.

(** The round-trip program passes the gate: its one polynomial [f] has the
    body [x + 1] over the parameter [x]. *)
Lemma gate_passes_exactly_well_formed_programs_witness :
  ∃ s,
    ConsumeAllInput (initial_state Sample.round_trip) = Ok Clean s ∧
    poly_declarations s !! "f" = Some ["x"] ∧
    ∃ body, polyExprs s !! "f" = Some body ∧ closed_body ["x"] body ∧ call_free body.
Proof.
  assert (∃ s, ConsumeAllInput (initial_state Sample.round_trip) = Ok Clean s ∧
               poly_declarations s !! "f" = Some ["x"]) as (s & Hrun & Hf).
  { eexists. split; vm_compute; reflexivity. }
  exists s. split_and!; [done|done|].
  destruct (gate_passes_exactly_well_formed_programs Sample.round_trip Clean s Hrun)
    as [_ Hpass].
  by apply Hpass.
Defined.

Lemma run_tasks_None (s : State) :
  run_tasks s = None ↔
  runTask2 s = true ∧
  execute_program (poly_declarations s) (polyExprs s) (execInputs s)
    evaluation_depth (execStatements s) initial_exec = None.
Proof.
  unfold run_tasks. destruct (runTask2 s); simpl.
  - destruct (execute_program _ _ _ _ _ _); simpl; naive_solver.
  - naive_solver.
Qed.

(** X12: a program the parser accepts (with line numbers that are [int]s)
    makes [main] leave through undefined behaviour in one case only: the
    gate let it pass, task 2 is selected, and the script has more [INPUT]
    statements than there are input values or mentions more than 1000
    names.  In every other case [main] exits with status 0. *)
Theorem main_crashes_only_when_inputs_or_slots_run_out
    (input : list Token) (gate : Gate) (s : State) :
  Forall (λ t, Int.in_range (line_no t)) input →
  ConsumeAllInput (initial_state input) = Ok gate s →
  (main input = Crashed ↔
   gate = Clean ∧ runTask2 s = true ∧
   ¬ (input_statements (execStatements s) ≤ length (execInputs s) ∧
      size (script_vars (execStatements s)) ≤ 1000)) ∧
  (main input ≠ Crashed → ∃ out, main input = Exited 0 out).
Proof.
  intros Hrange Hrun.
  destruct (proj2 (proj2 (main_returns input)) gate s Hrun)
    as (_ & Hfree & _ & fs & _ & _ & Hthrows).
  destruct (Hthrows Hrange) as [_ Hgate].
  pose proof (script_runs (poly_declarations s) (polyExprs s) (execInputs s)
                (execStatements s) Hfree) as Hruns.
  unfold main. rewrite Hrun. destruct gate as [|out|]; [|by split; [naive_solver|eauto]|done].
  destruct (run_tasks s) as [out|] eqn:Htasks.
  - split; [|by eauto]. split; [done|]. intros (_ & Htask & Hnot).
    assert (run_tasks s = None) as Hnone; [|congruence].
    apply run_tasks_None. split; [done|].
    destruct (execute_program _ _ _ _ _ _) eqn:Hexec; [|done].
    destruct Hnot. apply Hruns. by eexists.
  - split; [|done]. split; [|done]. intros _.
    apply run_tasks_None in Htasks as [Htask Hexec].
    split_and!; [done|done|]. intros Hfits. apply Hruns in Hfits as [st Hst].
    congruence.
Qed.

(** With two [INPUT] statements and one input value, task 2 reads past the
    inputs; the round-trip program exits with status 0. *)
Lemma main_crashes_only_when_inputs_or_slots_run_out_witness :
  main Sample.inputs_run_out = Crashed ∧
  ∃ out, main Sample.round_trip = Exited 0 out.
Proof.
  split.
  - assert (∃ s, ConsumeAllInput (initial_state Sample.inputs_run_out) = Ok Clean s ∧
                 runTask2 s = true ∧
                 input_statements (execStatements s) = 2 ∧
                 length (execInputs s) = 1) as (s & Hrun & Htask & Hin & Hlen).
    { eexists. split_and!; vm_compute; reflexivity. }
    apply (main_crashes_only_when_inputs_or_slots_run_out
             Sample.inputs_run_out Clean s).
    + repeat constructor; vm_compute; congruence.
    + done.
    + split_and!; [done|done|]. rewrite Hin, Hlen. lia.
  - assert (∃ s, ConsumeAllInput (initial_state Sample.round_trip) = Ok Clean s)
      as (s & Hrun).
    { eexists. vm_compute. reflexivity. }
    apply (main_crashes_only_when_inputs_or_slots_run_out Sample.round_trip Clean s).
    + repeat constructor; vm_compute; congruence.
    + done.
    + by vm_compute.
Defined.

(** X13: the parser returns on every token stream: no family of mutually
    recursive parse functions uses up the budget of three calls per token
    it is entered with, so [main] ends in an exit or in undefined
    behaviour, never in the embedding's own failure.  When the parser
    accepts, what it read is a non-empty prefix of the input. *)
Theorem parser_returns_on_every_input (input : list Token) (s : State) :
  main input ≠ OutOfBudget ∧
  ConsumeAllInput s ≠ OutOfFuel ∧
  parse_program s ≠ OutOfFuel ∧
  with_fuel parse_poly_body_expr s ≠ OutOfFuel ∧
  with_fuel parse_argument_expr s ≠ OutOfFuel ∧
  ∀ gate s', ConsumeAllInput s = Ok gate s' →
    ∃ used, used ≠ [] ∧ tokens s = used ++ tokens s'.
Proof.
  split_and!.
  - apply main_returns.
  - apply (wp_not_OutOfFuel _ _ _ (ConsumeAllInput_spec s)).
  - apply (wp_not_OutOfFuel _ _ _ (parse_program_spec s)).
  - apply (wp_not_OutOfFuel _ _ _ (parse_poly_body_expr_spec s)).
  - apply (wp_not_OutOfFuel _ _ _ (parse_argument_expr_spec s)).
  - intros gate s' Hrun.
    assert (wp ConsumeAllInput
              (λ _ s', extends s s' ∧ length (tokens s') < length (tokens s)) s)
      as Hspec.
    { unfold ConsumeAllInput.
      wp_apply parse_program_spec. intros [] s1 Hs1.
      wp_auto. apply wp_expect_eof.
      - intros Hnil. wp_auto. solve_progress.
      - intros t ts Htok Ht. wp_auto. solve_progress. }
    destruct (wp_Ok _ _ _ _ _ Hspec Hrun) as [[(used & errs & Htok & _) _] Hlen].
    exists used. split; [|done]. intros ->. simpl in Htok. rewrite Htok in Hlen. lia.
Qed.

(** The round-trip program is read to its end. *)
Lemma parser_returns_on_every_input_witness :
  ∃ s' used,
    ConsumeAllInput (initial_state Sample.round_trip) = Ok Clean s' ∧
    used ≠ [] ∧ Sample.round_trip = used ++ tokens s' ∧ tokens s' = [].
Proof.
  assert (∃ s', ConsumeAllInput (initial_state Sample.round_trip) = Ok Clean s' ∧
                tokens s' = []) as (s' & Hrun & Hrest).
  { eexists. split; vm_compute; reflexivity. }
  destruct (parser_returns_on_every_input [] (initial_state Sample.round_trip))
    as (_ & _ & _ & _ & _ & Hprefix).
  destruct (Hprefix Clean s' Hrun) as (used & Hne & Htok).
  by exists s', used.
Defined.

(** ** Numbers in texts, the gate's report, and surplus arguments *)

Lemma strtol_blank (s : string) : strtol (" " +:+ s) = strtol s.
Proof. reflexivity. Qed.

(** X14: a number written by [to_string] is read back: by [strtol]
    unchanged when it is a [long] and as the nearest bound of [long]
    otherwise, by [atoi] as that [long] truncated to [int] (so an [int] is
    read back unchanged), by [stoi] when it is an [int] (otherwise [stoi]
    throws); so the gate recovers from the text of a finding the line the
    parser put into it. *)
Theorem written_numbers_are_read_back (n : Z) :
  strtol (to_string n) = Some (saturate n) ∧
  atoi (to_string n) = Int.wrap (saturate n) ∧
  ((long_min ≤ n ≤ long_max)%Z →
   strtol (to_string n) = Some n ∧ atoi (to_string n) = Int.wrap n) ∧
  (Int.in_range n → atoi (to_string n) = n) ∧
  stoi (to_string n) = (if decide (Int.in_range n) then Some n else None) ∧
  ∀ kind, Int.in_range n →
    error_lines [finding_text (kind, n)] = Some [n].
Proof.
  assert (strtol (to_string n) = Some (saturate n)) as Hstrtol.
  { rewrite <-strtol_blank. apply strtol_to_string. }
  assert (atoi (to_string n) = Int.wrap (saturate n)) as Hatoi.
  { unfold atoi. by rewrite Hstrtol. }
  split_and!.
  - done.
  - done.
  - intros Hlong. rewrite Hstrtol, Hatoi. by rewrite saturate_long.
  - intros Hn. rewrite Hatoi, saturate_long by by apply in_range_long.
    by apply wrap_in_range.
  - unfold stoi. rewrite Hstrtol. simpl.
    destruct (decide (Int.in_range n)) as [Hn|Hn].
    + rewrite decide_True by by apply saturate_in_range.
      by rewrite saturate_long by by apply in_range_long.
    + rewrite decide_False; [done|]. by rewrite saturate_in_range.
  - intros kind Hn. by apply (error_lines_findings [(kind, n)]), Forall_singleton.
Qed.

(** The line 12 in the text of a finding; 2^31 is no [int] for [stoi]; and
    2^63 is read by [strtol] as [LONG_MAX], by [atoi] as -1. *)
Lemma written_numbers_are_read_back_witness :
  to_string 12 = "12" ∧ stoi (to_string 12) = Some 12%Z ∧
  atoi (to_string 12) = 12%Z ∧
  finding_text (Undeclared, 12%Z) = "Semantic Error Code 3: 12" ∧
  error_lines [finding_text (Undeclared, 12%Z)] = Some [12%Z] ∧
  stoi (to_string (2 ^ 31)) = None ∧
  strtol (to_string (2 ^ 63)) = Some long_max ∧
  atoi (to_string (2 ^ 63)) = (-1)%Z.
Proof.
  destruct (written_numbers_are_read_back 12) as (_ & _ & _ & Hint & Hstoi & Hlines).
  destruct (written_numbers_are_read_back (2 ^ 31)) as (_ & _ & _ & _ & Hbig & _).
  destruct (written_numbers_are_read_back (2 ^ 63)) as (Hsat & Hwrap & _).
  assert (Int.in_range 12) as Hrange by (unfold Int.in_range; by vm_compute).
  split_and!.
  - reflexivity.
  - by rewrite Hstoi.
  - by apply Hint.
  - reflexivity.
  - by apply Hlines.
  - by rewrite Hbig.
  - by rewrite Hsat.
  - by rewrite Hwrap.
Defined.

(** X15: what the gate prints for an accepted program (with line numbers
    that are [int]s): nothing when nothing was recorded; otherwise one
    line, made of a label and the sorted lines of one list.  The label is
    code 1 with the duplicate lines when there are any, else code 2 with
    the invalid-monomial lines when there are any, else the code (3 or 4)
    of the call finding recorded first, with the lines of all call
    findings of either code.  The gate never prints the recorded texts as
    they are and never throws. *)
Theorem gate_report_of_accepted_program
    (input : list Token) (gate : Gate) (s : State) :
  Forall (λ t, Int.in_range (line_no t)) input →
  ConsumeAllInput (initial_state input) = Ok gate s →
  ∃ fs : list (CallFinding * Z),
    semantic_errors s = finding_text <$> fs ∧
    gate =
      if decide (duplicate_decl_lines s ≠ []) then
        Report [print_lines "Semantic Error Code 1:"
                  (sort_lines (duplicate_decl_lines s))]
      else if decide (invalid_monomial_lines s ≠ []) then
        Report [print_lines "Semantic Error Code 2:"
                  (sort_lines (invalid_monomial_lines s))]
      else
        match fs with
        | [] => Clean
        | f :: _ => Report [print_lines (finding_label f.1) (sort_lines fs.*2)]
        end.
Proof.
  intros Hrange Hrun.
  destruct (proj2 (proj2 (main_returns input)) gate s Hrun)
    as (-> & _ & _ & fs & Herr & _ & Hfs).
  destruct (Hfs Hrange) as [Hin _]. exists fs. split; [done|].
  destruct (decide (duplicate_decl_lines s ≠ [])) as [Hdup|Hdup%dec_stable].
  { by apply gate_duplicates. }
  destruct (decide (invalid_monomial_lines s ≠ [])) as [Hinv|Hinv%dec_stable].
  { by apply gate_invalid_monomials. }
  destruct fs as [|f fs].
  - by apply gate_clean.
  - by apply gate_call_findings.
Qed.

(** An arity mismatch on line 5 before an undeclared call on line 6: the
    label is the one of the mismatch, the lines are both. *)
Lemma gate_report_of_accepted_program_witness :
  ∃ s (fs : list (CallFinding * Z)),
    ConsumeAllInput (initial_state Sample.arity_then_undeclared)
      = Ok (Report ["Semantic Error Code 4: 5 6"]) s ∧
    semantic_errors s = finding_text <$> fs ∧
    Report ["Semantic Error Code 4: 5 6"] =
      if decide (duplicate_decl_lines s ≠ []) then
        Report [print_lines "Semantic Error Code 1:"
                  (sort_lines (duplicate_decl_lines s))]
      else if decide (invalid_monomial_lines s ≠ []) then
        Report [print_lines "Semantic Error Code 2:"
                  (sort_lines (invalid_monomial_lines s))]
      else
        match fs with
        | [] => Clean
        | f :: _ => Report [print_lines (finding_label f.1) (sort_lines fs.*2)]
        end.
Proof.
  assert (∃ s, ConsumeAllInput (initial_state Sample.arity_then_undeclared)
                 = Ok (Report ["Semantic Error Code 4: 5 6"]) s) as (s & Hrun).
  { eexists. vm_compute. reflexivity. }
  destruct (gate_report_of_accepted_program Sample.arity_then_undeclared
              (Report ["Semantic Error Code 4: 5 6"]) s)
    as (fs & Hfs & Hgate); [repeat constructor; vm_compute; congruence|done|].
  by exists s, fs.
Defined.

Lemma bind_params_take i params args env :
  bind_params i params args env
    = bind_params i params (take (i + length params) args) env.
Proof.
  revert i env args. induction params as [|p params IH]; intros i env args; [done|].
  simpl. rewrite (IH (S i) _ args).
  rewrite (IH (S i) _ (take (i + S (length params)) args)).
  rewrite take_take, lookup_take_lt by lia.
  by replace ((S i + length params) `min` (i + S (length params)))
    with (S i + length params) by lia.
Qed.

(** X16: a call passes its arguments by position and looks at no more of
    them than the callee has parameters: arguments beyond that number are
    evaluated and then ignored.  A name that is declared but has no stored
    body evaluates to 0 like an undeclared one. *)
Theorem surplus_arguments_are_ignored
    (decls : gmap string (list string)) (bodies : gmap string Expr)
    (depth : nat) (name : string) (params : list string)
    (args surplus : list Z) :
  decls !! name = Some params →
  length params ≤ length args →
  evaluatePolyCall decls bodies depth name (args ++ surplus)
    = evaluatePolyCall decls bodies depth name args ∧
  (bodies !! name = None →
   evaluatePolyCall decls bodies depth name args = Some 0%Z).
Proof.
  intros Hname Hlen. split.
  - destruct depth; simpl; unfold evaluatePolyCall_with; rewrite Hname;
      destruct (bodies !! name); try done;
      rewrite (bind_params_take 0 params (args ++ surplus)),
              (bind_params_take 0 params args); simpl;
      by rewrite take_app_le by done.
  - intros Hbody. destruct depth; simpl; unfold evaluatePolyCall_with;
      by rewrite Hname, Hbody.
Qed.

(** [f(x) = x + 1] called with the values 4 and 9: the result is 5. *)
Lemma surplus_arguments_are_ignored_witness :
  let decls : gmap string (list string) := {["f" := ["x"]]} in
  let bodies : gmap string Expr :=
    {["f" := AddExpr (VarExpr "x" 1) (ConstExpr 1)]} in
  evaluatePolyCall decls bodies 1 "f" ([4%Z] ++ [9%Z])
    = evaluatePolyCall decls bodies 1 "f" [4%Z] ∧
  evaluatePolyCall decls bodies 1 "f" [4%Z] = Some 5%Z.
Proof.
  intros decls bodies. split; [|reflexivity].
  apply (surplus_arguments_are_ignored decls bodies 1 "f" ["x"] [4%Z] [9%Z]);
    [reflexivity|simpl; lia].
Defined.

(** ** Runs of the body parser on given tokens *)

(** The equations of the mutually recursive parse functions. *)
Lemma parse_poly_body_expr_eq fuel :
  parse_poly_body_expr (S fuel) =
    (left ← parse_poly_term fuel;
     left ← parse_poly_body_plus_loop fuel left;
     next ← peek 1;
     if decide (token_type next = MINUS) then
       expect MINUS;;
       right ← parse_poly_body_expr fuel;
       mret (SubExpr left right)
     else mret left).
Proof. reflexivity. Qed.

Lemma parse_poly_body_plus_loop_eq fuel left :
  parse_poly_body_plus_loop (S fuel) left =
    (next ← peek 1;
     if decide (token_type next = PLUS) then
       expect PLUS;;
       right ← parse_poly_term fuel;
       parse_poly_body_plus_loop fuel (AddExpr left right)
     else mret left).
Proof. reflexivity. Qed.

Lemma parse_poly_term_eq fuel :
  parse_poly_term (S fuel) =
    (t ← peek 1;
     if decide (token_type t = NUM) then
       t ← expect NUM;
       parse_poly_term_loop fuel (ConstExpr (atoi (lexeme t)))
     else if starts_factor t then
       left ← parse_poly_factor fuel;
       parse_poly_term_loop fuel left
     else syntax_error).
Proof. reflexivity. Qed.

Lemma parse_poly_term_loop_eq fuel left :
  parse_poly_term_loop (S fuel) left =
    (next ← peek 1;
     if starts_factor next then
       right ← parse_poly_factor fuel;
       parse_poly_term_loop fuel (MulExpr left right)
     else mret left).
Proof. reflexivity. Qed.

Lemma parse_poly_factor_eq fuel :
  parse_poly_factor (S fuel) =
    (t ← peek 1;
     '(expr, wasParen) ←
       (if decide (token_type t = NUM) then
          t ← expect NUM;
          mret (ConstExpr (atoi (lexeme t)), false)
        else if decide (token_type t = ID) then
          let idToken := t in
          expect ID;;
          current ← gets (λ s, current_poly_params s);
          (if decide (lexeme idToken ∈ current) then mret ()
           else modify (λ s, set_invalid_monomial_lines
                               (invalid_monomial_lines s ++ [line_no idToken]) s));;
          mret (VarExpr (lexeme idToken) (line_no idToken), false)
        else if decide (token_type t = LPAREN) then
          expect LPAREN;;
          expr ← parse_poly_body_expr fuel;
          expect RPAREN;;
          mret (expr, true)
        else syntax_error);
     t ← peek 1;
     if decide (token_type t = POWER) then
       expect POWER;;
       num ← expect NUM;
       mret (PowExpr expr (atoi (lexeme num)))
     else
       in_decl ← gets (λ s, in_poly_decl s);
       if in_decl && wasParen && bool_decide (token_type t = NUM)
       then syntax_error
       else mret expr).
Proof. reflexivity. Qed.

#[global] Arguments parse_poly_body_expr : simpl never.
#[global] Arguments parse_poly_body_plus_loop : simpl never.
#[global] Arguments parse_poly_term : simpl never.
#[global] Arguments parse_poly_term_loop : simpl never.
#[global] Arguments parse_poly_factor : simpl never.

(** A token that does not continue a term: no identifier, no opening
    parenthesis, no power sign. *)
Lemma starts_factor_false (t : Token) :
  token_type t ≠ ID → token_type t ≠ LPAREN → starts_factor t = false.
Proof.
  intros Hid Hlp. unfold starts_factor.
  by rewrite !bool_decide_false.
Qed.

(** A term that is one numeral or one identifier. *)
Lemma parse_poly_term_leaf fuel s t next rest :
  tokens s = t :: next :: rest →
  token_type t = NUM ∨ token_type t = ID →
  token_type next ≠ ID → token_type next ≠ LPAREN → token_type next ≠ POWER →
  parse_poly_term (S (S fuel)) s
    = Ok (leaf t) (after_body s [t] (next :: rest)).
Proof.
  intros Htok Ht Hid Hlp Hpow.
  assert (∀ e s', tokens s' = next :: rest →
            parse_poly_term_loop (S fuel) e s' = Ok e s') as Hloop.
  { intros e s' Hs'. rewrite parse_poly_term_loop_eq.
    eapply bind_Ok; [eapply peek_head; eassumption|]. simpl.
    by rewrite starts_factor_false. }
  rewrite parse_poly_term_eq.
  eapply bind_Ok; [eapply peek_head; eassumption|]. simpl.
  destruct Ht as [Hnum|Hidt].
  - rewrite Hnum. simpl.
    eapply bind_Ok; [eapply expect_Ok; [eassumption|done]|]. simpl.
    rewrite Hloop by done. unfold leaf. rewrite Hnum. simpl.
    f_equal. unfold after_body, invalid_ids.
    rewrite filter_cons_False by (intros [? _]; congruence).
    apply state_ext; simpl; try done. by rewrite app_nil_r.
  - unfold starts_factor at 1. rewrite Hidt. simpl.
    eapply bind_Ok; [|apply Hloop].
    + rewrite parse_poly_factor_eq.
      eapply bind_Ok; [eapply peek_head; eassumption|]. simpl.
      rewrite Hidt. simpl.
      unfold mbind at 1, M_bind at 1. unfold mbind at 1, M_bind at 1.
      rewrite (expect_Ok ID s t (next :: rest)) by done.
      unfold mbind at 1, M_bind at 1. unfold gets at 1. simpl.
      unfold leaf. rewrite Hidt. simpl.
      destruct (decide (lexeme t ∈ current_poly_params s)) as [Hin|Hout].
      * unfold mbind, M_bind, mret, M_ret, peek, gets, modify. simpl.
        rewrite decide_False by done. rewrite andb_false_r. simpl.
        f_equal. unfold after_body, invalid_ids.
        rewrite filter_cons_False by (intros [_ ?]; done).
        apply state_ext; simpl; try done. by rewrite app_nil_r.
      * unfold mbind, M_bind, mret, M_ret, peek, gets, modify. simpl.
        rewrite decide_False by done. rewrite andb_false_r. simpl.
        f_equal. unfold after_body, invalid_ids.
        by rewrite filter_cons_True.
    + unfold after_body. done.
Qed.

Lemma parse_poly_term_leaf_run fuel s t next rest :
  tokens s = t :: next :: rest →
  token_type t = NUM ∨ token_type t = ID →
  token_type next ≠ ID → token_type next ≠ LPAREN → token_type next ≠ POWER →
  ∃ s', parse_poly_term (S (S fuel)) s = Ok (leaf t) s' ∧
        tokens s' = next :: rest.
Proof.
  intros Htok Ht Hid Hlp Hpow. eexists. split.
  - by apply parse_poly_term_leaf.
  - done.
Qed.

Lemma parse_poly_body_plus_loop_stop fuel left s t ts :
  tokens s = t :: ts → token_type t ≠ PLUS →
  parse_poly_body_plus_loop (S fuel) left s = Ok left s.
Proof.
  intros Htok Ht. rewrite parse_poly_body_plus_loop_eq.
  eapply bind_Ok; [eapply peek_head; eassumption|]. simpl.
  by rewrite decide_False.
Qed.

(** A sum continues with a plus sign and a further term. *)
Lemma parse_poly_body_plus_loop_step fuel left s p ts right s1 :
  tokens s = p :: ts → token_type p = PLUS →
  parse_poly_term fuel (set_tokens ts s) = Ok right s1 →
  parse_poly_body_plus_loop (S fuel) left s
    = parse_poly_body_plus_loop fuel (AddExpr left right) s1.
Proof.
  intros Htok Hp Hterm. rewrite parse_poly_body_plus_loop_eq.
  eapply bind_Ok; [eapply peek_head; eassumption|]. simpl.
  rewrite decide_True by done.
  eapply bind_Ok; [eapply expect_Ok; [eassumption|done]|]. simpl.
  eapply bind_Ok; [exact Hterm|done].
Qed.

(** A subtraction: the term on the left, the minus sign, and whatever the
    body parser makes of the rest. *)
Lemma parse_poly_body_expr_minus fuel s left s1 m ts right s2 :
  parse_poly_term (S fuel) s = Ok left s1 →
  tokens s1 = m :: ts → token_type m = MINUS →
  parse_poly_body_expr (S fuel) (set_tokens ts s1) = Ok right s2 →
  parse_poly_body_expr (S (S fuel)) s = Ok (SubExpr left right) s2.
Proof.
  intros Hleft Htok Hm Hright. rewrite parse_poly_body_expr_eq.
  eapply bind_Ok; [exact Hleft|]. simpl.
  eapply bind_Ok; [eapply parse_poly_body_plus_loop_stop; [eassumption|congruence]|]. simpl.
  eapply bind_Ok; [eapply peek_head; eassumption|]. simpl.
  rewrite decide_True by done.
  eapply bind_Ok; [eapply expect_Ok; [eassumption|done]|]. simpl.
  eapply bind_Ok; [exact Hright|done].
Qed.

(** A body that is one term: neither a plus nor a minus sign follows. *)
Lemma parse_poly_body_expr_term fuel s left s1 t ts :
  parse_poly_term (S fuel) s = Ok left s1 →
  tokens s1 = t :: ts → token_type t ≠ PLUS → token_type t ≠ MINUS →
  parse_poly_body_expr (S (S fuel)) s = Ok left s1.
Proof.
  intros Hleft Htok Hplus Hminus. rewrite parse_poly_body_expr_eq.
  eapply bind_Ok; [exact Hleft|]. simpl.
  eapply bind_Ok; [eapply parse_poly_body_plus_loop_stop; [eassumption|done]|]. simpl.
  eapply bind_Ok; [eapply peek_head; eassumption|]. simpl.
  by rewrite decide_False.
Qed.

(** A body that is the sum of two terms. *)
Lemma parse_poly_body_expr_plus fuel s left s1 p ts right s2 t ts' :
  parse_poly_term (S (S fuel)) s = Ok left s1 →
  tokens s1 = p :: ts → token_type p = PLUS →
  parse_poly_term (S fuel) (set_tokens ts s1) = Ok right s2 →
  tokens s2 = t :: ts' → token_type t ≠ PLUS → token_type t ≠ MINUS →
  parse_poly_body_expr (S (S (S fuel))) s = Ok (AddExpr left right) s2.
Proof.
  intros Hleft Htok Hp Hright Htok2 Hplus Hminus. rewrite parse_poly_body_expr_eq.
  eapply bind_Ok; [exact Hleft|]. simpl.
  eapply bind_Ok.
  { erewrite parse_poly_body_plus_loop_step by done.
    eapply parse_poly_body_plus_loop_stop; [eassumption|done]. }
  simpl. eapply bind_Ok; [eapply peek_head; eassumption|]. simpl.
  by rewrite decide_False.
Qed.

Lemma leaf_kind (t : Token) :
  token_type t ∈ [NUM; ID] → token_type t = NUM ∨ token_type t = ID.
Proof. set_solver. Qed.

(** X17: subtraction groups to the right and takes everything after the
    minus sign as its right operand: for single numerals or identifiers
    [a], [b], [c], the body [a - b - c] is read as [a - (b - c)] and
    [a - b + c] as [a - (b + c)], and is evaluated so. *)
Theorem subtraction_takes_everything_to_its_right
    (s : State) (a m b op c stop : Token) (rest : list Token) :
  tokens s = a :: m :: b :: op :: c :: stop :: rest →
  token_type a ∈ [NUM; ID] → token_type b ∈ [NUM; ID] → token_type c ∈ [NUM; ID] →
  token_type m = MINUS → token_type op ∈ [PLUS; MINUS] →
  token_type stop ∉ [ID; LPAREN; POWER; PLUS; MINUS] →
  ∃ s',
    with_fuel parse_poly_body_expr s =
      Ok (SubExpr (leaf a)
            ((if decide (token_type op = PLUS) then AddExpr else SubExpr)
               (leaf b) (leaf c))) s' ∧
    tokens s' = stop :: rest ∧
    ∀ decls bodies depth env va vb vc,
      evaluate decls bodies depth (leaf a) env = Some va →
      evaluate decls bodies depth (leaf b) env = Some vb →
      evaluate decls bodies depth (leaf c) env = Some vc →
      evaluate decls bodies depth
        (SubExpr (leaf a)
           ((if decide (token_type op = PLUS) then AddExpr else SubExpr)
              (leaf b) (leaf c))) env
        = Some (Int.sub va
                  (if decide (token_type op = PLUS) then Int.add vb vc
                   else Int.sub vb vc)).
Proof.
  intros Htok Ha%leaf_kind Hb%leaf_kind Hc%leaf_kind Hm Hop Hstop.
  assert (token_type stop ≠ ID ∧ token_type stop ≠ LPAREN ∧
          token_type stop ≠ POWER ∧ token_type stop ≠ PLUS ∧
          token_type stop ≠ MINUS) as (Hs1 & Hs2 & Hs3 & Hs4 & Hs5).
  { split_and!; intros Heq; apply Hstop; rewrite Heq; set_solver. }
  assert (token_type op = PLUS ∨ token_type op = MINUS) as Hop' by set_solver.
  unfold with_fuel, fuel_of.
  replace (3 * length (tokens s) + 3)
    with (S (S (S (S (S (S (3 * length rest + 15)))))))
    by (rewrite Htok; simpl; lia).
  generalize (3 * length rest + 15). intros k.
  eexists. split_and!.
  - eapply parse_poly_body_expr_minus.
    + apply (parse_poly_term_leaf _ s a m); [done|done|congruence..].
    + reflexivity.
    + done.
    + simpl. destruct Hop' as [Hplus|Hminus].
      * rewrite decide_True by done.
        eapply parse_poly_body_expr_plus.
        -- apply (parse_poly_term_leaf _ _ b op); [reflexivity|done|congruence..].
        -- reflexivity.
        -- done.
        -- apply (parse_poly_term_leaf _ _ c stop); [reflexivity|done..].
        -- reflexivity.
        -- done.
        -- done.
      * rewrite decide_False by congruence.
        eapply parse_poly_body_expr_minus.
        -- apply (parse_poly_term_leaf _ _ b op); [reflexivity|done|congruence..].
        -- reflexivity.
        -- done.
        -- eapply parse_poly_body_expr_term.
           ++ apply (parse_poly_term_leaf _ _ c stop); [reflexivity|done..].
           ++ reflexivity.
           ++ done.
           ++ done.
  - reflexivity.
  - intros decls bodies depth env va vb vc Hva Hvb Hvc.
    rewrite evaluate_sub, Hva. simpl.
    destruct (decide (token_type op = PLUS)).
    + rewrite evaluate_add, Hvb, Hvc. done.
    + rewrite evaluate_sub, Hvb, Hvc. done.
Qed.

(** [x - 1 + 1;] is read as [x - (1 + 1)]: at [x = 5] its value is 3. *)
Lemma subtraction_takes_everything_to_its_right_witness :
  let input := [Sample.id "x" 3; Sample.minus 3; Sample.num "1" 3; Sample.plus 3;
                Sample.num "1" 3; Sample.semi 3]%Z in
  ∃ s',
    with_fuel parse_poly_body_expr (initial_state input) =
      Ok (SubExpr (VarExpr "x" 3) (AddExpr (ConstExpr 1) (ConstExpr 1))) s' ∧
    tokens s' = [Sample.semi 3] ∧
    evaluate ∅ ∅ 1 (SubExpr (VarExpr "x" 3) (AddExpr (ConstExpr 1) (ConstExpr 1)))
      {["x" := 5%Z]} = Some 3%Z.
Proof.
  intros input.
  destruct (subtraction_takes_everything_to_its_right (initial_state input)
              (Sample.id "x" 3) (Sample.minus 3) (Sample.num "1" 3) (Sample.plus 3)
              (Sample.num "1" 3) (Sample.semi 3) [])
    as (s' & Hrun & Htok & Heval); [reflexivity|set_solver..|reflexivity|set_solver| |].
  - simpl. set_solver.
  - exists s'. split_and!; [exact Hrun|exact Htok|].
    apply (Heval ∅ ∅ 1 {["x" := 5%Z]} 5%Z 1%Z 1%Z); reflexivity.
Defined.

(** ** Evaluation and exact arithmetic *)

Lemma wrap_eq_iff (a b : Z) :
  Int.wrap a = Int.wrap b ↔ ∃ k : Z, a = (b + k * Int.modulus)%Z.
Proof.
  split.
  - intros Heq. destruct (wrap_congruent a) as [ka Ha], (wrap_congruent b) as [kb Hb].
    exists (kb - ka)%Z. lia.
  - intros [k ->]. unfold Int.wrap.
    replace (b + k * Int.modulus + Int.half_modulus)%Z
      with (b + Int.half_modulus + k * Int.modulus)%Z by lia.
    by rewrite Z.mod_add by (unfold Int.modulus; lia).
Qed.

Lemma wrap_wrap (a : Z) : Int.wrap (Int.wrap a) = Int.wrap a.
Proof. apply wrap_eq_iff. destruct (wrap_congruent a) as [k ->]. by exists k. Qed.

Lemma wrap_add_congruent a b a' b' :
  Int.wrap a = Int.wrap a' → Int.wrap b = Int.wrap b' →
  Int.wrap (Int.add a b) = Int.wrap (a' + b').
Proof.
  intros [ka ->]%wrap_eq_iff [kb ->]%wrap_eq_iff. unfold Int.add.
  rewrite wrap_wrap. apply wrap_eq_iff. exists (ka + kb)%Z. lia.
Qed.

Lemma wrap_sub_congruent a b a' b' :
  Int.wrap a = Int.wrap a' → Int.wrap b = Int.wrap b' →
  Int.wrap (Int.sub a b) = Int.wrap (a' - b').
Proof.
  intros [ka ->]%wrap_eq_iff [kb ->]%wrap_eq_iff. unfold Int.sub.
  rewrite wrap_wrap. apply wrap_eq_iff. exists (ka - kb)%Z. lia.
Qed.

Lemma wrap_mul_congruent a b a' b' :
  Int.wrap a = Int.wrap a' → Int.wrap b = Int.wrap b' →
  Int.wrap (Int.mul a b) = Int.wrap (a' * b').
Proof.
  intros [ka ->]%wrap_eq_iff [kb ->]%wrap_eq_iff. unfold Int.mul.
  rewrite wrap_wrap. apply wrap_eq_iff.
  exists (a' * kb + ka * b' + ka * kb * Int.modulus)%Z. lia.
Qed.

Lemma wrap_pow_congruent (n : nat) a a' :
  Int.wrap a = Int.wrap a' →
  Int.wrap (a ^ Z.of_nat n) = Int.wrap (a' ^ Z.of_nat n).
Proof.
  intros Ha. induction n as [|n IH]; [done|].
  rewrite !Nat2Z.inj_succ, !Z.pow_succ_r by lia.
  apply wrap_eq_iff in Ha as [ka ->]. apply wrap_eq_iff in IH as [kn ->].
  apply wrap_eq_iff.
  exists (a' * kn + ka * a' ^ Z.of_nat n + ka * kn * Int.modulus)%Z. lia.
Qed.

Lemma wrap_pow_loop exponent a a' :
  Int.wrap a = Int.wrap a' →
  Int.wrap (pow_loop exponent a) = Int.wrap (a' ^ Z.max 0 exponent).
Proof.
  intros Ha. destruct (decide (0 ≤ exponent)%Z) as [Hpos|Hneg].
  - rewrite pow_loop_spec, wrap_wrap by done.
    replace (Z.max 0 exponent) with exponent by lia.
    rewrite <-(Z2Nat.id exponent) by done. by apply wrap_pow_congruent.
  - rewrite pow_loop_nonpos by lia.
    by replace (Z.max 0 exponent) with 0%Z by lia.
Qed.

Lemma evaluate_exact decls bodies depth e env :
  call_free e →
  ∃ v, evaluate decls bodies depth e env = Some v ∧
       Int.wrap v = Int.wrap (exact_value e env).
Proof.
  induction e as [v|n ln|l r IHl IHr|l r IHl IHr|l r IHl IHr|b ex IHb|p args _]
    using Expr_ind; simpl; intros Hfree.
  - rewrite evaluate_const. by eexists.
  - rewrite evaluate_var. by eexists.
  - apply andb_True in Hfree as [(a & Ha & Hwa)%IHl (b & Hb & Hwb)%IHr].
    rewrite evaluate_add, Ha, Hb. eexists. split; [done|].
    by apply wrap_add_congruent.
  - apply andb_True in Hfree as [(a & Ha & Hwa)%IHl (b & Hb & Hwb)%IHr].
    rewrite evaluate_sub, Ha, Hb. eexists. split; [done|].
    by apply wrap_sub_congruent.
  - apply andb_True in Hfree as [(a & Ha & Hwa)%IHl (b & Hb & Hwb)%IHr].
    rewrite evaluate_mul, Ha, Hb. eexists. split; [done|].
    by apply wrap_mul_congruent.
  - apply IHb in Hfree as (a & Ha & Hwa).
    rewrite evaluate_pow, Ha. eexists. split; [done|].
    by apply wrap_pow_loop.
  - done.
Qed.

Lemma evaluate_in_range decls bodies depth e env v :
  (∀ x w, env !! x = Some w → Int.in_range w) →
  match e with ConstExpr value => Int.in_range value | _ => True end →
  evaluate decls bodies depth e env = Some v →
  call_free e → Int.in_range v.
Proof.
  assert (∀ z, Int.in_range (Int.wrap z)) as Hwrap.
  { intros z. unfold Int.in_range, Int.wrap, Int.half_modulus, Int.modulus.
    pose proof (Z.mod_pos_bound (z + 2 ^ 31) (2 ^ 32)). lia. }
  intros Henv Hconst Hev Hfree.
  destruct e as [value|n ln|l r|l r|l r|b ex|p args]; simpl in *.
  - rewrite evaluate_const in Hev. by injection Hev as <-.
  - rewrite evaluate_var in Hev. injection Hev as <-.
    destruct (env !! n) as [w|] eqn:Hn; simpl; [by eapply Henv|].
    unfold Int.in_range, Int.half_modulus. lia.
  - rewrite evaluate_add in Hev.
    destruct (evaluate _ _ _ l env); [|done]. simpl in Hev.
    destruct (evaluate _ _ _ r env); [|done]. injection Hev as <-. apply Hwrap.
  - rewrite evaluate_sub in Hev.
    destruct (evaluate _ _ _ l env); [|done]. simpl in Hev.
    destruct (evaluate _ _ _ r env); [|done]. injection Hev as <-. apply Hwrap.
  - rewrite evaluate_mul in Hev.
    destruct (evaluate _ _ _ l env); [|done]. simpl in Hev.
    destruct (evaluate _ _ _ r env); [|done]. injection Hev as <-. apply Hwrap.
  - rewrite evaluate_pow in Hev.
    destruct (evaluate _ _ _ b env) as [bv|]; [|done]. injection Hev as <-.
    destruct (decide (0 ≤ ex)%Z).
    + rewrite pow_loop_spec by done. apply Hwrap.
    + rewrite pow_loop_nonpos by lia. unfold Int.in_range, Int.half_modulus. lia.
  - done.
Qed.

(** X18: a tree without calls always has a value, and the value is the
    exact integer value of the expression up to a multiple of 2^32: the
    wrap-around of intermediate results never shows in any other way.
    When the values of the variables are [int]s (and a tree that is one
    numeral holds an [int]), the value is the exact one truncated to
    [int]. *)
Theorem evaluation_is_exact_modulo_word_size
    (decls : gmap string (list string)) (bodies : gmap string Expr)
    (depth : nat) (e : Expr) (env : gmap string Z) :
  call_free e →
  ∃ v, evaluate decls bodies depth e env = Some v ∧
       Int.wrap v = Int.wrap (exact_value e env) ∧
       ((∀ x w, env !! x = Some w → Int.in_range w) →
        (∀ value, e = ConstExpr value → Int.in_range value) →
        v = Int.wrap (exact_value e env)).
Proof.
  intros Hfree.
  destruct (evaluate_exact decls bodies depth e env Hfree) as (v & Hv & Hw).
  exists v. split_and!; [done|done|].
  intros Henv Hconst. rewrite <-Hw. symmetry. apply wrap_in_range.
  eapply evaluate_in_range; [exact Henv| |exact Hv|exact Hfree].
  destruct e; try done. by apply Hconst.
Qed.

(** [x x + 1] at [x = 65536]: the exact value is 2^32 + 1, the value
    computed is 1. *)
Lemma evaluation_is_exact_modulo_word_size_witness :
  let e := AddExpr (MulExpr (VarExpr "x" 1) (VarExpr "x" 1)) (ConstExpr 1) in
  let env : gmap string Z := {["x" := 65536%Z]} in
  exact_value e env = 4294967297%Z ∧
  evaluate ∅ ∅ 0 e env = Some 1%Z.
Proof.
  intros e env. split; [reflexivity|].
  destruct (evaluation_is_exact_modulo_word_size ∅ ∅ 0 e env) as (v & Hv & _ & Hexact);
    [done|].
  rewrite Hv. f_equal. rewrite Hexact; [reflexivity| |done].
  intros x w [_ <-]%lookup_singleton_Some.
  unfold Int.in_range, Int.half_modulus. lia.
Defined.

(** ** Sums of monomials *)

Ltac run_peek :=
  eapply bind_Ok; [eapply peek_head; first [eassumption|reflexivity]|]; simpl.
Ltac run_expect :=
  eapply bind_Ok; [eapply expect_Ok; [first [eassumption|reflexivity]|done]|]; simpl.

(** A written factor is read as its tree. *)
Lemma parse_poly_factor_written fuel s f next rest :
  tokens s = factor_tokens f ++ next :: rest →
  factor_written f → token_type next ≠ POWER →
  ∃ s', parse_poly_factor (S fuel) s = Ok (factor_tree f) s' ∧
        tokens s' = next :: rest.
Proof.
  intros Htok Hf Hnext. rewrite parse_poly_factor_eq.
  assert (token_type (match f with Plain id | Raised id _ _ => id end) = ID) as Hid
    by (destruct f; simpl in *; tauto).
  destruct (decide (lexeme (match f with Plain id | Raised id _ _ => id end)
                      ∈ current_poly_params s)) as [Hin|Hout].
  - exists (set_tokens (next :: rest) s). split; [|done].
    destruct f as [id|id pow num]; simpl in *.
    all: run_peek; rewrite Hid; simpl.
    all: unfold mbind at 1, M_bind at 1; unfold mbind at 1, M_bind at 1.
    all: erewrite (expect_Ok ID s id) by done.
    all: unfold mbind at 1, M_bind at 1; unfold gets at 1; simpl.
    all: rewrite decide_True by done.
    all: unfold mbind at 1, M_bind at 1, mret at 1 2, M_ret at 1 2.
    + run_peek. rewrite decide_False by done.
      eapply bind_Ok; [reflexivity|]. simpl. by rewrite andb_false_r.
    + destruct Hf as (_ & Hpow & Hnum).
      run_peek. rewrite decide_True by done. run_expect. run_expect. done.
  - exists (set_invalid_monomial_lines
              (invalid_monomial_lines s
                 ++ [line_no (match f with Plain id | Raised id _ _ => id end)])
              (set_tokens (next :: rest) s)). split; [|done].
    destruct f as [id|id pow num]; simpl in *.
    all: run_peek; rewrite Hid; simpl.
    all: unfold mbind at 1, M_bind at 1; unfold mbind at 1, M_bind at 1.
    all: erewrite (expect_Ok ID s id) by done.
    all: unfold mbind at 1, M_bind at 1; unfold gets at 1; simpl.
    all: rewrite decide_False by done.
    all: unfold mbind at 1, M_bind at 1, modify at 1, mret at 1, M_ret at 1.
    + run_peek. rewrite decide_False by done.
      eapply bind_Ok; [reflexivity|]. simpl. by rewrite andb_false_r.
    + destruct Hf as (_ & Hpow & Hnum).
      run_peek. rewrite decide_True by done. run_expect. run_expect.
      done.
Qed.

Lemma factors_head (fs : list Factor) (next : Token) (rest : list Token) :
  Forall factor_written fs →
  token_type next ≠ POWER →
  ∃ n r, flat_map factor_tokens fs ++ next :: rest = n :: r ∧
         token_type n ≠ POWER ∧
         (fs ≠ [] → token_type n = ID).
Proof.
  intros Hfs Hnext. destruct Hfs as [|f fs Hf _].
  - exists next, rest. done.
  - destruct f as [id|id pow num]; simpl in *.
    + eexists _, _. split; [done|]. split; [congruence|done].
    + destruct Hf as (Hid & _). eexists _, _. split; [done|]. split; [congruence|done].
Qed.

(** The implicit-multiplication loop over written factors. *)
Lemma parse_poly_term_loop_written (fs : list Factor) :
  ∀ fuel left s next rest,
    length fs + 2 ≤ fuel →
    tokens s = flat_map factor_tokens fs ++ next :: rest →
    Forall factor_written fs →
    token_type next ≠ ID → token_type next ≠ LPAREN → token_type next ≠ POWER →
    ∃ s', parse_poly_term_loop fuel left s
            = Ok (foldl MulExpr left (factor_tree <$> fs)) s' ∧
          tokens s' = next :: rest.
Proof.
  induction fs as [|f fs IH]; intros fuel left s next rest Hfuel Htok Hfs Hid Hlp Hpow.
  - destruct fuel as [|fuel]; [lia|]. exists s. split; [|done].
    simpl in Htok. rewrite parse_poly_term_loop_eq. run_peek.
    by rewrite starts_factor_false.
  - destruct fuel as [|[|fuel]]; simpl in Hfuel; [lia|lia|].
    apply Forall_cons in Hfs as [Hf Hfs].
    destruct (factors_head fs next rest Hfs Hpow) as (n & r & Hnr & Hn & _).
    simpl in Htok. rewrite <-app_assoc, Hnr in Htok.
    destruct (parse_poly_factor_written fuel s f n r Htok Hf Hn) as (s1 & Hrun & Hs1).
    rewrite <-Hnr in Hs1.
    destruct (IH (S fuel) (MulExpr left (factor_tree f)) s1 next rest)
      as (s' & Hloop & Hs'); [simpl in Hfuel; lia|done..|].
    exists s'. split; [|done].
    rewrite parse_poly_term_loop_eq.
    destruct (factors_head [f] n r) as (h & hr & Hh & _ & Hhid);
      [by apply Forall_singleton|done|].
    simpl in Hh. rewrite app_nil_r in Hh. rewrite Hh in Htok.
    run_peek. unfold starts_factor. rewrite Hhid by done. simpl.
    rewrite <-Hh in Htok.
    eapply bind_Ok; [exact Hrun|]. simpl. exact Hloop.
Qed.

Lemma factors_length (fs : list Factor) :
  length fs ≤ length (flat_map factor_tokens fs).
Proof.
  induction fs as [|f fs IH]; [done|]. simpl. rewrite length_app.
  destruct f; simpl; lia.
Qed.

Lemma monomial_length (m : Monomial) :
  length (factors m) ≤ length (monomial_tokens m) ∧ 0 < length (monomial_tokens m) ∨
  ¬ monomial_written m.
Proof.
  unfold monomial_tokens, monomial_written.
  pose proof (factors_length (factors m)) as Hlen.
  destruct (coefficient m) as [c|]; simpl.
  - left. lia.
  - destruct (factors m) as [|f fs] eqn:Hfs.
    + right. intros [? _]. done.
    + left. split; [done|]. destruct f; simpl; lia.
Qed.

(** A written monomial is read as its tree. *)
Lemma parse_poly_term_written fuel s (m : Monomial) next rest :
  length (factors m) + 3 ≤ fuel →
  tokens s = monomial_tokens m ++ next :: rest →
  monomial_written m →
  token_type next ≠ ID → token_type next ≠ LPAREN → token_type next ≠ POWER →
  ∃ s', parse_poly_term fuel s = Ok (monomial_tree m) s' ∧
        tokens s' = next :: rest.
Proof.
  intros Hfuel Htok [Hhead Hfs] Hid Hlp Hpow.
  destruct fuel as [|fuel]; [lia|].
  unfold monomial_tokens in Htok. unfold monomial_tree.
  rewrite parse_poly_term_eq.
  destruct (coefficient m) as [c|]; simpl in Htok.
  - destruct (parse_poly_term_loop_written (factors m) fuel
                (ConstExpr (atoi (lexeme c))) (set_tokens (flat_map factor_tokens (factors m) ++ next :: rest) s)
                next rest) as (s' & Hloop & Hs'); [lia|done..|].
    exists s'. split; [|done].
    run_peek. rewrite decide_True by done. run_expect. exact Hloop.
  - destruct (factors m) as [|f fs]; [done|].
    apply Forall_cons in Hfs as [Hf Hfs].
    destruct fuel as [|fuel]; [simpl in Hfuel; lia|].
    destruct (factors_head fs next rest Hfs Hpow) as (n & r & Hnr & Hn & _).
    simpl in Htok. rewrite <-app_assoc, Hnr in Htok.
    destruct (parse_poly_factor_written fuel s f n r Htok Hf Hn) as (s1 & Hrun & Hs1).
    rewrite <-Hnr in Hs1.
    destruct (parse_poly_term_loop_written fs (S fuel) (factor_tree f) s1 next rest)
      as (s' & Hloop & Hs'); [simpl in Hfuel; lia|done..|].
    exists s'. split; [|done].
    destruct (factors_head [f] n r) as (h & hr & Hh & _ & Hhid);
      [by apply Forall_singleton|done|].
    simpl in Hh. rewrite app_nil_r in Hh. rewrite Hh in Htok.
    run_peek. rewrite decide_False by (rewrite Hhid by done; done).
    unfold starts_factor. rewrite Hhid by done. simpl.
    rewrite <-Hh in Htok.
    eapply bind_Ok; [exact Hrun|]. simpl. exact Hloop.
Qed.

Lemma monomials_head (more : list (Token * Monomial)) (stop : Token)
    (rest : list Token) :
  Forall (λ pm, token_type pm.1 = PLUS ∧ monomial_written pm.2) more →
  token_type stop ≠ ID → token_type stop ≠ LPAREN → token_type stop ≠ POWER →
  ∃ n r, flat_map (λ pm, pm.1 :: monomial_tokens pm.2) more ++ stop :: rest = n :: r ∧
         token_type n ≠ ID ∧ token_type n ≠ LPAREN ∧ token_type n ≠ POWER.
Proof.
  intros Hmore Hid Hlp Hpow. destruct Hmore as [|[p m] more [Hp _] _].
  - exists stop, rest. done.
  - simpl in *. eexists _, _. split; [done|]. rewrite Hp. done.
Qed.

(** The loop over the plus signs of a written sum. *)
Lemma parse_poly_body_plus_loop_written (more : list (Token * Monomial)) :
  ∀ fuel left s stop rest,
    length (tokens s) + 3 ≤ fuel →
    tokens s = flat_map (λ pm, pm.1 :: monomial_tokens pm.2) more ++ stop :: rest →
    Forall (λ pm, token_type pm.1 = PLUS ∧ monomial_written pm.2) more →
    token_type stop ≠ ID → token_type stop ≠ LPAREN → token_type stop ≠ POWER →
    token_type stop ≠ PLUS →
    ∃ s', parse_poly_body_plus_loop fuel left s
            = Ok (foldl (λ left pm, AddExpr left (monomial_tree pm.2)) left more) s' ∧
          tokens s' = stop :: rest.
Proof.
  induction more as [|[p m] more IH];
    intros fuel left s stop rest Hfuel Htok Hmore Hid Hlp Hpow Hplus.
  - destruct fuel as [|fuel]; [lia|]. exists s. split; [|done].
    simpl in Htok. eapply parse_poly_body_plus_loop_stop; done.
  - destruct fuel as [|fuel]; [lia|].
    apply Forall_cons in Hmore as [[Hp Hm] Hmore]. simpl in Hp, Hm, Htok.
    destruct (monomials_head more stop rest Hmore Hid Hlp Hpow)
      as (n & r & Hnr & Hn1 & Hn2 & Hn3).
    rewrite <-app_assoc, Hnr in Htok.
    destruct (monomial_length m) as [[Hlen _]|Hnot]; [|done].
    destruct (parse_poly_term_written fuel (set_tokens (monomial_tokens m ++ n :: r) s)
                m n r) as (s1 & Hterm & Hs1); [|done..|].
    { rewrite Htok in Hfuel. simpl in Hfuel. rewrite length_app in Hfuel. lia. }
    rewrite <-Hnr in Hs1.
    destruct (IH fuel (AddExpr left (monomial_tree m)) s1 stop rest)
      as (s' & Hloop & Hs'); [|done..|].
    { rewrite Htok in Hfuel. simpl in Hfuel. rewrite length_app in Hfuel.
      simpl in Hfuel. rewrite Hs1, Hnr. simpl. lia. }
    exists s'. split; [|done].
    erewrite parse_poly_body_plus_loop_step; [exact Hloop|exact Htok|done|exact Hterm].
Qed.

Lemma run_sum_of_monomials (s : State) (first : Monomial)
    (more : list (Token * Monomial)) (stop : Token) (rest : list Token) :
  tokens s = sum_tokens first more ++ stop :: rest →
  sum_written first more →
  token_type stop ∉ [ID; LPAREN; POWER; PLUS; MINUS] →
  with_fuel parse_poly_body_expr s
    = Ok (sum_tree first more) (after_body s (sum_tokens first more) (stop :: rest)).
Proof.
  intros Htok [Hfirst Hmore] Hstop.
  assert (token_type stop ≠ ID ∧ token_type stop ≠ LPAREN ∧
          token_type stop ≠ POWER ∧ token_type stop ≠ PLUS ∧
          token_type stop ≠ MINUS) as (Hs1 & Hs2 & Hs3 & Hs4 & Hs5).
  { split_and!; intros Heq; apply Hstop; rewrite Heq; set_solver. }
  assert (∃ s', with_fuel parse_poly_body_expr s = Ok (sum_tree first more) s' ∧
                tokens s' = stop :: rest) as (s' & Hrun & Hs').
  { unfold with_fuel, fuel_of. unfold sum_tokens in Htok.
    destruct (monomials_head more stop rest Hmore Hs1 Hs2 Hs3)
      as (n & r & Hnr & Hn1 & Hn2 & Hn3).
    rewrite <-app_assoc, Hnr in Htok.
    destruct (monomial_length first) as [[Hlen Hpos]|Hnot]; [|done].
    assert (∃ fuel, 3 * length (tokens s) + 3 = S fuel ∧
                    length (tokens s) + 2 ≤ fuel) as (fuel & -> & Hfuel).
    { exists (3 * length (tokens s) + 2). lia. }
    rewrite Htok, length_app in Hfuel. simpl in Hfuel.
    destruct (parse_poly_term_written fuel s first n r) as (s1 & Hterm & Hs1');
      [lia|done..|].
    rewrite <-Hnr in Hs1'.
    destruct (parse_poly_body_plus_loop_written more fuel (monomial_tree first)
                s1 stop rest) as (s' & Hloop & Hs'); [|done..|].
    { rewrite Hs1', Hnr. simpl. lia. }
    exists s'. split; [|done].
    rewrite parse_poly_body_expr_eq.
    eapply bind_Ok; [exact Hterm|]. simpl.
    eapply bind_Ok; [exact Hloop|]. simpl.
    run_peek. by rewrite decide_False. }
  rewrite Hrun. f_equal.
  destruct (wp_Ok _ _ _ _ _ (parse_poly_body_expr_spec s) Hrun)
    as (used & _ & (rest' & Htok' & ->) & _).
  unfold after_body in Hs'. simpl in Hs'. subst rest'.
  rewrite Htok in Htok'. apply app_inv_tail in Htok'. by rewrite Htok'.
Qed.

(** X19: a polynomial body written as a sum of monomials, each a numeral
    followed by identifiers with or without exponents, or at least one such
    identifier, is accepted up to the token behind it (any token that does
    not continue a body) and read as written: the factors of a monomial are
    multiplied from the left, an exponent belongs to the identifier in front
    of it alone, and the monomials are added from the left.  The input is
    left at the token behind the sum, and the identifiers that are no
    parameters are recorded. *)
Theorem sum_of_monomials_is_read_as_written (s : State) (first : Monomial)
    (more : list (Token * Monomial)) (stop : Token) (rest : list Token) :
  tokens s = sum_tokens first more ++ stop :: rest →
  sum_written first more →
  token_type stop ∉ [ID; LPAREN; POWER; PLUS; MINUS] →
  with_fuel parse_poly_body_expr s
    = Ok (sum_tree first more) (after_body s (sum_tokens first more) (stop :: rest)).
Proof. apply run_sum_of_monomials. Qed.

(** [2 x^2 y + x + 3;] is read as [((2 * x^2) * y + x) + 3]. *)
Lemma sum_of_monomials_is_read_as_written_witness :
  let input := [Sample.num "2" 3; Sample.id "x" 3; Sample.power 3; Sample.num "2" 3;
                Sample.id "y" 3; Sample.plus 3; Sample.id "x" 3; Sample.plus 3;
                Sample.num "3" 3; Sample.semi 3]%Z in
  ∃ s',
    with_fuel parse_poly_body_expr (initial_state input) =
      Ok (AddExpr
            (AddExpr
               (MulExpr (MulExpr (ConstExpr 2) (PowExpr (VarExpr "x" 3) 2))
                        (VarExpr "y" 3))
               (VarExpr "x" 3))
            (ConstExpr 3)) s' ∧
    tokens s' = [Sample.semi 3] ∧
    invalid_monomial_lines s' = [3; 3; 3]%Z.
Proof.
  intros input.
  pose (first := mkMonomial (Some (Sample.num "2" 3))
                   [Raised (Sample.id "x" 3) (Sample.power 3) (Sample.num "2" 3);
                    Plain (Sample.id "y" 3)]).
  pose (more := [(Sample.plus 3, mkMonomial None [Plain (Sample.id "x" 3)]);
                 (Sample.plus 3, mkMonomial (Some (Sample.num "3" 3)) [])]).
  exists (after_body (initial_state input) (sum_tokens first more) [Sample.semi 3]).
  split; [|split; reflexivity].
  apply (sum_of_monomials_is_read_as_written (initial_state input) first more
           (Sample.semi 3) []).
  - reflexivity.
  - split; [split; [reflexivity|repeat constructor]|].
    repeat constructor. simpl. discriminate.
  - simpl. set_solver.
Defined.

(** ** The older recognizer of call arguments *)

Section both_rules.
Context {A B A' B' : Type}.
Implicit Types (Q : A' → State → B' → State → Prop).

Lemma both_bind (m1 : M A) (m2 : M B) (f1 : A → M A') (f2 : B → M B') Q s1 s2 :
  both (λ a s1' b s2', both Q (f1 a s1') (f2 b s2')) (m1 s1) (m2 s2) →
  both Q ((m1 ≫= f1) s1) ((m2 ≫= f2) s2).
Proof. unfold both, mbind, M_bind. by destruct (m1 s1), (m2 s2). Qed.

Lemma both_bind_l (m1 : M A) (f1 : A → M A') (r2 : Res B') Q s1 a s1' :
  m1 s1 = Ok a s1' → both Q (f1 a s1') r2 → both Q ((m1 ≫= f1) s1) r2.
Proof. intros Hm. unfold mbind, M_bind. by rewrite Hm. Qed.

Lemma both_bind_r (r1 : Res A') (m2 : M B) (f2 : B → M B') Q s2 b s2' :
  m2 s2 = Ok b s2' → both Q r1 (f2 b s2') → both Q r1 ((m2 ≫= f2) s2).
Proof. intros Hm. unfold mbind, M_bind. by rewrite Hm. Qed.

Lemma both_tail_l (m1 : M A) (f1 : A → M A') (r2 : Res B') Q s1 :
  both (λ a s1' b s2', both Q (f1 a s1') (Ok b s2')) (m1 s1) r2 →
  both Q ((m1 ≫= f1) s1) r2.
Proof. unfold both, mbind, M_bind. by destruct (m1 s1), r2. Qed.

Lemma both_tail_r (r1 : Res A') (m2 : M B) (f2 : B → M B') Q s2 :
  both (λ a s1' b s2', both Q (Ok a s1') (f2 b s2')) r1 (m2 s2) →
  both Q r1 ((m2 ≫= f2) s2).
Proof. unfold both, mbind, M_bind. by destruct r1, (m2 s2). Qed.
End both_rules.

Lemma both_mono {A B : Type} (Q Q' : A → State → B → State → Prop) r1 r2 :
  both Q r1 r2 → (∀ a s1 b s2, Q a s1 b s2 → Q' a s1 b s2) → both Q' r1 r2.
Proof. unfold both. destruct r1, r2; auto. Qed.

Lemma both_wp {A B : Type} (m1 : M A) (R : A → State → Prop)
    (Q : A → State → B → State → Prop) s1 (r2 : Res B) :
  wp m1 R s1 → both Q (m1 s1) r2 →
  both (λ a s1' b s2', R a s1' ∧ Q a s1' b s2') (m1 s1) r2.
Proof. unfold wp, both. destruct (m1 s1), r2; auto. Qed.

Lemma expect_SyntaxError ty s :
  match tokens s with
  | [] => ty ≠ END_OF_FILE
  | t :: _ => token_type t ≠ ty
  end →
  expect ty s = SyntaxError.
Proof.
  intros Hhead. unfold expect, mbind, M_bind, GetToken.
  destruct (tokens s) as [|t ts]; simpl; by rewrite decide_False.
Qed.

(** The equations of the older parse functions. *)
Lemma parse_argument_eq fuel :
  parse_argument (S fuel) =
    (t ← peek 1;
     if decide (token_type t = ID) then
       t2 ← peek 2;
       if decide (token_type t2 = LPAREN) then
         parse_poly_evaluation fuel;; mret ()
       else expect ID;; mret ()
     else if decide (token_type t = NUM) then
       expect NUM;; mret ()
     else syntax_error).
Proof. reflexivity. Qed.

Lemma parse_poly_evaluation_eq fuel :
  parse_poly_evaluation (S fuel) =
    (t ← expect ID;
     modify (λ s, set_used_polynomials ({[lexeme t]} ∪ used_polynomials s) s);;
     expect LPAREN;;
     parse_argument_list fuel (lexeme t) (line_no t);;
     expect RPAREN;;
     mret (lexeme t)).
Proof. reflexivity. Qed.

Lemma parse_argument_list_eq fuel poly_name eval_line :
  parse_argument_list (S fuel) poly_name eval_line =
    (declarations ← gets (λ s, poly_declarations s);
     (if bool_decide (declarations !! poly_name = None) then
        modify (λ s, set_semantic_errors
          (semantic_errors s ++
             ["Semantic Error Code 3: " +:+ to_string eval_line]) s)
      else mret ());;
     parse_argument fuel;;
     actual_params ← parse_argument_list_loop fuel 1;
     if negb (bool_decide (declarations !! poly_name = None)) &&
        bool_decide (actual_params ≠
          if bool_decide (declarations !! poly_name = None) then 0
          else length (default [] (declarations !! poly_name)))
     then
       modify (λ s, set_semantic_errors
         (semantic_errors s ++
            ["Semantic Error Code 4: " +:+ to_string eval_line]) s)
     else mret ()).
Proof. reflexivity. Qed.

Lemma parse_argument_list_loop_eq fuel actual_params :
  parse_argument_list_loop (S fuel) actual_params =
    (t ← peek 1;
     if decide (token_type t = COMMA) then
       expect COMMA;;
       parse_argument fuel;;
       parse_argument_list_loop fuel (S actual_params)
     else mret actual_params).
Proof. reflexivity. Qed.

#[global] Arguments parse_argument_expr : simpl never.
#[global] Arguments parse_call_expr_from_token : simpl never.
#[global] Arguments parse_arguments_loop : simpl never.
#[global] Arguments parse_argument : simpl never.
#[global] Arguments parse_poly_evaluation : simpl never.
#[global] Arguments parse_argument_list : simpl never.
#[global] Arguments parse_argument_list_loop : simpl never.

(** ** States that differ in the order of the findings *)

Lemma same_reading_refl s : same_reading [] s s.
Proof.
  exists (semantic_errors s), (used_polynomials s). split_and!; [done|done|].
  by apply state_ext.
Qed.

Lemma same_reading_tokens P s1 s2 : same_reading P s1 s2 → tokens s2 = tokens s1.
Proof. by intros (E & U & _ & _ & ->). Qed.

Lemma same_reading_declarations P s1 s2 :
  same_reading P s1 s2 → poly_declarations s2 = poly_declarations s1.
Proof. by intros (E & U & _ & _ & ->). Qed.

Lemma same_reading_set_tokens P s1 s2 ts :
  same_reading P s1 s2 → same_reading P (set_tokens ts s1) (set_tokens ts s2).
Proof.
  intros (E & U & HE & HU & ->). exists E, U. split_and!; [done|done|].
  by apply state_ext.
Qed.

Lemma same_reading_used P s1 s2 x :
  same_reading P s1 s2 →
  same_reading P s1 (set_used_polynomials ({[x]} ∪ used_polynomials s2) s2).
Proof.
  intros (E & U & HE & HU & ->). exists E, ({[x]} ∪ U).
  split_and!; [done|set_solver|]. by apply state_ext.
Qed.

Lemma same_reading_push_r P s1 s2 xs :
  same_reading P s1 s2 →
  same_reading (xs ++ P) s1 (set_semantic_errors (semantic_errors s2 ++ xs) s2).
Proof.
  intros (E & U & HE & HU & ->). exists (E ++ xs), U.
  split_and!; [|done|by apply state_ext].
  simpl. rewrite HE, <-(app_assoc xs). apply Permutation_app_comm.
Qed.

Lemma same_reading_push_l P s1 s2 xs :
  same_reading (xs ++ P) s1 s2 →
  same_reading P (set_semantic_errors (semantic_errors s1 ++ xs) s1) s2.
Proof.
  intros (E & U & HE & HU & ->). exists E, U.
  split_and!; [|done|by apply state_ext].
  simpl. rewrite HE, <-(app_assoc xs), (app_assoc P). apply Permutation_app_comm.
Qed.

Lemma both_expect {A' B' : Type} ty (f1 : Token → M A') (f2 : Token → M B')
    (Q : A' → State → B' → State → Prop) P s1 s2 :
  same_reading P s1 s2 →
  (∀ t ts, tokens s1 = t :: ts → token_type t = ty →
     both Q (f1 t (set_tokens ts s1)) (f2 t (set_tokens ts s2))) →
  ty ≠ END_OF_FILE →
  both Q ((expect ty ≫= f1) s1) ((expect ty ≫= f2) s2).
Proof.
  intros Hsim Hnext Hty. pose proof (same_reading_tokens _ _ _ Hsim) as Htok.
  destruct (tokens s1) as [|t ts] eqn:Htok1.
  - unfold mbind, M_bind. rewrite !expect_SyntaxError; [done|..].
    + by rewrite Htok.
    + by rewrite Htok1.
  - destruct (decide (token_type t = ty)) as [Ht|Ht].
    + eapply both_bind_l; [by eapply expect_Ok|].
      eapply both_bind_r; [by eapply expect_Ok|]. by apply Hnext.
    + unfold mbind, M_bind. rewrite !expect_SyntaxError; [done|..].
      * by rewrite Htok.
      * by rewrite Htok1.
Qed.

Lemma bind_assoc {A B C : Type} (m : M A) (f : A → M B) (g : B → M C) s :
  ((m ≫= f) ≫= g) s = (m ≫= (λ a, f a ≫= g)) s.
Proof. unfold mbind, M_bind. by destruct (m s). Qed.

Lemma reads_call_keeps s used errs s' :
  reads_call s used errs s' →
  poly_declarations s' = poly_declarations s ∧
  length (tokens s) = length used + length (tokens s').
Proof. intros (rest & -> & ->). by rewrite length_app. Qed.

Lemma arguments_knot n :
  (∀ m P s1 s2,
     same_reading P s1 s2 → length (tokens s1) < n → 2 * length (tokens s1) + 1 ≤ m →
     both (λ _ s1' _ s2', same_reading P s1' s2')
          (parse_argument_expr n s1) (parse_argument m s2)) ∧
  (∀ m P s1 s2 t ts,
     same_reading P s1 s2 → tokens s1 = t :: ts → token_type t = ID →
     length ts < n → 2 * length (t :: ts) ≤ m →
     both (λ _ s1' _ s2', same_reading P s1' s2')
          (parse_call_expr_from_token n t (set_tokens ts s1))
          (parse_poly_evaluation m s2)) ∧
  (∀ m P s1 s2 args k,
     same_reading P s1 s2 → length args = k →
     length (tokens s1) < n → 2 * length (tokens s1) + 1 ≤ m →
     both (λ r s1' k' s2', same_reading P s1' s2' ∧ length r = k')
          (parse_arguments_loop n args s1) (parse_argument_list_loop m k s2)).
Proof.
  induction n as [|n (IHarg & IHcall & IHloop)].
  { split_and!; intros; lia. }
  split_and!.
  - intros m P s1 s2 Hsim Hn Hm. destruct m as [|m]; [lia|].
    pose proof (same_reading_tokens _ _ _ Hsim) as Htok.
    rewrite parse_argument_expr_eq, parse_argument_eq.
    destruct (tokens s1) as [|t ts] eqn:Htok1.
    { eapply both_bind_l; [by apply peek_nil|].
      eapply both_bind_r; [apply peek_nil; by rewrite Htok|]. done. }
    eapply both_bind_l; [by eapply peek_head|].
    eapply both_bind_r; [eapply peek_head; by rewrite Htok|]. cbv beta.
    destruct (decide (token_type t = ID)) as [Hid|Hnid].
    + eapply both_bind_l; [by eapply peek_second|].
      eapply both_bind_r; [eapply peek_second; by rewrite Htok|]. cbv beta.
      destruct (decide (token_type (default eof_token (head ts)) = LPAREN)).
      * eapply both_bind_l; [by eapply expect_Ok|].
        apply both_tail_r. eapply both_mono.
        { eapply (IHcall m P s1 s2 t ts); [done..| |].
          - simpl in Hn. lia.
          - simpl in *. lia. }
        done.
      * eapply both_expect; [done| |done].
        intros t' ts' Ht' _. by apply same_reading_set_tokens.
    + destruct (decide (token_type t = NUM)) as [Hnum|Hnnum]; [|done].
      eapply both_expect; [done| |done].
      intros t' ts' Ht' _. by apply same_reading_set_tokens.
  - intros m P s1 s2 t ts Hsim Htok1 Hid Hn Hm.
    destruct m as [|[|m]]; simpl in Hm; [lia..|].
    pose proof (same_reading_tokens _ _ _ Hsim) as Htok.
    pose proof (same_reading_declarations _ _ _ Hsim) as Hdecls.
    rewrite parse_call_expr_from_token_eq, parse_poly_evaluation_eq.
    eapply both_bind_r; [eapply expect_Ok; [by rewrite Htok|done]|]. cbv beta.
    eapply both_bind_r; [reflexivity|]. cbv beta.
    eapply both_expect; [by apply same_reading_used, same_reading_set_tokens| |done].
    intros lp ts' Hts' Hlp. simpl in Hts'. subst ts.
    rewrite parse_argument_list_eq.
    rewrite bind_assoc. eapply both_bind_r; [reflexivity|]. cbv beta.
    match goal with
    | |- both _ (_ ?a) (_ ?b) => set (s1a := a); set (s2a := b)
    end.
    assert (same_reading P s1a s2a) as Hsima.
    { apply same_reading_set_tokens, same_reading_used.
      by apply same_reading_set_tokens. }
    assert (poly_declarations s2a = poly_declarations s1) as Hd2 by done.
    assert (poly_declarations s1a = poly_declarations s1) as Hd1 by done.
    assert (tokens s1a = ts') as Htoka by done.
    rewrite Hd2. clearbody s1a s2a. simpl in Hm, Hn.
    apply (f_equal length) in Htoka.
    assert (∀ (s1c : State) (args : list Expr) ts'',
              poly_declarations s1c = poly_declarations s1 →
              call_findings (poly_declarations (set_tokens ts'' s1c))
                (lexeme t) (line_no t) (length args)
              = call_findings (poly_declarations s1) (lexeme t) (line_no t)
                  (length args)) as Hfind.
    { intros s1c args ts'' <-. done. }
    destruct (poly_declarations s1 !! lexeme t) as [params|] eqn:Hlook.
    + rewrite bool_decide_false by done. cbn [negb andb default].
      rewrite bind_assoc. eapply both_bind_r; [reflexivity|]. cbv beta.
      rewrite bind_assoc. apply both_bind. eapply both_mono.
      { apply both_wp; [apply (proj1 (argument_knot n)); lia|].
        apply (IHarg m P s1a s2a Hsima); lia. }
      intros first s1b [] s2b [(u1 & e1 & Hne1 & Hr1 & _) Hsimb]. cbv beta.
      apply reads_call_keeps in Hr1 as [Hdb Hlenb].
      rewrite bind_assoc. apply both_bind. eapply both_mono.
      { apply both_wp; [apply (proj2 (proj2 (argument_knot n))); lia|].
        apply (IHloop m P s1b s2b [first] 1 Hsimb); [done|lia..]. }
      intros args s1c k s2c [(u2 & e2 & more & Hr2 & _) [Hsimc Hk]]. cbv beta.
      apply reads_call_keeps in Hr2 as [Hdc Hlenc].
      destruct (decide (k = length params)) as [Heq|Hne].
      * rewrite bool_decide_false by (intros ?; done).
        eapply both_bind_r; [reflexivity|]. cbv beta.
        eapply both_expect; [exact Hsimc| |done]. intros rp ts'' Hts'' Hrp.
        eapply both_bind_l; [apply check_call_run|]. cbv beta.
        rewrite Hfind by congruence. unfold call_findings. rewrite Hlook.
        rewrite decide_True by congruence.
        apply (same_reading_push_l P _ _ []). simpl.
        by apply same_reading_set_tokens.
      * rewrite bool_decide_true by done.
        eapply both_bind_r; [reflexivity|]. cbv beta.
        eapply both_expect; [by apply same_reading_push_r| |done].
        intros rp ts'' Hts'' Hrp.
        eapply both_bind_l; [apply check_call_run|]. cbv beta.
        rewrite Hfind by congruence. unfold call_findings. rewrite Hlook.
        rewrite decide_False by congruence.
        apply same_reading_push_l.
        by apply same_reading_set_tokens, same_reading_push_r.
    + rewrite bool_decide_true by done. cbn [negb andb default].
      rewrite bind_assoc. eapply both_bind_r; [reflexivity|]. cbv beta.
      rewrite bind_assoc. apply both_bind. eapply both_mono.
      { apply both_wp; [apply (proj1 (argument_knot n)); lia|].
        eapply (IHarg m _ s1a _ (same_reading_push_r _ _ _ _ Hsima)); lia. }
      intros first s1b [] s2b [(u1 & e1 & Hne1 & Hr1 & _) Hsimb]. cbv beta.
      apply reads_call_keeps in Hr1 as [Hdb Hlenb].
      rewrite bind_assoc. apply both_bind. eapply both_mono.
      { apply both_wp; [apply (proj2 (proj2 (argument_knot n))); lia|].
        apply (IHloop m _ s1b s2b [first] 1 Hsimb); [done|lia..]. }
      intros args s1c k s2c [(u2 & e2 & more & Hr2 & _) [Hsimc Hk]]. cbv beta.
      apply reads_call_keeps in Hr2 as [Hdc Hlenc].
      eapply both_bind_r; [reflexivity|]. cbv beta.
      eapply both_expect; [exact Hsimc| |done]. intros rp ts'' Hts'' Hrp.
      eapply both_bind_l; [apply check_call_run|]. cbv beta.
      rewrite Hfind by congruence. unfold call_findings. rewrite Hlook.
      apply same_reading_push_l.
      by apply same_reading_set_tokens.
  - intros m P s1 s2 args k Hsim Hk Hn Hm. destruct m as [|m]; [lia|].
    pose proof (same_reading_tokens _ _ _ Hsim) as Htok.
    rewrite parse_arguments_loop_eq, parse_argument_list_loop_eq.
    destruct (tokens s1) as [|t ts] eqn:Htok1.
    { eapply both_bind_l; [by apply peek_nil|].
      eapply both_bind_r; [apply peek_nil; by rewrite Htok|]. done. }
    eapply both_bind_l; [by eapply peek_head|].
    eapply both_bind_r; [eapply peek_head; by rewrite Htok|]. cbv beta.
    destruct (decide (token_type t = COMMA)) as [Hcomma|Hother]; [|done].
    eapply both_expect; [done| |done]. intros c ts' Hts' _.
    rewrite Htok1 in Hts'. injection Hts' as <- <-. simpl in Hn, Hm.
    apply both_bind. eapply both_mono.
    { apply both_wp; [apply (proj1 (argument_knot n)); simpl; lia|].
      apply (IHarg m P _ _ (same_reading_set_tokens _ _ _ ts Hsim)); simpl; lia. }
    intros arg s1b [] s2b [(u1 & e1 & Hne1 & Hr1 & _) Hsimb]. cbv beta.
    apply reads_call_keeps in Hr1 as [_ Hlenb]. simpl in Hlenb.
    apply (IHloop m P s1b s2b (args ++ [arg]) (S k) Hsimb); [|lia..].
    rewrite length_app. simpl. lia.
Qed.

Lemma parse_argument_alike (s : State) :
  both (λ _ s1 _ s2, same_reading [] s1 s2)
       (with_fuel parse_argument_expr s) (with_fuel parse_argument s).
Proof.
  unfold with_fuel, fuel_of.
  apply (proj1 (arguments_knot _)); [apply same_reading_refl|lia..].
Qed.

(** X20: the older recognizer [parse_argument], which nothing calls, reads
    call arguments as [parse_argument_expr] does: on every input both end in
    a syntax error or both return, and then they leave the same state but
    for two fields: the findings are the same up to their order (the older
    function reports an undeclared name before it reads the arguments, the
    newer one after), and the older function also enters the names of the
    nested calls in [used_polynomials]. *)
Theorem older_argument_recognizer_agrees (s : State) :
  match with_fuel parse_argument_expr s, with_fuel parse_argument s with
  | Ok _ s1, Ok _ s2 =>
      ∃ (findings : list string) (used : gset string),
        findings ≡ₚ semantic_errors s1 ∧
        used_polynomials s1 ⊆ used ∧
        s2 = set_used_polynomials used (set_semantic_errors findings s1)
  | SyntaxError, SyntaxError => True
  | _, _ => False
  end.
Proof.
  pose proof (parse_argument_alike s) as Halike. unfold both, same_reading in Halike.
  by destruct (with_fuel parse_argument_expr s), (with_fuel parse_argument s).
Qed.

(** ** The general expression parser *)

Lemma parse_expr_eq fuel :
  parse_expr (S fuel) =
    (left ← parse_term_expr fuel;
     left ← parse_expr_plus_loop fuel left;
     next ← peek 1;
     if decide (token_type next = MINUS) then
       expect MINUS;;
       right ← parse_expr fuel;
       mret (SubExpr left right)
     else mret left).
Proof. reflexivity. Qed.

Lemma parse_expr_plus_loop_eq fuel left :
  parse_expr_plus_loop (S fuel) left =
    (next ← peek 1;
     if decide (token_type next = PLUS) then
       expect PLUS;;
       right ← parse_term_expr fuel;
       parse_expr_plus_loop fuel (AddExpr left right)
     else mret left).
Proof. reflexivity. Qed.

Lemma parse_term_expr_eq fuel :
  parse_term_expr (S fuel) =
    (left ← parse_factor fuel;
     in_decl ← gets (λ s, in_poly_decl s);
     if (in_decl : bool) then parse_term_expr_decl_loop fuel left
     else parse_term_expr_exec_loop fuel left).
Proof. reflexivity. Qed.

Lemma parse_term_expr_decl_loop_eq fuel left :
  parse_term_expr_decl_loop (S fuel) left =
    (next ← peek 1;
     if starts_factor next then
       right ← parse_factor fuel;
       parse_term_expr_decl_loop fuel (MulExpr left right)
     else mret left).
Proof. reflexivity. Qed.

Lemma parse_factor_eq fuel :
  parse_factor (S fuel) =
    (t ← peek 1;
     '(expr, wasParen) ←
       (if decide (token_type t = NUM) then
          t ← expect NUM;
          mret (ConstExpr (atoi (lexeme t)), false)
        else if decide (token_type t = ID) then
          let idToken := t in
          expect ID;;
          in_decl ← gets (λ s, in_poly_decl s);
          if (in_decl : bool) then
            current ← gets (λ s, current_poly_params s);
            (if decide (lexeme idToken ∈ current) then mret ()
             else modify (λ s, set_invalid_monomial_lines
                                 (invalid_monomial_lines s ++ [line_no idToken]) s));;
            mret (VarExpr (lexeme idToken) (line_no idToken), false)
          else
            next ← peek 1;
            if decide (token_type next = LPAREN) then
              expr ← parse_call_expr_from_token fuel idToken;
              mret (expr, false)
            else mret (VarExpr (lexeme idToken) (line_no idToken), false)
        else if decide (token_type t = LPAREN) then
          expect LPAREN;;
          expr ← parse_expr fuel;
          expect RPAREN;;
          mret (expr, true)
        else syntax_error);
     t ← peek 1;
     if decide (token_type t = POWER) then
       expect POWER;;
       num ← expect NUM;
       mret (PowExpr expr (atoi (lexeme num)))
     else
       in_decl ← gets (λ s, in_poly_decl s);
       if in_decl && wasParen && bool_decide (token_type t = NUM)
       then syntax_error
       else mret expr).
Proof. reflexivity. Qed.

#[global] Arguments parse_expr : simpl never.
#[global] Arguments parse_expr_plus_loop : simpl never.
#[global] Arguments parse_term_expr : simpl never.
#[global] Arguments parse_term_expr_decl_loop : simpl never.
#[global] Arguments parse_term_expr_exec_loop : simpl never.
#[global] Arguments parse_factor : simpl never.

(** What a run that returns went through. *)
Lemma bind_Ok_inv {A B : Type} (m : M A) (f : A → M B) s b s' :
  (m ≫= f) s = Ok b s' → ∃ a s1, m s = Ok a s1 ∧ f a s1 = Ok b s'.
Proof.
  unfold mbind, M_bind. destruct (m s) as [a s1| |]; [|done..]. by exists a, s1.
Qed.

Lemma expect_Ok_inv ty s t s' :
  expect ty s = Ok t s' → ty ≠ END_OF_FILE →
  ∃ ts, tokens s = t :: ts ∧ token_type t = ty ∧ s' = set_tokens ts s.
Proof.
  unfold expect, mbind, M_bind, GetToken. intros Hrun Hty.
  destruct (tokens s) as [|t0 ts] eqn:Htok; simpl in Hrun.
  - by rewrite decide_False in Hrun.
  - destruct (decide (token_type t0 = ty)); [|done].
    injection Hrun as <- <-. by exists ts.
Qed.

Lemma peek_Ok_inv s t s' :
  peek 1 s = Ok t s' → t = default eof_token (head (tokens s)) ∧ s' = s.
Proof.
  unfold peek, gets. simpl. intros Hrun. injection Hrun as <- <-.
  by destruct (tokens s).
Qed.

Lemma peek_run s : peek 1 s = Ok (default eof_token (head (tokens s))) s.
Proof. unfold peek, gets. simpl. by destruct (tokens s). Qed.

Ltac inv_bind H a s1 H1 :=
  apply bind_Ok_inv in H as (a & s1 & H1 & H); cbv beta in H.

Ltac inv_peek H :=
  let t := fresh "t" in
  let s := fresh "s" in
  let Hp := fresh "Hp" in
  apply bind_Ok_inv in H as (t & s & Hp & H); cbv beta in H;
  apply peek_Ok_inv in Hp as [-> ->].

Ltac inv_expect H t ts Htok Hty :=
  let s := fresh "s" in
  let He := fresh "He" in
  apply bind_Ok_inv in H as (t & s & He & H); cbv beta in H;
  apply expect_Ok_inv in He as (ts & Htok & Hty & ->); [|done].

Ltac run_bind H := eapply bind_Ok; [exact H|]; cbv beta.
Ltac run_peek1 := eapply bind_Ok; [apply peek_run|]; cbv beta.
Ltac run_expect1 :=
  eapply bind_Ok; [eapply expect_Ok; [eassumption|done]|]; cbv beta.

Lemma power_follows_head s t ts :
  tokens s = t :: ts → token_type t ≠ POWER → ¬ power_follows s.
Proof. intros Htok Ht (t' & Ht' & Hp). rewrite Htok in Ht'. simpl in Ht'. congruence. Qed.

Lemma power_follows_peek s :
  token_type (default eof_token (head (tokens s))) ≠ POWER → ¬ power_follows s.
Proof. intros Ht (t' & Ht' & Hp). rewrite Ht' in Ht. simpl in Ht. congruence. Qed.

Lemma not_power_follows_peek s :
  ¬ power_follows s → token_type (default eof_token (head (tokens s))) ≠ POWER.
Proof.
  intros Hs Hp. apply Hs. unfold power_follows. destruct (tokens s) as [|t ts]; [by compute in Hp|].
  exists t. split; [done|exact Hp].
Qed.

(** A loop that returns before a token other than a power sign started
    before such a token. *)
Lemma parse_poly_body_plus_loop_head fuel left s e s' :
  parse_poly_body_plus_loop fuel left s = Ok e s' →
  ¬ power_follows s' → ¬ power_follows s.
Proof.
  destruct fuel as [|fuel]; [done|]. rewrite parse_poly_body_plus_loop_eq.
  intros Hrun Hs'. inv_peek Hrun.
  destruct (decide (token_type (default eof_token (head (tokens s))) = PLUS)) as [Hp|Hp].
  - apply power_follows_peek. by rewrite Hp.
  - by injection Hrun as <- <-.
Qed.

Lemma parse_poly_term_loop_head fuel left s e s' :
  parse_poly_term_loop fuel left s = Ok e s' →
  ¬ power_follows s' → ¬ power_follows s.
Proof.
  destruct fuel as [|fuel]; [done|]. rewrite parse_poly_term_loop_eq.
  intros Hrun Hs'. inv_peek Hrun.
  destruct (starts_factor (default eof_token (head (tokens s)))) eqn:Hstart.
  - apply power_follows_peek. unfold starts_factor in Hstart.
    intros Hp. rewrite Hp in Hstart. done.
  - by injection Hrun as <- <-.
Qed.

(** The end of [parse_poly_factor] and [parse_factor] does not touch
    [in_poly_decl]. *)
Lemma factor_tail_keeps (expr : Expr) (wasParen : bool) s e s' :
  (t ← peek 1;
   if decide (token_type t = POWER) then
     expect POWER;;
     num ← expect NUM;
     mret (PowExpr expr (atoi (lexeme num)))
   else
     in_decl ← gets (λ s, in_poly_decl s);
     if in_decl && wasParen && bool_decide (token_type t = NUM)
     then syntax_error
     else mret expr) s = Ok e s' →
  in_poly_decl s' = in_poly_decl s.
Proof.
  intros Hrun. inv_peek Hrun.
  destruct (decide (token_type (default eof_token (head (tokens s))) = POWER)).
  - inv_expect Hrun p ts Htok Hty. inv_expect Hrun num ts' Htok' Hty'.
    by injection Hrun as <- <-.
  - inv_bind Hrun d s1 Hd. injection Hd as <- <-.
    destruct (in_poly_decl s && wasParen && _); [done|]. by injection Hrun as <- <-.
Qed.

Lemma expr_knot fuel :
  (∀ s e s',
     parse_poly_body_expr fuel s = Ok e s' → in_poly_decl s = true →
     ¬ power_follows s' →
     parse_expr fuel s = Ok e s' ∧ in_poly_decl s' = true) ∧
  (∀ left s e s',
     parse_poly_body_plus_loop fuel left s = Ok e s' → in_poly_decl s = true →
     ¬ power_follows s' →
     parse_expr_plus_loop fuel left s = Ok e s' ∧ in_poly_decl s' = true) ∧
  (∀ s e s',
     parse_poly_term fuel s = Ok e s' → in_poly_decl s = true →
     ¬ power_follows s' →
     parse_term_expr fuel s = Ok e s' ∧ in_poly_decl s' = true) ∧
  (∀ left s e s',
     parse_poly_term_loop fuel left s = Ok e s' → in_poly_decl s = true →
     parse_term_expr_decl_loop fuel left s = Ok e s' ∧ in_poly_decl s' = true) ∧
  (∀ s e s',
     parse_poly_factor fuel s = Ok e s' → in_poly_decl s = true →
     parse_factor fuel s = Ok e s' ∧ in_poly_decl s' = true).
Proof.
  induction fuel as [|fuel (IHe & IHpl & IHt & IHtl & IHf)].
  { split_and!; intros; done. }
  split_and!.
  - intros s e s' Hrun Hin Hs'.
    rewrite parse_poly_body_expr_eq in Hrun. rewrite parse_expr_eq.
    inv_bind Hrun l1 s1 Hterm. inv_bind Hrun l2 s2 Hloop. inv_peek Hrun.
    destruct (decide (token_type (default eof_token (head (tokens s2))) = MINUS))
      as [Hm|Hm].
    + inv_expect Hrun mt ts Htok Hty. inv_bind Hrun r s4 Hbody.
      injection Hrun as <- <-.
      assert (¬ power_follows s2) as Hs2 by (apply power_follows_peek; by rewrite Hm).
      pose proof (parse_poly_body_plus_loop_head _ _ _ _ _ Hloop Hs2) as Hs1.
      destruct (IHt _ _ _ Hterm Hin Hs1) as [Hterm' Hin1].
      destruct (IHpl _ _ _ _ Hloop Hin1 Hs2) as [Hloop' Hin2].
      destruct (IHe _ _ _ Hbody Hin2 Hs') as [Hbody' Hin4].
      split; [|done]. run_bind Hterm'. run_bind Hloop'. run_peek1.
      rewrite decide_True by done. run_expect1. run_bind Hbody'. done.
    + injection Hrun as <- <-.
      pose proof (parse_poly_body_plus_loop_head _ _ _ _ _ Hloop Hs') as Hs1.
      destruct (IHt _ _ _ Hterm Hin Hs1) as [Hterm' Hin1].
      destruct (IHpl _ _ _ _ Hloop Hin1 Hs') as [Hloop' Hin2].
      split; [|done]. run_bind Hterm'. run_bind Hloop'. run_peek1.
      by rewrite decide_False.
  - intros left s e s' Hrun Hin Hs'.
    rewrite parse_poly_body_plus_loop_eq in Hrun. rewrite parse_expr_plus_loop_eq.
    inv_peek Hrun.
    destruct (decide (token_type (default eof_token (head (tokens s))) = PLUS))
      as [Hp|Hp].
    + inv_expect Hrun p ts Htok Hty. inv_bind Hrun r s1 Hterm.
      pose proof (parse_poly_body_plus_loop_head _ _ _ _ _ Hrun Hs') as Hs1.
      destruct (IHt _ _ _ Hterm Hin Hs1) as [Hterm' Hin1].
      destruct (IHpl _ _ _ _ Hrun Hin1 Hs') as [Hloop' Hin2].
      split; [|done]. run_peek1. rewrite decide_True by done.
      run_expect1. run_bind Hterm'. exact Hloop'.
    + injection Hrun as <- <-. split; [|done]. run_peek1. by rewrite decide_False.
  - intros s e s' Hrun Hin Hs'.
    rewrite parse_poly_term_eq in Hrun. rewrite parse_term_expr_eq.
    inv_peek Hrun.
    destruct (decide (token_type (default eof_token (head (tokens s))) = NUM))
      as [Hnum|Hnum].
    + inv_expect Hrun c ts Htok Hty.
      destruct fuel as [|fuel]; [done|].
      pose proof (parse_poly_term_loop_head _ _ _ _ _ Hrun Hs') as Hs1.
      destruct (IHtl _ _ _ _ Hrun Hin) as [Hloop' Hin'].
      split; [|done]. eapply bind_Ok.
      { rewrite parse_factor_eq. run_peek1. rewrite decide_True by done.
        eapply bind_Ok.
        { eapply bind_Ok; [eapply expect_Ok; [eassumption|done]|]. reflexivity. }
        cbv beta iota. run_peek1.
        rewrite decide_False by (by apply not_power_follows_peek).
        eapply bind_Ok; [reflexivity|]. cbv beta.
        rewrite andb_false_r. reflexivity. }
      cbv beta. eapply bind_Ok; [reflexivity|]. cbv beta.
      change (in_poly_decl (set_tokens ts s)) with (in_poly_decl s). rewrite Hin.
      exact Hloop'.
    + destruct (starts_factor (default eof_token (head (tokens s)))) eqn:Hstart;
        [|done].
      inv_bind Hrun l s1 Hf.
      destruct (IHf _ _ _ Hf Hin) as [Hf' Hin1].
      destruct (IHtl _ _ _ _ Hrun Hin1) as [Hloop' Hin'].
      split; [|done]. run_bind Hf'. eapply bind_Ok; [reflexivity|]. cbv beta.
      rewrite Hin1. exact Hloop'.
  - intros left s e s' Hrun Hin.
    rewrite parse_poly_term_loop_eq in Hrun. rewrite parse_term_expr_decl_loop_eq.
    inv_peek Hrun.
    destruct (starts_factor (default eof_token (head (tokens s)))) eqn:Hstart.
    + inv_bind Hrun r s1 Hf.
      destruct (IHf _ _ _ Hf Hin) as [Hf' Hin1].
      destruct (IHtl _ _ _ _ Hrun Hin1) as [Hloop' Hin'].
      split; [|done]. run_peek1. rewrite Hstart. run_bind Hf'. exact Hloop'.
    + injection Hrun as <- <-. split; [|done]. run_peek1. by rewrite Hstart.
  - intros s e s' Hrun Hin.
    rewrite parse_poly_factor_eq in Hrun. rewrite parse_factor_eq.
    inv_peek Hrun. inv_bind Hrun ew s1 Hhead. destruct ew as [expr wasParen].
    cbv beta iota in Hrun.
    assert ((if decide (token_type (default eof_token (head (tokens s))) = NUM) then
               t ← expect NUM;
               mret (ConstExpr (atoi (lexeme t)), false)
             else if decide (token_type (default eof_token (head (tokens s))) = ID) then
               let idToken := default eof_token (head (tokens s)) in
               expect ID;;
               in_decl ← gets (λ s, in_poly_decl s);
               if (in_decl : bool) then
                 current ← gets (λ s, current_poly_params s);
                 (if decide (lexeme idToken ∈ current) then mret ()
                  else modify (λ s, set_invalid_monomial_lines
                                      (invalid_monomial_lines s ++ [line_no idToken]) s));;
                 mret (VarExpr (lexeme idToken) (line_no idToken), false)
               else
                 next ← peek 1;
                 if decide (token_type next = LPAREN) then
                   expr ← parse_call_expr_from_token fuel idToken;
                   mret (expr, false)
                 else mret (VarExpr (lexeme idToken) (line_no idToken), false)
             else if decide (token_type (default eof_token (head (tokens s))) = LPAREN) then
               expect LPAREN;;
               expr ← parse_expr fuel;
               expect RPAREN;;
               mret (expr, true)
             else syntax_error) s = Ok (expr, wasParen) s1 ∧
            in_poly_decl s1 = true) as [Hhead' Hin1].
    { destruct (decide (token_type (default eof_token (head (tokens s))) = NUM)).
      { split; [exact Hhead|]. inv_expect Hhead c ts Htok Hty.
        by injection Hhead as _ _ <-. }
      destruct (decide (token_type (default eof_token (head (tokens s))) = ID)).
      { cbv zeta in *. inv_expect Hhead c ts Htok Hty.
        split.
        - run_expect1. eapply bind_Ok; [reflexivity|]. cbv beta.
          change (in_poly_decl (set_tokens ts s)) with (in_poly_decl s).
          rewrite Hin. exact Hhead.
        - inv_bind Hhead cur s2 Hcur. injection Hcur as <- <-.
          destruct (decide (_ ∈ _)); inv_bind Hhead u s3 Hu;
            unfold mret, M_ret, modify in Hu, Hhead; by simplify_eq. }
      destruct (decide (token_type (default eof_token (head (tokens s))) = LPAREN));
        [|done].
      inv_expect Hhead lp ts Htok Hty. inv_bind Hhead body s2 Hbody.
      inv_expect Hhead rp ts' Htok' Hty'. injection Hhead as <- <- <-.
      destruct (IHe _ _ _ Hbody Hin) as [Hbody' Hin2].
      { eapply power_follows_head; [exact Htok'|]. by rewrite Hty'. }
      split; [|done]. run_expect1. run_bind Hbody'. run_expect1. done. }
    split.
    + run_peek1. eapply bind_Ok; [exact Hhead'|]. exact Hrun.
    + rewrite <-Hin1. eapply factor_tail_keeps. exact Hrun.
Qed.

(** X21: inside a declaration ([in_poly_decl] set), the general expression
    parser [parse_expr], which nothing calls, reads every polynomial body
    as [parse_poly_body_expr] does: whenever the body parser returns and the
    token it stops at is not a power sign, [parse_expr] returns the same
    tree and the same state.  (It accepts more: a numeral with an exponent,
    which the body parser leaves after the numeral.) *)
Theorem general_parser_reads_every_body (s : State) (e : Expr) (s' : State) :
  in_poly_decl s = true →
  with_fuel parse_poly_body_expr s = Ok e s' →
  ¬ power_follows s' →
  with_fuel parse_expr s = Ok e s'.
Proof.
  unfold with_fuel. intros Hin Hrun Hs'.
  by apply (proj1 (expr_knot (fuel_of s)) s e s' Hrun Hin Hs').
Qed.

(** The body [x + 1;] is read alike by both; of [2^3;] the body parser
    reads the numeral only, the general parser the power. *)
Lemma general_parser_reads_every_body_witness :
  let s := set_in_poly_decl true
             (initial_state [Sample.id "x" 3; Sample.plus 3; Sample.num "1" 3;
                             Sample.semi 3]%Z) in
  let s2 := set_in_poly_decl true
              (initial_state [Sample.num "2" 3; Sample.power 3; Sample.num "3" 3;
                              Sample.semi 3]%Z) in
  (∃ s', with_fuel parse_expr s = Ok (AddExpr (VarExpr "x" 3) (ConstExpr 1)) s' ∧
         tokens s' = [Sample.semi 3]) ∧
  (∃ s', with_fuel parse_poly_body_expr s2 = Ok (ConstExpr 2) s' ∧
         power_follows s') ∧
  (∃ s', with_fuel parse_expr s2 = Ok (PowExpr (ConstExpr 2) 3) s' ∧
         tokens s' = [Sample.semi 3]).
Proof.
  intros s s2. split_and!.
  - assert (∃ s', with_fuel parse_poly_body_expr s
                    = Ok (AddExpr (VarExpr "x" 3) (ConstExpr 1)) s' ∧
                  tokens s' = [Sample.semi 3]) as (s' & Hrun & Htok).
    { eexists. split; vm_compute; reflexivity. }
    exists s'. split; [|done].
    apply (general_parser_reads_every_body s _ s'); [reflexivity|exact Hrun|].
    intros (t & Ht & Hp). rewrite Htok in Ht. injection Ht as <-. discriminate.
  - eexists. split; [vm_compute; reflexivity|].
    exists (Sample.power 3). split; reflexivity.
  - eexists. split; vm_compute; reflexivity.
Defined.

(** ** The INPUTS section *)

Lemma parse_inputs_loop_values n s :
  length (tokens s) < n →
  wp (parse_inputs_loop n)
     (λ _ s', ∃ nums,
        tokens s = nums ++ tokens s' ∧
        Forall (λ t, token_type t = NUM) nums ∧
        execInputs s' = execInputs s ++ task_numbers nums) s.
Proof.
  revert s. induction n as [|n IH]; intros s Hn; [lia|].
  simpl. wp_auto.
  - wp_ih IH. intros [] s1 (nums & Hts & Hnum & Hvals). simpl in *.
    exists (t :: nums). split_and!.
    + by rewrite Hts.
    + by constructor.
    + rewrite Hvals. unfold task_numbers. simpl. by rewrite <-app_assoc.
  - exists []. split_and!; [done|done|]. unfold task_numbers. simpl.
    by rewrite app_nil_r.
Qed.

Lemma parse_inputs_section_values s :
  wp parse_inputs_section
     (λ _ s', ∃ it nums,
        tokens s = it :: nums ++ tokens s' ∧ token_type it = INPUTS ∧
        nums ≠ [] ∧ Forall (λ t, token_type t = NUM) nums ∧
        execInputs s' = execInputs s ++ task_numbers nums) s.
Proof.
  unfold parse_inputs_section. wp_auto.
  eapply wp_mono.
  { apply wp_with_fuel. apply wp_and.
    - apply parse_inputs_loop_values. unfold fuel_of. lia.
    - apply parse_inputs_loop_fields. unfold fuel_of. lia. }
  intros [] s1 [(nums & Hts & Hnum & Hvals) (_ & _ & _ & vals & Hvals' & Hne)].
  simpl in *. exists t, nums. split_and!; [|done| |done|done].
  - by rewrite Hts.
  - intros ->. rewrite Hvals' in Hvals. unfold task_numbers in Hvals.
    simpl in Hvals. apply app_inv_head in Hvals. by apply Hne.
Qed.

Lemma parse_program_values s :
  wp parse_program
     (λ _ s', ∃ pre it nums,
        tokens s = pre ++ it :: nums ++ tokens s' ∧ token_type it = INPUTS ∧
        nums ≠ [] ∧ Forall (λ t, token_type t = NUM) nums ∧
        execInputs s' = execInputs s ++ task_numbers nums) s.
Proof.
  unfold parse_program.
  wp_both parse_tasks_section_spec parse_tasks_section_fields.
  intros [] s1 [[((u1 & e1 & Htok1 & _) & _) _] (_ & _ & _ & Hi1)].
  wp_both parse_poly_section_spec parse_poly_section_polys.
  intros [] s2 [[((u2 & e2 & Htok2 & _) & _) _] ((_ & _ & _ & _ & Hi2) & _)].
  wp_both parse_execute_section_spec parse_execute_section_checks.
  intros [] s3 [[((u3 & e3 & Htok3 & _) & _) _] (new & _ & _ & Hi3 & _)].
  eapply wp_mono; [apply parse_inputs_section_values|].
  intros [] s4 (it & nums & Htok4 & Hit & Hne & Hnum & Hvals). simpl.
  exists (u1 ++ u2 ++ u3), it, nums. split_and!; [|done..|congruence].
  rewrite Htok1, Htok2, Htok3, Htok4. by rewrite <-!app_assoc.
Qed.

Lemma accepted_program_values input gate s :
  ConsumeAllInput (initial_state input) = Ok gate s →
  ∃ pre it nums rest,
    input = pre ++ it :: nums ++ rest ∧ token_type it = INPUTS ∧
    nums ≠ [] ∧ Forall (λ t, token_type t = NUM) nums ∧
    (∀ t, head rest = Some t → token_type t = END_OF_FILE) ∧
    execInputs s = task_numbers nums.
Proof.
  intros Hrun.
  assert (wp ConsumeAllInput
            (λ _ s', ∃ pre it nums rest,
               tokens (initial_state input) = pre ++ it :: nums ++ rest ∧
               token_type it = INPUTS ∧
               nums ≠ [] ∧ Forall (λ t, token_type t = NUM) nums ∧
               (∀ t, head rest = Some t → token_type t = END_OF_FILE) ∧
               execInputs s' = task_numbers nums) (initial_state input)) as Hwp.
  { unfold ConsumeAllInput.
    wp_apply parse_program_values.
    intros [] s1 (pre & it & nums & Htok & Hit & Hne & Hnum & Hvals).
    wp_auto. apply wp_expect_eof.
    - intros Hnil. wp_auto. exists pre, it, nums, (tokens s1).
      split_and!; [done..| |done]. rewrite Hnil. done.
    - intros t ts Htok1 Ht. wp_auto. exists pre, it, nums, (tokens s1).
      split_and!; [done..| |done]. rewrite Htok1. simpl. by intros ? [= <-]. }
  exact (wp_Ok _ _ _ _ _ Hwp Hrun).
Qed.

(** X22: in an accepted program the input values are the numerals written
    behind [INPUTS], in their order: the token stream ends with the
    [INPUTS] token and at least one numeral, behind which nothing or an
    end-of-file token follows, and [execInputs] holds the values of exactly
    these numerals. *)
Theorem accepted_program_reads_the_inputs_written
    (input : list Token) (gate : Gate) (s : State) :
  ConsumeAllInput (initial_state input) = Ok gate s →
  ∃ pre it nums rest,
    input = pre ++ it :: nums ++ rest ∧ token_type it = INPUTS ∧
    nums ≠ [] ∧ Forall (λ t, token_type t = NUM) nums ∧
    (∀ t, head rest = Some t → token_type t = END_OF_FILE) ∧
    execInputs s = (λ t, atoi (lexeme t)) <$> nums.
Proof. apply accepted_program_values. Qed.

(** The round-trip program: its one input value is the numeral behind
    [INPUTS]. *)
Lemma accepted_program_reads_the_inputs_written_witness :
  ∃ gate s pre it nums rest,
    ConsumeAllInput (initial_state Sample.round_trip) = Ok gate s ∧
    Sample.round_trip = pre ++ it :: nums ++ rest ∧ token_type it = INPUTS ∧
    execInputs s = (λ t, atoi (lexeme t)) <$> nums ∧
    execInputs s = [5%Z].
Proof.
  assert (∃ gate s, ConsumeAllInput (initial_state Sample.round_trip) = Ok gate s ∧
                    execInputs s = [5%Z]) as (gate & s & Hrun & Hfive).
  { eexists _, _. split; vm_compute; reflexivity. }
  destruct (accepted_program_reads_the_inputs_written Sample.round_trip gate s Hrun)
    as (pre & it & nums & rest & Hinput & Hit & _ & _ & _ & Hvals).
  by exists gate, s, pre, it, nums, rest.
Defined.
